(** * Vibro-diagnosys: the test-procedure engines and their outcome analyzers

    A shallow embedding of the core of the repository:
    - [core/pmpwm_analysis.py]   confusion-matrix analysis and recommendations,
    - [core/spatial_analysis.py] reduction of the spatial answers,
    - [core/serial_api.py]       the VibroBox port,
    - [core/mols_test.py], [core/spatial_test.py], [core/pmpwm_test.py]
                                 the three worker threads,
    - [gui/main_window.py], [gui/pmpwm_hyperparams_dialog.py]
                                 the per-motor bookkeeping of the PM-PWM test,
    - [gui/mols_hyperparams_dialog.py], [gui/spatial_hyperparams_dialog.py]
                                 the values that the dialogs hand to the workers,
    - [gui/mols_probe_window.py], [gui/pmpwm_probe_window.py]
                                 the step display, and the pause for training,
    - [core/paths.py], [core/report_utils.py]
                                 the folder names and the per-motor summary.

    Conventions.  Python integers are [Z].  The floating-point ratios of the
    analyzers are ratios of small integer counts; they are represented by
    exact rationals [Qc], and the comparisons against 0.75 and 0.10 and the
    roundings to an integer are taken on the exact value.  Where
    [analyse_cm] rounds a ratio to four digits, the ratio is first taken to
    the nearest binary64 number ([Py.binary64]): 1/160 is a float slightly
    above 0.00625, which [round] takes to 0.0063.  A Python [dict] is a
    [gmap] where only the lookups matter and an association list where the
    insertion order is observed.  [time.sleep] has no counterpart. *)

From Stdlib Require Import ZArith QArith Qcanon Qround Lia.
From stdpp Require Import base numbers strings list gmap sorting.

Open Scope Z_scope.

(** ** Python and numpy primitives used by the sources *)

Module Py.

(** Exceptions raised on the paths that are modelled. *)
Inductive exn :=
| IndexError
| ValueError
| RuntimeError
| ZeroDivisionError
| KeyError
| TypeError.

(** [list(range(start, stop, step))]; [step = 0] raises [ValueError]. *)
Definition range_len (start stop step : Z) : Z :=
  if 0 <? step then Z.max 0 ((stop - start + step - 1) / step)
  else Z.max 0 ((start - stop - step - 1) / (- step)).

Definition range3 (start stop step : Z) : option (list Z) :=
  if step =? 0 then None
  else Some ((λ i, start + i * step) <$> seqZ 0 (range_len start stop step)).

(** [range(start, stop)] *)
Definition range2 (start stop : Z) : list Z := seqZ start (Z.max 0 (stop - start)).

(** [l[i]] with Python's negative indices. *)
Definition getitem {A} (l : list A) (i : Z) : option A :=
  let n := Z.of_nat (length l) in
  if (0 <=? i) && (i <? n) then l !! Z.to_nat i
  else if (- n <=? i) && (i <? 0) then l !! Z.to_nat (n + i)
  else None.

(** [l[i] = v] with Python's negative indices. *)
Definition setitem {A} (l : list A) (i : Z) (v : A) : option (list A) :=
  let n := Z.of_nat (length l) in
  if (0 <=? i) && (i <? n) then Some (<[Z.to_nat i := v]> l)
  else if (- n <=? i) && (i <? 0) then Some (<[Z.to_nat (n + i) := v]> l)
  else None.

(** [l.index(x)]: position of the first occurrence, [ValueError] if absent. *)
Fixpoint index (l : list Z) (x : Z) : option Z :=
  match l with
  | [] => None
  | y :: l' => if y =? x then Some 0 else Z.succ <$> index l' x
  end.

(** [round(x)]: to the nearest integer, ties to the even one. *)
Definition round (q : Qc) : Z :=
  let f := Qfloor q in
  let d := (q - Qc_of_Z f)%Qc in
  if decide (d < 1 / 2)%Qc then f
  else if decide (1 / 2 < d)%Qc then f + 1
  else if Z.even f then f else f + 1.

(** [2 ** e] *)
Definition pow2 (e : Z) : Qc :=
  if 0 <=? e then Qc_of_Z (2 ^ e) else (1 / Qc_of_Z (2 ^ (- e)))%Qc.

(** The exponent [e] with [2 ** e <= |q| < 2 ** (e + 1)], for [q] other
    than 0. *)
Definition ilog2 (q : Qc) : Z :=
  let k := Z.log2 (Z.abs (Qnum q)) - Z.log2 (Z.pos (Qden q)) in
  if decide (pow2 k ≤ (if decide (0 ≤ q)%Qc then q else - q))%Qc then k else k - 1.

(** The float that holds the result of an operation whose exact value is
    [q]: the binary64 number nearest to [q], with a significand of 53 bits
    (fewer below [2 ** -1022]), ties to the even significand.  The values
    met here stay far below the largest float. *)
Definition binary64 (q : Qc) : Qc :=
  if decide (q = 0%Qc) then 0%Qc
  else
    let e := Z.max (ilog2 q - 52) (- 1074) in
    (Qc_of_Z (round (q / pow2 e)) * pow2 e)%Qc.

(** [round(x, ndigits)] of a float whose value is [q]: Python rounds
    correctly, so this is the decimal of [ndigits] digits nearest to the
    value of the float, ties to the even digit.  (The result is the float
    that prints as this decimal.) *)
Definition round_to (ndigits : nat) (q : Qc) : Qc :=
  (Qc_of_Z (round (q * Qc_of_Z (10 ^ Z.of_nat ndigits)))
     / Qc_of_Z (10 ^ Z.of_nat ndigits))%Qc.

(** [a.round(ndigits)] on an entry of a numpy array whose value is [q]:
    numpy computes [rint(a * 10**ndigits) / 10**ndigits], and the product
    is a float again. *)
Definition around (ndigits : nat) (q : Qc) : Qc :=
  (Qc_of_Z (round (binary64 (q * Qc_of_Z (10 ^ Z.of_nat ndigits))))
     / Qc_of_Z (10 ^ Z.of_nat ndigits))%Qc.

Definition sumZ (l : list Z) : Z := foldr Z.add 0 l.
Definition sumQ (l : list Qc) : Qc := foldr Qcplus 0%Qc l.

(** [np.mean(l)]; the mean of an empty list is [nan] (a warning, not an
    exception), here [None]. *)
Definition mean (l : list Qc) : option Qc :=
  match l with
  | [] => None
  | _ => Some (sumQ l / Qc_of_Z (Z.of_nat (length l)))%Qc
  end.

(** [[list(g) for _, g in itertools.groupby(l, key)]] on a list that
    already carries its keys: maximal blocks of consecutive equal keys. *)
Fixpoint groupby_from {A} (k : Z) (cur : list A) (l : list (Z * A)) : list (list A) :=
  match l with
  | [] => [reverse cur]
  | (k', x) :: l' =>
      if k' =? k then groupby_from k (x :: cur) l'
      else reverse cur :: groupby_from k' [x] l'
  end.

Definition groupby {A} (l : list (Z * A)) : list (list A) :=
  match l with
  | [] => []
  | (k, x) :: l' => groupby_from k [x] l'
  end.

(** [divmod(a, b)] for [b <> 0]: floor division, as [Z.div] and [Z.modulo]. *)
Definition divmod (a b : Z) : Z * Z := (a / b, a mod b).

End Py.

(** ** [core/pmpwm_analysis.py] *)

Module PmpwmAnalysis.

(** The texts appended to [rec], with the values interpolated into them:
    "Удалить уровень l (PWM p)", "Объединить уровни g в один (~PWM p)",
    "Сильная путаница между i и j → объединить, PWM ≈ p" and
    "Корректировка не требуется". *)
Inductive recommendation :=
| RemoveLevel (lvl pwm : Z)
| MergeLevels (g : list Z) (new_pwm : Z)
| MergePair (i j new_pwm : Z)
| NoCorrection.

(** [m[i, j]] *)
Definition at2 {A} (m : list (list A)) (i j : Z) : option A :=
  row ← Py.getitem m i; Py.getitem row j.

Definition is_bad (la : Z * Qc) : bool := bool_decide (la.2 < Qc_of_Z 75 / Qc_of_Z 100)%Qc.

(** One entry of [rec] for a group [g] of adjacent bad levels. *)
Definition group_rec (pwm_vals : list Z) (g : list Z) : option recommendation :=
  match g with
  | [l] => p ← Py.getitem pwm_vals (l - 1); Some (RemoveLevel l p)
  | _ =>
      ps ← mapM (λ i, Py.getitem pwm_vals (i - 1)) g;
      m ← Py.mean (Qc_of_Z <$> ps);
      Some (MergeLevels g (Py.round m))
  end.

(** [cm_norm[i,j] >= .10 and cm_norm[j,i] >= .10] *)
Definition confused (cm_norm : list (list Qc)) (i j : Z) : option bool :=
  a ← at2 cm_norm i j;
  if bool_decide (Qc_of_Z 10 / Qc_of_Z 100 ≤ a)%Qc
  then b ← at2 cm_norm j i; Some (bool_decide (Qc_of_Z 10 / Qc_of_Z 100 ≤ b)%Qc)
  else Some false.

(** The inner loop [for j in range(i+1, n)]. *)
Fixpoint scan_row (cm_norm : list (list Qc)) (i : Z) (js : list Z)
    (pair_err : list (Z * Z)) : option (list (Z * Z)) :=
  match js with
  | [] => Some pair_err
  | j :: js' =>
      c ← confused cm_norm i j;
      scan_row cm_norm i js' (if c : bool then pair_err ++ [(i + 1, j + 1)] else pair_err)
  end.

(** The outer loop [for i in range(n)]. *)
Fixpoint scan (cm_norm : list (list Qc)) (n : Z) (rows : list Z)
    (pair_err : list (Z * Z)) : option (list (Z * Z)) :=
  match rows with
  | [] => Some pair_err
  | i :: rows' =>
      pe ← scan_row cm_norm i (Py.range2 (i + 1) n) pair_err;
      scan cm_norm n rows' pe
  end.

Definition _recommend (cm_norm : list (list Qc)) (acc : list (Z * Qc))
    (pwm_vals : list Z) : option (list recommendation) :=
  let bad := (filter (λ la, is_bad la = true) acc).*1 in
  let good := filter (λ lvl, lvl ∉ bad) acc.*1 in
  match bad with
  | _ :: _ =>
      let bad := merge_sort Z.le bad in
      let groups := Py.groupby (imap (λ c x, (x - Z.of_nat c, x)) bad) in
      mapM (group_rec pwm_vals) groups
  | [] =>
      let n := Z.of_nat (length cm_norm) in
      pair_err ← scan cm_norm n (Py.range2 0 n) [];
      match pair_err with
      | (i, j) :: _ =>
          a ← Py.getitem pwm_vals (i - 1);
          b ← Py.getitem pwm_vals (j - 1);
          Some [MergePair i j (Py.round (Qc_of_Z (a + b) / 2)%Qc)]
      | [] => Some [NoCorrection]
      end
  end.

Record analysis := {
  confusion : list (list Z);
  confusion_norm : list (list Qc);
  accuracy : list (Z * Qc);
  mean_accuracy : option Qc;        (* [None] is [nan] *)
  recommendations : list recommendation;
}.

(** [cm / cm.sum(axis=1, keepdims=True).clip(min=1)] *)
Definition normalise_row (row : list Z) : list Qc :=
  let s := Z.max (Py.sumZ row) 1 in
  (λ c, Qc_of_Z c / Qc_of_Z s)%Qc <$> row.

Definition normalise (cm : list (list Z)) : list (list Qc) := normalise_row <$> cm.

(** [{i+1: float(cm_norm[i, i]) for i in range(cm.shape[0])}] *)
Definition accuracies (cm_norm : list (list Qc)) (n : Z) : option (list (Z * Qc)) :=
  mapM (λ i : Z, a ← at2 cm_norm i i; Some (i + 1, a)) (Py.range2 0 n).

(** [None] stands for the [IndexError] of a matrix that is not square or of
    a list [pwm_vals] shorter than the matrix.  The entries of [cm_norm]
    and of [acc] are floats, the quotients of two counts: the result rounds
    their binary64 values, the matrix with numpy's [round] and the
    dictionary with Python's.  (The mean is rounded on its exact value.) *)
Definition analyse_cm (cm : list (list Z)) (pwm_vals : list Z) : option analysis :=
  let cm_norm := normalise cm in
  acc ← accuracies cm_norm (Z.of_nat (length cm));
  let mean_acc := Py.mean acc.*2 in
  recs ← _recommend cm_norm acc pwm_vals;
  Some {| confusion := cm;
          confusion_norm :=
            (λ row : list Qc, Py.around 4 ∘ Py.binary64 <$> row) <$> cm_norm;
          accuracy := prod_map id (Py.round_to 4 ∘ Py.binary64) <$> acc;
          mean_accuracy := Py.round_to 4 <$> mean_acc;
          recommendations := recs |}.

(** *** The reference algorithm

    The three steps of the specification.  The intensity proposed for a
    merged pair is an integer, the mean of the two intensities rounded like
    the mean of a run; [pair_mean] is the mean itself, which the
    specification names at that step. *)

Section reference.
Variable count : list (list Z).
Variable intensities : list Z.

Definition categories : nat := length count.

Definition cell (i j : nat) : Z := default 0 (count !! i ≫= (.!! j)).

(** norm[i][j] = count[i][j] / max(1, Σ_j count[i][j]) *)
Definition norm (i j : nat) : Qc :=
  (Qc_of_Z (cell i j)
     / Qc_of_Z (Z.max 1 (Py.sumZ (default [] (count !! i)))))%Qc.

(** Per-category accuracy = norm[i][i] *)
Definition category_accuracy (i : nat) : Qc := norm i i.

Definition low_accuracy (i : nat) : Prop := (category_accuracy i < Qc_of_Z 3 / Qc_of_Z 4)%Qc.

Definition low_categories : list nat := filter low_accuracy (seq 0 categories).

(** Contiguous runs of an ascending list of indices: an index joins the
    run that starts right after it. *)
Fixpoint runs (l : list nat) : list (list nat) :=
  match l with
  | [] => []
  | i :: l' =>
      match runs l' with
      | (j :: g) :: gs => if decide (j = S i) then (i :: j :: g) :: gs
                          else [i] :: (j :: g) :: gs
      | _ => [[i]]
      end
  end.

Definition level (i : nat) : Z := Z.of_nat i + 1.
Definition intensity (i : nat) : Z := default 0 (intensities !! i).

Definition mean_intensity (g : list nat) : Qc :=
  (Py.sumQ (Qc_of_Z ∘ intensity <$> g) / Qc_of_Z (Z.of_nat (length g)))%Qc.

(** "the mean of the two intensities" of a pair of categories *)
Definition pair_mean (p : nat * nat) : Qc :=
  ((Qc_of_Z (intensity p.1) + Qc_of_Z (intensity p.2)) / Qc_of_Z 2)%Qc.

(** Singleton: removal; run of two or more: merge at the rounded mean. *)
Definition run_recommendation (g : list nat) : recommendation :=
  match g with
  | [i] => RemoveLevel (level i) (intensity i)
  | _ => MergeLevels (level <$> g) (Py.round (mean_intensity g))
  end.

(** Unordered pairs (i,j), i < j, in ascending index order. *)
Definition pairs : list (nat * nat) :=
  i ← seq 0 categories; (λ j, (i, j)) <$> seq (S i) (categories - S i).

Definition cross_confused (p : nat * nat) : Prop :=
  (1 / Qc_of_Z 10 ≤ norm p.1 p.2)%Qc ∧ (1 / Qc_of_Z 10 ≤ norm p.2 p.1)%Qc.

Definition recommend_ref : list recommendation :=
  match low_categories with
  | _ :: _ => run_recommendation <$> runs low_categories
  | [] =>
      match list_find cross_confused pairs with
      | Some (_, (i, j)) =>
          [MergePair (level i) (level j) (Py.round (mean_intensity [i; j]))]
      | None => [NoCorrection]
      end
  end.
End reference.

Definition square (n : nat) (cm : list (list Z)) : Prop :=
  length cm = n ∧ Forall (λ row, length row = n) cm.

(** The accuracy dictionary of the reference: one entry per category. *)
Definition acc_dict (cm : list (list Z)) (n : nat) : list (Z * Qc) :=
  (λ i, (level i, category_accuracy cm i)) <$> seq 0 n.

(** A confused pair of categories, as the pair of their levels. *)
Definition level_pair (p : nat * nat) : Z * Z := (level p.1, level p.2).

End PmpwmAnalysis.


(** ** [core/spatial_analysis.py] *)

Module SpatialAnalysis.

(** The per-region dictionary [{'total', 'correct', 'answers'}] built by
    the first loop; [answers] is the histogram of the patient's answers
    (a [defaultdict(int)], re-keyed in sorted order by the second loop). *)
Record tally := {
  total : Z;
  correct : Z;
  answers : gmap Z Z;
}.

(** The same dictionary after the second loop added ['accuracy']. *)
Record region := {
  counts : tally;
  accuracy : Qc;
}.

Record report := {
  regions : gmap Z region;
  mean_accuracy : Qc;
}.

Definition empty_tally : tally := {| total := 0; correct := 0; answers := ∅ |}.

(** One iteration of [for true, pred in answers]. *)
Definition record_answer (stats : gmap Z tally) (tp : Z * Z) : gmap Z tally :=
  let '(true_, pred) := tp in
  let st := default empty_tally (stats !! true_) in
  <[true_ := {| total := total st + 1;
               correct := correct st + (if bool_decide (true_ = pred) then 1 else 0);
               answers := <[pred := default 0 (answers st !! pred) + 1]> (answers st) |}]>
    stats.

Definition with_accuracy (st : tally) : region :=
  {| counts := st;
     accuracy := (Qc_of_Z (correct st) / Qc_of_Z (Z.max 1 (total st)))%Qc |}.

(** [sum(st[field] for st in stats.values())] *)
Definition sum_over (field : tally → Z) (stats : gmap Z tally) : Z :=
  map_fold (λ _ st s, field st + s) 0 stats.

Definition analyse_spatial (answers : list (Z * Z)) : report :=
  let stats := foldl record_answer ∅ answers in
  let mean_acc :=
    (Qc_of_Z (sum_over correct stats) / Qc_of_Z (Z.max 1 (sum_over total stats)))%Qc in
  {| regions := with_accuracy <$> stats; mean_accuracy := mean_acc |}.

(** The arithmetic mean of the per-region accuracies, which the reducer
    does not compute; kept for comparison. *)
Definition mean_of_region_accuracies (r : report) : option Qc :=
  Py.mean ((accuracy ∘ snd) <$> map_to_list (regions r)).

(** *** Counts read off the raw answer list *)

(** Counts read off the raw answer list. *)
Definition correct_answers (answers : list (Z * Z)) : Z :=
  Z.of_nat (length (filter (λ tp : Z * Z, tp.1 = tp.2) answers)).

Definition trials_of (r : Z) (answers : list (Z * Z)) : Z :=
  Z.of_nat (length (filter (λ tp : Z * Z, tp.1 = r) answers)).

Definition correct_of (r : Z) (answers : list (Z * Z)) : Z :=
  Z.of_nat (length (filter (λ tp : Z * Z, tp.1 = r ∧ tp.2 = r) answers)).

Definition stats_of (answers : list (Z * Z)) : gmap Z tally :=
  foldl record_answer ∅ answers.

End SpatialAnalysis.

(** ** Insertion-ordered dictionaries

    Used where the order of a Python [dict] is observed (the concatenation
    [sum(d.values(), [])] of the PM-PWM answers). *)

Module Dict.
Section dict.
Context {V : Type}.

(** [d.get(k)] *)
Fixpoint get (d : list (Z * V)) (k : Z) : option V :=
  match d with
  | [] => None
  | (k', v) :: d' => if k' =? k then Some v else get d' k
  end.

(** [d[k] = v]: an existing key keeps its position. *)
Fixpoint set (d : list (Z * V)) (k : Z) (v : V) : list (Z * V) :=
  match d with
  | [] => [(k, v)]
  | (k', v') :: d' => if k' =? k then (k, v) :: d' else (k', v') :: set d' k v
  end.

(** [d.pop(k, None)] *)
Fixpoint pop (d : list (Z * V)) (k : Z) : list (Z * V) :=
  match d with
  | [] => []
  | (k', v') :: d' => if k' =? k then pop d' k else (k', v') :: pop d' k
  end.

Definition values (d : list (Z * V)) : list V := d.*2.
End dict.
End Dict.

(** ** [core/config.py] *)

Module Config.

(** The hyperparameter dictionary.  [time_sleep_param] only feeds
    [time.sleep] and is left out. *)
Record hyps := {
  user_surname : string;
  motor_num : Z;
  n_motors : Z;
  num_motor_start : Z;
  num_motor_end : Z;
  use_motors_step : Z;
  exps_for_each_motor : Z;
  end_pwm_down : Z;
  end_pwm_up : Z;
  delta_pwm_down : Z;
  delta_pwm_up : Z;
  max_counter_samples : Z;
  spatial_pwm : Z;
  spatial_mode : string;
  pmpwm_pwm_values : list Z;
  pmpwm_repeats : Z;
}.

Definition default_hyps (surname : string) : hyps := {|
  user_surname := surname;
  motor_num := 0;
  n_motors := 10;
  num_motor_start := 0;
  num_motor_end := 5;
  use_motors_step := 2;
  exps_for_each_motor := 3;
  end_pwm_down := 0;
  end_pwm_up := 30;
  delta_pwm_down := -5;
  delta_pwm_up := 2;
  max_counter_samples := 20;
  spatial_pwm := 30;
  spatial_mode := "pairs";
  pmpwm_pwm_values := [14; 22; 36; 60; 100];
  pmpwm_repeats := 4;
|}.

End Config.

(** ** Worker threads: shared state, GUI interleaving, signals

    A worker runs in its own thread; the GUI thread calls [set_answer] and
    [stop] on it at any time.  The interleaving is a schedule: at every
    point where the worker tests [_stop] before a stimulus, and at every
    evaluation of the condition of its polling loop, the next batch of GUI
    calls of the schedule has happened.  (Calls landing between two such
    points are observed at the next one; an answer given before the worker
    clears [_answer] is lost there, as in the source.)  A schedule that ends
    while the worker polls an empty answer slot leaves it polling forever. *)

Module Thread.

Inductive gui_call (A : Type) :=
| SetAnswer (a : A)
| Stop.
Arguments SetAnswer {A} a.
Arguments Stop {A}.

(** Result dictionary of the PM-PWM worker. *)
Record pmpwm_result := {
  res_answers : list (Z * Z);
  res_accuracy : Qc;
  res_pwm_values : list Z;
  res_repeats : Z;
  res_confusion : list (list Z);
  res_per_level_accuracy : list Qc;
  res_motors : list Z;
}.

(** What leaves the worker: the arrays handed to the serial port, calls of
    the end-of-test indicator, and the Qt signals it emits.  [Written arr]
    records the argument of [_write_array]; the port sends
    [np.array(arr, dtype=np.uint8)], which has the same values when they
    are bytes (0..255). *)
Inductive event :=
| Written (arr : list Z)
| BeginEndIndicator
| VibrationStarted
| AwaitingAnswer
| MolsProgress (m done total : Z) (mode_text : string)
| MolsFinished (results_mean : list (Z * Z))
| SpatialProgress (done total : Z)
| SpatialFinished (answers : list (Z * Z)) (mode : string)
| PmpwmProgress (motor step_local local_total : Z)
| MotorFinished (motor : Z)
| PmpwmFinished (result : pmpwm_result).

(** [serial_api.VibroBox]: [ser] tells whether a port is open, [pwm] is the
    last array handed to it. *)
Record VibroBox := {
  n_motors : Z;
  ser : bool;
  pwm : list Z;
}.

Record world (A : Type) := {
  vibro : VibroBox;
  _stop : bool;
  _answer : A;
  gui : list (list (gui_call A));
  rng : list nat;
  log : list event;
  results : list (Z * list (Z * Z));   (* [PMPWMWorker.results] *)
}.
Arguments vibro {A} w.
Arguments _stop {A} w.
Arguments _answer {A} w.
Arguments gui {A} w.
Arguments rng {A} w.
Arguments log {A} w.
Arguments results {A} w.

Inductive outcome (W R : Type) :=
| Done (r : R) (w : W)          (* returned [r] *)
| Raised (e : Py.exn) (w : W)   (* died with an uncaught exception *)
| Polling (w : W).              (* never leaves the polling loop *)
Arguments Done {W R} r w.
Arguments Raised {W R} e w.
Arguments Polling {W R} w.

(** The world in which a thread ended, or polls forever. *)
Definition final {W R} (o : outcome W R) : W :=
  match o with Done _ w | Raised _ w | Polling w => w end.

Definition thread (A R : Type) : Type := world A → outcome (world A) R.

Global Instance thread_ret {A} : MRet (thread A) := λ R r w, Done r w.
Global Instance thread_bind {A} : MBind (thread A) := λ R1 R2 k m w,
  match m w with
  | Done r w' => k r w'
  | Raised e w' => Raised e w'
  | Polling w' => Polling w'
  end.

Section primitives.
Context {A : Type}.

Definition raise {R} (e : Py.exn) : thread A R := λ w, Raised e w.

Definition emit (e : event) : thread A unit := λ w,
  Done () {| vibro := vibro w; _stop := _stop w; _answer := _answer w;
             gui := gui w; rng := rng w; log := log w ++ [e]; results := results w |}.

Definition set_vibro (v : VibroBox) (w : world A) : world A :=
  {| vibro := v; _stop := _stop w; _answer := _answer w;
     gui := gui w; rng := rng w; log := log w; results := results w |}.

Definition set_results (r : list (Z * list (Z * Z))) (w : world A) : world A :=
  {| vibro := vibro w; _stop := _stop w; _answer := _answer w;
     gui := gui w; rng := rng w; log := log w; results := r |}.

Definition set_gui (g : list (list (gui_call A))) (w : world A) : world A :=
  {| vibro := vibro w; _stop := _stop w; _answer := _answer w;
     gui := g; rng := rng w; log := log w; results := results w |}.

(** The worker's methods called from the GUI thread. *)
Definition set_answer (a : A) (w : world A) : world A :=
  {| vibro := vibro w; _stop := _stop w; _answer := a;
     gui := gui w; rng := rng w; log := log w; results := results w |}.

Definition stop (w : world A) : world A :=
  {| vibro := vibro w; _stop := true; _answer := _answer w;
     gui := gui w; rng := rng w; log := log w; results := results w |}.

Definition call (w : world A) (c : gui_call A) : world A :=
  match c with
  | SetAnswer a => set_answer a w
  | Stop => stop w
  end.

Definition deliver (batch : list (gui_call A)) (w : world A) : world A :=
  foldl call w batch.

(** The next batch of GUI calls happens. *)
Definition sync : thread A unit := λ w,
  match gui w with
  | [] => Done () w
  | b :: g => Done () (deliver b (set_gui g w))
  end.

(** [if self._stop:] at the head of a loop iteration. *)
Definition stop_requested : thread A bool := λ w,
  match sync w with
  | Done _ w' => Done (_stop w') w'
  | Raised e w' => Raised e w'
  | Polling w' => Polling w'
  end.

(** A read of [self._stop] right after the polling loop. *)
Definition stop_flag : thread A bool := λ w, Done (_stop w) w.

Definition answer : thread A A := λ w, Done (_answer w) w.

(** [self._answer = a] executed by the worker itself. *)
Definition clear_answer (a : A) : thread A unit := λ w, Done () (set_answer a w).

(** [while <answer slot empty> and not self._stop: self.msleep(..)] *)
Fixpoint poll (empty : A → bool) (g : list (list (gui_call A)))
    (w : world A) : outcome (world A) unit :=
  match g with
  | [] => if empty (_answer w) && negb (_stop w) then Polling (set_gui [] w)
          else Done () (set_gui [] w)
  | b :: g' =>
      let w' := deliver b (set_gui g' w) in
      if empty (_answer w') && negb (_stop w') then poll empty g' w'
      else Done () w'
  end.

Definition wait_while (empty : A → bool) : thread A unit := λ w, poll empty (gui w) w.

(** *** [random] *)

(** [random._randbelow(n)]: the next raw draw, reduced below [n]. *)
Definition randbelow (n : nat) : thread A nat := λ w,
  let r := default 0%nat (head (rng w)) in
  Done (r `mod` n)%nat
       {| vibro := vibro w; _stop := _stop w; _answer := _answer w;
          gui := gui w; rng := tail (rng w); log := log w; results := results w |}.

(** [random.randint(a, b)] *)
Definition randint (a b : Z) : thread A Z :=
  r ← randbelow (Z.to_nat (b - a + 1)); mret (a + Z.of_nat r).

(** [x[i], x[j] = x[j], x[i]] *)
Definition swap {T} (x : list T) (i j : nat) : list T :=
  match x !! i, x !! j with
  | Some xi, Some xj => <[j := xi]> (<[i := xj]> x)
  | _, _ => x
  end.

(** [random.shuffle(x)]:
    [for i in reversed(range(1, len(x))): j = randbelow(i + 1); swap]. *)
Fixpoint shuffle_from {T} (i : nat) (x : list T) : thread A (list T) :=
  match i with
  | O => mret x
  | S i' => j ← randbelow (S i); shuffle_from i' (swap x i j)
  end.

Definition shuffle {T} (x : list T) : thread A (list T) :=
  shuffle_from (length x - 1) x.

(** [random.sample(population, k)], selection from a shrinking pool:
    [j = randbelow(n - i); result[i] = pool[j]; pool[j] = pool[n-i-1]].
    (For large populations CPython draws indices by rejection instead;
    the possible results are the same.) *)
Fixpoint sample_from {T} (k : nat) (pool : list T) (n : nat) : thread A (list T) :=
  match k with
  | O => mret []
  | S k' =>
      j ← randbelow n;
      match pool !! j, pool !! (n - 1)%nat with
      | Some pj, Some plast =>
          rest ← sample_from k' (<[j := plast]> pool) (n - 1);
          mret (pj :: rest)
      | _, _ => raise Py.IndexError
      end
  end.

Definition sample {T} (population : list T) (k : Z) : thread A (list T) :=
  if (0 <=? k) && (k <=? Z.of_nat (length population))
  then sample_from (Z.to_nat k) population (length population)
  else raise Py.ValueError.

(** *** [core/serial_api.py] *)

(** The conversion to uint8 is not applied to the recorded array: the
    statements that bound what the motors receive are made under
    hypotheses that keep every value a byte. *)
Definition _write_array (arr : list Z) : thread A unit := λ w,
  if ser (vibro w)
  then emit (Written arr)
         (set_vibro {| n_motors := n_motors (vibro w); ser := true; pwm := arr |} w)
  else Raised Py.RuntimeError w.

Definition set_pwm_values (pwm_values : list Z) : thread A unit := λ w,
  if bool_decide (Z.of_nat (length pwm_values) = n_motors (vibro w))
  then _write_array pwm_values w
  else Raised Py.ValueError w.

(** [[0] * n] *)
Definition zeros (n : Z) : list Z := replicate (Z.to_nat n) 0.

Definition reset_pwm_values : thread A unit := λ w,
  set_pwm_values (zeros (n_motors (vibro w))) w.

(** [begin_end_indicator(val=20, repeats=2)] *)
Definition blink (val : Z) : thread A unit :=
  n ← (λ w, Done (n_motors (vibro w)) w);
  set_pwm_values (replicate (Z.to_nat n) val);; reset_pwm_values.

Definition begin_end_indicator : thread A unit :=
  emit BeginEndIndicator;; blink 20;; blink 20.

End primitives.

(** *** Schedules of a cooperative patient and of an operator who stops *)

(** The GUI is idle when the worker tests [_stop] before a stimulus and
    during [k] polls; then the answer [a] is given. *)
Definition checked_answer {A} (k : nat) (a : A) : list (list (gui_call A)) :=
  [] :: replicate k [] ++ [[SetAnswer a]].

(** The same for a worker that polls without testing [_stop] first. *)
Definition plain_answer {A} (k : nat) (a : A) : list (list (gui_call A)) :=
  replicate k [] ++ [[SetAnswer a]].

(** One answered stimulus after the other: [(k, a)] stands for the answer
    [a] given after [k] idle polls. *)
Definition checked_answers {A} (answers : list (nat * A)) : list (list (gui_call A)) :=
  concat ((λ ka, checked_answer ka.1 ka.2) <$> answers).

Definition plain_answers {A} (answers : list (nat * A)) : list (list (gui_call A)) :=
  concat ((λ ka, plain_answer ka.1 ka.2) <$> answers).

(** *** Worlds and traces that the statements about workers speak of *)

Section worlds.
Context {A : Type}.

(** The world after some random draws: only [rng] differs. *)
Definition with_rng (rs : list nat) (w : world A) : world A :=
  {| vibro := vibro w; _stop := _stop w; _answer := _answer w;
     gui := gui w; rng := rs; log := log w; results := results w |}.

(** The port is open and has the number of motors of the configuration. *)
Definition port_ok (h : Config.hyps) (w : world A) : Prop :=
  ser (vibro w) = true ∧ n_motors (vibro w) = Config.n_motors h ∧ 0 ≤ Config.n_motors h.

(** The world after the events [evs] were emitted. *)
Definition add_log (evs : list event) (w : world A) : world A :=
  {| vibro := vibro w; _stop := _stop w; _answer := _answer w;
     gui := gui w; rng := rng w; log := log w ++ evs; results := results w |}.

(** The world after [arr] went out to the port. *)
Definition written (arr : list Z) (w : world A) : world A :=
  add_log [Written arr]
    (set_vibro {| n_motors := n_motors (vibro w); ser := true; pwm := arr |} w).

(** Whatever the schedule and the outcome, [m] only adds events that
    satisfy [P] to the log. *)
Definition emits (P : event → Prop) {R} (m : thread A R) : Prop :=
  ∀ w, ∃ evs, log (final (m w)) = log w ++ evs ∧ Forall P evs.

(** A specification of a thread: from a world that satisfies [pre], the
    events it adds to the log satisfy [tr]; when it returns, the value and
    the world satisfy [post]; an exception it dies with and the world it
    leaves satisfy [exc];
    a world in which it polls forever satisfies [wt]. *)
Definition triple {R} (pre : world A → Prop) (m : thread A R)
    (post : R → world A → Prop) (exc : Py.exn → world A → Prop) (wt : world A → Prop)
    (tr : event → Prop) : Prop :=
  ∀ w, pre w →
    (∃ evs, log (final (m w)) = log w ++ evs ∧ Forall tr evs)
    ∧ match m w with
      | Done r w' => post r w'
      | Raised e w' => exc e w'
      | Polling w' => wt w'
      end.

(** A property of the box and of the recorded results only. *)
Definition stable (φ : world A → Prop) : Prop :=
  ∀ w w', vibro w' = vibro w → results w' = results w → φ w → φ w'.

(** The port is open and drives [n] motors; [ρ] holds of the recorded
    results. *)
Definition connected (n : Z) (ρ : list (Z * list (Z * Z)) → Prop) (w : world A) : Prop :=
  ser (vibro w) = true ∧ n_motors (vibro w) = n ∧ 0 ≤ n ∧ ρ (results w).

(** The same, and the last array written switched every motor off. *)
Definition motors_off (n : Z) (ρ : list (Z * list (Z * Z)) → Prop) (w : world A) : Prop :=
  connected n ρ w ∧ pwm (vibro w) = zeros n.

End worlds.

End Thread.

(** ** [core/mols_test.py] *)

Module MolsWorker.
Import Thread.

(** The answer slot [_patient_answer] is a string; [''] is "no answer". *)
Definition no_answer (a : string) : bool := bool_decide (a = "").

Definition wait_for_patient : thread string unit :=
  clear_answer "";; wait_while no_answer.

(** [np.arange(start, stop, step)] on integers. *)
Definition arange (start stop step : Z) : thread string (list Z) :=
  match Py.range3 start stop step with
  | Some l => mret l
  | None => raise Py.ZeroDivisionError
  end.

(** What [_probe] returns when [seq] is exhausted. *)
Definition exhausted (h : Config.hyps) (positive_answer : string) : Z :=
  if bool_decide (positive_answer = "n") then Z.abs (Config.delta_pwm_down h)
  else Config.end_pwm_up h.

(** What [_probe] returns on the answer [positive_answer] at intensity [v]. *)
Definition threshold (h : Config.hyps) (positive_answer : string) (v : Z) : Z :=
  v + Z.abs (if bool_decide (positive_answer = "n") then Config.delta_pwm_down h else 0).

(** The loop [for v in seq] of [_probe]; [pwm_arr] is the local array. *)
Fixpoint probe_loop (h : Config.hyps) (motor_idx : Z) (positive_answer : string)
    (seq : list Z) (pwm_arr : list Z) : thread string Z :=
  match seq with
  | [] => mret (exhausted h positive_answer)
  | v :: seq' =>
      s ← stop_requested;
      if s : bool then reset_pwm_values;; mret (-1)
      else
        emit VibrationStarted;;
        match Py.setitem pwm_arr motor_idx v with
        | None => raise Py.IndexError
        | Some pwm_arr' =>
            set_pwm_values pwm_arr';;
            reset_pwm_values;;
            emit AwaitingAnswer;;
            wait_for_patient;;
            s ← stop_flag;
            if s : bool then reset_pwm_values;; mret (-1)
            else
              a ← answer;
              if bool_decide (a = positive_answer)
              then mret (threshold h positive_answer v)
              else probe_loop h motor_idx positive_answer seq' pwm_arr'
        end
  end.

Definition _probe (h : Config.hyps) (seq : list Z) (motor_idx : Z)
    (positive_answer : string) : thread string Z :=
  probe_loop h motor_idx positive_answer seq (zeros (Config.n_motors h)).

Definition _downstream (h : Config.hyps) (motor_idx : Z) : thread string Z :=
  r ← randint 3 4;
  let start_pwm := r * 10 in
  s1 ← arange start_pwm 20 (Config.delta_pwm_down h);
  s2 ← arange 20 (Config.end_pwm_down h) (-2);
  _probe h (s1 ++ s2) motor_idx "n".

Definition _upstream (h : Config.hyps) (motor_idx : Z) : thread string Z :=
  start_pwm ← randint 2 8;
  seq ← arange start_pwm (Config.end_pwm_up h) (Config.delta_pwm_up h);
  _probe h seq motor_idx "y".

(** [results.setdefault(m, []).append(pwm)] *)
Definition record_pass (results : list (Z * list Z)) (m pwm : Z) : list (Z * list Z) :=
  Dict.set results m (default [] (Dict.get results m) ++ [pwm]).

(** [{k: int(round(np.mean(v))) for k, v in results.items()}] *)
Definition results_mean (results : list (Z * list Z)) : option (list (Z * Z)) :=
  mapM (λ kv : Z * list Z, q ← Py.mean (Qc_of_Z <$> kv.2); Some (kv.1, Py.round q)) results.

Definition mode_text (direction : Z) : string :=
  if direction =? 1 then "Уменьшение мощности" else "Увеличение мощности".

(** What [run] does with the value [pwm] of a pass: [-1] ends the thread,
    any other value is recorded and followed by the end indicator and the
    rest [next] of the loop. *)
Definition after_pass (m pwm : Z) (results : list (Z * list Z))
    (next : list (Z * list Z) → thread string unit) : thread string unit :=
  if pwm =? -1 then mret ()
  else begin_end_indicator;; next (record_pass results m pwm).

(** The loop [for direction in streams] for motor [m]; [next] is the rest
    of [run] after it.  A [return] ends the thread without running [next]. *)
Fixpoint direction_loop (h : Config.hyps) (total_steps m : Z) (streams : list Z)
    (done : Z) (results : list (Z * list Z))
    (next : Z → list (Z * list Z) → thread string unit) : thread string unit :=
  match streams with
  | [] => next done results
  | direction :: streams' =>
      s ← stop_requested;
      if s : bool then mret ()
      else
        let done := done + 1 in
        emit (MolsProgress m done total_steps (mode_text direction));;
        emit VibrationStarted;;
        pwm ← (if direction =? 1 then _downstream h m else _upstream h m);
        after_pass m pwm results
          (λ results, direction_loop h total_steps m streams' done results next)
  end.

(** The loop [for m in motors], followed by the emission of the result. *)
Fixpoint motor_loop (h : Config.hyps) (total_steps : Z) (motors : list Z)
    (done : Z) (results : list (Z * list Z)) : thread string unit :=
  match motors with
  | [] =>
      match results_mean results with
      | Some rm => emit (MolsFinished rm)
      | None => raise Py.ValueError
      end
  | m :: motors' =>
      streams ← shuffle (concat (replicate (Z.to_nat (Config.exps_for_each_motor h)) [0; 1]));
      direction_loop h total_steps m streams done results
        (motor_loop h total_steps motors')
  end.

(** A fresh worker: [_patient_answer = ''], [_stop = False]. *)
Definition fresh (v : VibroBox) (g : list (list (gui_call string))) (r : list nat)
    : world string :=
  {| vibro := v; _stop := false; _answer := ""; gui := g; rng := r;
     log := []; results := [] |}.

Definition run (h : Config.hyps) : thread string unit :=
  match Py.range3 (Config.num_motor_start h) (Config.num_motor_end h + 1)
                  (Config.use_motors_step h) with
  | None => raise Py.ValueError
  | Some motors =>
      let total_steps := Z.of_nat (length motors) * Config.exps_for_each_motor h * 2 in
      motor_loop h total_steps motors 0 []
  end.

(** The events of one stimulus up to the wait for the answer. *)
Definition stimulus_events (h : Config.hyps) (arr : list Z) : list event :=
  [VibrationStarted; Written arr; Written (zeros (Config.n_motors h)); AwaitingAnswer].

(** What is left of an iteration of [_probe] once the worker polls. *)
Definition awaiting (h : Config.hyps) (motor_idx : Z) (positive_answer : string)
    (v : Z) (seq' : list Z) (pwm_arr' : list Z) : thread string Z :=
  wait_while no_answer;;
  s ← stop_flag;
  if s : bool then reset_pwm_values;; mret (-1)
  else
    a ← answer;
    if bool_decide (a = positive_answer)
    then mret (threshold h positive_answer v)
    else probe_loop h motor_idx positive_answer seq' pwm_arr'.

(** The worker can start a pass on [motor_idx]: the port is open, no stop
    was requested, and the motor is a valid index of the PWM array. *)
Definition ready (h : Config.hyps) (motor_idx : Z) (w : world string) : Prop :=
  port_ok h w ∧ _stop w = false
  ∧ - Config.n_motors h ≤ motor_idx < Config.n_motors h.

(** Answers that do not end a pass: given, and not the awaited one. *)
Definition other_answers (positive_answer : string) (pre : list (nat * string)) : Prop :=
  Forall (λ ka, ka.2 ≠ "" ∧ ka.2 ≠ positive_answer) pre.

(** Every list of pass values in [results] holds a value. *)
Definition recorded (results : list (Z * list Z)) : Prop :=
  Forall (λ kv, kv.2 ≠ []) results.

End MolsWorker.

(** ** [core/spatial_test.py] *)

Module SpatialWorker.
Import Thread.

(** The answer slot [_answer] holds a region number or [None]. *)
Definition no_answer (a : option Z) : bool := bool_decide (a = None).

(** [uses]: the first motor of every region.  [None] is the [ValueError]
    of [range] with a zero step. *)
Definition region_pool (h : Config.hyps) (mode : string) : option (list Z) :=
  if bool_decide (mode = "pairs")
  then Py.range3 (Config.num_motor_start h) (Config.num_motor_end h)
                 (Config.use_motors_step h)
  else Some (Py.range2 (Config.num_motor_start h) (Config.num_motor_end h + 1)).

(** [seq]: [q] full cycles, [r] extra regions, shuffled. *)
Definition presentation_sequence (uses : list Z) (max_samples : Z)
    : thread (option Z) (list Z) :=
  let count_uses := Z.of_nat (length uses) in
  let '(q, r) := Py.divmod max_samples count_uses in
  let seq := concat (replicate (Z.to_nat q) uses) in
  seq ← (if 0 <? r then extra ← sample uses r; mret (seq ++ extra) else mret seq);
  shuffle seq.

(** [motors] of one presentation. *)
Definition stimulated (mode : string) (m0 : Z) : list Z :=
  if bool_decide (mode = "pairs") then [m0; m0 + 1] else [m0].

(** [(m0 - start) // step + 1]; the formula is the same in both modes. *)
Definition true_region (start step m0 : Z) : Z := (m0 - start) `div` step + 1.

(** [vals = np.zeros(n, dtype=np.uint8); if 0 <= mot < n: vals[mot] = spatial_pwm],
    for an intensity that is a byte. *)
Definition pulse (h : Config.hyps) (mot : Z) : list Z :=
  let vals := zeros (Config.n_motors h) in
  if (0 <=? mot) && (mot <? Config.n_motors h)
  then <[Z.to_nat mot := Config.spatial_pwm h]> vals
  else vals.

(** [for mot in motors: ... self.vibro.set_pwm_values(vals)] *)
Fixpoint vibrate (h : Config.hyps) (motors : list Z) : thread (option Z) unit :=
  match motors with
  | [] => mret ()
  | mot :: motors' => set_pwm_values (pulse h mot);; vibrate h motors'
  end.

(** The loop [for idx, m0 in enumerate(seq)]; it returns [answers] both
    when [seq] is exhausted and on [break]. *)
Fixpoint present_loop (h : Config.hyps) (mode : string) (total : Z)
    (seq : list Z) (idx : Z) (answers : list (Z * Z))
    : thread (option Z) (list (Z * Z)) :=
  match seq with
  | [] => mret answers
  | m0 :: seq' =>
      s ← stop_requested;
      if s : bool then mret answers
      else
        emit (SpatialProgress (idx + 1) total);;
        if Config.use_motors_step h =? 0 then raise Py.ZeroDivisionError
        else
          let region :=
            true_region (Config.num_motor_start h) (Config.use_motors_step h) m0 in
          vibrate h (stimulated mode m0);;
          reset_pwm_values;;
          clear_answer None;;
          emit AwaitingAnswer;;
          wait_while no_answer;;
          s ← stop_flag;
          a ← answer;
          match s, a with
          | false, Some a =>
              present_loop h mode total seq' (idx + 1) (answers ++ [(region, a)])
          | _, _ => mret answers
          end
  end.

(** A fresh worker: [_answer = None], [_stop = False]. *)
Definition fresh (v : VibroBox) (g : list (list (gui_call (option Z)))) (r : list nat)
    : world (option Z) :=
  {| vibro := v; _stop := false; _answer := None; gui := g; rng := r;
     log := []; results := [] |}.

(** The presentations that remain, followed by the emission of the
    result. *)
Definition present_and_finish (h : Config.hyps) (mode : string) (total : Z)
    (seq : list Z) (idx : Z) (answers : list (Z * Z)) : thread (option Z) unit :=
  answers ← present_loop h mode total seq idx answers;
  emit (SpatialFinished answers mode).

Definition run (h : Config.hyps) (mode : string) : thread (option Z) unit :=
  match region_pool h mode with
  | None => raise Py.ValueError
  | Some [] => mret ()
  | Some uses =>
      seq ← presentation_sequence uses (Config.max_counter_samples h);
      present_and_finish h mode (Z.of_nat (length seq)) seq 0 []
  end.

(** The events of one presentation up to the wait for the answer. *)
Definition presentation_events (h : Config.hyps) (mode : string) (total idx m0 : Z)
    : list event :=
  [SpatialProgress (idx + 1) total] ++ (Written ∘ pulse h <$> stimulated mode m0)
  ++ [Written (zeros (Config.n_motors h)); AwaitingAnswer].

End SpatialWorker.

(** ** [core/pmpwm_test.py] *)

Module PMPWMWorker.
Import Thread.

Definition no_answer (a : option Z) : bool := bool_decide (a = None).

(** [pwm_values.index(pwm) + 1] *)
Definition true_level (pwm_values : list Z) (pwm : Z) : option Z :=
  (λ i, i + 1) <$> Py.index pwm_values pwm.

(** [self.results[motor] = trials] *)
Definition store (motor : Z) (trials : list (Z * Z)) : thread (option Z) unit := λ w,
  Done () (set_results (Dict.set (results w) motor trials) w).

(** [self.results[motor].append(trial)] *)
Definition append (motor : Z) (trial : Z * Z) : thread (option Z) unit := λ w,
  match Dict.get (results w) motor with
  | Some trials => store motor (trials ++ [trial]) w
  | None => Raised Py.KeyError w
  end.

(** [cm[t-1, p-1] += 1] *)
Definition bump (cm : list (list Z)) (tp : Z * Z) : option (list (list Z)) :=
  row ← Py.getitem cm (tp.1 - 1);
  c ← Py.getitem row (tp.2 - 1);
  row' ← Py.setitem row (tp.2 - 1) (c + 1);
  Py.setitem cm (tp.1 - 1) row'.

Fixpoint confusion_matrix (cm : list (list Z)) (answers : list (Z * Z))
    : option (list (list Z)) :=
  match answers with
  | [] => Some cm
  | tp :: answers' => cm' ← bump cm tp; confusion_matrix cm' answers'
  end.

(** [cm.diagonal() / cm.sum(axis=1).clip(min=1)] *)
Definition per_level_accuracy (cm : list (list Z)) : list Qc :=
  imap (λ i row, let d := default 0 (row !! i) in
                 (Qc_of_Z d / Qc_of_Z (Z.max (Py.sumZ row) 1))%Qc) cm.

(** The post-processing at the end of [run]. *)
Definition summarise (h : Config.hyps) (motors : list Z) : thread (option Z) unit := λ w,
  let pwm_values := Config.pmpwm_pwm_values h in
  let levels := length pwm_values in
  let answers := concat (Dict.values (results w)) in
  let correct := length (filter (λ tp : Z * Z, tp.1 = tp.2) answers) in
  match confusion_matrix (replicate levels (replicate levels 0)) answers with
  | None => Raised Py.IndexError w
  | Some cm =>
      if bool_decide (answers = []) then Raised Py.ZeroDivisionError w
      else
        emit (PmpwmFinished {|
          res_answers := answers;
          res_accuracy := (Qc_of_Z (Z.of_nat correct) / Qc_of_Z (Z.of_nat (length answers)))%Qc;
          res_pwm_values := pwm_values;
          res_repeats := Config.pmpwm_repeats h;
          res_confusion := cm;
          res_per_level_accuracy := per_level_accuracy cm;
          res_motors := motors |}) w
  end.

(** The loop [for step_local, pwm in enumerate(seq, start=1)] for [motor];
    [next] is the rest of [run] after it.  A [return] ends the thread
    without running [next].  ([arr] is a uint8 array: [arr[motor] = pwm]
    stores an intensity that is a byte as it is.) *)
Fixpoint step_loop (h : Config.hyps) (motor : Z) (seq : list Z) (step_local : Z)
    (next : thread (option Z) unit) : thread (option Z) unit :=
  match seq with
  | [] => emit (MotorFinished motor);; next
  | pwm :: seq' =>
      let pwm_values := Config.pmpwm_pwm_values h in
      emit (PmpwmProgress motor step_local
              (Z.of_nat (length pwm_values) * Config.pmpwm_repeats h));;
      n ← (λ w, Done (n_motors (vibro w)) w);
      match Py.setitem (zeros n) motor pwm with
      | None => raise Py.IndexError
      | Some arr =>
          set_pwm_values arr;;
          reset_pwm_values;;
          clear_answer None;;
          emit AwaitingAnswer;;
          wait_while no_answer;;
          s ← stop_flag;
          if s : bool then reset_pwm_values
          else
            a ← answer;
            match true_level pwm_values pwm with
            | None => raise Py.ValueError
            | Some lvl =>
                match a with
                | None => raise Py.TypeError
                | Some a =>
                    append motor (lvl, a);;
                    step_loop h motor seq' (step_local + 1) next
                end
            end
      end
  end.

(** The loop [for motor in self.motors], followed by the end-of-test
    indicator and the emission of the result. *)
Fixpoint motor_loop (h : Config.hyps) (all_motors motors : list Z)
    : thread (option Z) unit :=
  match motors with
  | [] => begin_end_indicator;; summarise h all_motors
  | motor :: motors' =>
      seq ← shuffle (concat (replicate (Z.to_nat (Config.pmpwm_repeats h))
                               (Config.pmpwm_pwm_values h)));
      store motor [];;
      step_loop h motor seq 1 (motor_loop h all_motors motors')
  end.

Definition run (h : Config.hyps) (motors : list Z) : thread (option Z) unit :=
  motor_loop h motors motors.

(** A fresh worker: [_answer = None], [_stop = False], [results = {}]. *)
Definition fresh (v : VibroBox) (g : list (list (gui_call (option Z)))) (r : list nat)
    : world (option Z) :=
  {| vibro := v; _stop := false; _answer := None; gui := g; rng := r;
     log := []; results := [] |}.

(** The events of one presentation up to the wait for the answer. *)
Definition presentation_events (h : Config.hyps) (n motor step_local : Z) (arr : list Z)
    : list event :=
  [PmpwmProgress motor step_local
     (Z.of_nat (length (Config.pmpwm_pwm_values h)) * Config.pmpwm_repeats h);
   Written arr; Written (zeros n); AwaitingAnswer].

(** Events a worker launched on [motors] may emit: [motorFinished] only for
    one of its motors. *)
Definition allowed (motors : list Z) (e : event) : Prop :=
  ∀ m, e = MotorFinished m → m ∈ motors.

End PMPWMWorker.

(** ** [gui/pmpwm_hyperparams_dialog.py]: the PWM list of [get_hyps] *)

Module PMPWMHyperparamsDialog.

(** [pwms = sorted(set(pwms))], with the fall-back to the previous list
    when the text does not parse ([parsed = None]) or holds no number. *)
Definition get_pwm_values (parsed : option (list Z)) (h : Config.hyps) : list Z :=
  match parsed with
  | Some pwms =>
      match merge_sort Z.le (remove_dups pwms) with
      | [] => Config.pmpwm_pwm_values h
      | pwms' => pwms'
      end
  | None => Config.pmpwm_pwm_values h
  end.

End PMPWMHyperparamsDialog.

(** The 1-based rank of an intensity within the sorted schedule, in the
    words of the specification. *)
Definition rank_in_sorted (schedule : list Z) (x : Z) : option Z :=
  (λ i, i + 1) <$> Py.index (merge_sort Z.le schedule) x.

(** ** [gui/main_window.py]: bookkeeping of the PM-PWM test *)

Module MainWindow.
Import Thread.

Record state := {
  hyps : Config.hyps;
  motors_all : list Z;
  motors_completed : gset Z;
  results_pmpwm : list (Z * list (Z * Z));
  _pending_queue : list Z;
  worker : option (list Z);      (* motors of the worker launched last *)
}.

(** [self.worker = PMPWMWorker(self.vibro, h, motors_list); ...start()] *)
Definition _launch_pmpwm_worker (motors_list : list Z) (st : state) : state :=
  {| hyps := hyps st; motors_all := motors_all st;
     motors_completed := motors_completed st; results_pmpwm := results_pmpwm st;
     _pending_queue := _pending_queue st; worker := Some motors_list |}.

Definition _start_pmpwm_after_delay (h : Config.hyps) : option state :=
  motors ← Py.range3 (Config.num_motor_start h) (Config.num_motor_end h + 1)
                     (Config.use_motors_step h);
  Some (_launch_pmpwm_worker motors
          {| hyps := h; motors_all := motors; motors_completed := ∅;
             results_pmpwm := []; _pending_queue := []; worker := None |}).

(** Slot of [motorFinished]; [worker_results] is [self.worker.results].
    A missing key raises after the motor was marked completed. *)
Definition _on_motor_done (motor : Z) (worker_results : list (Z * list (Z * Z)))
    (st : state) : state :=
  {| hyps := hyps st; motors_all := motors_all st;
     motors_completed := {[motor]} ∪ motors_completed st;
     results_pmpwm :=
       match Dict.get worker_results motor with
       | Some trials => Dict.set (results_pmpwm st) motor trials
       | None => results_pmpwm st
       end;
     _pending_queue := _pending_queue st; worker := worker st |}.

(** Slot of [finished]. *)
Definition _on_partial_finished (st : state) : state :=
  match _pending_queue st with
  | [] => st
  | next_batch =>
      _launch_pmpwm_worker next_batch
        {| hyps := hyps st; motors_all := motors_all st;
           motors_completed := motors_completed st; results_pmpwm := results_pmpwm st;
           _pending_queue := []; worker := worker st |}
  end.


(** "Rewrite" of one motor (the running worker, if any, has been stopped
    and joined first). *)
Definition _run_pmpwm_for_motor (motor : Z) (st : state) : state :=
  let completed := (motors_completed st ∖ {[motor]}) in
  let rest := filter (λ m, (m ∉ completed) ∧ (m ≠ motor)) (motors_all st) in
  _launch_pmpwm_worker [motor]
    {| hyps := hyps st; motors_all := motors_all st;
       motors_completed := completed;
       results_pmpwm := Dict.pop (results_pmpwm st) motor;
       _pending_queue := rest; worker := worker st |}.

(** The signals of a worker reach the slots in the order of emission. *)
Definition slot (worker_results : list (Z * list (Z * Z))) (st : state) (e : event)
    : state :=
  match e with
  | MotorFinished m => _on_motor_done m worker_results st
  | PmpwmFinished _ => _on_partial_finished st
  | _ => st
  end.

(** The main window after the worker it launched has run in world [w0]. *)
Definition after_worker (st : state) (w0 : world (option Z)) : state :=
  match worker st with
  | None => st
  | Some motors =>
      let w := final (PMPWMWorker.run (hyps st) motors w0) in
      foldl (slot (results w)) st (log w)
  end.

(** [per_motor_acc] of [_finish_pmpwm]. *)
Definition motor_accuracy (st : state) (m : Z) : Qc :=
  match default [] (Dict.get (results_pmpwm st) m) with
  | [] => 0%Qc
  | local =>
      (Qc_of_Z (Z.of_nat (length (filter (λ tp : Z * Z, tp.1 = tp.2) local)))
         / Qc_of_Z (Z.of_nat (length local)))%Qc
  end.

Definition per_motor_accuracy (st : state) : list (Z * Qc) :=
  foldl (λ d m, Dict.set d m (motor_accuracy st m)) [] (motors_all st).

(** [motor_count] and [total_steps] of [_start_test_after_delay], handed to
    the probe window of the threshold test.  [None] is the
    [ZeroDivisionError] of a zero step. *)
Definition motor_count (h : Config.hyps) : option Z :=
  if Config.use_motors_step h =? 0 then None
  else Some ((Config.num_motor_end h - Config.num_motor_start h)
               `div` Config.use_motors_step h + 1).

Definition total_steps (h : Config.hyps) : option Z :=
  (λ c, c * Config.exps_for_each_motor h * 2) <$> motor_count h.

(** [n_pairs] of [_start_spatial_after_delay]: the number of answer
    buttons of the spatial probe window. *)
Definition n_pairs (h : Config.hyps) : option Z :=
  if Config.use_motors_step h =? 0 then None
  else Some ((Config.num_motor_end h - Config.num_motor_start h + 1)
               `div` Config.use_motors_step h).

(** The dictionary [res] that [_finish_pmpwm] hands to [_pmpwm_finished]. *)
Record finish_result := {
  fin_answers : list (Z * Z);
  fin_per_motor_accuracy : list (Z * Qc);
  fin_mean_accuracy : Qc;
  fin_confusion : list (list Z);
  fin_pwm_values : list Z;
  fin_repeats : Z;
  fin_confusion_per_motor : list (Z * list (list Z));
}.

(** [np.zeros((levels, levels), dtype=int)] *)
Definition zero_matrix (levels : nat) : list (list Z) :=
  replicate levels (replicate levels 0).

(** [_finish_pmpwm]; [None] is the [IndexError] of a Trial whose level is
    no index of the matrix. *)
Definition _finish_pmpwm (st : state) : option finish_result :=
  let all_ans := concat (Dict.values (results_pmpwm st)) in
  let per_motor_acc := per_motor_accuracy st in
  let mean_acc := default 0%Qc (Py.mean (Dict.values per_motor_acc)) in
  let pwm_vals := Config.pmpwm_pwm_values (hyps st) in
  let levels := length pwm_vals in
  conf_per_motor ←
    mapM (λ mp : Z * list (Z * Z),
            cm_local ← PMPWMWorker.confusion_matrix (zero_matrix levels) mp.2;
            Some (mp.1, cm_local))
         (results_pmpwm st);
  cm ← PMPWMWorker.confusion_matrix (zero_matrix levels) all_ans;
  Some {| fin_answers := all_ans;
          fin_per_motor_accuracy := per_motor_acc;
          fin_mean_accuracy := mean_acc;
          fin_confusion := cm;
          fin_pwm_values := pwm_vals;
          fin_repeats := Config.pmpwm_repeats (hyps st);
          fin_confusion_per_motor := conf_per_motor |}.

End MainWindow.

(** ** [gui/mols_probe_window.py] *)

Module MOLsProbeWindow.

(** [local] of [update_status]: the step shown for the current motor. *)
Definition local_step (tests_per_motor step_global : Z) : Z :=
  (step_global - 1) `mod` tests_per_motor + 1.

End MOLsProbeWindow.

(** ** [gui/pmpwm_probe_window.py]: pause for training and resumption *)

Module PMPWMProbeWindow.
Import MainWindow.




End PMPWMProbeWindow.

(** ** [core/report_utils.py]: the per-motor analysis of [generate_summary] *)

Module ReportUtils.

(** [summary_per_motor[motor_id] = analyse_cm(cm, pwm_values)] for every
    entry of [conf_by_mtr]. *)
Fixpoint summary_per_motor (conf_by_mtr : list (Z * list (list Z))) (pwm_values : list Z)
    (summary : list (Z * PmpwmAnalysis.analysis))
    : option (list (Z * PmpwmAnalysis.analysis)) :=
  match conf_by_mtr with
  | [] => Some summary
  | (motor_id, cm) :: rest =>
      r ← PmpwmAnalysis.analyse_cm cm pwm_values;
      summary_per_motor rest pwm_values (Dict.set summary motor_id r)
  end.

End ReportUtils.

(** ** Concrete configurations used in the checks below *)

Module Sample.

(** A connected box with ten motors, all off. *)
Definition box : Thread.VibroBox :=
  {| Thread.n_motors := 10; Thread.ser := true; Thread.pwm := Thread.zeros 10 |}.

(** Four single-motor regions, ten presentations. *)
Definition four_regions : Config.hyps := {|
  Config.user_surname := "anon";
  Config.motor_num := 0;
  Config.n_motors := 10;
  Config.num_motor_start := 0;
  Config.num_motor_end := 3;
  Config.use_motors_step := 1;
  Config.exps_for_each_motor := 1;
  Config.end_pwm_down := 0;
  Config.end_pwm_up := 30;
  Config.delta_pwm_down := -5;
  Config.delta_pwm_up := 2;
  Config.max_counter_samples := 10;
  Config.spatial_pwm := 30;
  Config.spatial_mode := "single";
  Config.pmpwm_pwm_values := [14; 22];
  Config.pmpwm_repeats := 2;
|}.

(** The same with the two intensities listed in descending order. *)
Definition descending_schedule : Config.hyps := {|
  Config.user_surname := "anon";
  Config.motor_num := 0;
  Config.n_motors := 10;
  Config.num_motor_start := 0;
  Config.num_motor_end := 3;
  Config.use_motors_step := 1;
  Config.exps_for_each_motor := 1;
  Config.end_pwm_down := 0;
  Config.end_pwm_up := 30;
  Config.delta_pwm_down := -5;
  Config.delta_pwm_up := 2;
  Config.max_counter_samples := 10;
  Config.spatial_pwm := 30;
  Config.spatial_mode := "single";
  Config.pmpwm_pwm_values := [22; 14];
  Config.pmpwm_repeats := 1;
|}.

(** A patient who gives the answers 1, 2, 1, 2 without delay. *)
Definition four_answers : list (list (Thread.gui_call (option Z))) :=
  Thread.plain_answers [(0%nat, Some 1); (0%nat, Some 2); (0%nat, Some 1); (0%nat, Some 2)].

(** The main window after the discrimination test has completed the motors
    0 and 1. *)
Definition both_motors_done : MainWindow.state :=
  {| MainWindow.hyps := four_regions;
     MainWindow.motors_all := [0; 1];
     MainWindow.motors_completed := {[0; 1]};
     MainWindow.results_pmpwm := [(0, [(1, 1); (2, 2); (1, 1); (2, 2)]);
                                  (1, [(1, 2); (2, 2); (1, 1); (2, 1)])];
     MainWindow._pending_queue := [];
     MainWindow.worker := None |}.


End Sample.

(** ** [core/paths.py]: the folder name of a patient

    A Python [str] is a sequence of code points, here a list of [Z]. *)

Module Paths.

Definition within (lo hi c : Z) : bool := (lo <=? c) && (c <=? hi).

(** [str.isspace] of one character: the white space that [strip()] removes. *)
Definition isspace (c : Z) : bool :=
  within 9 13 c || within 28 32 c || (c =? 133) || (c =? 160) || (c =? 5760)
  || within 8192 8202 c || (c =? 8232) || (c =? 8233) || (c =? 8239) || (c =? 8287)
  || (c =? 12288).

(** [s.lstrip()] *)
Fixpoint lstrip (s : list Z) : list Z :=
  match s with
  | c :: s' => if isspace c then lstrip s' else s
  | [] => []
  end.

(** [s.strip()] *)
Definition strip (s : list Z) : list Z := reverse (lstrip (reverse (lstrip s))).

(** The complement of the class [[^A-Za-zА-Яа-я0-9_-]]: Latin letters, the
    Cyrillic letters U+0410..U+044F, digits, [_] and [-]. *)
Definition kept (c : Z) : bool :=
  within 65 90 c || within 97 122 c || within 1040 1071 c || within 1072 1103 c
  || within 48 57 c || (c =? 95) || (c =? 45).

(** [re.sub(r"[^A-Za-zА-Яа-я0-9_-]+", "_", s)]: every maximal run of
    characters outside the class becomes one [_]; [in_run] tells that the
    run in progress has been replaced already. *)
Fixpoint sub_from (in_run : bool) (s : list Z) : list Z :=
  match s with
  | [] => []
  | c :: s' =>
      if kept c then c :: sub_from false s'
      else if in_run then sub_from true s'
      else 95 :: sub_from true s'
  end.

Definition sub (s : list Z) : list Z := sub_from false s.

(** ["anon"] *)
Definition anon : list Z := [97; 110; 111; 110].

(** [sanitize(name)]: [re.sub(..., name.strip()) or "anon"] *)
Definition sanitize (name : list Z) : list Z :=
  match sub (strip name) with
  | [] => anon
  | s => s
  end.

End Paths.

(** ** [gui/spatial_hyperparams_dialog.py] *)

Module SpatialHyperparamsDialog.

(** [compute_allowed_steps]: 1 always, 2 and 3 when they divide the number
    of motors; [sorted(set(steps))]. *)
Definition compute_allowed_steps (total_motors : Z) : list Z :=
  let steps := [1] ++ (if total_motors `mod` 2 =? 0 then [2] else [])
                   ++ (if total_motors `mod` 3 =? 0 then [3] else []) in
  merge_sort Z.le (remove_dups steps).

(** The step combo box: its items and the current one. *)
Record combo := {
  items : list Z;
  current : option Z;
}.

(** [update_steps] for the values of the two range spin boxes: the items
    are the allowed steps; 2 is preselected when it is among them,
    else the first item. *)
Definition update_steps (sb_start sb_end : Z) : combo :=
  let total := Z.max 1 (sb_end - sb_start + 1) in
  let allowed := compute_allowed_steps total in
  {| items := allowed;
     current := if bool_decide (2 ∈ allowed) then Some 2 else head allowed |}.

(** [get_hyps]: the values of the widgets written into the dictionary.
    [cb_step] is the current item of the step combo box ([None]: no item,
    [int('')] raises [ValueError]); it is read in single mode only. *)
Definition get_hyps (h : Config.hyps) (sb_start sb_end : Z) (mode : string)
    (cb_step : option Z) (sb_samples sb_pwm : Z) : option Config.hyps :=
  step ← (if bool_decide (mode = "pairs") then Some 2 else cb_step);
  Some {| Config.user_surname := Config.user_surname h;
          Config.motor_num := Config.motor_num h;
          Config.n_motors := Config.n_motors h;
          Config.num_motor_start := sb_start;
          Config.num_motor_end := sb_end;
          Config.use_motors_step := step;
          Config.exps_for_each_motor := Config.exps_for_each_motor h;
          Config.end_pwm_down := Config.end_pwm_down h;
          Config.end_pwm_up := Config.end_pwm_up h;
          Config.delta_pwm_down := Config.delta_pwm_down h;
          Config.delta_pwm_up := Config.delta_pwm_up h;
          Config.max_counter_samples := sb_samples;
          Config.spatial_pwm := sb_pwm;
          Config.spatial_mode := mode;
          Config.pmpwm_pwm_values := Config.pmpwm_pwm_values h;
          Config.pmpwm_repeats := Config.pmpwm_repeats h |}.

End SpatialHyperparamsDialog.

(** ** [gui/mols_hyperparams_dialog.py] *)

Module MOLsHyperparamsDialog.

(** The values of the eight spin boxes. *)
Record spins := {
  sb_num_motor_start : Z;
  sb_num_motor_end : Z;
  sb_use_motors_step : Z;
  sb_exps_each : Z;
  sb_end_pwm_down : Z;
  sb_delta_pwm_down : Z;
  sb_end_pwm_up : Z;
  sb_delta_pwm_up : Z;
}.

(** The ranges given to the spin boxes by [setRange]. *)
Definition in_range (s : spins) : Prop :=
  0 ≤ sb_num_motor_start s ≤ 100 ∧ 0 ≤ sb_num_motor_end s ≤ 100
  ∧ 1 ≤ sb_use_motors_step s ≤ 10 ∧ 1 ≤ sb_exps_each s ≤ 10
  ∧ 0 ≤ sb_end_pwm_down s ≤ 255 ∧ 1 ≤ sb_delta_pwm_down s ≤ 100
  ∧ 0 ≤ sb_end_pwm_up s ≤ 255 ∧ 1 ≤ sb_delta_pwm_up s ≤ 100.

Definition get_hyps (h : Config.hyps) (s : spins) : Config.hyps :=
  {| Config.user_surname := Config.user_surname h;
     Config.motor_num := Config.motor_num h;
     Config.n_motors := Config.n_motors h;
     Config.num_motor_start := sb_num_motor_start s;
     Config.num_motor_end := sb_num_motor_end s;
     Config.use_motors_step := sb_use_motors_step s;
     Config.exps_for_each_motor := sb_exps_each s;
     Config.end_pwm_down := - Z.abs (sb_end_pwm_down s);
     Config.end_pwm_up := sb_end_pwm_up s;
     Config.delta_pwm_down := - Z.abs (sb_delta_pwm_down s);
     Config.delta_pwm_up := sb_delta_pwm_up s;
     Config.max_counter_samples := Config.max_counter_samples h;
     Config.spatial_pwm := Config.spatial_pwm h;
     Config.spatial_mode := Config.spatial_mode h;
     Config.pmpwm_pwm_values := Config.pmpwm_pwm_values h;
     Config.pmpwm_repeats := Config.pmpwm_repeats h |}.

End MOLsHyperparamsDialog.

(** ** What the workers may write to the port *)

Module Safety.
Import Thread.

(** The least and the greatest intensity of the staircases of the
    threshold test: the descending staircase starts at 30 or 40 and stops
    above [end_pwm_down], the ascending one starts between 2 and 8 and
    stops before [end_pwm_up]. *)
Definition lowest (h : Config.hyps) : Z :=
  Z.min 0 (Z.min (Config.end_pwm_down h + 1) (Config.end_pwm_up h + 1)).

Definition highest (h : Config.hyps) : Z :=
  Z.max 40 (Config.end_pwm_up h - 1).

(** The least and the greatest value of a pass of the threshold test: a
    descending pass returns the intensity of the first "no" plus
    [abs(delta_pwm_down)], or [abs(delta_pwm_down)]; an ascending pass the
    intensity of the first "yes", or [end_pwm_up]. *)
Definition least_threshold (h : Config.hyps) : Z :=
  Z.min 0 (Z.min (Config.end_pwm_down h + 1) (Config.end_pwm_up h)).

Definition greatest_threshold (h : Config.hyps) : Z :=
  Z.max 40 (Config.end_pwm_up h) + Z.abs (Config.delta_pwm_down h).

(** Every motor of the dictionary of pass values has a value, and every
    value lies between the two. *)
Definition within (h : Config.hyps) (results : list (Z * list Z)) : Prop :=
  Forall (λ kv, kv.2 ≠ []
                ∧ Forall (λ v, least_threshold h ≤ v ≤ greatest_threshold h) kv.2) results.

(** An array written by the threshold worker: one value per motor, each
    between [bot] and [top]. *)
Definition bounded (n bot top : Z) (e : event) : Prop :=
  ∀ arr, e = Written arr → Z.of_nat (length arr) = n ∧ Forall (λ v, bot ≤ v ≤ top) arr.

(** All motors off, or exactly the motor [mot] driven at [v]. *)
Definition single (n : Z) (arr : list Z) (mot v : Z) : Prop :=
  0 ≤ mot < n ∧ arr = <[Z.to_nat mot := v]> (zeros n).

(** An event of the spatial worker: it writes all-zero arrays and arrays
    that drive one motor at the configured intensity, and it never calls
    the end-of-test indicator. *)
Definition spatial_event (h : Config.hyps) (e : event) : Prop :=
  e ≠ BeginEndIndicator
  ∧ ∀ arr, e = Written arr →
      arr = zeros (Config.n_motors h)
      ∨ ∃ mot, single (Config.n_motors h) arr mot (Config.spatial_pwm h).

(** An event of the discrimination worker on [motors]: besides all-zero
    arrays and the blink of the indicator (every motor at 20) it writes
    arrays that drive one motor at an intensity of the configured list;
    that motor is one of [motors], addressed by its index or, for a
    negative index, from the end of the array. *)
Definition pmpwm_event (h : Config.hyps) (n : Z) (motors : list Z) (e : event) : Prop :=
  ∀ arr, e = Written arr →
    arr = zeros n
    ∨ arr = replicate (Z.to_nat n) 20
    ∨ ∃ motor p, motor ∈ motors ∧ p ∈ Config.pmpwm_pwm_values h
                 ∧ Py.setitem (zeros n) motor p = Some arr.

End Safety.

(** ** Counts read off a list of Trials *)

Module Counts.

(** The position that the Python index [i] addresses in a sequence of
    length [n]: [i] itself, or [n + i] for a negative index. *)
Definition position (n : nat) (i : Z) : option nat :=
  if (0 <=? i) && (i <? Z.of_nat n) then Some (Z.to_nat i)
  else if (- Z.of_nat n <=? i) && (i <? 0) then Some (Z.to_nat (Z.of_nat n + i))
  else None.

(** The number of Trials with true value [t] and answer [p]. *)
Definition count_trials (t p : Z) (answers : list (Z * Z)) : Z :=
  Z.of_nat (length (filter (λ tp : Z * Z, tp = (t, p)) answers)).

(** The number of Trials answered correctly. *)
Definition correct_trials (answers : list (Z * Z)) : Z :=
  Z.of_nat (length (filter (λ tp : Z * Z, tp.1 = tp.2) answers)).

(** A Trial whose true level and answer are levels [1..levels]. *)
Definition valid_trial (levels : nat) (tp : Z * Z) : Prop :=
  (1 ≤ tp.1 ≤ Z.of_nat levels) ∧ (1 ≤ tp.2 ≤ Z.of_nat levels).

(** A Trial whose true level and answer address a cell of a matrix with
    [levels] rows and columns, from the front or from the end. *)
Definition addressable (levels : nat) (tp : Z * Z) : Prop :=
  (- Z.of_nat levels < tp.1 ≤ Z.of_nat levels)
  ∧ (- Z.of_nat levels < tp.2 ≤ Z.of_nat levels).

(** The sum of all cells of a matrix. *)
Definition total (cm : list (list Z)) : Z := Py.sumZ (Py.sumZ <$> cm).


End Counts.

(** ** The design of the discrimination test *)

Module Design.
Import Thread.

(** The level recorded for a presentation of the intensity [p]. *)
Definition level_of (h : Config.hyps) (p : Z) : Z :=
  default 0 (PMPWMWorker.true_level (Config.pmpwm_pwm_values h) p).

(** The presentations of one motor before they are shuffled:
    [pwm_values * repeats]. *)
Definition presentations (h : Config.hyps) : list Z :=
  concat (replicate (Z.to_nat (Config.pmpwm_repeats h)) (Config.pmpwm_pwm_values h)).

(** Their levels. *)
Definition levels (h : Config.hyps) : list Z := level_of h <$> presentations h.

(** The dictionary of Trials holds, in this order, the motors [ds], each
    with the Trials of a full set of presentations. *)
Definition complete (h : Config.hyps) (ds : list Z) (res : list (Z * list (Z * Z))) : Prop :=
  res.*1 = ds ∧ Forall (λ kv, kv.2.*1 ≡ₚ levels h) res.

(** The same, followed by [motor] with the Trials of the presentations
    [consumed] so far. *)
Definition running (h : Config.hyps) (ds : list Z) (motor : Z) (consumed : list Z)
    (res : list (Z * list (Z * Z))) : Prop :=
  ∃ res0 trials, res = res0 ++ [(motor, trials)] ∧ complete h ds res0
                 ∧ trials.*1 = level_of h <$> consumed.

(** A result of the worker launched on [motors] that holds a full set of
    Trials for every motor, motor by motor. *)
Definition balanced (h : Config.hyps) (motors : list Z) (r : pmpwm_result) : Prop :=
  res_motors r = motors
  ∧ ∃ tss : list (list (Z * Z)),
      res_answers r = concat tss ∧ length tss = length motors
      ∧ Forall (λ ts, ts.*1 ≡ₚ levels h) tss.

(** *** The run of the discrimination worker seen from the main window *)

(** An event that the slots of the main window ignore. *)
Definition quiet (e : event) : Prop :=
  (∀ m, e ≠ MotorFinished m) ∧ (∀ r, e ≠ PmpwmFinished r).

(** A thread that adds only such events to the log, leaves the recorded
    Trials as they are, and returns values that satisfy [V]. *)
Definition calm {A R} (m : thread A R) (V : R → Prop) : Prop :=
  ∀ w, (∃ evs, log (final (m w)) = log w ++ evs ∧ Forall quiet evs)
       ∧ results (final (m w)) = results w
       ∧ ∀ r w', m w = Done r w' → V r.

(** A property of worlds that such steps keep. *)
Definition closed {A} (φ : world A → Prop) : Prop :=
  ∀ w w' evs, results w' = results w → log w' = log w ++ evs → Forall quiet evs →
    φ w → φ w'.

(** The motors whose [motorFinished] is among the events, in the order of
    emission. *)
Definition finished_motors (evs : list event) : list Z :=
  omap (λ e, match e with MotorFinished m => Some m | _ => None end) evs.

(** No result has been emitted. *)
Definition no_result (evs : list event) : Prop := ∀ r, PmpwmFinished r ∉ evs.

(** The worker, started with the log [l0], has emitted no result. *)
Definition unfinished (l0 : list event) (w : world (option Z)) : Prop :=
  ∃ evs, log w = l0 ++ evs ∧ no_result evs.

(** It is between two motors: [motorFinished] went out for the motors
    [ds], whose Trials are complete. *)
Definition between (h : Config.hyps) (l0 : list event) (ds : list Z)
    (w : world (option Z)) : Prop :=
  ∃ evs, log w = l0 ++ evs ∧ no_result evs ∧ finished_motors evs = ds
         ∧ complete h ds (results w).

(** It is testing [motor], after the motors [ds]. *)
Definition during (h : Config.hyps) (l0 : list event) (ds : list Z) (motor : Z)
    (consumed : list Z) (w : world (option Z)) : Prop :=
  ∃ evs, log w = l0 ++ evs ∧ no_result evs ∧ finished_motors evs = ds
         ∧ running h ds motor consumed (results w).

(** It has emitted its result: as the last event, once, after
    [motorFinished] for every motor; the result holds the Trials that the
    worker holds. *)
Definition concluded (h : Config.hyps) (motors : list Z) (l0 : list event)
    (w : world (option Z)) : Prop :=
  ∃ evs r, log w = l0 ++ evs ++ [PmpwmFinished r] ∧ no_result evs
           ∧ finished_motors evs = motors ∧ complete h motors (results w)
           ∧ res_answers r = concat (Dict.values (results w)) ∧ res_motors r = motors.

Definition ended (h : Config.hyps) (motors : list Z) (l0 : list event)
    (w : world (option Z)) : Prop :=
  unfinished l0 w ∨ concluded h motors l0 w.

(** What the slot of [motorFinished] does to the dictionary of the main
    window: it copies the Trials that the worker holds for the motor. *)
Definition copied (res : list (Z * list (Z * Z))) (d : list (Z * list (Z * Z))) (m : Z)
    : list (Z * list (Z * Z)) :=
  match Dict.get res m with Some trials => Dict.set d m trials | None => d end.

(** A presentation sequence that the spatial worker can draw from the
    region pool [uses]: [max_samples // len(uses)] full cycles and
    [max_samples % len(uses)] extra regions of the pool, in some order. *)
Definition drawn (h : Config.hyps) (uses seq : list Z) : Prop :=
  let count := Z.of_nat (length uses) in
  ∃ extra, extra ⊆ uses
    ∧ Z.of_nat (length extra) = Config.max_counter_samples h `mod` count
    ∧ seq ≡ₚ concat (replicate (Z.to_nat (Config.max_counter_samples h `div` count)) uses)
             ++ extra.

(** The true regions of the presentations [seq]. *)
Definition regions_of (h : Config.hyps) (seq : list Z) : list Z :=
  SpatialWorker.true_region (Config.num_motor_start h) (Config.use_motors_step h) <$> seq.

End Design.
(** * Sanity checks of the embedding on concrete inputs *)

Example range3_default : Py.range3 0 6 2 = Some [0; 2; 4].
Proof. reflexivity. Qed.

Example range3_pairs : Py.range3 0 5 2 = Some [0; 2; 4].
Proof. reflexivity. Qed.

Example range3_down : Py.range3 40 20 (-5) = Some [40; 35; 30; 25].
Proof. reflexivity. Qed.

Example round_ties_even :
  Py.round (Qc_of_Z 29 / 2)%Qc = 14 ∧ Py.round (Qc_of_Z 31 / 2)%Qc = 16
  ∧ Py.round (Qc_of_Z (-5) / 2)%Qc = -2.
Proof. by vm_compute. Qed.

Example analyse_cm_2x2 :
  PmpwmAnalysis.recommendations <$> PmpwmAnalysis.analyse_cm [[1; 1]; [1; 1]] [14; 22]
  = Some [PmpwmAnalysis.MergeLevels [1; 2] 18].
Proof. by vm_compute. Qed.

Example analyse_cm_gap :
  PmpwmAnalysis.recommendations <$>
    PmpwmAnalysis.analyse_cm [[1; 1; 0]; [0; 4; 0]; [2; 0; 1]] [14; 22; 37]
  = Some [PmpwmAnalysis.RemoveLevel 1 14; PmpwmAnalysis.RemoveLevel 3 37].
Proof. by vm_compute. Qed.

Example analyse_cm_cross :
  PmpwmAnalysis.recommendations <$>
    PmpwmAnalysis.analyse_cm [[8; 1; 1]; [0; 9; 1]; [1; 1; 8]] [14; 22; 37]
  = Some [PmpwmAnalysis.MergePair 1 3 26].
Proof. by vm_compute. Qed.

Example recommend_ref_cross :
  PmpwmAnalysis.recommend_ref [[8; 1; 1]; [0; 9; 1]; [1; 1; 8]] [14; 22; 37]
  = [PmpwmAnalysis.MergePair 1 3 26].
Proof. by vm_compute. Qed.

Example analyse_spatial_unequal :
  let r := SpatialAnalysis.analyse_spatial [(1, 1); (1, 1); (1, 1); (2, 1)] in
  SpatialAnalysis.mean_accuracy r = (Qc_of_Z 3 / Qc_of_Z 4)%Qc
  ∧ SpatialAnalysis.accuracy <$> SpatialAnalysis.regions r !! 2 = Some 0%Qc.
Proof. by vm_compute. Qed.

(** * Properties *)

(** ** Facts about the Python primitives *)

Module PyFacts.

Lemma getitem_nat {A} (l : list A) (i : nat) :
  (i < length l)%nat → Py.getitem l (Z.of_nat i) = l !! i.
Proof.
  intros Hi. unfold Py.getitem.
  replace (0 <=? Z.of_nat i) with true by (symmetry; apply Z.leb_le; lia).
  replace (Z.of_nat i <? Z.of_nat (length l)) with true
    by (symmetry; apply Z.ltb_lt; lia).
  simpl. by rewrite Nat2Z.id.
Qed.

Lemma getitem_level {A} (l : list A) (i : nat) :
  (i < length l)%nat → Py.getitem l (Z.of_nat i + 1 - 1) = l !! i.
Proof. intros. replace (Z.of_nat i + 1 - 1) with (Z.of_nat i) by lia. by apply getitem_nat. Qed.

Lemma seqZ_nat (a n : nat) : seqZ (Z.of_nat a) (Z.of_nat n) = Z.of_nat <$> seq a n.
Proof.
  revert a. induction n as [|n IH]; intros a; [done|].
  rewrite seqZ_cons by lia. simpl. f_equal.
  replace (Z.succ (Z.of_nat a)) with (Z.of_nat (S a)) by lia.
  replace (Z.pred (Z.of_nat (S n))) with (Z.of_nat n) by lia.
  apply IH.
Qed.

Lemma range2_nat (a b : nat) :
  Py.range2 (Z.of_nat a) (Z.of_nat b) = Z.of_nat <$> seq a (b - a).
Proof.
  unfold Py.range2. rewrite <- seqZ_nat. f_equal. lia.
Qed.

Lemma range2_0 (n : nat) : Py.range2 0 (Z.of_nat n) = Z.of_nat <$> seq 0 n.
Proof. change 0 with (Z.of_nat 0). rewrite range2_nat. by rewrite Nat.sub_0_r. Qed.

Lemma mapM_fmap_total {A B C} (f : B → option C) (g : A → B) (h : A → C) (l : list A) :
  (∀ x, x ∈ l → f (g x) = Some (h x)) → mapM f (g <$> l) = Some (h <$> l).
Proof.
  intros Hf. apply mapM_Some_2. apply Forall2_fmap.
  apply Forall_Forall2_diag, Forall_forall. done.
Qed.

Lemma find_head_filter {A} (P : A → Prop) `{∀ x, Decision (P x)} (l : list A) :
  snd <$> list_find P l = head (filter P l).
Proof.
  induction l as [|x l IH]; [done|].
  rewrite filter_cons. simpl. destruct (decide (P x)); [done|].
  rewrite <- IH. by destruct (list_find P l) as [[??]|].
Qed.

(** A list sorted in strictly ascending order is left alone by [sort]. *)
Lemma sort_ascending (l : list Z) :
  StronglySorted Z.lt l → merge_sort Z.le l = l.
Proof.
  intros Hl.
  assert (AntiSymm eq Z.le) by (intros x y ??; lia).
  assert (Total Z.le) by (intros x y; lia).
  apply (Sorted_unique Z.le _ _).
  - by apply Sorted_merge_sort.
  - apply StronglySorted_Sorted.
    induction Hl as [|x l' Hl' IH Hx]; constructor; [done|].
    eapply Forall_impl; [done|]. intros; simpl in *; lia.
  - apply merge_sort_Permutation.
Qed.

Lemma seq_ascending (a n : nat) : StronglySorted lt (seq a n).
Proof.
  revert a. induction n as [|n IH]; intros a; simpl; constructor; [apply IH|].
  apply Forall_forall. intros x Hx%elem_of_seq. lia.
Qed.

Lemma filter_ascending {A} (R : relation A) (P : A → Prop) `{∀ x, Decision (P x)} l :
  StronglySorted R l → StronglySorted R (filter P l).
Proof.
  induction 1 as [|x l Hl IH Hx]; [constructor|].
  rewrite filter_cons. destruct (decide (P x)); [|done].
  constructor; [done|].
  apply Forall_forall. intros y [_ Hy]%list_elem_of_filter.
  by eapply Forall_forall in Hx.
Qed.

Lemma range3_NoDup (start stop step : Z) (l : list Z) :
  Py.range3 start stop step = Some l → NoDup l.
Proof.
  unfold Py.range3. destruct (Z.eqb_spec step 0) as [|Hstep]; [done|].
  intros [= <-]. apply NoDup_fmap_2; [|apply NoDup_seqZ].
  intros i j Hij. nia.
Qed.

Lemma range2_NoDup (start stop : Z) : NoDup (Py.range2 start stop).
Proof. apply NoDup_seqZ. Qed.

Lemma elem_of_range2 (start stop m : Z) : m ∈ Py.range2 start stop ↔ start ≤ m < stop.
Proof. unfold Py.range2. rewrite elem_of_seqZ. lia. Qed.

Lemma length_cycles {T} (q : nat) (l : list T) :
  length (concat (replicate q l)) = (q * length l)%nat.
Proof. induction q as [|q IH]; [done|]. simpl. rewrite length_app, IH. lia. Qed.

(** [l.index(x)] is the first position that holds [x]. *)
Lemma index_first (l : list Z) (x i : Z) :
  Py.index l x = Some i →
  0 ≤ i ∧ l !! Z.to_nat i = Some x ∧ ∀ j : nat, (j < Z.to_nat i)%nat → l !! j ≠ Some x.
Proof.
  revert i. induction l as [|y l IH]; intros i; [done|]. simpl.
  destruct (Z.eqb_spec y x) as [->|Hne].
  - intros [= <-]. repeat split; [done|]. intros j Hj. simpl in Hj. lia.
  - destruct (Py.index l x) as [i'|]; [|done]. intros [= <-].
    destruct (IH i' eq_refl) as (Hi' & Hx & Hfirst).
    replace (Z.to_nat (Z.succ i')) with (S (Z.to_nat i')) by lia.
    repeat split; [lia|done|].
    intros [|j] Hj; simpl; [congruence|]. apply Hfirst. lia.
Qed.

Lemma index_is_Some (l : list Z) (x : Z) : x ∈ l → is_Some (Py.index l x).
Proof.
  induction l as [|y l IH]; [by intros ?%elem_of_nil|].
  simpl. destruct (Z.eqb_spec y x) as [->|Hne]; [by eexists|].
  intros [?|Hx]%elem_of_cons; [congruence|].
  destruct (IH Hx) as [i ->]. by eexists.
Qed.

End PyFacts.

(** ** The confusion-matrix analyzer *)

Module PmpwmAnalysisFacts.
Import PmpwmAnalysis.

Lemma bar_075 : (Qc_of_Z 75 / Qc_of_Z 100 = Qc_of_Z 3 / Qc_of_Z 4)%Qc.
Proof. by apply Qc_is_canon. Qed.

Lemma bar_010 : (Qc_of_Z 10 / Qc_of_Z 100 = 1 / Qc_of_Z 10)%Qc.
Proof. by apply Qc_is_canon. Qed.

Lemma is_bad_spec (lvl : Z) (a : Qc) :
  is_bad (lvl, a) = true ↔ (a < Qc_of_Z 3 / Qc_of_Z 4)%Qc.
Proof. unfold is_bad. simpl. rewrite bar_075. apply bool_decide_eq_true. Qed.

(** *** Grouping of adjacent levels *)

Local Abbreviation levels := (fmap (M:=list) level).

Lemma groupby_from_runs (l : list nat) (c : nat) (prev : Z) (cur : list Z) :
  Py.groupby_from (prev - Z.of_nat c + 1) cur
    (imap (λ i x, (x - Z.of_nat (c + i), x)) (level <$> l))
  = match runs l with
    | (j :: g) :: gs =>
        if decide (level j = prev + 1)
        then (reverse cur ++ levels (j :: g)) :: (levels <$> gs)
        else reverse cur :: (levels <$> (j :: g) :: gs)
    | _ => [reverse cur]
    end.
Proof.
  revert c prev cur. induction l as [|x l IH]; intros c prev cur; [done|].
  rewrite fmap_cons, imap_cons. cbn [Py.groupby_from].
  rewrite (imap_ext _ (λ i y, (y - Z.of_nat (S c + i), y)))
    by (intros; simpl; do 2 f_equal; lia).
  replace (Z.of_nat (c + 0)) with (Z.of_nat c) by lia.
  assert (Hkey : ∀ cur', Py.groupby_from (level x - Z.of_nat c) cur'
              (imap (λ i y, (y - Z.of_nat (S c + i), y)) (level <$> l))
            = Py.groupby_from (level x - Z.of_nat (S c) + 1) cur'
              (imap (λ i y, (y - Z.of_nat (S c + i), y)) (level <$> l))).
  { intros cur'. f_equal. lia. }
  destruct (Z.eqb_spec (level x - Z.of_nat c) (prev - Z.of_nat c + 1)) as [Heq|Hne].
  - assert (level x = prev + 1) as Hx by lia.
    replace (prev - Z.of_nat c + 1) with (level x - Z.of_nat c) by lia.
    rewrite Hkey, IH. simpl.
    destruct (runs l) as [|[|j g] gs]; simpl.
    + rewrite decide_True by done. by rewrite reverse_cons.
    + rewrite decide_True by done. by rewrite reverse_cons.
    + destruct (decide (j = S x)) as [->|Hj].
      * rewrite decide_True by (unfold level; lia).
        simpl. rewrite decide_True by done.
        rewrite reverse_cons, <- app_assoc. done.
      * rewrite decide_False by (unfold level; lia).
        simpl. rewrite decide_True by done.
        by rewrite reverse_cons.
  - assert (level x ≠ prev + 1) as Hx by lia.
    rewrite Hkey, IH. simpl.
    destruct (runs l) as [|[|j g] gs]; simpl.
    + by rewrite decide_False by done.
    + by rewrite decide_False by done.
    + destruct (decide (j = S x)) as [->|Hj].
      * rewrite decide_True by (unfold level; lia).
        simpl. by rewrite decide_False by done.
      * rewrite decide_False by (unfold level; lia).
        simpl. by rewrite decide_False by done.
Qed.

(** [itertools.groupby] with the key [x - next(c)] cuts an ascending list
    of levels into its contiguous runs. *)
Lemma groupby_runs (l : list nat) :
  Py.groupby (imap (λ c x, (x - Z.of_nat c, x)) (level <$> l)) = levels <$> runs l.
Proof.
  destruct l as [|x l]; [done|].
  rewrite fmap_cons, imap_cons. cbn [Py.groupby].
  rewrite (imap_ext _ (λ i y, (y - Z.of_nat (1 + i), y)))
    by (intros; simpl; do 2 f_equal; lia).
  replace (level x - Z.of_nat 0) with (level x - Z.of_nat 1 + 1) by lia.
  rewrite groupby_from_runs. simpl.
  destruct (runs l) as [|[|j g] gs]; simpl; try done.
  destruct (decide (j = S x)) as [->|Hj].
  - by rewrite decide_True by (unfold level; lia).
  - by rewrite decide_False by (unfold level; lia).
Qed.

Lemma runs_members (l : list nat) (g : list nat) (i : nat) :
  g ∈ runs l → i ∈ g → i ∈ l.
Proof.
  revert g. induction l as [|x l IH]; intros g; simpl; [by intros ?%elem_of_nil|].
  destruct (runs l) as [|[|j g'] gs] eqn:Hr.
  - intros ->%list_elem_of_singleton ->%list_elem_of_singleton. by left.
  - intros ->%list_elem_of_singleton ->%list_elem_of_singleton. by left.
  - destruct (decide (j = S x)) as [->|Hj].
    + intros [->|Hg]%elem_of_cons Hi.
      * apply elem_of_cons in Hi as [->|Hi]; [by left|].
        right. apply (IH (S x :: g')); [by left|done].
      * right. apply (IH g); [by right|done].
    + intros [->|Hg]%elem_of_cons Hi.
      * apply list_elem_of_singleton in Hi as ->. by left.
      * right. by apply (IH g).
Qed.

Lemma runs_nonempty (l : list nat) : Forall (λ g, g ≠ []) (runs l).
Proof.
  induction l as [|x l IH]; simpl; [constructor|].
  destruct (runs l) as [|[|j g] gs].
  - by repeat constructor.
  - by repeat constructor.
  - destruct (decide (j = S x)).
    + constructor; [done|]. by inversion IH.
    + constructor; [done|]. done.
Qed.

(** *** The analyzer on a well-formed input *)

Section well_formed.
Variable cm : list (list Z).
Variable pwm_vals : list Z.
Variable n : nat.
Hypothesis Hsquare : square n cm.
Hypothesis Hpwm : length pwm_vals = n.

Lemma row_lookup (i : nat) :
  (i < n)%nat → ∃ row, cm !! i = Some row ∧ length row = n.
Proof.
  destruct Hsquare as [Hlen Hrows]. intros Hi.
  destruct (lookup_lt_is_Some_2 cm i) as [row Hrow]; [lia|].
  exists row. split; [done|]. by eapply Forall_lookup_1 in Hrows.
Qed.

Lemma at2_norm (i j : nat) :
  (i < n)%nat → (j < n)%nat →
  at2 (normalise cm) (Z.of_nat i) (Z.of_nat j) = Some (norm cm i j).
Proof.
  intros Hi Hj. destruct (row_lookup i Hi) as (row & Hrow & Hlen).
  destruct (lookup_lt_is_Some_2 row j) as [c Hc]; [lia|].
  unfold at2, normalise.
  rewrite PyFacts.getitem_nat by (rewrite length_fmap; destruct Hsquare; lia).
  rewrite list_lookup_fmap, Hrow. simpl.
  unfold normalise_row.
  rewrite PyFacts.getitem_nat by (rewrite length_fmap; lia).
  rewrite list_lookup_fmap, Hc. simpl.
  unfold norm, cell. rewrite Hrow. simpl. rewrite Hc. simpl.
  by rewrite Z.max_comm.
Qed.

Lemma accuracies_ok : accuracies (normalise cm) (Z.of_nat n) = Some (acc_dict cm n).
Proof.
  unfold accuracies, acc_dict.
  rewrite PyFacts.range2_0.
  apply PyFacts.mapM_fmap_total. intros i Hi%elem_of_seq.
  by rewrite at2_norm by lia.
Qed.

Lemma categories_n : categories cm = n.
Proof. by destruct Hsquare. Qed.

Lemma bad_levels :
  (filter (λ la, is_bad la = true) (acc_dict cm n)).*1 = level <$> low_categories cm.
Proof.
  unfold acc_dict, low_categories. rewrite categories_n.
  induction (seq 0 n) as [|i l IH]; [done|].
  rewrite fmap_cons, !filter_cons.
  destruct (decide (low_accuracy cm i)) as [Hlow|Hok].
  - rewrite decide_True by (by apply is_bad_spec).
    rewrite !fmap_cons. f_equal. apply IH.
  - rewrite decide_False by (by rewrite is_bad_spec). apply IH.
Qed.

Lemma low_categories_bound (i : nat) : i ∈ low_categories cm → (i < n)%nat.
Proof.
  unfold low_categories. rewrite categories_n.
  intros [_ Hi%elem_of_seq]%list_elem_of_filter. lia.
Qed.

Lemma low_categories_ascending :
  StronglySorted Z.lt (level <$> low_categories cm).
Proof.
  apply (StronglySorted_fmap _ lt); [unfold level; intros; lia|].
  apply PyFacts.filter_ascending, PyFacts.seq_ascending.
Qed.

Lemma intensity_lookup (i : nat) :
  (i < n)%nat → Py.getitem pwm_vals (level i - 1) = Some (intensity pwm_vals i).
Proof.
  intros Hi. unfold level. rewrite PyFacts.getitem_level by lia.
  unfold intensity. destruct (lookup_lt_is_Some_2 pwm_vals i) as [p ->]; [lia|done].
Qed.

Lemma group_rec_ok (g : list nat) :
  g ≠ [] → (∀ i, i ∈ g → (i < n)%nat) →
  group_rec pwm_vals (level <$> g) = Some (run_recommendation pwm_vals g).
Proof.
  intros Hne Hg.
  assert (Hmap : mapM (λ i, Py.getitem pwm_vals (i - 1)) (level <$> g)
                 = Some (intensity pwm_vals <$> g)).
  { apply PyFacts.mapM_fmap_total. intros i Hi. apply intensity_lookup. auto. }
  destruct g as [|i [|j g]]; [done|..].
  - simpl. rewrite intensity_lookup by (apply Hg; by left). done.
  - unfold group_rec, run_recommendation.
    change (level <$> i :: j :: g) with (level i :: level j :: (level <$> g)) in *.
    rewrite Hmap. simpl. do 3 f_equal.
    unfold mean_intensity. simpl. rewrite !length_fmap.
    do 4 f_equal. by rewrite <- list_fmap_compose.
Qed.

Lemma confused_ok (i j : nat) :
  (i < n)%nat → (j < n)%nat →
  confused (normalise cm) (Z.of_nat i) (Z.of_nat j)
  = Some (bool_decide (cross_confused cm (i, j))).
Proof.
  intros Hi Hj. unfold confused, cross_confused.
  rewrite !at2_norm by done. simpl. rewrite bar_010.
  destruct (decide (1 / Qc_of_Z 10 ≤ norm cm i j)%Qc) as [H1|H1].
  - rewrite bool_decide_eq_true_2 by done. simpl.
    f_equal. apply bool_decide_ext. tauto.
  - rewrite bool_decide_eq_false_2 by done.
    f_equal. symmetry. apply bool_decide_eq_false_2. tauto.
Qed.

Lemma scan_row_ok (i : nat) (js : list nat) (pe : list (Z * Z)) :
  (i < n)%nat → (∀ j, j ∈ js → (j < n)%nat) →
  scan_row (normalise cm) (Z.of_nat i) (Z.of_nat <$> js) pe
  = Some (pe ++ (level_pair <$> filter (cross_confused cm) ((λ j, (i, j)) <$> js))).
Proof.
  intros Hi. revert pe. induction js as [|j js IH]; intros pe Hjs.
  { simpl. by rewrite app_nil_r. }
  rewrite !fmap_cons. cbn [scan_row].
  rewrite confused_ok by (auto; apply Hjs; by left). simpl.
  rewrite IH by (intros; apply Hjs; by right).
  rewrite filter_cons.
  destruct (decide (cross_confused cm (i, j))).
  - rewrite bool_decide_eq_true_2 by done.
    rewrite fmap_cons, <- app_assoc. done.
  - by rewrite bool_decide_eq_false_2 by done.
Qed.

Lemma scan_ok (rows : list nat) (pe : list (Z * Z)) :
  (∀ i, i ∈ rows → (i < n)%nat) →
  scan (normalise cm) (Z.of_nat n) (Z.of_nat <$> rows) pe
  = Some (pe ++ (level_pair <$> filter (cross_confused cm)
                   (i ← rows; (λ j, (i, j)) <$> seq (S i) (n - S i)))).
Proof.
  revert pe. induction rows as [|i rows IH]; intros pe Hrows.
  { simpl. by rewrite app_nil_r. }
  rewrite fmap_cons. cbn [scan].
  replace (Z.of_nat i + 1) with (Z.of_nat (S i)) by lia.
  rewrite PyFacts.range2_nat.
  rewrite scan_row_ok; [|apply Hrows; by left|].
  2:{ intros j Hj%elem_of_seq. assert (i < n)%nat by (apply Hrows; by left). lia. }
  simpl. rewrite IH by (intros; apply Hrows; by right).
  rewrite filter_app, fmap_app, <- app_assoc. done.
Qed.

Lemma pairs_bound (i j : nat) : (i, j) ∈ pairs cm → (i < n)%nat ∧ (j < n)%nat.
Proof.
  unfold pairs. rewrite categories_n.
  intros (i' & Hij & Hi'%elem_of_seq)%list_elem_of_bind.
  apply list_elem_of_fmap in Hij as (j' & [= -> ->] & Hj'%elem_of_seq). lia.
Qed.

(** The code's [_recommend], on the accuracies that [analyse_cm] hands
    it, computes the reference recommendation. *)
Lemma recommend_refines :
  _recommend (normalise cm) (acc_dict cm n) pwm_vals = Some (recommend_ref cm pwm_vals).
Proof.
  unfold _recommend, recommend_ref. rewrite bad_levels.
  destruct (low_categories cm) as [|i0 low] eqn:Hlow.
  - rewrite fmap_nil. cbv iota.
    replace (length (normalise cm)) with n
      by (unfold normalise; rewrite length_fmap; by destruct Hsquare).
    rewrite PyFacts.range2_0.
    rewrite scan_ok by (intros i Hi%elem_of_seq; lia). rewrite app_nil_l.
    pose proof (PyFacts.find_head_filter (cross_confused cm) (pairs cm)) as Hfind.
    unfold pairs at 2 in Hfind. rewrite categories_n in Hfind.
    destruct (list_find (cross_confused cm) (pairs cm)) as [[k [i j]]|] eqn:Hf;
      simpl in Hfind.
    + apply list_find_Some in Hf as (Hk & _ & _).
      apply list_elem_of_lookup_2, pairs_bound in Hk as [Hi Hj].
      destruct (filter _ _) as [|p ps]; [done|]. injection Hfind as <-.
      simpl. rewrite !intensity_lookup by done. simpl.
      do 3 f_equal. unfold mean_intensity. simpl.
      rewrite Z2Qc_inj_add, Qcplus_0_r.
      change (Z.of_nat 2) with 2%Z. by rewrite Z2Qc_inj_2.
    + destruct (filter _ _) as [|p ps]; [done|discriminate].
  - rewrite <- Hlow.
    assert (level <$> low_categories cm ≠ []) as Hne by (by rewrite Hlow).
    destruct (level <$> low_categories cm) as [|b bs] eqn:Hbad; [done|].
    rewrite <- Hbad.
    rewrite PyFacts.sort_ascending by apply low_categories_ascending.
    rewrite groupby_runs.
    apply PyFacts.mapM_fmap_total. intros g Hg.
    apply group_rec_ok.
    + pose proof (runs_nonempty (low_categories cm)) as Hn.
      by eapply Forall_forall in Hn.
    + intros i Hi. eapply low_categories_bound, runs_members; done.
Qed.

Lemma analyse_cm_ok :
  analyse_cm cm pwm_vals
  = Some {| confusion := cm;
            confusion_norm :=
              (λ row : list Qc, Py.around 4 ∘ Py.binary64 <$> row) <$> normalise cm;
            accuracy := prod_map id (Py.round_to 4 ∘ Py.binary64) <$> acc_dict cm n;
            mean_accuracy := Py.round_to 4 <$> Py.mean (acc_dict cm n).*2;
            recommendations := recommend_ref cm pwm_vals |}.
Proof.
  unfold analyse_cm. destruct Hsquare as [Hlen _]. rewrite Hlen.
  rewrite accuracies_ok. simpl. rewrite recommend_refines. done.
Qed.
End well_formed.

End PmpwmAnalysisFacts.

Example runs_contiguous :
  PmpwmAnalysis.runs [1; 2; 3; 5]%nat = [[1; 2; 3]; [5]]%nat
  ∧ PmpwmAnalysis.runs [1; 3]%nat = [[1]; [3]]%nat.
Proof. done. Qed.

(** C7, as the claim states it, fails at the pair: in this matrix every
    category reaches 0.75 and the categories 1 and 3 are the first pair
    confused at least 0.10 each way; their intensities are 14 and 23, whose
    mean is 18.5, and the recommendation names the intensity 18. *)
Lemma pair_merge_rounds_mean :
  PmpwmAnalysis.low_categories [[8; 1; 1]; [0; 9; 1]; [1; 1; 8]] = []
  ∧ list_find (PmpwmAnalysis.cross_confused [[8; 1; 1]; [0; 9; 1]; [1; 1; 8]])
      (PmpwmAnalysis.pairs [[8; 1; 1]; [0; 9; 1]; [1; 1; 8]])
    = Some (1%nat, (0%nat, 2%nat))
  ∧ PmpwmAnalysis.pair_mean [14; 22; 23] (0%nat, 2%nat) = (Qc_of_Z 37 / Qc_of_Z 2)%Qc
  ∧ PmpwmAnalysis.recommendations <$>
      PmpwmAnalysis.analyse_cm [[8; 1; 1]; [0; 9; 1]; [1; 1; 8]] [14; 22; 23]
    = Some [PmpwmAnalysis.MergePair 1 3 18]
  ∧ Qc_of_Z 18 ≠ PmpwmAnalysis.pair_mean [14; 22; 23] (0%nat, 2%nat).
Proof.
  split; [by vm_compute|]. split; [by vm_compute|].
  split; [apply Qc_is_canon; by vm_compute|]. split; [by vm_compute|].
  intros Heq. apply (f_equal (λ q : Qc, Qnum q)) in Heq. by vm_compute in Heq.
Qed.

(** C7, amended.  On every square confusion matrix with one intensity per
    category, the recommendations computed by [analyse_cm] (that is, by
    [_recommend]) are those of the three-step reference algorithm
    [recommend_ref]: contiguous runs of categories below 0.75 (removal of a
    singleton, merge at the rounded mean intensity for a longer run) and
    nothing else when such categories exist; otherwise the first pair, in
    ascending index order, that is confused at least 0.10 each way, merged
    at the mean of its two intensities rounded to the nearest integer (a
    half goes to the even neighbour); otherwise "no correction". *)
Theorem recommend_follows_reference (cm : list (list Z)) (pwm_vals : list Z) (n : nat) :
  PmpwmAnalysis.square n cm →
  length pwm_vals = n →
  PmpwmAnalysis.recommendations <$> PmpwmAnalysis.analyse_cm cm pwm_vals
  = Some (PmpwmAnalysis.recommend_ref cm pwm_vals)
  ∧ (∀ i j v, PmpwmAnalysis.MergePair i j v ∈ PmpwmAnalysis.recommend_ref cm pwm_vals →
       ∃ p, p ∈ PmpwmAnalysis.pairs cm
         ∧ PmpwmAnalysis.cross_confused cm p
         ∧ PmpwmAnalysis.level_pair p = (i, j)
         ∧ v = Py.round (PmpwmAnalysis.pair_mean pwm_vals p)).
Proof.
  intros Hsq Hlen. split.
  - by rewrite (PmpwmAnalysisFacts.analyse_cm_ok cm pwm_vals n Hsq Hlen).
  - intros i j v. unfold PmpwmAnalysis.recommend_ref.
    destruct (PmpwmAnalysis.low_categories cm) as [|k low] eqn:Hlow.
    + destruct (list_find _ _) as [[idx [a b]]|] eqn:Hfind.
      * intros Hin. apply list_elem_of_singleton in Hin. injection Hin as -> -> ->.
        apply list_find_Some in Hfind as (Hidx & Hconf & _).
        exists (a, b). split; [by eapply list_elem_of_lookup_2|].
        split; [done|]. split; [done|]. f_equal.
        unfold PmpwmAnalysis.pair_mean, PmpwmAnalysis.mean_intensity. simpl.
        unfold Py.sumQ. simpl. by rewrite Qcplus_0_r.
      * intros Hin. by apply list_elem_of_singleton in Hin.
    + intros Hin. apply list_elem_of_fmap in Hin as (g & Hg & _).
      unfold PmpwmAnalysis.run_recommendation in Hg.
      destruct g as [|? [|? ?]]; discriminate.
Qed.

Lemma recommend_follows_reference_witness :
  PmpwmAnalysis.recommendations <$>
    PmpwmAnalysis.analyse_cm [[8; 1; 1]; [0; 9; 1]; [1; 1; 8]] [14; 22; 37]
  = Some (PmpwmAnalysis.recommend_ref [[8; 1; 1]; [0; 9; 1]; [1; 1; 8]] [14; 22; 37])
  ∧ (∀ i j v,
       PmpwmAnalysis.MergePair i j v
       ∈ PmpwmAnalysis.recommend_ref [[8; 1; 1]; [0; 9; 1]; [1; 1; 8]] [14; 22; 37] →
       ∃ p, p ∈ PmpwmAnalysis.pairs [[8; 1; 1]; [0; 9; 1]; [1; 1; 8]]
         ∧ PmpwmAnalysis.cross_confused [[8; 1; 1]; [0; 9; 1]; [1; 1; 8]] p
         ∧ PmpwmAnalysis.level_pair p = (i, j)
         ∧ v = Py.round (PmpwmAnalysis.pair_mean [14; 22; 37] p)).
Proof.
  apply (recommend_follows_reference _ _ 3).
  - split; [reflexivity | repeat constructor].
  - reflexivity.
Defined.

Lemma normalise_zero_row (n : nat) :
  PmpwmAnalysis.normalise_row (replicate n 0) = replicate n 0%Qc.
Proof.
  unfold PmpwmAnalysis.normalise_row.
  replace (Py.sumZ (replicate n 0)) with 0.
  - rewrite fmap_replicate. f_equal.
  - induction n as [|n IH]; [done|]. simpl. by rewrite <- IH.
Qed.

Lemma round_to_zero : Py.round_to 4 (Py.binary64 0%Qc) = 0%Qc.
Proof. by apply Qc_is_canon. Qed.

Lemma around_zero : Py.around 4 (Py.binary64 0%Qc) = 0%Qc.
Proof. by apply Qc_is_canon. Qed.

Lemma sumZ_zero_row (n : nat) : Py.sumZ (replicate n 0) = 0.
Proof. induction n as [|n IH]; [done|]. simpl. by rewrite IH. Qed.

(** C10.  [analyse_cm] returns a result on every square integer matrix (with
    one intensity per category).  In the result, every row of the
    normalized matrix is the row of the counts divided by max(1, row sum)
    (then rounded to four digits), and the accuracy of the category is its
    diagonal count divided likewise; a category whose row holds no trial
    gets a normalized row of zeros and the accuracy 0. *)
Theorem analyse_cm_total (cm : list (list Z)) (pwm_vals : list Z) (n : nat) :
  PmpwmAnalysis.square n cm →
  length pwm_vals = n →
  ∃ r, PmpwmAnalysis.analyse_cm cm pwm_vals = Some r
    ∧ length (PmpwmAnalysis.confusion_norm r) = n
    ∧ (PmpwmAnalysis.accuracy r).*1 = PmpwmAnalysis.level <$> seq 0 n
    ∧ (∀ i row, cm !! i = Some row →
         PmpwmAnalysis.confusion_norm r !! i
         = Some ((λ c, Py.around 4
                         (Py.binary64 (Qc_of_Z c / Qc_of_Z (Z.max 1 (Py.sumZ row)))%Qc))
                   <$> row)
         ∧ PmpwmAnalysis.accuracy r !! i
           = Some (PmpwmAnalysis.level i,
                   Py.round_to 4
                     (Py.binary64 (Qc_of_Z (PmpwmAnalysis.cell cm i i)
                                   / Qc_of_Z (Z.max 1 (Py.sumZ row)))%Qc)))
    ∧ (∀ i, cm !! i = Some (replicate n 0) →
         PmpwmAnalysis.confusion_norm r !! i = Some (replicate n 0%Qc)
         ∧ PmpwmAnalysis.accuracy r !! i = Some (PmpwmAnalysis.level i, 0%Qc)).
Proof.
  intros Hsq Hlen. eexists. split; [by apply PmpwmAnalysisFacts.analyse_cm_ok|].
  simpl.
  assert (∀ i row, cm !! i = Some row →
            prod_map id (Py.round_to 4 ∘ Py.binary64) <$> PmpwmAnalysis.acc_dict cm n !! i
            = Some (PmpwmAnalysis.level i,
                    Py.round_to 4
                      (Py.binary64 (Qc_of_Z (PmpwmAnalysis.cell cm i i)
                                    / Qc_of_Z (Z.max 1 (Py.sumZ row)))%Qc))) as Hacc.
  { intros i row Hrow.
    assert (i < n)%nat as Hi.
    { destruct Hsq as [<- _]. by eapply lookup_lt_Some. }
    unfold PmpwmAnalysis.acc_dict. rewrite list_lookup_fmap.
    rewrite lookup_seq_lt by done. simpl.
    unfold PmpwmAnalysis.category_accuracy, PmpwmAnalysis.norm. by rewrite Hrow. }
  split; [|split; [|split]].
  - unfold PmpwmAnalysis.normalise. rewrite !length_fmap. by destruct Hsq.
  - unfold PmpwmAnalysis.acc_dict. rewrite <- !list_fmap_compose.
    by apply list_fmap_ext.
  - intros i row Hrow. split; [|rewrite list_lookup_fmap; by apply Hacc].
    unfold PmpwmAnalysis.normalise. rewrite !list_lookup_fmap, Hrow. simpl.
    unfold PmpwmAnalysis.normalise_row. rewrite <- list_fmap_compose.
    by rewrite Z.max_comm.
  - intros i Hrow. split.
    + unfold PmpwmAnalysis.normalise. rewrite !list_lookup_fmap, Hrow. simpl.
      rewrite normalise_zero_row, fmap_replicate. simpl. by rewrite around_zero.
    + rewrite list_lookup_fmap, (Hacc i _ Hrow). do 2 f_equal.
      assert (i < n)%nat as Hi.
      { destruct Hsq as [<- _]. by eapply lookup_lt_Some. }
      unfold PmpwmAnalysis.cell. rewrite Hrow. simpl.
      rewrite lookup_replicate_2 by done. simpl. rewrite sumZ_zero_row.
      transitivity (Py.round_to 4 (Py.binary64 0%Qc)); [do 2 f_equal; by apply Qc_is_canon|].
      apply round_to_zero.
Qed.

Lemma analyse_cm_total_witness :
  ∃ r, PmpwmAnalysis.analyse_cm [[3; 1]; [0; 0]] [14; 22] = Some r
    ∧ length (PmpwmAnalysis.confusion_norm r) = 2%nat
    ∧ (PmpwmAnalysis.accuracy r).*1 = PmpwmAnalysis.level <$> seq 0 2
    ∧ (∀ i row, [[3; 1]; [0; 0]] !! i = Some row →
         PmpwmAnalysis.confusion_norm r !! i
         = Some ((λ c, Py.around 4
                         (Py.binary64 (Qc_of_Z c / Qc_of_Z (Z.max 1 (Py.sumZ row)))%Qc))
                   <$> row)
         ∧ PmpwmAnalysis.accuracy r !! i
           = Some (PmpwmAnalysis.level i,
                   Py.round_to 4
                     (Py.binary64 (Qc_of_Z (PmpwmAnalysis.cell [[3; 1]; [0; 0]]%Z i i)
                                   / Qc_of_Z (Z.max 1 (Py.sumZ row)))%Qc)))
    ∧ (∀ i, [[3; 1]; [0; 0]] !! i = Some (replicate 2 0) →
         PmpwmAnalysis.confusion_norm r !! i = Some (replicate 2 0%Qc)
         ∧ PmpwmAnalysis.accuracy r !! i = Some (PmpwmAnalysis.level i, 0%Qc)).
Proof.
  apply (analyse_cm_total _ _ 2).
  - split; [reflexivity | repeat constructor].
  - reflexivity.
Defined.

(** The two roundings of the result differ on a tie: 1/160 is a float just
    above 0.00625, which Python's [round] takes up to 0.0063 in the accuracy
    dictionary, while numpy's [round] multiplies by 10000 first, gets the
    float 62.5 and takes it to the even 62 in the normalized matrix. *)
Example analyse_cm_rounds_floats :
  ∃ r, PmpwmAnalysis.analyse_cm [[1; 159]; [0; 160]] [14; 22] = Some r
    ∧ PmpwmAnalysis.accuracy r
      = [(1, (Qc_of_Z 63 / Qc_of_Z 10000)%Qc); (2, Qc_of_Z 1)]
    ∧ PmpwmAnalysis.confusion_norm r
      = [[(Qc_of_Z 62 / Qc_of_Z 10000)%Qc; (Qc_of_Z 9938 / Qc_of_Z 10000)%Qc];
         [Qc_of_Z 0; Qc_of_Z 1]].
Proof.
  eexists. split.
  { apply (PmpwmAnalysisFacts.analyse_cm_ok _ _ 2);
      [split; [reflexivity | repeat constructor] | reflexivity]. }
  simpl. split.
  - unfold PmpwmAnalysis.acc_dict. simpl.
    repeat f_equal; apply Qc_is_canon; by vm_compute.
  - repeat f_equal; apply Qc_is_canon; by vm_compute.
Qed.

(** ** The spatial outcome reducer *)

Module SpatialAnalysisFacts.
Import SpatialAnalysis.

Lemma stats_snoc answers tp :
  stats_of (answers ++ [tp]) = record_answer (stats_of answers) tp.
Proof. unfold stats_of. by rewrite foldl_app. Qed.

Lemma sum_over_insert (f : tally → Z) (m : gmap Z tally) (k : Z) (v : tally) :
  f empty_tally = 0 →
  sum_over f (<[k := v]> m) = sum_over f m - f (default empty_tally (m !! k)) + f v.
Proof.
  intros Hf. unfold sum_over.
  destruct (m !! k) as [v0|] eqn:Hk; simpl.
  - rewrite (map_fold_delete_L _ _ k v0 m); [|intros; lia|done].
    rewrite <- (insert_delete_eq m k v).
    rewrite map_fold_insert_L; [lia|intros; lia|apply lookup_delete_eq].
  - rewrite map_fold_insert_L; [lia|intros; lia|done].
Qed.

Lemma filter_snoc_length {A} (P : A → Prop) `{∀ x, Decision (P x)} (l : list A) (x : A) :
  Z.of_nat (length (filter P (l ++ [x])))
  = Z.of_nat (length (filter P l)) + (if decide (P x) then 1 else 0).
Proof.
  rewrite filter_app, length_app, filter_cons, filter_nil.
  destruct (decide (P x)); simpl; lia.
Qed.

Lemma hit_or_miss (r p : Z) :
  (if bool_decide (r = p) then 1 else 0) = (if decide (r = r ∧ p = r) then 1 else 0).
Proof.
  destruct (decide (r = p)) as [->|?].
  - rewrite bool_decide_eq_true_2 by done. by rewrite decide_True.
  - rewrite bool_decide_eq_false_2 by done. rewrite decide_False; [done|].
    intros [_ ?]. congruence.
Qed.

Lemma correct_le_trials (r : Z) (answers : list (Z * Z)) :
  0 ≤ correct_of r answers ≤ trials_of r answers.
Proof.
  unfold correct_of, trials_of. split; [lia|].
  induction answers as [|tp answers IH]; [done|].
  rewrite !filter_cons.
  destruct (decide (tp.1 = r)), (decide (tp.1 = r ∧ tp.2 = r)); simpl; try lia.
Qed.

(** The tallies of every region agree with the counts of the answer list. *)
Lemma stats_counts (answers : list (Z * Z)) (r : Z) :
  match stats_of answers !! r with
  | Some st => total st = trials_of r answers ∧ correct st = correct_of r answers
               ∧ 0 < trials_of r answers
  | None => trials_of r answers = 0
  end.
Proof.
  induction answers as [|[t p] answers IH] using rev_ind; [done|].
  rewrite stats_snoc. unfold record_answer, trials_of, correct_of in *.
  rewrite !filter_snoc_length. simpl.
  destruct (decide (t = r)) as [->|Hne].
  - rewrite lookup_insert_eq. simpl.
    rewrite hit_or_miss.
    try rewrite (decide_True (P := r = r)) by done.
    destruct (stats_of answers !! r) as [st|]; simpl.
    + destruct IH as (-> & -> & ?). repeat split; first [done | lia].
    + pose proof (correct_le_trials r answers) as Hle.
      unfold trials_of, correct_of in Hle.
      generalize dependent (if decide (r = r ∧ p = r) then 1 else 0). intros d.
      repeat split; lia.
  - rewrite lookup_insert_ne by done.
    try rewrite (decide_False (P := t = r)) by done.
    rewrite (decide_False (P := t = r ∧ p = r)) by (by intros [? ?]).
    destruct (stats_of answers !! r) as [st|]; [|lia].
    destruct IH as (-> & -> & ?). repeat split; lia.
Qed.

Lemma stats_totals (answers : list (Z * Z)) :
  sum_over total (stats_of answers) = Z.of_nat (length answers)
  ∧ sum_over correct (stats_of answers) = correct_answers answers.
Proof.
  induction answers as [|[t p] answers [IHt IHc]] using rev_ind; [done|].
  rewrite stats_snoc. unfold record_answer, correct_answers in *.
  rewrite !sum_over_insert by done. simpl.
  rewrite IHt, IHc, filter_snoc_length, length_app. simpl.
  split; [lia|].
  destruct (decide (t = p)) as [->|?].
  - rewrite bool_decide_eq_true_2 by done. lia.
  - rewrite bool_decide_eq_false_2 by done. lia.
Qed.

End SpatialAnalysisFacts.

(** C8.  The overall mean accuracy of [analyse_spatial] is the number of
    correct answers divided by the number of trials (by 1 for an empty
    answer list), each region that occurs has the accuracy
    correct-in-region / trials-in-region, and the overall mean differs from
    the arithmetic mean of the per-region accuracies when the regions
    received unequal trial counts. *)
Theorem spatial_mean_is_trial_weighted :
  (∀ answers : list (Z * Z),
     SpatialAnalysis.mean_accuracy (SpatialAnalysis.analyse_spatial answers)
     = (Qc_of_Z (SpatialAnalysis.correct_answers answers)
          / Qc_of_Z (Z.max 1 (Z.of_nat (length answers))))%Qc
     ∧ ∀ r : Z,
         SpatialAnalysis.accuracy <$>
           SpatialAnalysis.regions (SpatialAnalysis.analyse_spatial answers) !! r
         = if decide (SpatialAnalysis.trials_of r answers = 0) then None
           else Some (Qc_of_Z (SpatialAnalysis.correct_of r answers)
                        / Qc_of_Z (SpatialAnalysis.trials_of r answers))%Qc)
  ∧ ∃ answers : list (Z * Z),
      let r := SpatialAnalysis.analyse_spatial answers in
      SpatialAnalysis.mean_accuracy r = (Qc_of_Z 3 / Qc_of_Z 4)%Qc
      ∧ SpatialAnalysis.mean_of_region_accuracies r = Some (1 / 2)%Qc.
Proof.
  split.
  - intros answers. unfold SpatialAnalysis.analyse_spatial. simpl.
    fold (SpatialAnalysis.stats_of answers).
    destruct (SpatialAnalysisFacts.stats_totals answers) as [-> ->].
    split; [done|]. intros r.
    rewrite lookup_fmap.
    pose proof (SpatialAnalysisFacts.stats_counts answers r) as Hr.
    destruct (SpatialAnalysis.stats_of answers !! r) as [st|]; simpl.
    + destruct Hr as (Ht & Hc & Hpos).
      rewrite decide_False by lia. unfold SpatialAnalysis.with_accuracy. simpl.
      rewrite Ht, Hc. do 3 f_equal. lia.
    + by rewrite decide_True.
  - exists [(1, 1); (1, 1); (1, 1); (2, 1)]. by vm_compute.
Qed.

(** ** Worker threads: the primitives *)

Module ThreadFacts.
Import Thread.

Section facts.
Context {A : Type}.

Lemma bind_done {R S} (m : thread A R) (k : R → thread A S) w r w' :
  m w = Done r w' → (m ≫= k) w = k r w'.
Proof. intros H. unfold mbind, thread_bind. by rewrite H. Qed.

Lemma bind_unfold {R S} (m : thread A R) (k : R → thread A S) w :
  (m ≫= k) w = match m w with
               | Done r w' => k r w'
               | Raised e w' => Raised e w'
               | Polling w' => Polling w'
               end.
Proof. done. Qed.

Lemma with_rng_idem rs rs' (w : world A) : with_rng rs (with_rng rs' w) = with_rng rs w.
Proof. done. Qed.

Lemma randbelow_spec (n : nat) (w : world A) :
  (0 < n)%nat →
  ∃ j rs, randbelow n w = Done j (with_rng rs w) ∧ (j < n)%nat.
Proof.
  intros Hn. eexists _, _. split; [reflexivity|].
  apply Nat.mod_upper_bound. lia.
Qed.

Lemma swap_perm {T} (x : list T) (i j : nat) : swap x i j ≡ₚ x.
Proof.
  unfold swap.
  destruct (x !! i) as [xi|] eqn:Hi; [|done].
  destruct (x !! j) as [xj|] eqn:Hj; [|done].
  by apply Permutation_insert_swap.
Qed.

Lemma shuffle_from_spec {T} (i : nat) (x : list T) (w : world A) :
  ∃ x' rs, shuffle_from i x w = Done x' (with_rng rs w) ∧ x' ≡ₚ x.
Proof.
  revert x w. induction i as [|i IH]; intros x w.
  - exists x, (rng w). split; [by destruct w|done].
  - destruct (randbelow_spec (S (S i)) w) as (j & rs & Hj & _); [lia|].
    destruct (IH (swap x (S i) j) (with_rng rs w)) as (x' & rs' & Hx' & Hperm).
    exists x', rs'. split.
    + cbn [shuffle_from]. rewrite (bind_done _ _ _ _ _ Hj). by rewrite Hx'.
    + by rewrite Hperm, swap_perm.
Qed.

Lemma shuffle_spec {T} (x : list T) (w : world A) :
  ∃ x' rs, shuffle x w = Done x' (with_rng rs w) ∧ x' ≡ₚ x.
Proof. apply shuffle_from_spec. Qed.

Lemma replace_perm {T} (l : list T) (j : nat) (x y : T) :
  l !! j = Some x → x :: <[j := y]> l ≡ₚ y :: l.
Proof.
  revert j. induction l as [|z l IH]; intros [|j] Hj; simplify_eq/=.
  - apply perm_swap.
  - rewrite perm_swap. rewrite (IH j Hj). apply perm_swap.
Qed.

(** One step of the pool selection keeps the first [n] cells of the pool
    together: the cell drawn plus the first [n - 1] cells that remain. *)
Lemma pool_step {T} (pool : list T) (n j : nat) (pj plast : T) :
  (j < n)%nat → pool !! j = Some pj → pool !! (n - 1)%nat = Some plast →
  pj :: take (n - 1) (<[j := plast]> pool) ≡ₚ take n pool.
Proof.
  intros Hj Hpj Hlast.
  replace n with (S (n - 1)) at 2 by lia.
  rewrite (take_S_r _ _ _ Hlast).
  destruct (decide (j = n - 1)%nat) as [->|Hne].
  - rewrite take_insert_ge by lia. simplify_eq. by rewrite Permutation_cons_append.
  - rewrite take_insert_lt by lia.
    rewrite replace_perm by (rewrite lookup_take_lt by lia; done).
    by rewrite Permutation_cons_append.
Qed.

Lemma sample_from_spec {T} (k : nat) (pool : list T) (n : nat) (w : world A) :
  (k ≤ n)%nat → (n ≤ length pool)%nat →
  ∃ extra rest rs, sample_from k pool n w = Done extra (with_rng rs w)
                   ∧ length extra = k ∧ extra ++ rest ≡ₚ take n pool.
Proof.
  revert pool n w. induction k as [|k IH]; intros pool n w Hk Hn.
  - exists [], (take n pool), (rng w). split; [by destruct w|done].
  - destruct (randbelow_spec n w) as (j & rs & Hj & Hlt); [lia|].
    destruct (lookup_lt_is_Some_2 pool j) as [pj Hpj]; [lia|].
    destruct (lookup_lt_is_Some_2 pool (n - 1)) as [plast Hlast]; [lia|].
    destruct (IH (<[j := plast]> pool) (n - 1)%nat (with_rng rs w))
      as (extra & rest & rs' & Hrec & Hlen & Hperm); [lia|rewrite length_insert; lia|].
    exists (pj :: extra), rest, rs'. split; [|split].
    + cbn [sample_from]. rewrite (bind_done _ _ _ _ _ Hj).
      rewrite Hpj, Hlast. rewrite (bind_done _ _ _ _ _ Hrec). done.
    + simpl. by rewrite Hlen.
    + simpl. rewrite Hperm. by apply pool_step.
Qed.

Lemma sample_spec {T} (population : list T) (k : Z) (w : world A) :
  0 ≤ k ≤ Z.of_nat (length population) →
  ∃ extra rest rs, sample population k w = Done extra (with_rng rs w)
                   ∧ Z.of_nat (length extra) = k ∧ extra ++ rest ≡ₚ population.
Proof.
  intros Hk. unfold sample.
  replace (0 <=? k) with true by (symmetry; apply Z.leb_le; lia).
  replace (k <=? Z.of_nat (length population)) with true by (symmetry; apply Z.leb_le; lia).
  simpl.
  destruct (sample_from_spec (Z.to_nat k) population (length population) w)
    as (extra & rest & rs & Hs & Hlen & Hperm); [lia|lia|].
  exists extra, rest, rs. split; [done|]. split; [lia|].
  by rewrite firstn_all in Hperm.
Qed.

(** *** World transformers and the primitives that compute them *)

Lemma emit_done (e : event) (w : world A) : emit e w = Done () (add_log [e] w).
Proof. done. Qed.

Lemma set_pwm_values_done (arr : list Z) (w : world A) :
  ser (vibro w) = true → Z.of_nat (length arr) = n_motors (vibro w) →
  set_pwm_values arr w = Done () (written arr w).
Proof.
  intros Hser Hlen. unfold set_pwm_values, _write_array.
  rewrite bool_decide_eq_true_2 by done. by rewrite Hser.
Qed.

Lemma length_zeros (n : Z) : 0 ≤ n → Z.of_nat (length (zeros n)) = n.
Proof. intros. unfold zeros. rewrite length_replicate. lia. Qed.

Lemma reset_done (w : world A) :
  ser (vibro w) = true → 0 ≤ n_motors (vibro w) →
  reset_pwm_values w = Done () (written (zeros (n_motors (vibro w))) w).
Proof.
  intros. unfold reset_pwm_values. apply set_pwm_values_done; [done|].
  by apply length_zeros.
Qed.

Lemma blink_done (val : Z) (w : world A) :
  ser (vibro w) = true → 0 ≤ n_motors (vibro w) →
  blink val w
  = Done () (written (zeros (n_motors (vibro w)))
               (written (replicate (Z.to_nat (n_motors (vibro w))) val) w)).
Proof.
  intros Hser Hn. unfold blink. rewrite bind_unfold. cbv beta iota.
  rewrite bind_unfold, set_pwm_values_done by (rewrite ?length_replicate; done || lia).
  by rewrite reset_done.
Qed.

Lemma deliver_vibro b (w : world A) : vibro (deliver b w) = vibro w.
Proof. revert w. induction b as [|[a|] b IH]; intros w; simpl; [done|by rewrite IH..]. Qed.

Lemma deliver_rng b (w : world A) : rng (deliver b w) = rng w.
Proof. revert w. induction b as [|[a|] b IH]; intros w; simpl; [done|by rewrite IH..]. Qed.

Lemma deliver_log b (w : world A) : log (deliver b w) = log w.
Proof. revert w. induction b as [|[a|] b IH]; intros w; simpl; [done|by rewrite IH..]. Qed.

Lemma deliver_results b (w : world A) : results (deliver b w) = results w.
Proof. revert w. induction b as [|[a|] b IH]; intros w; simpl; [done|by rewrite IH..]. Qed.

Lemma deliver_gui b (w : world A) : gui (deliver b w) = gui w.
Proof. revert w. induction b as [|[a|] b IH]; intros w; simpl; [done|by rewrite IH..]. Qed.

(** [_stop] is never reset. *)
Lemma deliver_stop_mono b (w : world A) : _stop w = true → _stop (deliver b w) = true.
Proof. revert w. induction b as [|[a|] b IH]; intros w Hw; simpl; [done|by apply IH..]. Qed.

Lemma deliver_stop b (w : world A) : Stop ∈ b → _stop (deliver b w) = true.
Proof.
  revert w. induction b as [|c b IH]; intros w; [by intros ?%elem_of_nil|].
  intros [<-|Hb]%elem_of_cons; simpl.
  - by apply deliver_stop_mono.
  - by apply IH.
Qed.

Lemma stop_requested_done b g (w : world A) :
  gui w = b :: g →
  stop_requested w = Done (_stop (deliver b (set_gui g w))) (deliver b (set_gui g w)).
Proof. intros Hg. unfold stop_requested, sync. by rewrite Hg. Qed.

Lemma set_gui_idem g g' (w : world A) : set_gui g (set_gui g' w) = set_gui g w.
Proof. done. Qed.

(** The polling loop sleeps through [k] polls without GUI activity and ends
    at the first batch [b] that brings an answer or a stop request. *)
Lemma poll_decided (empty : A → bool) (k : nat) b tail (w : world A) :
  empty (_answer w) = true → _stop w = false →
  empty (_answer (deliver b (set_gui tail w))) && negb (_stop (deliver b (set_gui tail w)))
  = false →
  poll empty (replicate k [] ++ b :: tail) w = Done () (deliver b (set_gui tail w)).
Proof.
  intros He Hs Hb. induction k as [|k IH]; simpl.
  - by rewrite Hb.
  - rewrite He, Hs. simpl. destruct k; apply IH.
Qed.

Lemma wait_while_decided (empty : A → bool) (k : nat) b tail (w : world A) :
  gui w = replicate k [] ++ b :: tail →
  empty (_answer w) = true → _stop w = false →
  empty (_answer (deliver b (set_gui tail w))) && negb (_stop (deliver b (set_gui tail w)))
  = false →
  wait_while empty w = Done () (deliver b (set_gui tail w)).
Proof. intros Hg ???. unfold wait_while. rewrite Hg. by apply poll_decided. Qed.

(** *** What a thread can emit, whatever the schedule and the outcome *)

Lemma emits_silent {R} (P : event → Prop) (m : thread A R) :
  (∀ w, log (final (m w)) = log w) → emits P m.
Proof. intros Hm w. exists []. by rewrite Hm, app_nil_r. Qed.

Lemma emits_ret {R} (P : event → Prop) (r : R) : emits P (mret r : thread A R).
Proof. by apply emits_silent. Qed.

Lemma emits_raise {R} (P : event → Prop) (e : Py.exn) : emits P (raise e : thread A R).
Proof. by apply emits_silent. Qed.

Lemma emits_bind {R S} (P : event → Prop) (m : thread A R) (k : R → thread A S) :
  emits P m → (∀ r, emits P (k r)) → emits P (m ≫= k).
Proof.
  intros Hm Hk w. rewrite bind_unfold.
  destruct (Hm w) as (evs1 & Hlog1 & HP1).
  destruct (m w) as [r w1|e w1|w1]; simpl in *; [|by exists evs1..].
  destruct (Hk r w1) as (evs2 & Hlog2 & HP2).
  exists (evs1 ++ evs2). rewrite Hlog2, Hlog1, app_assoc. split; [done|].
  by apply Forall_app.
Qed.

Lemma emits_emit (P : event → Prop) (e : event) : P e → emits P (emit (A:=A) e).
Proof. intros He w. exists [e]. split; [done|]. by constructor. Qed.

Lemma poll_log (empty : A → bool) g (w : world A) : log (final (poll empty g w)) = log w.
Proof.
  revert w. induction g as [|b g IH]; intros w; cbn [poll]; cbv zeta.
  - by destruct (_ && _).
  - destruct (_ && _); [rewrite IH|cbn [final]]; by rewrite deliver_log.
Qed.

Lemma emits_wait_while (P : event → Prop) (empty : A → bool) : emits P (wait_while empty).
Proof. apply emits_silent. intros w. apply poll_log. Qed.

Lemma emits_stop_requested (P : event → Prop) : emits P (stop_requested (A:=A)).
Proof.
  apply emits_silent. intros w. unfold stop_requested, sync.
  destruct (gui w); cbn [final]; [done|]. by rewrite deliver_log.
Qed.

Lemma emits_stop_flag (P : event → Prop) : emits P (stop_flag (A:=A)).
Proof. by apply emits_silent. Qed.

Lemma emits_answer (P : event → Prop) : emits P (answer (A:=A)).
Proof. by apply emits_silent. Qed.

Lemma emits_clear_answer (P : event → Prop) (a : A) : emits P (clear_answer a).
Proof. by apply emits_silent. Qed.

Lemma emits_randbelow (P : event → Prop) (n : nat) : emits P (randbelow (A:=A) n).
Proof. by apply emits_silent. Qed.

Lemma emits_shuffle_from {T} (P : event → Prop) (i : nat) (x : list T) :
  emits P (shuffle_from (A:=A) i x).
Proof.
  revert x. induction i as [|i IH]; intros x; [apply emits_ret|].
  cbn [shuffle_from]. apply emits_bind; [apply emits_randbelow|]. intros j. apply IH.
Qed.

Lemma emits_shuffle {T} (P : event → Prop) (x : list T) : emits P (shuffle (A:=A) x).
Proof. apply emits_shuffle_from. Qed.

Lemma emits_set_pwm_values (P : event → Prop) (arr : list Z) :
  P (Written arr) → emits P (set_pwm_values (A:=A) arr).
Proof.
  intros HP w. unfold set_pwm_values, _write_array.
  case_bool_decide; [|exists []; simpl; by rewrite app_nil_r].
  destruct (ser (vibro w)); [|exists []; simpl; by rewrite app_nil_r].
  exists [Written arr]. split; [done|]. by constructor.
Qed.

Lemma emits_reset (P : event → Prop) :
  (∀ arr, P (Written arr)) → emits P (reset_pwm_values (A:=A)).
Proof. intros HP w. unfold reset_pwm_values. by apply emits_set_pwm_values. Qed.

Lemma emits_blink (P : event → Prop) (val : Z) :
  (∀ arr, P (Written arr)) → emits P (blink (A:=A) val).
Proof.
  intros HP. unfold blink. apply emits_bind; [by apply emits_silent|]. intros n.
  apply emits_bind; [by apply emits_set_pwm_values|]. intros _. by apply emits_reset.
Qed.

Lemma emits_begin_end_indicator (P : event → Prop) :
  P BeginEndIndicator → (∀ arr, P (Written arr)) → emits P (begin_end_indicator (A:=A)).
Proof.
  intros H1 H2. unfold begin_end_indicator.
  apply emits_bind; [by apply emits_emit|]. intros _.
  apply emits_bind; [by apply emits_blink|]. intros _. by apply emits_blink.
Qed.

End facts.

(** One step of a monadic computation whose first action is known. *)
Ltac step_with H :=
  rewrite bind_unfold; rewrite H; cbv beta iota.

End ThreadFacts.

(** ** The stimulus sequencers *)

Lemma region_pool_NoDup (h : Config.hyps) (mode : string) (uses : list Z) :
  SpatialWorker.region_pool h mode = Some uses → NoDup uses.
Proof.
  unfold SpatialWorker.region_pool. case_bool_decide.
  - apply PyFacts.range3_NoDup.
  - intros [= <-]. apply PyFacts.range2_NoDup.
Qed.

(** C4.  For a region pool [uses] of size U >= 1 and a sample count S >= 0,
    the presentation sequence of the spatial test is a shuffle of q = S // U
    full cycles of the pool plus r = S mod U extra regions that are distinct
    members of the pool; its length is S. *)
Theorem spatial_sequence_balanced (h : Config.hyps) (mode : string) (uses : list Z)
    (w : Thread.world (option Z)) :
  SpatialWorker.region_pool h mode = Some uses →
  uses ≠ [] →
  0 ≤ Config.max_counter_samples h →
  ∃ seq extra w',
    SpatialWorker.presentation_sequence uses (Config.max_counter_samples h) w
    = Thread.Done seq w'
    ∧ seq ≡ₚ concat (replicate
                       (Z.to_nat (Config.max_counter_samples h `div` Z.of_nat (length uses)))
                       uses) ++ extra
    ∧ Z.of_nat (length extra) = Config.max_counter_samples h `mod` Z.of_nat (length uses)
    ∧ NoDup extra
    ∧ extra ⊆ uses
    ∧ Z.of_nat (length seq) = Config.max_counter_samples h.
Proof.
  intros Hpool Hne HS.
  pose proof (region_pool_NoDup _ _ _ Hpool) as Hnodup.
  set (S := Config.max_counter_samples h) in *.
  set (U := Z.of_nat (length uses)).
  assert (0 < U) as HU by (destruct uses; [done|]; subst U; simpl; lia).
  pose proof (Z.mod_pos_bound S U HU) as Hr.
  pose proof (Z.div_pos S U HS HU) as Hq.
  pose proof (Z.div_mod S U ltac:(lia)) as Hdm.
  unfold SpatialWorker.presentation_sequence, Py.divmod. fold U.
  assert (Hfinish : ∀ extra rs,
    Z.of_nat (length extra) = S `mod` U → NoDup extra → extra ⊆ uses →
    ∃ seq w', Thread.shuffle (concat (replicate (Z.to_nat (S `div` U)) uses) ++ extra)
                (Thread.with_rng rs w) = Thread.Done seq w'
      ∧ seq ≡ₚ concat (replicate (Z.to_nat (S `div` U)) uses) ++ extra
      ∧ Z.of_nat (length seq) = S).
  { intros extra rs Hlen _ _.
    destruct (ThreadFacts.shuffle_spec
                (concat (replicate (Z.to_nat (S `div` U)) uses) ++ extra)
                (Thread.with_rng rs w)) as (seq & rs' & Hsh & Hperm).
    eexists seq, _. split; [done|]. split; [done|].
    rewrite Hperm, length_app, PyFacts.length_cycles. subst U. nia. }
  destruct (Z.ltb_spec 0 (S `mod` U)) as [Hpos|Hzero].
  - destruct (ThreadFacts.sample_spec uses (S `mod` U) w)
      as (extra & rest & rs & Hs & Hlen & Hperm); [subst U; lia|].
    assert (NoDup extra) as Hnd.
    { rewrite <- Hperm in Hnodup. by apply NoDup_app in Hnodup as (? & _ & _). }
    assert (extra ⊆ uses) as Hsub.
    { intros x Hx. rewrite <- Hperm. apply elem_of_app. by left. }
    destruct (Hfinish extra rs Hlen Hnd Hsub) as (seq & w' & Hsh & Hperm' & Hlen').
    exists seq, extra, w'. split; [|done].
    rewrite ThreadFacts.bind_unfold.
    rewrite (ThreadFacts.bind_done _ _ _ _ _ Hs). done.
  - destruct (Hfinish [] (Thread.rng w)) as (seq & w' & Hsh & Hperm' & Hlen');
      [simpl; lia|constructor|set_solver|].
    exists seq, [], w'. split; [|repeat split; [done|simpl; lia|constructor|set_solver|done]].
    rewrite ThreadFacts.bind_unfold. rewrite app_nil_r in Hsh.
    replace (Thread.with_rng (Thread.rng w) w) with w in Hsh by (by destruct w).
    done.
Qed.

Lemma spatial_sequence_balanced_witness :
  ∃ seq extra w',
    SpatialWorker.presentation_sequence [0; 1; 2; 3] 10
      (SpatialWorker.fresh Sample.box [] [5; 7; 1; 2; 3; 9; 4; 4; 1; 0; 2]%nat)
    = Thread.Done seq w'
    ∧ seq ≡ₚ concat (replicate 2 [0; 1; 2; 3]) ++ extra
    ∧ Z.of_nat (length extra) = 2
    ∧ NoDup extra
    ∧ extra ⊆ [0; 1; 2; 3]
    ∧ Z.of_nat (length seq) = 10.
Proof.
  apply (spatial_sequence_balanced Sample.four_regions "single" [0; 1; 2; 3]).
  - reflexivity.
  - discriminate.
  - simpl. lia.
Defined.

(** C5, as the claim states it, fails: with the default hyperparameters
    (step 2) in single mode, motors 0 and 1 are both presented and both are
    recorded as region 1. *)
Lemma single_mode_regions_collide :
  let h := Config.default_hyps "anon" in
  ∃ uses m1 m2,
    SpatialWorker.region_pool h "single" = Some uses
    ∧ m1 ∈ uses ∧ m2 ∈ uses ∧ m1 ≠ m2
    ∧ SpatialWorker.true_region (Config.num_motor_start h) (Config.use_motors_step h) m1
      = SpatialWorker.true_region (Config.num_motor_start h) (Config.use_motors_step h) m2.
Proof.
  exists [0; 1; 2; 3; 4; 5], 0, 1.
  split; [reflexivity|]. split; [set_solver|]. split; [set_solver|]. done.
Qed.

(** C5, amended.  In single mode each presentation stimulates exactly one
    motor and the motors are enumerated with step 1 across the full range
    [start, end], each once.  The recorded region is
    (motor - start) // step + 1 with the configured step: for a positive
    step it is region k exactly on the block of [step] adjacent motors
    start + (k-1)*step .. start + k*step - 1.  So the motor-to-region
    mapping is injective when the configured step is 1, and for a larger
    step and a range of two motors or more the first two motors presented
    share region 1. *)
Theorem single_mode_regions (h : Config.hyps) :
  let start := Config.num_motor_start h in
  let step := Config.use_motors_step h in
  let pool := Py.range2 start (Config.num_motor_end h + 1) in
  SpatialWorker.region_pool h "single" = Some pool
  ∧ NoDup pool
  ∧ (∀ m, m ∈ pool ↔ start ≤ m ≤ Config.num_motor_end h)
  ∧ (∀ m0, SpatialWorker.stimulated "single" m0 = [m0])
  ∧ (0 < step → ∀ m k,
       SpatialWorker.true_region start step m = k
       ↔ start + (k - 1) * step ≤ m < start + k * step)
  ∧ (step = 1 → ∀ m1 m2,
       SpatialWorker.true_region start step m1 = SpatialWorker.true_region start step m2 →
       m1 = m2)
  ∧ (1 < step → start < Config.num_motor_end h →
       start ∈ pool ∧ start + 1 ∈ pool
       ∧ SpatialWorker.true_region start step start = 1
       ∧ SpatialWorker.true_region start step (start + 1) = 1).
Proof.
  intros start step pool.
  assert (∀ m, m ∈ pool ↔ start ≤ m ≤ Config.num_motor_end h) as Hpool.
  { intros m. unfold pool. rewrite PyFacts.elem_of_range2. lia. }
  split; [reflexivity|].
  split; [apply PyFacts.range2_NoDup|].
  split; [done|].
  split; [done|].
  split; [|split].
  - intros Hstep m k. unfold SpatialWorker.true_region.
    set (d := m - start).
    pose proof (Z.mul_div_le d step Hstep).
    pose proof (Z.mul_succ_div_gt d step Hstep).
    split.
    + intros <-. subst d. lia.
    + intros [Hlo Hhi].
      assert (d `div` step = k - 1); [|lia].
      symmetry. apply (Z.div_unique _ _ _ (d - (k - 1) * step)); subst d; lia.
  - intros -> m1 m2. unfold SpatialWorker.true_region. rewrite !Z.div_1_r. lia.
  - intros Hstep Hrange. rewrite !Hpool. unfold SpatialWorker.true_region.
    replace (start - start) with 0 by lia.
    replace (start + 1 - start) with 1 by lia.
    rewrite Z.div_0_l by lia. rewrite Z.div_small by lia. lia.
Qed.

Lemma single_mode_regions_witness :
  (SpatialWorker.true_region 0 2 3 = 2 ↔ 0 + (2 - 1) * 2 ≤ 3 < 0 + 2 * 2)
  ∧ 0 ∈ Py.range2 0 6 ∧ 0 + 1 ∈ Py.range2 0 6
  ∧ SpatialWorker.true_region 0 2 0 = 1
  ∧ SpatialWorker.true_region 0 2 (0 + 1) = 1.
Proof.
  destruct (single_mode_regions (Config.default_hyps "anon"))
    as (_ & _ & _ & _ & Hblock & _ & Hshared).
  split.
  - apply (Hblock ltac:(simpl; lia) 3 2).
  - apply Hshared; simpl; lia.
Defined.

Example default_single_regions :
  SpatialWorker.true_region 0 2 <$> [0; 1; 2; 3; 4; 5] = [1; 1; 2; 2; 3; 3].
Proof. reflexivity. Qed.

(** *** True level of the intensity-discrimination test *)

(** C6, as the claim states it, fails on a schedule that is not ascending:
    with the configured schedule [22; 14] the intensity 14 is recorded as
    level 2, its position in the configured order, while its rank in the
    sorted schedule is 1.  A run that presents 22 and then 14 on motor 0,
    answered "1" and "2", records the trials (1, 1) and (2, 2). *)
Lemma true_level_is_position :
  PMPWMWorker.true_level [22; 14] 14 = Some 2
  ∧ rank_in_sorted [22; 14] 14 = Some 1
  ∧ ∃ w, PMPWMWorker.run Sample.descending_schedule [0]
           (PMPWMWorker.fresh Sample.box [[Thread.SetAnswer (Some 1)]; [Thread.SetAnswer (Some 2)]] [1%nat])
         = Thread.Done () w
       ∧ Thread.results w = [(0, [(1, 1); (2, 2)])].
Proof.
  split; [done|]. split; [done|].
  eexists. split; [by vm_compute|]. done.
Qed.

(** ** The spatial worker *)

Module SpatialWorkerFacts.
Import Thread ThreadFacts SpatialWorker.

Lemma length_pulse (h : Config.hyps) (mot : Z) :
  0 ≤ Config.n_motors h → Z.of_nat (length (pulse h mot)) = Config.n_motors h.
Proof.
  intros Hn. unfold pulse. destruct (_ && _); rewrite ?length_insert; by apply length_zeros.
Qed.

Lemma vibrate_done (h : Config.hyps) (motors : list Z) (w : world (option Z)) :
  port_ok h w →
  vibrate h motors w = Done () (foldl (λ w mot, written (pulse h mot) w) w motors).
Proof.
  revert w. induction motors as [|mot motors IH]; intros w (Hser & Hn & Hn0); [done|].
  cbn [vibrate foldl].
  step_with (set_pwm_values_done (pulse h mot) w Hser
               ltac:(rewrite Hn; by apply length_pulse)).
  apply IH. by repeat split.
Qed.

Lemma vibrated_port (h : Config.hyps) (motors : list Z) (w : world (option Z)) :
  port_ok h w → port_ok h (foldl (λ w mot, written (pulse h mot) w) w motors).
Proof.
  revert w. induction motors as [|mot motors IH]; intros w Hw; [done|].
  simpl. apply IH. destruct Hw as (? & ? & ?). by repeat split.
Qed.

Lemma vibrated_log (h : Config.hyps) (motors : list Z) (w : world (option Z)) :
  log (foldl (λ w mot, written (pulse h mot) w) w motors)
  = log w ++ (Written ∘ pulse h <$> motors).
Proof.
  revert w. induction motors as [|mot motors IH]; intros w; simpl.
  - by rewrite app_nil_r.
  - rewrite IH. simpl. by rewrite <- app_assoc.
Qed.

Lemma vibrated_frame (h : Config.hyps) (motors : list Z) (w : world (option Z)) :
  let w' := foldl (λ w mot, written (pulse h mot) w) w motors in
  _stop w' = _stop w ∧ _answer w' = _answer w ∧ gui w' = gui w ∧ rng w' = rng w
  ∧ results w' = results w.
Proof.
  revert w. induction motors as [|mot motors IH]; intros w; simpl; [done|].
  destruct (IH (written (pulse h mot) w)) as (-> & -> & -> & -> & ->). done.
Qed.

(** From any point of the presentation loop: a stop request that arrives
    while the worker polls for the answer ends the loop with the answers
    collected so far. *)
Lemma spatial_cancel_in_wait (h : Config.hyps) (mode : string) (total : Z) (m0 : Z)
    (rest : list Z) (idx : Z) (answers : list (Z * Z)) (k : nat)
    (b : list (gui_call (option Z))) (tail : list (list (gui_call (option Z))))
    (w : world (option Z)) :
  port_ok h w → _stop w = false → Config.use_motors_step h ≠ 0 →
  gui w = [] :: replicate k [] ++ b :: tail → Stop ∈ b →
  ∃ w', present_loop h mode total (m0 :: rest) idx answers w = Done answers w'
    ∧ pwm (vibro w') = zeros (Config.n_motors h)
    ∧ port_ok h w'
    ∧ _stop w' = true
    ∧ gui w' = tail
    ∧ rng w' = rng w
    ∧ results w' = results w
    ∧ log w' = log w ++ presentation_events h mode total idx m0.
Proof.
  intros Hport Hstop Hstep Hgui Hb.
  pose proof Hport as (Hser & Hn & Hn0).
  cbn [present_loop].
  step_with (stop_requested_done _ _ w Hgui).
  cbn [deliver foldl]. cbn [_stop set_gui]. rewrite Hstop.
  step_with (emit_done (A:=option Z) (SpatialProgress (idx + 1) total)).
  destruct (Z.eqb_spec (Config.use_motors_step h) 0) as [|_]; [done|].
  set (w1 := add_log _ _).
  assert (port_ok h w1) as Hp1 by done.
  step_with (vibrate_done h (stimulated mode m0) w1 Hp1).
  set (w2 := foldl _ w1 _).
  pose proof (vibrated_port h (stimulated mode m0) w1 Hp1) as (Hser2 & Hn2 & _).
  pose proof (vibrated_frame h (stimulated mode m0) w1) as (Hs2 & Ha2 & Hg2 & Hr2 & Hres2).
  cbv zeta in Hs2, Ha2, Hg2, Hr2, Hres2. fold w2 in Hser2, Hn2, Hs2, Ha2, Hg2, Hr2, Hres2.
  pose proof (vibrated_log h (stimulated mode m0) w1) as Hlog2. fold w2 in Hlog2.
  step_with (reset_done w2 Hser2 ltac:(by rewrite Hn2)).
  rewrite bind_unfold. cbn [clear_answer]. cbv beta iota.
  step_with (emit_done (A:=option Z) AwaitingAnswer).
  set (w3 := add_log _ _).
  assert (_stop (deliver b (set_gui tail w3)) = true) as Hs3 by (by apply deliver_stop).
  rewrite bind_unfold.
  rewrite (wait_while_decided no_answer k b tail w3);
    [|subst w3; simpl; by rewrite Hg2|done|subst w3; simpl; by rewrite Hs2
     |rewrite Hs3; by rewrite andb_false_r].
  cbv beta iota.
  rewrite bind_unfold. cbn [stop_flag]. cbv beta iota.
  rewrite bind_unfold. cbn [answer]. cbv beta iota.
  rewrite Hs3.
  eexists. split; [reflexivity|].
  rewrite deliver_vibro, deliver_gui, deliver_rng, deliver_results, deliver_log.
  unfold port_ok. rewrite deliver_vibro. subst w3. simpl.
  rewrite Hn2, Hr2, Hres2, Hlog2. repeat split; try done.
  - by apply deliver_stop.
  - unfold presentation_events. subst w1. simpl. by rewrite <- !app_assoc.
Qed.

(** A stop request seen by the test before a presentation ends the loop. *)
Lemma spatial_cancel_before (h : Config.hyps) (mode : string) (total : Z) (m0 : Z)
    (rest : list Z) (idx : Z) (answers : list (Z * Z))
    (b : list (gui_call (option Z))) (tail : list (list (gui_call (option Z))))
    (w : world (option Z)) :
  gui w = b :: tail → Stop ∈ b →
  present_loop h mode total (m0 :: rest) idx answers w
  = Done answers (deliver b (set_gui tail w)).
Proof.
  intros Hgui Hb. cbn [present_loop].
  step_with (stop_requested_done _ _ w Hgui).
  by rewrite (deliver_stop b (set_gui tail w) Hb).
Qed.

Lemma no_indicator (h : Config.hyps) (mode : string) (total idx m0 : Z) :
  BeginEndIndicator ∉ presentation_events h mode total idx m0.
Proof.
  unfold presentation_events. rewrite !elem_of_app, list_elem_of_fmap.
  intros [?%list_elem_of_singleton|[(? & ? & _)|Hin]]; [done|done|].
  apply elem_of_cons in Hin as [?|?%list_elem_of_singleton]; done.
Qed.

End SpatialWorkerFacts.

(** ** The discrimination worker *)

Module PMPWMWorkerFacts.
Import Thread ThreadFacts PMPWMWorker.

Lemma length_setitem {T} (l l' : list T) (i : Z) (v : T) :
  Py.setitem l i v = Some l' → length l' = length l.
Proof.
  unfold Py.setitem. repeat case_match; intros [= <-]; by rewrite ?length_insert.
Qed.

(** The world in which the worker polls for the answer to the intensity [p]. *)
Lemma pmpwm_presented (h : Config.hyps) (motor p : Z) (seq' : list Z) (step_local : Z)
    (next : thread (option Z) unit) (arr : list Z) (w : world (option Z)) :
  ser (vibro w) = true → 0 ≤ n_motors (vibro w) →
  Py.setitem (zeros (n_motors (vibro w))) motor p = Some arr →
  ∃ w1, step_loop h motor (p :: seq') step_local next w
        = (wait_while no_answer;;
           s ← stop_flag;
           if s : bool then reset_pwm_values
           else
             a ← answer;
             match true_level (Config.pmpwm_pwm_values h) p with
             | None => raise Py.ValueError
             | Some lvl =>
                 match a with
                 | None => raise Py.TypeError
                 | Some a =>
                     append motor (lvl, a);;
                     step_loop h motor seq' (step_local + 1) next
                 end
             end) w1
    ∧ vibro w1 = {| n_motors := n_motors (vibro w); ser := true;
                    pwm := zeros (n_motors (vibro w)) |}
    ∧ _stop w1 = _stop w ∧ _answer w1 = None ∧ gui w1 = gui w ∧ rng w1 = rng w
    ∧ results w1 = results w
    ∧ log w1 = log w ++ presentation_events h (n_motors (vibro w)) motor step_local arr.
Proof.
  intros Hser Hn Harr.
  cbn [step_loop].
  step_with (emit_done (A:=option Z)
               (PmpwmProgress motor step_local
                  (Z.of_nat (length (Config.pmpwm_pwm_values h)) * Config.pmpwm_repeats h))).
  rewrite bind_unfold. cbv beta iota. cbn [vibro add_log]. rewrite Harr.
  set (w0 := add_log _ w).
  assert (Z.of_nat (length arr) = n_motors (vibro w0)) as Hlen.
  { rewrite (length_setitem _ _ _ _ Harr). by apply length_zeros. }
  step_with (set_pwm_values_done arr w0 Hser Hlen).
  step_with (reset_done (written arr w0) eq_refl Hn).
  rewrite bind_unfold. cbn [clear_answer]. cbv beta iota.
  step_with (emit_done (A:=option Z) AwaitingAnswer).
  eexists. split; [reflexivity|]. subst w0. simpl.
  repeat split; try done. unfold presentation_events. by rewrite <- !app_assoc.
Qed.

(** From any point of the loop over a motor's stimuli: a stop request that
    arrives while the worker polls for the answer ends the thread; the rest
    [next] of the run is not executed and [results] is left as it is. *)
Lemma pmpwm_cancel_in_wait (h : Config.hyps) (motor p : Z) (seq' : list Z) (step_local : Z)
    (next : thread (option Z) unit) (arr : list Z) (k : nat)
    (b : list (gui_call (option Z))) (tail : list (list (gui_call (option Z))))
    (w : world (option Z)) :
  ser (vibro w) = true → 0 ≤ n_motors (vibro w) →
  Py.setitem (zeros (n_motors (vibro w))) motor p = Some arr →
  _stop w = false →
  gui w = replicate k [] ++ b :: tail → Stop ∈ b →
  ∃ w', step_loop h motor (p :: seq') step_local next w = Done () w'
    ∧ pwm (vibro w') = zeros (n_motors (vibro w))
    ∧ _stop w' = true
    ∧ gui w' = tail
    ∧ rng w' = rng w
    ∧ results w' = results w
    ∧ log w' = log w ++ presentation_events h (n_motors (vibro w)) motor step_local arr
               ++ [Written (zeros (n_motors (vibro w)))].
Proof.
  intros Hser Hn Harr Hstop Hgui Hb.
  destruct (pmpwm_presented h motor p seq' step_local next arr w Hser Hn Harr)
    as (w1 & -> & Hv1 & Hs1 & Ha1 & Hg1 & Hr1 & Hres1 & Hlog1).
  assert (_stop (deliver b (set_gui tail w1)) = true) as Hs2 by (by apply deliver_stop).
  rewrite bind_unfold.
  rewrite (wait_while_decided no_answer k b tail w1);
    [|by rewrite Hg1|by rewrite Ha1|by rewrite Hs1|rewrite Hs2; by rewrite andb_false_r].
  cbv beta iota. rewrite bind_unfold. cbn [stop_flag]. cbv beta iota. rewrite Hs2.
  rewrite reset_done by (rewrite !deliver_vibro; simpl; by rewrite Hv1).
  eexists. split; [reflexivity|].
  rewrite !deliver_vibro. simpl.
  rewrite Hv1, deliver_rng, deliver_results, deliver_log, deliver_gui. simpl.
  rewrite Hr1, Hres1, Hlog1.
  repeat split; first [done | by apply deliver_stop | by rewrite <- !app_assoc].
Qed.

(** An answer that arrives while the worker polls is recorded with the
    level [pwm_values.index(p) + 1], and the loop goes on. *)
Lemma pmpwm_answered (h : Config.hyps) (motor p : Z) (seq' : list Z) (step_local : Z)
    (next : thread (option Z) unit) (arr : list Z) (k : nat) (a lvl : Z)
    (trials : list (Z * Z)) (tail : list (list (gui_call (option Z))))
    (w : world (option Z)) :
  ser (vibro w) = true → 0 ≤ n_motors (vibro w) →
  Py.setitem (zeros (n_motors (vibro w))) motor p = Some arr →
  _stop w = false →
  gui w = replicate k [] ++ [SetAnswer (Some a)] :: tail →
  true_level (Config.pmpwm_pwm_values h) p = Some lvl →
  Dict.get (results w) motor = Some trials →
  ∃ w', step_loop h motor (p :: seq') step_local next w
        = step_loop h motor seq' (step_local + 1) next w'
    ∧ results w' = Dict.set (results w) motor (trials ++ [(lvl, a)])
    ∧ vibro w' = {| n_motors := n_motors (vibro w); ser := true;
                    pwm := zeros (n_motors (vibro w)) |}
    ∧ _stop w' = false
    ∧ gui w' = tail
    ∧ rng w' = rng w
    ∧ log w' = log w ++ presentation_events h (n_motors (vibro w)) motor step_local arr.
Proof.
  intros Hser Hn Harr Hstop Hgui Hlvl Htrials.
  destruct (pmpwm_presented h motor p seq' step_local next arr w Hser Hn Harr)
    as (w1 & -> & Hv1 & Hs1 & Ha1 & Hg1 & Hr1 & Hres1 & Hlog1).
  rewrite bind_unfold.
  rewrite (wait_while_decided no_answer k [SetAnswer (Some a)] tail w1);
    [|by rewrite Hg1|by rewrite Ha1|by rewrite Hs1|done].
  cbv beta iota. rewrite bind_unfold. cbn [stop_flag]. cbv beta iota.
  cbn [deliver foldl call set_answer set_gui _stop]. rewrite Hs1, Hstop.
  rewrite bind_unfold. cbn [answer _answer]. cbv beta iota. rewrite Hlvl.
  cbn [_answer set_answer]. cbv beta iota.
  rewrite bind_unfold. unfold append at 1. cbn [results set_answer set_gui].
  rewrite Hres1, Htrials.
  cbn [store set_results]. cbv beta iota.
  eexists. split; [reflexivity|]. simpl.
  rewrite Hres1, Hs1. done.
Qed.

(** *** The signals of a run *)

Lemma emits_store motors motor trials : emits (allowed motors) (store motor trials).
Proof. by apply emits_silent. Qed.

Lemma emits_append motors motor trial : emits (allowed motors) (append motor trial).
Proof.
  apply emits_silent. intros w. unfold append.
  by destruct (Dict.get (results w) motor).
Qed.

Lemma emits_summarise motors h all_motors : emits (allowed motors) (summarise h all_motors).
Proof.
  intros w. unfold summarise.
  destruct (confusion_matrix _ _); [|exists []; simpl; by rewrite app_nil_r].
  case_bool_decide; [exists []; simpl; by rewrite app_nil_r|].
  eexists [_]. split; [reflexivity|]. constructor; [|done]. by intros m.
Qed.

Lemma emits_step_loop (h : Config.hyps) (motors : list Z) (motor : Z)
    (next : thread (option Z) unit) (seq : list Z) :
  motor ∈ motors → emits (allowed motors) next →
  ∀ step_local, emits (allowed motors) (step_loop h motor seq step_local next).
Proof.
  intros Hmotor Hnext.
  assert (∀ arr, allowed motors (Written arr)) as Hw by (by intros arr m).
  induction seq as [|p seq IH]; intros step_local; cbn [step_loop].
  - apply emits_bind; [|done]. apply emits_emit. by intros m [= <-].
  - apply emits_bind; [apply emits_emit; by intros m|]. intros _.
    apply emits_bind; [by apply emits_silent|]. intros n.
    destruct (Py.setitem _ _ _); [|apply emits_raise].
    apply emits_bind; [by apply emits_set_pwm_values|]. intros _.
    apply emits_bind; [by apply emits_reset|]. intros _.
    apply emits_bind; [apply emits_clear_answer|]. intros _.
    apply emits_bind; [apply emits_emit; by intros m|]. intros _.
    apply emits_bind; [apply emits_wait_while|]. intros _.
    apply emits_bind; [apply emits_stop_flag|]. intros [|]; [by apply emits_reset|].
    apply emits_bind; [apply emits_answer|]. intros a.
    destruct (true_level _ _); [|apply emits_raise].
    destruct a; [|apply emits_raise].
    apply emits_bind; [apply emits_append|]. intros _. apply IH.
Qed.

Lemma emits_motor_loop (h : Config.hyps) (all_motors allowed_motors motors : list Z) :
  motors ⊆ allowed_motors →
  emits (allowed allowed_motors) (motor_loop h all_motors motors).
Proof.
  assert (∀ arr, allowed allowed_motors (Written arr)) as Hw by (by intros arr m).
  induction motors as [|motor motors IH]; intros Hsub; cbn [motor_loop].
  - apply emits_bind; [apply emits_begin_end_indicator; [by intros m|done]|].
    intros _. apply emits_summarise.
  - apply emits_bind; [apply emits_shuffle|]. intros seq.
    apply emits_bind; [apply emits_store|]. intros _.
    apply emits_step_loop; [set_solver|]. apply IH. set_solver.
Qed.

(** Whatever the schedule and however the thread ends, a worker launched on
    [motors] emits [motorFinished] for these motors only. *)
Lemma emits_run (h : Config.hyps) (motors : list Z) : emits (allowed motors) (run h motors).
Proof. by apply emits_motor_loop. Qed.

End PMPWMWorkerFacts.

(** ** The threshold worker *)

Module MolsWorkerFacts.
Import Thread ThreadFacts MolsWorker.

Lemma setitem_ok {T} (l : list T) (i : Z) (v : T) :
  - Z.of_nat (length l) ≤ i < Z.of_nat (length l) →
  ∃ l', Py.setitem l i v = Some l' ∧ length l' = length l.
Proof.
  intros Hi. unfold Py.setitem.
  destruct (Z.leb_spec 0 i), (Z.ltb_spec i (Z.of_nat (length l))); simpl;
    try (eexists; split; [reflexivity|by rewrite length_insert]); try lia.
  destruct (Z.leb_spec (- Z.of_nat (length l)) i), (Z.ltb_spec i 0); simpl;
    try (eexists; split; [reflexivity|by rewrite length_insert]); lia.
Qed.

Lemma probe_presented (h : Config.hyps) (motor_idx : Z) (positive_answer : string)
    (v : Z) (seq' : list Z) (pwm_arr arr : list Z)
    (g : list (list (gui_call string))) (w : world string) :
  port_ok h w → _stop w = false →
  Z.of_nat (length pwm_arr) = Config.n_motors h →
  Py.setitem pwm_arr motor_idx v = Some arr →
  gui w = [] :: g →
  ∃ w1, probe_loop h motor_idx positive_answer (v :: seq') pwm_arr w
        = awaiting h motor_idx positive_answer v seq' arr w1
    ∧ vibro w1 = {| n_motors := Config.n_motors h; ser := true;
                    pwm := zeros (Config.n_motors h) |}
    ∧ _stop w1 = false ∧ _answer w1 = "" ∧ gui w1 = g ∧ rng w1 = rng w
    ∧ results w1 = results w
    ∧ log w1 = log w ++ stimulus_events h arr.
Proof.
  intros (Hser & Hn & Hn0) Hstop Hlen Harr Hgui.
  cbn [probe_loop].
  step_with (stop_requested_done _ _ w Hgui).
  cbn [deliver foldl]. cbn [_stop set_gui]. rewrite Hstop.
  step_with (emit_done (A:=string) VibrationStarted).
  rewrite Harr.
  set (w0 := add_log _ _).
  assert (Z.of_nat (length arr) = n_motors (vibro w0)) as Hlen'.
  { rewrite (PMPWMWorkerFacts.length_setitem _ _ _ _ Harr). subst w0. simpl. congruence. }
  step_with (set_pwm_values_done arr w0 Hser Hlen').
  step_with (reset_done (written arr w0) eq_refl ltac:(simpl; by rewrite Hn)).
  step_with (emit_done (A:=string) AwaitingAnswer).
  unfold wait_for_patient. rewrite !bind_unfold. cbn [clear_answer]. cbv beta iota.
  eexists. split; [reflexivity|]. subst w0. simpl. rewrite Hn.
  repeat split; try done. unfold stimulus_events. by rewrite <- !app_assoc.
Qed.

(** From any point of a pass: a stop request that arrives while the worker
    polls for the answer makes [_probe] return -1 with the motors off. *)
Lemma probe_cancel_in_wait (h : Config.hyps) (motor_idx : Z) (positive_answer : string)
    (v : Z) (seq' : list Z) (pwm_arr arr : list Z) (k : nat)
    (b : list (gui_call string)) (tail : list (list (gui_call string)))
    (w : world string) :
  port_ok h w → _stop w = false →
  Z.of_nat (length pwm_arr) = Config.n_motors h →
  Py.setitem pwm_arr motor_idx v = Some arr →
  gui w = [] :: replicate k [] ++ b :: tail → Stop ∈ b →
  ∃ w', probe_loop h motor_idx positive_answer (v :: seq') pwm_arr w = Done (-1) w'
    ∧ pwm (vibro w') = zeros (Config.n_motors h)
    ∧ _stop w' = true
    ∧ gui w' = tail
    ∧ rng w' = rng w
    ∧ results w' = results w
    ∧ log w' = log w ++ stimulus_events h arr ++ [Written (zeros (Config.n_motors h))].
Proof.
  intros Hport Hstop Hlen Harr Hgui Hb.
  destruct (probe_presented h motor_idx positive_answer v seq' pwm_arr arr _ w
              Hport Hstop Hlen Harr Hgui)
    as (w1 & -> & Hv1 & Hs1 & Ha1 & Hg1 & Hr1 & Hres1 & Hlog1).
  destruct Hport as (_ & _ & Hn0).
  assert (_stop (deliver b (set_gui tail w1)) = true) as Hs2 by (by apply deliver_stop).
  unfold awaiting. rewrite bind_unfold.
  rewrite (wait_while_decided no_answer k b tail w1);
    [|done|by rewrite Ha1|done|rewrite Hs2; by rewrite andb_false_r].
  cbv beta iota. rewrite bind_unfold. cbn [stop_flag]. cbv beta iota. rewrite Hs2.
  rewrite bind_unfold.
  rewrite reset_done by (rewrite !deliver_vibro; simpl; by rewrite Hv1).
  cbv beta iota.
  eexists. split; [reflexivity|].
  rewrite !deliver_vibro. simpl.
  rewrite Hv1, deliver_rng, deliver_results, deliver_log, deliver_gui. simpl.
  rewrite Hr1, Hres1, Hlog1.
  repeat split; first [done | by apply deliver_stop | by rewrite <- !app_assoc].
Qed.

(** An answer [a] to the stimulus [v]: the pass ends with its threshold if
    [a] is the awaited answer and goes on to the next intensity otherwise. *)
Lemma probe_answered (h : Config.hyps) (motor_idx : Z) (positive_answer : string)
    (v : Z) (seq' : list Z) (pwm_arr arr : list Z) (k : nat) (a : string)
    (tail : list (list (gui_call string))) (w : world string) :
  port_ok h w → _stop w = false →
  Z.of_nat (length pwm_arr) = Config.n_motors h →
  Py.setitem pwm_arr motor_idx v = Some arr →
  gui w = [] :: replicate k [] ++ [SetAnswer a] :: tail → a ≠ "" →
  ∃ w', probe_loop h motor_idx positive_answer (v :: seq') pwm_arr w
        = (if bool_decide (a = positive_answer)
           then Done (threshold h positive_answer v) w'
           else probe_loop h motor_idx positive_answer seq' arr w')
    ∧ port_ok h w'
    ∧ pwm (vibro w') = zeros (Config.n_motors h)
    ∧ _stop w' = false
    ∧ gui w' = tail
    ∧ rng w' = rng w
    ∧ results w' = results w
    ∧ log w' = log w ++ stimulus_events h arr.
Proof.
  intros Hport Hstop Hlen Harr Hgui Ha.
  destruct (probe_presented h motor_idx positive_answer v seq' pwm_arr arr _ w
              Hport Hstop Hlen Harr Hgui)
    as (w1 & -> & Hv1 & Hs1 & Ha1 & Hg1 & Hr1 & Hres1 & Hlog1).
  destruct Hport as (_ & _ & Hn0).
  unfold awaiting. rewrite bind_unfold.
  rewrite (wait_while_decided no_answer k [SetAnswer a] tail w1);
    [|done|by rewrite Ha1|done|].
  2:{ simpl. rewrite Hs1. unfold no_answer. by rewrite bool_decide_eq_false_2. }
  cbv beta iota. rewrite bind_unfold. cbn [stop_flag]. cbv beta iota.
  cbn [deliver foldl call set_answer set_gui _stop]. rewrite Hs1.
  rewrite bind_unfold. cbn [answer _answer set_answer]. cbv beta iota.
  exists (set_answer a (set_gui tail w1)). split.
  - destruct (bool_decide (a = positive_answer)); reflexivity.
  - unfold port_ok. simpl. rewrite Hv1, Hs1, Hr1, Hres1, Hlog1. done.
Qed.

(** A stop request seen by the test before a stimulus: the motors are
    switched off and [_probe] returns -1. *)
Lemma probe_cancel_before (h : Config.hyps) (motor_idx : Z) (positive_answer : string)
    (v : Z) (seq' : list Z) (pwm_arr : list Z)
    (b : list (gui_call string)) (tail : list (list (gui_call string)))
    (w : world string) :
  port_ok h w → gui w = b :: tail → Stop ∈ b →
  ∃ w', probe_loop h motor_idx positive_answer (v :: seq') pwm_arr w = Done (-1) w'
    ∧ pwm (vibro w') = zeros (Config.n_motors h)
    ∧ _stop w' = true
    ∧ gui w' = tail
    ∧ rng w' = rng w
    ∧ results w' = results w
    ∧ log w' = log w ++ [Written (zeros (Config.n_motors h))].
Proof.
  intros (Hser & Hn & Hn0) Hgui Hb.
  cbn [probe_loop].
  step_with (stop_requested_done _ _ w Hgui).
  rewrite (deliver_stop b (set_gui tail w) Hb).
  rewrite bind_unfold.
  rewrite reset_done by (rewrite !deliver_vibro; simpl; by rewrite ?Hn).
  cbv beta iota. eexists. split; [reflexivity|].
  rewrite !deliver_vibro. simpl.
  rewrite deliver_rng, deliver_results, deliver_log, deliver_gui. simpl.
  rewrite Hn. repeat split; first [done | by apply deliver_stop].
Qed.

(** [run] ends when a pass returns -1: the value is not recorded, the end
    indicator is not fired, and the rest [next] of the run is not executed. *)
Lemma pass_cancelled (m : Z) (results : list (Z * list Z))
    (next : list (Z * list Z) → thread string unit)
    (pass : thread string Z) (w w' : world string) :
  pass w = Done (-1) w' →
  (pwm ← pass; after_pass m pwm results next) w = Done () w'.
Proof. intros Hpass. by rewrite (bind_done _ _ _ _ _ Hpass). Qed.

(** A stop request seen by the test before a pass ends [run] at once. *)
Lemma cancel_before_pass (h : Config.hyps) (total_steps m direction : Z)
    (streams' : list Z) (done_ : Z) (results : list (Z * list Z))
    (next : Z → list (Z * list Z) → thread string unit)
    (b : list (gui_call string)) (tail : list (list (gui_call string)))
    (w : world string) :
  gui w = b :: tail → Stop ∈ b →
  direction_loop h total_steps m (direction :: streams') done_ results next w
  = Done () (deliver b (set_gui tail w)).
Proof.
  intros Hgui Hb. cbn [direction_loop].
  step_with (stop_requested_done _ _ w Hgui).
  by rewrite (deliver_stop b (set_gui tail w) Hb).
Qed.

(** The pass walks through the intensities that receive other answers. *)
Lemma probe_prefix (h : Config.hyps) (motor_idx : Z) (positive_answer : string)
    (pre : list (nat * string)) :
  ∀ (seq_pre rest pwm_arr : list Z) (g : list (list (gui_call string))) (w : world string),
  length pre = length seq_pre →
  other_answers positive_answer pre →
  ready h motor_idx w →
  Z.of_nat (length pwm_arr) = Config.n_motors h →
  gui w = checked_answers pre ++ g →
  ∃ arr' w', probe_loop h motor_idx positive_answer (seq_pre ++ rest) pwm_arr w
             = probe_loop h motor_idx positive_answer rest arr' w'
    ∧ ready h motor_idx w'
    ∧ Z.of_nat (length arr') = Config.n_motors h
    ∧ gui w' = g
    ∧ rng w' = rng w
    ∧ results w' = results w.
Proof.
  induction pre as [|[k a] pre IH]; intros seq_pre rest pwm_arr g w Hlen Hpre Hready Harr Hgui.
  - destruct seq_pre; [|done]. by exists pwm_arr, w.
  - destruct seq_pre as [|v seq_pre]; [done|].
    apply Forall_cons in Hpre as [[Ha Hneq] Hpre]. simpl in Ha, Hneq.
    destruct Hready as (Hport & Hstop & Hidx).
    destruct (setitem_ok pwm_arr motor_idx v) as (arr & Hset & Hlen'); [lia|].
    unfold checked_answers in Hgui. rewrite fmap_cons in Hgui. simpl in Hgui.
    rewrite <- !app_assoc in Hgui. simpl in Hgui.
    destruct (probe_answered h motor_idx positive_answer v (seq_pre ++ rest) pwm_arr arr k a
                _ w Hport Hstop Harr Hset Hgui Ha)
      as (w1 & Heq & Hp1 & _ & Hs1 & Hg1 & Hr1 & Hres1 & _).
    rewrite bool_decide_eq_false_2 in Heq by done.
    destruct (IH seq_pre rest arr g w1) as (arr' & w' & Heq' & Hready' & Harr' & Hg' & Hr' & Hres');
      [by injection Hlen|done|done|lia|done|].
    exists arr', w'. rewrite <- app_comm_cons, Heq, Heq'.
    split; [done|]. split; [done|]. split; [done|]. split; [done|].
    split; congruence.
Qed.

(** The first awaited answer, at intensity [v], ends the pass. *)
Lemma first_awaited (h : Config.hyps) (motor_idx : Z) (positive_answer : string)
    (pre : list (nat * string)) (seq_pre : list Z) (v : Z) (seq_post : list Z) (k : nat)
    (tail : list (list (gui_call string))) (w : world string) :
  length pre = length seq_pre →
  other_answers positive_answer pre →
  positive_answer ≠ "" →
  ready h motor_idx w →
  gui w = checked_answers pre ++ checked_answer k positive_answer ++ tail →
  ∃ w', _probe h (seq_pre ++ v :: seq_post) motor_idx positive_answer w
        = Done (threshold h positive_answer v) w'
    ∧ pwm (vibro w') = zeros (Config.n_motors h)
    ∧ gui w' = tail.
Proof.
  intros Hlen Hpre Hpos Hready Hgui.
  pose proof Hready as ((_ & _ & Hn0) & _ & _).
  destruct (probe_prefix h motor_idx positive_answer pre seq_pre (v :: seq_post)
              (zeros (Config.n_motors h)) _ w Hlen Hpre Hready
              (length_zeros _ Hn0) Hgui)
    as (arr' & w1 & Heq & (Hport & Hstop & Hidx) & Harr' & Hg1 & _).
  destruct (setitem_ok arr' motor_idx v) as (arr & Hset & _); [lia|].
  unfold checked_answer in Hg1. simpl in Hg1. rewrite <- app_assoc in Hg1.
  destruct (probe_answered h motor_idx positive_answer v seq_post arr' arr k positive_answer
              _ w1 Hport Hstop Harr' Hset Hg1 Hpos)
    as (w' & Heq' & _ & Hpwm & _ & Hg' & _).
  rewrite bool_decide_eq_true_2 in Heq' by done.
  exists w'. unfold _probe. by rewrite Heq, Heq'.
Qed.

(** A pass whose every intensity received another answer is exhausted. *)
Lemma never_awaited (h : Config.hyps) (motor_idx : Z) (positive_answer : string)
    (pre : list (nat * string)) (seq : list Z)
    (tail : list (list (gui_call string))) (w : world string) :
  length pre = length seq →
  other_answers positive_answer pre →
  ready h motor_idx w →
  gui w = checked_answers pre ++ tail →
  ∃ w', _probe h seq motor_idx positive_answer w = Done (exhausted h positive_answer) w'
    ∧ gui w' = tail.
Proof.
  intros Hlen Hpre Hready Hgui.
  pose proof Hready as ((_ & _ & Hn0) & _ & _).
  destruct (probe_prefix h motor_idx positive_answer pre seq []
              (zeros (Config.n_motors h)) _ w Hlen Hpre Hready
              (length_zeros _ Hn0) Hgui)
    as (arr' & w1 & Heq & _ & _ & Hg1 & _).
  exists w1. unfold _probe. rewrite <- (app_nil_r seq) at 1. by rewrite Heq.
Qed.

(** The sequences walked by the two kinds of pass. *)
Lemma downstream_probe (h : Config.hyps) (motor_idx : Z) (s1 s2 : list Z) (w : world string) :
  let start_pwm := (3 + Z.of_nat (default 0%nat (head (rng w)) `mod` 2)) * 10 in
  Py.range3 start_pwm 20 (Config.delta_pwm_down h) = Some s1 →
  Py.range3 20 (Config.end_pwm_down h) (-2) = Some s2 →
  _downstream h motor_idx w = _probe h (s1 ++ s2) motor_idx "n" (with_rng (tail (rng w)) w).
Proof.
  intros start_pwm H1 H2. unfold _downstream, randint.
  rewrite !bind_unfold. cbn [randbelow]. cbv beta iota.
  change (Z.to_nat (4 - 3 + 1)) with 2%nat. cbn [mret thread_ret].
  fold start_pwm. unfold arange. rewrite H1. cbn [mret thread_ret].
  rewrite bind_unfold. by rewrite H2.
Qed.

Lemma upstream_probe (h : Config.hyps) (motor_idx : Z) (seq : list Z) (w : world string) :
  let start_pwm := 2 + Z.of_nat (default 0%nat (head (rng w)) `mod` 7) in
  Py.range3 start_pwm (Config.end_pwm_up h) (Config.delta_pwm_up h) = Some seq →
  _upstream h motor_idx w = _probe h seq motor_idx "y" (with_rng (tail (rng w)) w).
Proof.
  intros start_pwm H1. unfold _upstream, randint.
  rewrite !bind_unfold. cbn [randbelow]. cbv beta iota.
  change (Z.to_nat (8 - 2 + 1)) with 7%nat. cbn [mret thread_ret].
  fold start_pwm. unfold arange. by rewrite H1.
Qed.

End MolsWorkerFacts.

(** C1.  A descending pass ([_probe] awaiting the answer "n") returns
    v + |delta_down| when the first "n" is given at intensity v, and
    |delta_down| when every intensity of its sequence received another
    answer; an ascending pass (awaiting "y") returns the intensity of the
    first "y", and end_up when its sequence is exhausted.  [_downstream] and
    [_upstream] run these passes on their sequences.  (The pass is not
    cancelled: no stop request is pending or arrives.) *)
Theorem staircase_pass_returns :
  (∀ h motor_idx pre seq_pre v seq_post k tail (w : Thread.world string),
     length pre = length seq_pre →
     MolsWorker.other_answers "n" pre →
     MolsWorker.ready h motor_idx w →
     Thread.gui w = Thread.checked_answers pre ++ Thread.checked_answer k "n" ++ tail →
     ∃ w', MolsWorker._probe h (seq_pre ++ v :: seq_post) motor_idx "n" w
           = Thread.Done (v + Z.abs (Config.delta_pwm_down h)) w')
  ∧ (∀ h motor_idx pre seq tail (w : Thread.world string),
       length pre = length seq →
       MolsWorker.other_answers "n" pre →
       MolsWorker.ready h motor_idx w →
       Thread.gui w = Thread.checked_answers pre ++ tail →
       ∃ w', MolsWorker._probe h seq motor_idx "n" w
             = Thread.Done (Z.abs (Config.delta_pwm_down h)) w')
  ∧ (∀ h motor_idx pre seq_pre v seq_post k tail (w : Thread.world string),
       length pre = length seq_pre →
       MolsWorker.other_answers "y" pre →
       MolsWorker.ready h motor_idx w →
       Thread.gui w = Thread.checked_answers pre ++ Thread.checked_answer k "y" ++ tail →
       ∃ w', MolsWorker._probe h (seq_pre ++ v :: seq_post) motor_idx "y" w
             = Thread.Done v w')
  ∧ (∀ h motor_idx pre seq tail (w : Thread.world string),
       length pre = length seq →
       MolsWorker.other_answers "y" pre →
       MolsWorker.ready h motor_idx w →
       Thread.gui w = Thread.checked_answers pre ++ tail →
       ∃ w', MolsWorker._probe h seq motor_idx "y" w
             = Thread.Done (Config.end_pwm_up h) w')
  ∧ (∀ h motor_idx s1 s2 (w : Thread.world string),
       Py.range3 ((3 + Z.of_nat (default 0%nat (head (Thread.rng w)) `mod` 2)) * 10) 20
         (Config.delta_pwm_down h) = Some s1 →
       Py.range3 20 (Config.end_pwm_down h) (-2) = Some s2 →
       MolsWorker._downstream h motor_idx w
       = MolsWorker._probe h (s1 ++ s2) motor_idx "n"
           (Thread.with_rng (tail (Thread.rng w)) w))
  ∧ (∀ h motor_idx seq (w : Thread.world string),
       Py.range3 (2 + Z.of_nat (default 0%nat (head (Thread.rng w)) `mod` 7))
         (Config.end_pwm_up h) (Config.delta_pwm_up h) = Some seq →
       MolsWorker._upstream h motor_idx w
       = MolsWorker._probe h seq motor_idx "y"
           (Thread.with_rng (tail (Thread.rng w)) w)).
Proof.
  repeat apply conj.
  - intros h motor_idx pre seq_pre v seq_post k tail w Hlen Hpre Hready Hgui.
    destruct (MolsWorkerFacts.first_awaited h motor_idx "n" pre seq_pre v seq_post k tail w)
      as (w' & Hw' & _); [done..|].
    by exists w'.
  - intros h motor_idx pre seq tail w Hlen Hpre Hready Hgui.
    destruct (MolsWorkerFacts.never_awaited h motor_idx "n" pre seq tail w)
      as (w' & Hw' & _); [done..|].
    by exists w'.
  - intros h motor_idx pre seq_pre v seq_post k tail w Hlen Hpre Hready Hgui.
    destruct (MolsWorkerFacts.first_awaited h motor_idx "y" pre seq_pre v seq_post k tail w)
      as (w' & Hw' & _); [done..|].
    exists w'. rewrite Hw'. unfold MolsWorker.threshold. simpl. by rewrite Z.add_0_r.
  - intros h motor_idx pre seq tail w Hlen Hpre Hready Hgui.
    destruct (MolsWorkerFacts.never_awaited h motor_idx "y" pre seq tail w)
      as (w' & Hw' & _); [done..|].
    by exists w'.
  - intros h motor_idx s1 s2 w. apply MolsWorkerFacts.downstream_probe.
  - intros h motor_idx seq w. apply MolsWorkerFacts.upstream_probe.
Qed.

(** The descending sequence 35, 30, 25, 20, 18, 16 with the first "n" at 20
    and a step of 5 returns 25. *)
Lemma staircase_pass_returns_witness :
  ∃ w', MolsWorker._probe (Config.default_hyps "anon") [35; 30; 25; 20; 18; 16] 0 "n"
          (MolsWorker.fresh Sample.box
             (Thread.checked_answers [(0%nat, "y"); (2%nat, "y"); (1%nat, "y")]
                ++ Thread.checked_answer 1 "n" ++ []) [])
        = Thread.Done 25 w'.
Proof.
  apply (proj1 staircase_pass_returns (Config.default_hyps "anon") 0
           [(0%nat, "y"); (2%nat, "y"); (1%nat, "y")] [35; 30; 25] 20 [18; 16] 1%nat []).
  - reflexivity.
  - repeat constructor; discriminate.
  - repeat split; simpl; lia.
  - reflexivity.
Defined.

Example descending_pass_default :
  ∃ w', MolsWorker._downstream (Config.default_hyps "anon") 0
          (MolsWorker.fresh Sample.box
             (Thread.checked_answers [(0%nat, "y"); (0%nat, "y")]
                ++ Thread.checked_answer 0 "n") [0%nat])
        = Thread.Done 25 w'.
Proof. eexists. by vm_compute. Qed.

(** ** Cancellation *)

Lemma mols_no_indicator (h : Config.hyps) (arr : list Z) :
  Thread.BeginEndIndicator
  ∉ MolsWorker.stimulus_events h arr ++ [Thread.Written (Thread.zeros (Config.n_motors h))].
Proof.
  unfold MolsWorker.stimulus_events.
  intros Hin. repeat (apply elem_of_cons in Hin as [?|Hin]; [done|]).
  by apply elem_of_nil in Hin.
Qed.

Lemma pmpwm_no_indicator (h : Config.hyps) (n motor step_local : Z) (arr : list Z) :
  Thread.BeginEndIndicator
  ∉ PMPWMWorker.presentation_events h n motor step_local arr
    ++ [Thread.Written (Thread.zeros n)].
Proof.
  unfold PMPWMWorker.presentation_events.
  intros Hin. repeat (apply elem_of_cons in Hin as [?|Hin]; [done|]).
  by apply elem_of_nil in Hin.
Qed.

Lemma mols_no_result (h : Config.hyps) (arr : list Z) (r : list (Z * Z)) :
  Thread.MolsFinished r
  ∉ MolsWorker.stimulus_events h arr ++ [Thread.Written (Thread.zeros (Config.n_motors h))].
Proof.
  unfold MolsWorker.stimulus_events.
  intros Hin. repeat (apply elem_of_cons in Hin as [?|Hin]; [done|]).
  by apply elem_of_nil in Hin.
Qed.

Lemma pmpwm_no_result (h : Config.hyps) (n motor step_local : Z) (arr : list Z) (e : Thread.event) :
  e ∈ PMPWMWorker.presentation_events h n motor step_local arr
      ++ [Thread.Written (Thread.zeros n)] →
  (∀ r, e ≠ Thread.PmpwmFinished r) ∧ (∀ m, e ≠ Thread.MotorFinished m).
Proof.
  unfold PMPWMWorker.presentation_events.
  intros Hin. repeat (apply elem_of_cons in Hin as [->|Hin]; [done|]).
  by apply elem_of_nil in Hin.
Qed.

Lemma spatial_result_no_indicator (h : Config.hyps) (mode : string) (total idx m0 : Z)
    (answers : list (Z * Z)) :
  Thread.BeginEndIndicator
  ∉ SpatialWorker.presentation_events h mode total idx m0
    ++ [Thread.SpatialFinished answers mode].
Proof.
  intros Hin. apply elem_of_app in Hin as [Hin|Hin].
  - by apply SpatialWorkerFacts.no_indicator in Hin.
  - by apply list_elem_of_singleton in Hin.
Qed.

(** C3, as the claim states it, fails for the spatial test: a spatial run
    that is stopped while it waits for the answer to its first stimulus
    ends as a completed run ends, by emitting [finished] (here without any
    Trial); the second run is a completed one. *)
Lemma cancelled_spatial_wait_finishes :
  (∃ w, SpatialWorker.run Sample.four_regions "single"
          (SpatialWorker.fresh Sample.box [[]; []; [Thread.Stop]]
             [5; 7; 1; 2; 3; 9; 4; 4; 1; 0; 2; 2; 1]%nat)
        = Thread.Done () w
      ∧ Thread._stop w = true
      ∧ Thread.log w
        = [Thread.SpatialProgress 1 10; Thread.Written [0; 0; 0; 30; 0; 0; 0; 0; 0; 0];
           Thread.Written (Thread.zeros 10); Thread.AwaitingAnswer;
           Thread.SpatialFinished [] "single"])
  ∧ (∃ w, SpatialWorker.run Sample.four_regions "single"
            (SpatialWorker.fresh Sample.box
               (Thread.checked_answers (replicate 10 (0%nat, Some 1)))
               [5; 7; 1; 2; 3; 9; 4; 4; 1; 0; 2; 2; 1]%nat)
          = Thread.Done () w
        ∧ Thread._stop w = false
        ∧ last (Thread.log w)
          = Some (Thread.SpatialFinished
                    [(4, 1); (3, 1); (1, 1); (4, 1); (2, 1); (1, 1); (2, 1); (4, 1);
                     (3, 1); (2, 1)] "single")).
Proof. split; (eexists; split; [by vm_compute|]); done. Qed.

(** C3, amended.  In each of the three workers, from any point of the run:
    when the stop request arrives while the worker polls for the answer to
    the stimulus it has just presented ([k] idle polls, then a batch of GUI
    calls that contains [stop]), nothing is recorded for that stimulus, the
    last array written to the port is all zeros, the stop flag is set and
    the end-of-test indicator is not fired.  The threshold worker and the
    discrimination worker then end without emitting [finished] (the
    discrimination worker without [motorFinished] either, its results as
    they were): the run is cancelled.  The spatial worker ends as a
    completed run does: it emits [finished], with the answers it had. *)
Theorem cancel_during_wait :
  (∀ h m positive_answer v seq' pwm_arr arr k b tail results next
     (w : Thread.world string),
     Thread.port_ok h w → Thread._stop w = false →
     Z.of_nat (length pwm_arr) = Config.n_motors h →
     Py.setitem pwm_arr m v = Some arr →
     Thread.gui w = [] :: replicate k [] ++ b :: tail → Thread.Stop ∈ b →
     ∃ w', (pwm ← MolsWorker.probe_loop h m positive_answer (v :: seq') pwm_arr;
            MolsWorker.after_pass m pwm results next) w = Thread.Done () w'
       ∧ Thread.pwm (Thread.vibro w') = Thread.zeros (Config.n_motors h)
       ∧ Thread._stop w' = true
       ∧ Thread.log w' = Thread.log w ++ MolsWorker.stimulus_events h arr
                         ++ [Thread.Written (Thread.zeros (Config.n_motors h))]
       ∧ (Thread.BeginEndIndicator
          ∉ MolsWorker.stimulus_events h arr
            ++ [Thread.Written (Thread.zeros (Config.n_motors h))])
       ∧ (∀ r, Thread.MolsFinished r
               ∉ MolsWorker.stimulus_events h arr
                 ++ [Thread.Written (Thread.zeros (Config.n_motors h))]))
  ∧ (∀ h mode total m0 rest idx answers k b tail (w : Thread.world (option Z)),
       Thread.port_ok h w → Thread._stop w = false →
       Config.use_motors_step h ≠ 0 →
       Thread.gui w = [] :: replicate k [] ++ b :: tail → Thread.Stop ∈ b →
       ∃ w', SpatialWorker.present_and_finish h mode total (m0 :: rest) idx answers w
             = Thread.Done () w'
         ∧ Thread.pwm (Thread.vibro w') = Thread.zeros (Config.n_motors h)
         ∧ Thread._stop w' = true
         ∧ Thread.log w' = Thread.log w
                           ++ SpatialWorker.presentation_events h mode total idx m0
                           ++ [Thread.SpatialFinished answers mode]
         ∧ Thread.BeginEndIndicator
           ∉ SpatialWorker.presentation_events h mode total idx m0
             ++ [Thread.SpatialFinished answers mode])
  ∧ (∀ h motor p seq' step_local next arr k b tail (w : Thread.world (option Z)),
       Thread.ser (Thread.vibro w) = true → 0 ≤ Thread.n_motors (Thread.vibro w) →
       Py.setitem (Thread.zeros (Thread.n_motors (Thread.vibro w))) motor p = Some arr →
       Thread._stop w = false →
       Thread.gui w = replicate k [] ++ b :: tail → Thread.Stop ∈ b →
       ∃ w', PMPWMWorker.step_loop h motor (p :: seq') step_local next w = Thread.Done () w'
         ∧ Thread.results w' = Thread.results w
         ∧ Thread.pwm (Thread.vibro w') = Thread.zeros (Thread.n_motors (Thread.vibro w))
         ∧ Thread._stop w' = true
         ∧ Thread.log w' = Thread.log w
             ++ PMPWMWorker.presentation_events h (Thread.n_motors (Thread.vibro w))
                  motor step_local arr
             ++ [Thread.Written (Thread.zeros (Thread.n_motors (Thread.vibro w)))]
         ∧ (Thread.BeginEndIndicator
            ∉ PMPWMWorker.presentation_events h (Thread.n_motors (Thread.vibro w))
                motor step_local arr
              ++ [Thread.Written (Thread.zeros (Thread.n_motors (Thread.vibro w)))])
         ∧ (∀ e, e ∈ PMPWMWorker.presentation_events h (Thread.n_motors (Thread.vibro w))
                       motor step_local arr
                     ++ [Thread.Written (Thread.zeros (Thread.n_motors (Thread.vibro w)))] →
                 (∀ r, e ≠ Thread.PmpwmFinished r) ∧ (∀ m, e ≠ Thread.MotorFinished m))).
Proof.
  repeat apply conj.
  - intros h m positive_answer v seq' pwm_arr arr k b tail results next w
      Hport Hstop Hlen Harr Hgui Hb.
    destruct (MolsWorkerFacts.probe_cancel_in_wait h m positive_answer v seq' pwm_arr arr k b tail w)
      as (w' & Hw' & Hpwm & Hs' & _ & _ & _ & Hlog); [done..|].
    exists w'. split; [by apply MolsWorkerFacts.pass_cancelled|].
    repeat split; try done; [apply mols_no_indicator|intros r; apply mols_no_result].
  - intros h mode total m0 rest idx answers k b tail w Hport Hstop Hstep Hgui Hb.
    destruct (SpatialWorkerFacts.spatial_cancel_in_wait h mode total m0 rest idx answers k b tail w)
      as (w' & Hw' & Hpwm & _ & Hs' & _ & _ & _ & Hlog); [done..|].
    eexists. unfold SpatialWorker.present_and_finish.
    rewrite (ThreadFacts.bind_done _ _ _ _ _ Hw'). split; [reflexivity|].
    simpl. split; [done|]. split; [done|].
    split; [by rewrite Hlog, <- app_assoc|]. apply spatial_result_no_indicator.
  - intros h motor p seq' step_local next arr k b tail w Hser Hn Harr Hstop Hgui Hb.
    destruct (PMPWMWorkerFacts.pmpwm_cancel_in_wait h motor p seq' step_local next arr k b tail w)
      as (w' & Hw' & Hpwm & Hs' & _ & _ & Hres & Hlog); [done..|].
    exists w'. repeat split; try done;
      first [apply pmpwm_no_indicator | by eapply pmpwm_no_result].
Qed.

Lemma cancel_during_wait_witness :
  (∃ w', (pwm ← MolsWorker.probe_loop (Config.default_hyps "anon") 0 "n" [30; 25]
                  (Thread.zeros 10);
          MolsWorker.after_pass 0 pwm [] (λ _, mret ()))
           (MolsWorker.fresh Sample.box [[]; []; [Thread.Stop]] [])
         = Thread.Done () w'
     ∧ Thread.pwm (Thread.vibro w') = Thread.zeros 10
     ∧ Thread._stop w' = true
     ∧ Thread.log w'
       = [Thread.VibrationStarted; Thread.Written [30; 0; 0; 0; 0; 0; 0; 0; 0; 0];
          Thread.Written (Thread.zeros 10); Thread.AwaitingAnswer;
          Thread.Written (Thread.zeros 10)])
  ∧ (∃ w', SpatialWorker.present_and_finish Sample.four_regions "single" 10 [2; 1] 1
             [(4, 1)]
             (SpatialWorker.fresh Sample.box [[]; []; [Thread.Stop]] [])
           = Thread.Done () w'
       ∧ Thread.pwm (Thread.vibro w') = Thread.zeros 10
       ∧ Thread._stop w' = true
       ∧ Thread.log w'
         = [Thread.SpatialProgress 2 10; Thread.Written [0; 0; 30; 0; 0; 0; 0; 0; 0; 0];
            Thread.Written (Thread.zeros 10); Thread.AwaitingAnswer;
            Thread.SpatialFinished [(4, 1)] "single"])
  ∧ (∃ w', PMPWMWorker.step_loop Sample.four_regions 3 [14; 22] 1 (mret ())
             (PMPWMWorker.fresh Sample.box [[]; [Thread.Stop]] [])
           = Thread.Done () w'
       ∧ Thread.results w' = []
       ∧ Thread.pwm (Thread.vibro w') = Thread.zeros 10
       ∧ Thread._stop w' = true
       ∧ Thread.log w'
         = [Thread.PmpwmProgress 3 1 4; Thread.Written [0; 0; 0; 14; 0; 0; 0; 0; 0; 0];
            Thread.Written (Thread.zeros 10); Thread.AwaitingAnswer;
            Thread.Written (Thread.zeros 10)]).
Proof.
  destruct cancel_during_wait as (Hmols & Hspatial & Hpmpwm).
  split; [|split].
  - destruct (Hmols (Config.default_hyps "anon") 0 "n" 30 [25] (Thread.zeros 10)
                [30; 0; 0; 0; 0; 0; 0; 0; 0; 0] 1%nat [Thread.Stop] [] []
                (λ _, mret ())
                (MolsWorker.fresh Sample.box [[]; []; [Thread.Stop]] []))
      as (w' & Hrun & Hpwm & Hstop & Hlog & _).
    + repeat split; simpl; lia.
    + reflexivity.
    + reflexivity.
    + reflexivity.
    + reflexivity.
    + apply list_elem_of_singleton. reflexivity.
    + exists w'. repeat split; assumption.
  - destruct (Hspatial Sample.four_regions "single" 10 2 [1] 1 [(4, 1)] 1%nat
                [Thread.Stop] []
                (SpatialWorker.fresh Sample.box [[]; []; [Thread.Stop]] []))
      as (w' & Hrun & Hpwm & Hstop & Hlog & _).
    + repeat split; simpl; lia.
    + reflexivity.
    + discriminate.
    + reflexivity.
    + apply list_elem_of_singleton. reflexivity.
    + exists w'. repeat split; assumption.
  - destruct (Hpmpwm Sample.four_regions 3 14 [22] 1 (mret ())
                [0; 0; 0; 14; 0; 0; 0; 0; 0; 0] 1%nat [Thread.Stop] []
                (PMPWMWorker.fresh Sample.box [[]; [Thread.Stop]] []))
      as (w' & Hrun & Hres & Hpwm & Hstop & Hlog & _).
    + reflexivity.
    + simpl. lia.
    + reflexivity.
    + reflexivity.
    + reflexivity.
    + apply list_elem_of_singleton. reflexivity.
    + exists w'. repeat split; assumption.
Defined.

(** Whole runs, cancelled while the worker waits for an answer. *)
Example cancelled_threshold_run :
  ∃ w, MolsWorker.run (Config.default_hyps "anon")
         (MolsWorker.fresh Sample.box
            ([[]] ++ Thread.checked_answer 0 "y" ++ [[]; []; []; [Thread.Stop]]) [1; 0; 1]%nat)
       = Thread.Done () w
     ∧ Thread._stop w = true
     ∧ Thread.pwm (Thread.vibro w) = Thread.zeros 10
     ∧ Forall (λ e, ∀ r, e ≠ Thread.MolsFinished r) (Thread.log w)
     ∧ last (Thread.log w) = Some (Thread.Written (Thread.zeros 10)).
Proof.
  eexists. split; [by vm_compute|]. repeat split; try done.
  repeat constructor; discriminate.
Qed.

Example cancelled_discrimination_run :
  ∃ w, PMPWMWorker.run Sample.four_regions [3; 4]
         (PMPWMWorker.fresh Sample.box
            (Thread.plain_answers [(0%nat, Some 1); (1%nat, Some 2); (0%nat, Some 2); (0%nat, Some 1)]
               ++ [[]; [Thread.Stop]]) [1; 0; 1]%nat)
       = Thread.Done () w
     ∧ Thread.results w = [(3, [(1, 1); (2, 2); (1, 2); (2, 1)]); (4, [])]
     ∧ Thread.MotorFinished 3 ∈ Thread.log w
     ∧ Forall (λ e, ∀ r, e ≠ Thread.PmpwmFinished r) (Thread.log w)
     ∧ Thread.BeginEndIndicator ∉ Thread.log w.
Proof.
  eexists. split; [by vm_compute|]. split; [done|]. split; [set_solver|].
  split; [repeat constructor; discriminate|].
  intros Hin. repeat (apply elem_of_cons in Hin as [?|Hin]; [done|]).
  by apply elem_of_nil in Hin.
Qed.

(** C2, as the claim states it, fails for the spatial test: a spatial run
    that is stopped while it waits for its third answer emits its result,
    with the two Trials completed before. *)
Lemma cancelled_spatial_run_emits_result :
  ∃ w, SpatialWorker.run Sample.four_regions "single"
         (SpatialWorker.fresh Sample.box
            (Thread.checked_answers [(0%nat, Some 1); (0%nat, Some 2)]
               ++ [[]; []; [Thread.Stop]])
            [5; 7; 1; 2; 3; 9; 4; 4; 1; 0; 2; 2; 1]%nat)
       = Thread.Done () w
     ∧ Thread._stop w = true
     ∧ last (Thread.log w) = Some (Thread.SpatialFinished [(4, 1); (3, 2)] "single").
Proof. eexists. split; [by vm_compute|]. done. Qed.

(** C2, amended.  When a run is cancelled (the stop request is seen by the
    test before a stimulus or a pass, or arrives while the worker waits for
    an answer), from any point of the run:
    - the threshold worker ends without emitting [finished];
    - the discrimination worker ends without emitting [finished], and its
      [results] keep every Trial recorded so far, those of the finished
      motors included;
    - the spatial worker leaves its loop and emits [finished] with the
      Trials completed so far. *)
Theorem cancelled_run_results :
  (* threshold test: stop while waiting *)
  (∀ h m positive_answer v seq' pwm_arr arr k b tail results next
     (w : Thread.world string),
     Thread.port_ok h w → Thread._stop w = false →
     Z.of_nat (length pwm_arr) = Config.n_motors h →
     Py.setitem pwm_arr m v = Some arr →
     Thread.gui w = [] :: replicate k [] ++ b :: tail → Thread.Stop ∈ b →
     ∃ w', (pwm ← MolsWorker.probe_loop h m positive_answer (v :: seq') pwm_arr;
            MolsWorker.after_pass m pwm results next) w = Thread.Done () w'
       ∧ Thread.log w' = Thread.log w ++ MolsWorker.stimulus_events h arr
                         ++ [Thread.Written (Thread.zeros (Config.n_motors h))])
  (* threshold test: stop seen before a stimulus *)
  ∧ (∀ h m positive_answer v seq' pwm_arr b tail results next (w : Thread.world string),
       Thread.port_ok h w → Thread.gui w = b :: tail → Thread.Stop ∈ b →
       ∃ w', (pwm ← MolsWorker.probe_loop h m positive_answer (v :: seq') pwm_arr;
              MolsWorker.after_pass m pwm results next) w = Thread.Done () w'
         ∧ Thread.log w'
           = Thread.log w ++ [Thread.Written (Thread.zeros (Config.n_motors h))])
  (* threshold test: stop seen before a pass *)
  ∧ (∀ h total_steps m direction streams' done_ results next b tail
       (w : Thread.world string),
       Thread.gui w = b :: tail → Thread.Stop ∈ b →
       ∃ w', MolsWorker.direction_loop h total_steps m (direction :: streams') done_
               results next w = Thread.Done () w'
         ∧ Thread.log w' = Thread.log w)
  (* discrimination test: stop while waiting *)
  ∧ (∀ h motor p seq' step_local next arr k b tail (w : Thread.world (option Z)),
       Thread.ser (Thread.vibro w) = true → 0 ≤ Thread.n_motors (Thread.vibro w) →
       Py.setitem (Thread.zeros (Thread.n_motors (Thread.vibro w))) motor p = Some arr →
       Thread._stop w = false →
       Thread.gui w = replicate k [] ++ b :: tail → Thread.Stop ∈ b →
       ∃ w', PMPWMWorker.step_loop h motor (p :: seq') step_local next w = Thread.Done () w'
         ∧ Thread.results w' = Thread.results w
         ∧ Thread.log w' = Thread.log w
             ++ PMPWMWorker.presentation_events h (Thread.n_motors (Thread.vibro w))
                  motor step_local arr
             ++ [Thread.Written (Thread.zeros (Thread.n_motors (Thread.vibro w)))])
  (* spatial test: stop while waiting *)
  ∧ (∀ h mode total m0 rest idx answers k b tail (w : Thread.world (option Z)),
       Thread.port_ok h w → Thread._stop w = false →
       Config.use_motors_step h ≠ 0 →
       Thread.gui w = [] :: replicate k [] ++ b :: tail → Thread.Stop ∈ b →
       ∃ w', SpatialWorker.present_and_finish h mode total (m0 :: rest) idx answers w
             = Thread.Done () w'
         ∧ Thread.log w' = Thread.log w
                           ++ SpatialWorker.presentation_events h mode total idx m0
                           ++ [Thread.SpatialFinished answers mode])
  (* spatial test: stop seen before a presentation *)
  ∧ (∀ h mode total m0 rest idx answers b tail (w : Thread.world (option Z)),
       Thread.gui w = b :: tail → Thread.Stop ∈ b →
       ∃ w', SpatialWorker.present_and_finish h mode total (m0 :: rest) idx answers w
             = Thread.Done () w'
         ∧ Thread.log w' = Thread.log w ++ [Thread.SpatialFinished answers mode]).
Proof.
  repeat apply conj.
  - intros h m positive_answer v seq' pwm_arr arr k b tail results next w
      Hport Hstop Hlen Harr Hgui Hb.
    destruct (MolsWorkerFacts.probe_cancel_in_wait h m positive_answer v seq' pwm_arr arr k b tail w)
      as (w' & Hw' & _ & _ & _ & _ & _ & Hlog); [done..|].
    exists w'. split; [by apply MolsWorkerFacts.pass_cancelled|done].
  - intros h m positive_answer v seq' pwm_arr b tail results next w Hport Hgui Hb.
    destruct (MolsWorkerFacts.probe_cancel_before h m positive_answer v seq' pwm_arr b tail w)
      as (w' & Hw' & _ & _ & _ & _ & _ & Hlog); [done..|].
    exists w'. split; [by apply MolsWorkerFacts.pass_cancelled|done].
  - intros h total_steps m direction streams' done_ results next b tail w Hgui Hb.
    eexists. split; [by apply MolsWorkerFacts.cancel_before_pass|].
    by rewrite ThreadFacts.deliver_log.
  - intros h motor p seq' step_local next arr k b tail w Hser Hn Harr Hstop Hgui Hb.
    destruct (PMPWMWorkerFacts.pmpwm_cancel_in_wait h motor p seq' step_local next arr k b tail w)
      as (w' & Hw' & _ & _ & _ & _ & Hres & Hlog); [done..|].
    by exists w'.
  - intros h mode total m0 rest idx answers k b tail w Hport Hstop Hstep Hgui Hb.
    destruct (SpatialWorkerFacts.spatial_cancel_in_wait h mode total m0 rest idx answers k b tail w)
      as (w' & Hw' & _ & _ & _ & _ & _ & _ & Hlog); [done..|].
    eexists. unfold SpatialWorker.present_and_finish.
    rewrite (ThreadFacts.bind_done _ _ _ _ _ Hw'). split; [reflexivity|].
    simpl. by rewrite Hlog, <- app_assoc.
  - intros h mode total m0 rest idx answers b tail w Hgui Hb.
    eexists. unfold SpatialWorker.present_and_finish.
    rewrite (ThreadFacts.bind_done _ _ _ _ _
               (SpatialWorkerFacts.spatial_cancel_before h mode total m0 rest idx answers b tail w
                  Hgui Hb)).
    split; [reflexivity|]. simpl. by rewrite ThreadFacts.deliver_log.
Qed.

Lemma cancelled_run_results_witness :
  (∃ w', (pwm ← MolsWorker.probe_loop (Config.default_hyps "anon") 0 "n" [30; 25]
                  (Thread.zeros 10);
          MolsWorker.after_pass 0 pwm [] (λ _, mret ()))
           (MolsWorker.fresh Sample.box [[]; []; [Thread.Stop]] [])
         = Thread.Done () w'
     ∧ Thread.log w'
       = [Thread.VibrationStarted; Thread.Written [30; 0; 0; 0; 0; 0; 0; 0; 0; 0];
          Thread.Written (Thread.zeros 10); Thread.AwaitingAnswer;
          Thread.Written (Thread.zeros 10)])
  ∧ (∃ w', PMPWMWorker.step_loop Sample.four_regions 3 [14; 22] 1 (mret ())
             (PMPWMWorker.fresh Sample.box [[]; [Thread.Stop]] [])
           = Thread.Done () w'
       ∧ Thread.results w' = []
       ∧ Thread.log w'
         = [Thread.PmpwmProgress 3 1 4; Thread.Written [0; 0; 0; 14; 0; 0; 0; 0; 0; 0];
            Thread.Written (Thread.zeros 10); Thread.AwaitingAnswer;
            Thread.Written (Thread.zeros 10)])
  ∧ (∃ w', SpatialWorker.present_and_finish Sample.four_regions "single" 10 [2; 1] 1
             [(4, 1)]
             (SpatialWorker.fresh Sample.box [[]; []; [Thread.Stop]] [])
           = Thread.Done () w'
       ∧ Thread.log w'
         = [Thread.SpatialProgress 2 10; Thread.Written [0; 0; 30; 0; 0; 0; 0; 0; 0; 0];
            Thread.Written (Thread.zeros 10); Thread.AwaitingAnswer;
            Thread.SpatialFinished [(4, 1)] "single"]).
Proof.
  destruct cancelled_run_results as (Hmols & _ & _ & Hpmpwm & Hspatial & _).
  split; [|split].
  - apply (Hmols (Config.default_hyps "anon") 0 "n" 30 [25] (Thread.zeros 10)
             [30; 0; 0; 0; 0; 0; 0; 0; 0; 0] 1%nat [Thread.Stop] [] []
             (λ _, mret ())
             (MolsWorker.fresh Sample.box [[]; []; [Thread.Stop]] [])).
    + repeat split; simpl; lia.
    + reflexivity.
    + reflexivity.
    + reflexivity.
    + reflexivity.
    + apply list_elem_of_singleton. reflexivity.
  - apply (Hpmpwm Sample.four_regions 3 14 [22] 1 (mret ())
             [0; 0; 0; 14; 0; 0; 0; 0; 0; 0] 1%nat [Thread.Stop] []
             (PMPWMWorker.fresh Sample.box [[]; [Thread.Stop]] [])).
    + reflexivity.
    + simpl. lia.
    + reflexivity.
    + reflexivity.
    + reflexivity.
    + apply list_elem_of_singleton. reflexivity.
  - apply (Hspatial Sample.four_regions "single" 10 2 [1] 1 [(4, 1)] 1%nat
             [Thread.Stop] []
             (SpatialWorker.fresh Sample.box [[]; []; [Thread.Stop]] [])).
    + repeat split; simpl; lia.
    + reflexivity.
    + discriminate.
    + reflexivity.
    + apply list_elem_of_singleton. reflexivity.
Defined.

(** ** Bookkeeping of the main window *)

Module DictFacts.
Section dict.
Context {V : Type}.
Implicit Types d : list (Z * V).

Lemma get_set_eq d k v : Dict.get (Dict.set d k v) k = Some v.
Proof.
  induction d as [|[k' v'] d IH]; simpl.
  - by rewrite Z.eqb_refl.
  - destruct (Z.eqb_spec k' k); simpl.
    + by rewrite Z.eqb_refl.
    + by destruct (Z.eqb_spec k' k).
Qed.

Lemma get_set_ne d k k' v : k ≠ k' → Dict.get (Dict.set d k v) k' = Dict.get d k'.
Proof.
  intros Hne. induction d as [|[k0 v0] d IH]; simpl.
  - by destruct (Z.eqb_spec k k').
  - destruct (Z.eqb_spec k0 k) as [->|]; simpl.
    + by destruct (Z.eqb_spec k k').
    + by rewrite IH.
Qed.

Lemma get_pop_eq d k : Dict.get (Dict.pop d k) k = None.
Proof.
  induction d as [|[k0 v0] d IH]; simpl; [done|].
  destruct (Z.eqb_spec k0 k); simpl; [done|]. by destruct (Z.eqb_spec k0 k).
Qed.

Lemma get_pop_ne d k k' : k ≠ k' → Dict.get (Dict.pop d k) k' = Dict.get d k'.
Proof.
  intros Hne. induction d as [|[k0 v0] d IH]; simpl; [done|].
  destruct (Z.eqb_spec k0 k) as [->|]; simpl.
  - by destruct (Z.eqb_spec k k').
  - by rewrite IH.
Qed.

(** A dictionary comprehension [{m: f(m) for m in l}]. *)
Lemma get_comprehension (f : Z → V) (l : list Z) d k :
  Dict.get (foldl (λ d m, Dict.set d m (f m)) d l) k
  = if decide (k ∈ l) then Some (f k) else Dict.get d k.
Proof.
  revert d. induction l as [|x l IH]; intros d; cbn [foldl].
  - by destruct (decide (k ∈ [])) as [?%elem_of_nil|].
  - rewrite IH.
    destruct (decide (k ∈ l)) as [Hin|Hout], (decide (k ∈ x :: l)) as [Hin'|Hout'].
    + done.
    + destruct Hout'. by right.
    + apply elem_of_cons in Hin' as [->|?]; [|done]. apply get_set_eq.
    + apply get_set_ne. intros ->. apply Hout'. by left.
Qed.
End dict.
End DictFacts.

Module MainWindowFacts.
Import Thread MainWindow.

(** The slots leave the data of every motor for which no [motorFinished]
    arrives as they are. *)
Lemma slots_frame (worker_results : list (Z * list (Z * Z))) (motors : list Z)
    (evs : list event) (st : state) (m : Z) :
  Forall (PMPWMWorker.allowed motors) evs → m ∉ motors →
  let st' := foldl (slot worker_results) st evs in
  Dict.get (results_pmpwm st') m = Dict.get (results_pmpwm st) m
  ∧ (m ∈ motors_completed st' ↔ m ∈ motors_completed st)
  ∧ motors_all st' = motors_all st.
Proof.
  intros Hevs Hm. revert st. induction Hevs as [|e evs He Hevs IH]; intros st; [done|].
  simpl. destruct (IH (slot worker_results st e)) as (-> & -> & ->).
  destruct e; try done; simpl.
  - assert (motor ∈ motors) as Hmotor by (by apply He).
    assert (motor ≠ m) as Hne by (intros ->; done).
    split; [|split; [|done]].
    + destruct (Dict.get worker_results motor); [|done]. by apply DictFacts.get_set_ne.
    + rewrite elem_of_union, elem_of_singleton. split; [intros [?|?]|intros ?]; by auto.
  - unfold _on_partial_finished. by destruct (_pending_queue st).
Qed.

Lemma motor_accuracy_frame (st st' : state) (m : Z) :
  Dict.get (results_pmpwm st') m = Dict.get (results_pmpwm st) m →
  motor_accuracy st' m = motor_accuracy st m.
Proof. intros H. unfold motor_accuracy. by rewrite H. Qed.

Lemma per_motor_accuracy_get (st : state) (m : Z) :
  Dict.get (per_motor_accuracy st) m
  = if decide (m ∈ motors_all st) then Some (motor_accuracy st m) else None.
Proof. unfold per_motor_accuracy. by rewrite DictFacts.get_comprehension. Qed.

(** The worker that the slots leave behind: the one there was, or the one
    that [finished] launched on the pending queue. *)
Lemma slots_worker (worker_results : list (Z * list (Z * Z))) (evs : list event)
    (st : state) :
  let st' := foldl (slot worker_results) st evs in
  worker st' = worker st
  ∨ (worker st' = Some (_pending_queue st) ∧ _pending_queue st ≠ []).
Proof.
  revert st. induction evs as [|e evs IH]; intros st; [by left|].
  simpl. destruct (IH (slot worker_results st e)) as [Hw|[Hw Hq]].
  - rewrite Hw. destruct e; try (by left). simpl. unfold _on_partial_finished.
    destruct (_pending_queue st) as [|m q]; [by left|by right].
  - destruct e; simpl in *; try (right; split; assumption).
    unfold _on_partial_finished in *.
    destruct (_pending_queue st) as [|m q] eqn:Hpending; simpl in *; congruence.
Qed.

End MainWindowFacts.

(** C9.  The rewrite of [motor] drops that motor's recorded Trials and its
    completion mark and launches a worker on that motor alone; neither the
    rewrite nor the run of that worker (whatever the schedule, and however
    the thread ends) changes the recorded Trials, the completion mark or the
    entry in [per_motor_accuracy] of any other motor.  For the other motors
    that were completed this still holds after the run of the worker that
    the main window has launched by then (on the motors still pending, when
    the first worker finished). *)
Theorem rewrite_motor_frame (st : MainWindow.state) (motor : Z) (box : Thread.VibroBox)
    (g : list (list (Thread.gui_call (option Z)))) (r : list nat) :
  let st1 := MainWindow._run_pmpwm_for_motor motor st in
  let st2 := MainWindow.after_worker st1 (PMPWMWorker.fresh box g r) in
  MainWindow.worker st1 = Some [motor]
  ∧ Dict.get (MainWindow.results_pmpwm st1) motor = None
  ∧ (motor ∉ MainWindow.motors_completed st1)
  ∧ (∀ m, m ≠ motor →
      Dict.get (MainWindow.results_pmpwm st1) m = Dict.get (MainWindow.results_pmpwm st) m
      ∧ (m ∈ MainWindow.motors_completed st1 ↔ m ∈ MainWindow.motors_completed st)
      ∧ Dict.get (MainWindow.results_pmpwm st2) m = Dict.get (MainWindow.results_pmpwm st) m
      ∧ (m ∈ MainWindow.motors_completed st2 ↔ m ∈ MainWindow.motors_completed st)
      ∧ Dict.get (MainWindow.per_motor_accuracy st2) m
        = Dict.get (MainWindow.per_motor_accuracy st) m)
  ∧ (∀ m box' g' r', m ≠ motor → m ∈ MainWindow.motors_completed st →
      let st3 := MainWindow.after_worker st2 (PMPWMWorker.fresh box' g' r') in
      Dict.get (MainWindow.results_pmpwm st3) m = Dict.get (MainWindow.results_pmpwm st) m
      ∧ m ∈ MainWindow.motors_completed st3
      ∧ Dict.get (MainWindow.per_motor_accuracy st3) m
        = Dict.get (MainWindow.per_motor_accuracy st) m).
Proof.
  intros st1 st2.
  assert (∀ m, m ≠ motor →
            (m ∈ MainWindow.motors_completed st1 ↔ m ∈ MainWindow.motors_completed st))
    as Hcompleted.
  { intros m Hm. unfold st1. simpl.
    rewrite elem_of_difference, elem_of_singleton. tauto. }
  set (w := Thread.final (PMPWMWorker.run (MainWindow.hyps st1) [motor]
                            (PMPWMWorker.fresh box g r))).
  assert (st2 = foldl (MainWindow.slot (Thread.results w)) st1 (Thread.log w)) as Hst2
    by done.
  destruct (PMPWMWorkerFacts.emits_run (MainWindow.hyps st1) [motor]
              (PMPWMWorker.fresh box g r)) as (evs & Hlog & Hevs).
  fold w in Hlog. change (Thread.log (PMPWMWorker.fresh box g r) ++ evs) with evs in Hlog.
  assert (∀ m, m ≠ motor →
            Dict.get (MainWindow.results_pmpwm st2) m
            = Dict.get (MainWindow.results_pmpwm st) m
            ∧ (m ∈ MainWindow.motors_completed st2 ↔ m ∈ MainWindow.motors_completed st)
            ∧ MainWindow.motors_all st2 = MainWindow.motors_all st) as Hframe.
  { intros m Hm.
    assert (m ∉ [motor]) as Hout by (by intros ->%list_elem_of_singleton).
    pose proof (MainWindowFacts.slots_frame (Thread.results w) [motor] evs st1 m Hevs Hout)
      as (H3 & H4 & H5).
    cbv zeta in H3, H4, H5. rewrite <- Hlog, <- Hst2 in H3, H4, H5.
    split; [|split; [|done]].
    - rewrite H3. by apply DictFacts.get_pop_ne.
    - rewrite H4. by apply Hcompleted. }
  split; [done|]. split; [apply DictFacts.get_pop_eq|].
  split.
  { unfold st1. simpl. rewrite elem_of_difference, elem_of_singleton. tauto. }
  split.
  - intros m Hm. destruct (Hframe m Hm) as (H3 & H4 & H5).
    split; [by apply DictFacts.get_pop_ne|]. split; [by apply Hcompleted|].
    split; [done|]. split; [done|].
    rewrite !MainWindowFacts.per_motor_accuracy_get, H5.
    destruct (decide _); [|done]. f_equal.
    by apply MainWindowFacts.motor_accuracy_frame.
  - intros m box' g' r' Hm Hdone st3. destruct (Hframe m Hm) as (H3 & H4 & H5).
    assert (∃ motors, MainWindow.worker st2 = Some motors ∧ m ∉ motors)
      as (motors & Hworker & Hout).
    { pose proof (MainWindowFacts.slots_worker (Thread.results w) (Thread.log w) st1)
        as Hw. cbv zeta in Hw. rewrite <- Hst2 in Hw. destruct Hw as [Hw|[Hw _]].
      - exists [motor]. split; [done|]. by intros ->%list_elem_of_singleton.
      - eexists. split; [done|]. unfold st1. simpl.
        rewrite list_elem_of_filter, elem_of_difference, elem_of_singleton. tauto. }
    set (w' := Thread.final (PMPWMWorker.run (MainWindow.hyps st2) motors
                               (PMPWMWorker.fresh box' g' r'))).
    assert (st3 = foldl (MainWindow.slot (Thread.results w')) st2 (Thread.log w')) as Hst3.
    { unfold st3, MainWindow.after_worker. by rewrite Hworker. }
    destruct (PMPWMWorkerFacts.emits_run (MainWindow.hyps st2) motors
                (PMPWMWorker.fresh box' g' r')) as (evs' & Hlog' & Hevs').
    fold w' in Hlog'.
    change (Thread.log (PMPWMWorker.fresh box' g' r') ++ evs') with evs' in Hlog'.
    pose proof (MainWindowFacts.slots_frame (Thread.results w') motors evs' st2 m Hevs' Hout)
      as (H6 & H7 & H8).
    cbv zeta in H6, H7, H8. rewrite <- Hlog', <- Hst3 in H6, H7, H8.
    split; [congruence|]. split; [tauto|].
    rewrite !MainWindowFacts.per_motor_accuracy_get, H8, H5.
    destruct (decide _); [|done]. f_equal.
    apply MainWindowFacts.motor_accuracy_frame. congruence.
Qed.

Lemma rewrite_motor_frame_witness :
  Dict.get (MainWindow.results_pmpwm
              (MainWindow.after_worker
                 (MainWindow._run_pmpwm_for_motor 1 Sample.both_motors_done)
                 (PMPWMWorker.fresh Sample.box Sample.four_answers [1; 0; 1]%nat))) 0
  = Some [(1, 1); (2, 2); (1, 1); (2, 2)]
  ∧ (0 ∈ MainWindow.motors_completed
           (MainWindow.after_worker
              (MainWindow._run_pmpwm_for_motor 1 Sample.both_motors_done)
              (PMPWMWorker.fresh Sample.box Sample.four_answers [1; 0; 1]%nat))
     ↔ 0 ∈ MainWindow.motors_completed Sample.both_motors_done).
Proof.
  destruct (rewrite_motor_frame Sample.both_motors_done 1 Sample.box
              Sample.four_answers [1; 0; 1]%nat) as (_ & _ & _ & Hframe & _).
  destruct (Hframe 0 ltac:(lia)) as (_ & _ & Hresults & Hcompleted & _).
  split; [exact Hresults|exact Hcompleted].
Defined.

Example rewrite_completed_motor :
  let st1 := MainWindow._run_pmpwm_for_motor 1 Sample.both_motors_done in
  let st2 := MainWindow.after_worker st1
               (PMPWMWorker.fresh Sample.box Sample.four_answers [1; 0; 1]%nat) in
  MainWindow.results_pmpwm st1 = [(0, [(1, 1); (2, 2); (1, 1); (2, 2)])]
  ∧ MainWindow.results_pmpwm st2 = [(0, [(1, 1); (2, 2); (1, 1); (2, 2)]);
                                    (1, [(1, 1); (2, 2); (1, 1); (2, 2)])]
  ∧ MainWindow.worker st2 = Some [1].
Proof. by vm_compute. Qed.

(** ** The true level of a discrimination Trial *)

Lemma strictly_ascending (l : list Z) :
  StronglySorted Z.le l → NoDup l → StronglySorted Z.lt l.
Proof.
  induction 1 as [|x l Hl IH Hx]; intros Hnd; [constructor|].
  apply NoDup_cons in Hnd as [Hx' Hnd]. constructor; [by apply IH|].
  apply Forall_forall. intros y Hy.
  assert (x ≤ y) by (by eapply Forall_forall in Hx).
  assert (x ≠ y) by (by intros ->). lia.
Qed.

Lemma sorted_set_ascending (l : list Z) :
  StronglySorted Z.lt (merge_sort Z.le (remove_dups l)).
Proof.
  apply strictly_ascending.
  - apply StronglySorted_merge_sort; [apply _|]. intros x y. lia.
  - rewrite merge_sort_Permutation. apply NoDup_remove_dups.
Qed.

(** C6, amended.  The level recorded for a presented intensity is
    [pwm_values.index(pwm) + 1], the 1-based position of its first
    occurrence in the configured schedule; the Trial appended on an answer
    carries that level.  It is the 1-based rank within the sorted schedule
    whenever the configured schedule is strictly ascending, which holds for
    the default schedule and for every schedule that the hyperparameter
    dialog returns (it sorts the list and removes duplicates). *)
Theorem true_level_first_position :
  (∀ vals p lvl,
     PMPWMWorker.true_level vals p = Some lvl →
     1 ≤ lvl ∧ vals !! Z.to_nat (lvl - 1) = Some p
     ∧ ∀ j : nat, (j < Z.to_nat (lvl - 1))%nat → vals !! j ≠ Some p)
  ∧ (∀ vals p, p ∈ vals → is_Some (PMPWMWorker.true_level vals p))
  ∧ (∀ h motor p seq' step_local next arr k a lvl trials tail (w : Thread.world (option Z)),
       Thread.ser (Thread.vibro w) = true → 0 ≤ Thread.n_motors (Thread.vibro w) →
       Py.setitem (Thread.zeros (Thread.n_motors (Thread.vibro w))) motor p = Some arr →
       Thread._stop w = false →
       Thread.gui w = replicate k [] ++ [Thread.SetAnswer (Some a)] :: tail →
       PMPWMWorker.true_level (Config.pmpwm_pwm_values h) p = Some lvl →
       Dict.get (Thread.results w) motor = Some trials →
       ∃ w', PMPWMWorker.step_loop h motor (p :: seq') step_local next w
             = PMPWMWorker.step_loop h motor seq' (step_local + 1) next w'
         ∧ Thread.results w' = Dict.set (Thread.results w) motor (trials ++ [(lvl, a)]))
  ∧ (∀ vals p, StronglySorted Z.lt vals →
       PMPWMWorker.true_level vals p = rank_in_sorted vals p)
  ∧ (∀ surname, StronglySorted Z.lt (Config.pmpwm_pwm_values (Config.default_hyps surname)))
  ∧ (∀ parsed h, StronglySorted Z.lt (Config.pmpwm_pwm_values h) →
       StronglySorted Z.lt (PMPWMHyperparamsDialog.get_pwm_values parsed h)).
Proof.
  repeat apply conj.
  - intros vals p lvl. unfold PMPWMWorker.true_level.
    destruct (Py.index vals p) as [i|] eqn:Hi; [|done]. intros [= <-].
    destruct (PyFacts.index_first vals p i Hi) as (H0 & Hp & Hfirst).
    replace (i + 1 - 1) with i by lia. split; [lia|done].
  - intros vals p Hp. unfold PMPWMWorker.true_level.
    destruct (PyFacts.index_is_Some vals p Hp) as [i ->]. by eexists.
  - intros h motor p seq' step_local next arr k a lvl trials tail w
      Hser Hn Harr Hstop Hgui Hlvl Htrials.
    destruct (PMPWMWorkerFacts.pmpwm_answered h motor p seq' step_local next arr k a lvl trials tail w)
      as (w' & Hw' & Hres & _); [done..|].
    by exists w'.
  - intros vals p Hsorted. unfold rank_in_sorted, PMPWMWorker.true_level.
    by rewrite PyFacts.sort_ascending.
  - intros surname. simpl. repeat constructor; lia.
  - intros [pwms|] h Hh; simpl; [|done].
    pose proof (sorted_set_ascending pwms) as Hs.
    by destruct (merge_sort Z.le (remove_dups pwms)).
Qed.

Lemma true_level_first_position_witness :
  (1 ≤ 2 ∧ [14; 22; 60] !! Z.to_nat (2 - 1) = Some 22
   ∧ ∀ j : nat, (j < Z.to_nat (2 - 1))%nat → [14; 22; 60] !! j ≠ Some 22)
  ∧ PMPWMWorker.true_level [14; 22; 60] 22 = rank_in_sorted [14; 22; 60] 22
  ∧ (∃ w', PMPWMWorker.step_loop Sample.four_regions 3 [22; 14] 1 (mret ())
             (Thread.set_results [(3, [])]
                (PMPWMWorker.fresh Sample.box [[]; [Thread.SetAnswer (Some 1)]] []))
           = PMPWMWorker.step_loop Sample.four_regions 3 [14] (1 + 1) (mret ()) w'
       ∧ Thread.results w' = Dict.set [(3, [])] 3 ([] ++ [(2, 1)])).
Proof.
  destruct true_level_first_position as (Hfirst & _ & Htrial & Hrank & _).
  split; [|split].
  - apply (Hfirst [14; 22; 60] 22 2). reflexivity.
  - apply Hrank. repeat constructor; lia.
  - apply (Htrial Sample.four_regions 3 22 [14] 1 (mret ())
             [0; 0; 0; 22; 0; 0; 0; 0; 0; 0] 1%nat 1 2 [] []
             (Thread.set_results [(3, [])]
                (PMPWMWorker.fresh Sample.box [[]; [Thread.SetAnswer (Some 1)]] []))).
    + reflexivity.
    + simpl. lia.
    + reflexivity.
    + reflexivity.
    + reflexivity.
    + reflexivity.
    + reflexivity.
Defined.

Example dialog_sorts_schedule :
  PMPWMHyperparamsDialog.get_pwm_values (Some [22; 14; 22; 60]) (Config.default_hyps "anon")
  = [14; 22; 60].
Proof. reflexivity. Qed.

(** The end-to-end scenario of the specification: two levels, two repeats,
    one motor; the levels 1, 2, 2, 1 are presented and answered 1, 2, 1, 2. *)
Example discrimination_end_to_end :
  ∃ w r, PMPWMWorker.run Sample.four_regions [0]
           (PMPWMWorker.fresh Sample.box
              (Thread.plain_answers
                 [(0%nat, Some 1); (0%nat, Some 2); (0%nat, Some 1); (0%nat, Some 2)])
              [2; 2; 1]%nat)
         = Thread.Done () w
       ∧ last (Thread.log w) = Some (Thread.PmpwmFinished r)
       ∧ Thread.res_answers r = [(1, 1); (2, 2); (2, 1); (1, 2)]
       ∧ Thread.res_confusion r = [[1; 1]; [1; 1]]
       ∧ Thread.res_accuracy r = (1 / 2)%Qc.
Proof.
  eexists _, _. split; [by vm_compute|]. split; [reflexivity|].
  split; [reflexivity|]. split; [reflexivity|]. by apply Qc_is_canon.
Qed.

(** ** Specifications of threads: rules *)

Module TripleFacts.
Import Thread ThreadFacts.

Section rules.
Context {A : Type}.
Variable exc : Py.exn → world A → Prop.
Variable wt : world A → Prop.
Variable tr : event → Prop.

Lemma triple_ret {R} (pre : world A → Prop) (r : R) :
  triple pre (mret r) (λ r' w, r' = r ∧ pre w) exc wt tr.
Proof. intros w Hw. split; [exists []; by rewrite app_nil_r|done]. Qed.

Lemma triple_bind {R S} (pre : world A → Prop) (m : thread A R) (k : R → thread A S)
    (mid : R → world A → Prop) (post : S → world A → Prop) :
  triple pre m mid exc wt tr →
  (∀ r, triple (mid r) (k r) post exc wt tr) →
  triple pre (m ≫= k) post exc wt tr.
Proof.
  intros Hm Hk w Hw. destruct (Hm w Hw) as [(evs & Hlog & Hevs) Hout].
  rewrite bind_unfold. destruct (m w) as [r w'|e w'|w']; simpl in *; [|eauto..].
  destruct (Hk r w' Hout) as [(evs' & Hlog' & Hevs') Hout'].
  split; [|done]. exists (evs ++ evs').
  rewrite Hlog', Hlog, app_assoc. split; [done|]. by apply Forall_app.
Qed.

Lemma triple_conseq {R} (pre pre' : world A → Prop) (m : thread A R)
    (post post' : R → world A → Prop) :
  (∀ w, pre' w → pre w) → (∀ r w, post r w → post' r w) →
  triple pre m post exc wt tr → triple pre' m post' exc wt tr.
Proof.
  intros Hpre Hpost Hm w Hw. destruct (Hm w (Hpre w Hw)) as [Hlog Hout].
  split; [done|]. destruct (m w); eauto.
Qed.

Lemma triple_false {R} (m : thread A R) (post : R → world A → Prop) :
  triple (λ _, False) m post exc wt tr.
Proof. by intros w ?. Qed.

(** A thread that may be run only in worlds where [φ] holds. *)
Lemma triple_assume {R} (pre : world A → Prop) (φ : Prop) (m : thread A R)
    (post : R → world A → Prop) :
  (∀ w, pre w → φ) → (φ → triple pre m post exc wt tr) → triple pre m post exc wt tr.
Proof. intros Hφ Hm w Hw. by apply Hm; [eapply Hφ|]. Qed.

Lemma triple_raise {R} (pre : world A → Prop) (e : Py.exn) (post : R → world A → Prop) :
  (∀ w, pre w → exc e w) → triple pre (raise e) post exc wt tr.
Proof. intros He w Hw. split; [exists []; by rewrite app_nil_r|by apply He]. Qed.

(** Threads that read the world and leave it as it is. *)
Lemma triple_read {R} (pre : world A → Prop) (f : world A → R) :
  triple pre (λ w, Done (f w) w) (λ r w, r = f w ∧ pre w) exc wt tr.
Proof. intros w Hw. split; [exists []; by rewrite app_nil_r|done]. Qed.

Lemma triple_stop_flag (pre : world A → Prop) :
  triple pre stop_flag (λ s w, s = _stop w ∧ pre w) exc wt tr.
Proof. apply triple_read. Qed.

Lemma triple_answer (pre : world A → Prop) :
  triple pre answer (λ a w, a = _answer w ∧ pre w) exc wt tr.
Proof. apply triple_read. Qed.

(** Threads that leave the box and the results as they are. *)
Lemma triple_emit (φ : world A → Prop) (e : event) :
  stable φ → tr e → triple φ (emit e) (λ _ w, φ w) exc wt tr.
Proof.
  intros Hφ He w Hw. split; [by exists [e]; split; [|repeat constructor]|].
  by apply (Hφ w).
Qed.

Lemma triple_stop_requested (φ : world A → Prop) :
  stable φ → triple φ stop_requested (λ s w, s = _stop w ∧ φ w) exc wt tr.
Proof.
  intros Hφ w Hw. unfold stop_requested, sync.
  destruct (gui w) as [|b g]; simpl.
  - split; [exists []; by rewrite app_nil_r|done].
  - rewrite deliver_log. simpl.
    split; [exists []; by rewrite app_nil_r|]. split; [done|].
    apply (Hφ w); [by rewrite deliver_vibro|by rewrite deliver_results|done].
Qed.

Lemma triple_clear_answer (φ : world A → Prop) (a : A) :
  stable φ → triple φ (clear_answer a) (λ _ w, φ w ∧ _answer w = a) exc wt tr.
Proof.
  intros Hφ w Hw. split; [exists []; by rewrite app_nil_r|].
  split; [by apply (Hφ w)|done].
Qed.

Lemma poll_spec (φ : world A → Prop) (empty : A → bool) g (w : world A) :
  stable φ → (∀ w, φ w → wt w) → φ w →
  match poll empty g w with
  | Done _ w' => φ w' ∧ empty (_answer w') && negb (_stop w') = false
  | Raised _ _ => False
  | Polling w' => wt w'
  end.
Proof.
  intros Hφ Hwt. revert w. induction g as [|b g IH]; intros w Hw; simpl.
  - destruct (empty (_answer w) && negb (_stop w)) eqn:Hc.
    + apply Hwt. by apply (Hφ w).
    + split; [by apply (Hφ w)|done].
  - assert (φ (deliver b (set_gui g w))) as Hw'.
    { apply (Hφ w); [by rewrite deliver_vibro|by rewrite deliver_results|done]. }
    destruct (empty _ && negb _) eqn:Hc; [by apply IH|done].
Qed.

(** The polling loop: it is left with an answer or with a stop request. *)
Lemma triple_wait_while (φ : world A → Prop) (empty : A → bool) :
  stable φ → (∀ w, φ w → wt w) →
  triple φ (wait_while empty)
    (λ _ w, φ w ∧ empty (_answer w) && negb (_stop w) = false) exc wt tr.
Proof.
  intros Hφ Hwt w Hw. unfold wait_while.
  split; [exists []; by rewrite app_nil_r, poll_log|].
  pose proof (poll_spec φ empty (gui w) w Hφ Hwt Hw) as H.
  by destruct (poll empty (gui w) w).
Qed.

Lemma triple_randbelow (φ : world A → Prop) (n : nat) :
  stable φ → (0 < n)%nat →
  triple φ (randbelow n) (λ j w, (j < n)%nat ∧ φ w) exc wt tr.
Proof.
  intros Hφ Hn w Hw. split; [exists []; by rewrite app_nil_r|].
  split; [by apply Nat.mod_upper_bound, Nat.neq_0_lt_0|by apply (Hφ w)].
Qed.

Lemma triple_randint (φ : world A → Prop) (a b : Z) :
  stable φ → a ≤ b →
  triple φ (randint a b) (λ r w, a ≤ r ≤ b ∧ φ w) exc wt tr.
Proof.
  intros Hφ Hab. unfold randint.
  eapply triple_bind; [apply (triple_randbelow φ); [done|lia]|].
  intros j. cbv beta. eapply triple_conseq; [| |apply triple_ret];
    [intros w Hw; exact Hw|].
  intros r w [-> [Hj Hw]]. split; [lia|done].
Qed.

Lemma triple_shuffle_from {T} (φ : world A → Prop) (i : nat) (x : list T) :
  stable φ → triple φ (shuffle_from i x) (λ x' w, x' ≡ₚ x ∧ φ w) exc wt tr.
Proof.
  intros Hφ. revert x. induction i as [|i IH]; intros x.
  - eapply triple_conseq; [| |apply triple_ret]; [done|]. by intros r w [-> ?].
  - cbn [shuffle_from].
    eapply triple_bind; [apply (triple_randbelow φ); [done|lia]|].
    intros j. eapply triple_conseq; [| |apply IH]; [by intros w [_ ?]|].
    intros x' w [Hperm Hw]. split; [|done]. by rewrite Hperm, swap_perm.
Qed.

Lemma triple_shuffle {T} (φ : world A → Prop) (x : list T) :
  stable φ → triple φ (shuffle x) (λ x' w, x' ≡ₚ x ∧ φ w) exc wt tr.
Proof. intros Hφ. by apply triple_shuffle_from. Qed.

Lemma triple_sample_from {T} (φ : world A → Prop) (k : nat) :
  stable φ →
  ∀ (pool : list T) (n : nat), (k ≤ n)%nat → (n ≤ length pool)%nat →
  triple φ (sample_from k pool n)
    (λ extra w, length extra = k ∧ extra ⊆ take n pool ∧ φ w) exc wt tr.
Proof.
  intros Hφ. induction k as [|k IH]; intros pool n Hk Hn.
  - eapply triple_conseq; [| |apply triple_ret]; [done|].
    intros r w [-> ?]. split; [done|]. split; [|done]. by intros x ?%elem_of_nil.
  - cbn [sample_from].
    eapply triple_bind; [apply (triple_randbelow φ); [done|lia]|].
    intros j. apply (triple_assume _ (j < n)%nat); [by intros w [? _]|]. intros Hj.
    destruct (lookup_lt_is_Some_2 pool j) as [pj Hpj]; [lia|].
    destruct (lookup_lt_is_Some_2 pool (n - 1)) as [pl Hpl]; [lia|].
    rewrite Hpj, Hpl.
    eapply triple_bind.
    { eapply triple_conseq; [| |apply (IH (<[j := pl]> pool) (n - 1)%nat)];
        [by intros w [_ ?]|done|lia|rewrite length_insert; lia]. }
    intros rest. cbv beta. eapply triple_conseq; [| |apply triple_ret];
      [intros w Hw; exact Hw|].
    intros r w [-> (Hlen & Hsub & Hw)]. split; [simpl; lia|]. split; [|done].
    intros x [->|Hx]%elem_of_cons.
    + apply list_elem_of_lookup. exists j. rewrite lookup_take_lt by lia. done.
    + apply Hsub in Hx. apply list_elem_of_lookup in Hx as [i Hi].
      destruct (decide (i < n - 1)%nat) as [Hlt|Hge];
        [|by rewrite lookup_take_ge in Hi by lia].
      rewrite lookup_take_lt in Hi by lia.
      destruct (decide (i = j)) as [->|Hne].
      * rewrite list_lookup_insert_eq in Hi by lia. injection Hi as <-.
        apply list_elem_of_lookup. exists (n - 1)%nat. by rewrite lookup_take_lt by lia.
      * rewrite list_lookup_insert_ne in Hi by done.
        apply list_elem_of_lookup. exists i. by rewrite lookup_take_lt by lia.
Qed.

Lemma triple_sample {T} (φ : world A → Prop) (population : list T) (k : Z) :
  stable φ → 0 ≤ k ≤ Z.of_nat (length population) →
  triple φ (sample population k)
    (λ extra w, Z.of_nat (length extra) = k ∧ extra ⊆ population ∧ φ w) exc wt tr.
Proof.
  intros Hφ Hk. unfold sample.
  destruct (Z.leb_spec 0 k); [|lia].
  destruct (Z.leb_spec k (Z.of_nat (length population))); [|lia]. simpl.
  eapply triple_conseq; [| |apply (triple_sample_from φ (Z.to_nat k) Hφ population
                                     (length population))]; [done| |lia|lia].
  intros extra w (Hlen & Hsub & Hw). split; [lia|]. split; [|done].
  by rewrite firstn_all in Hsub.
Qed.

End rules.

End TripleFacts.

(** *** The port *)

Module PortFacts.
Import Thread ThreadFacts TripleFacts.

Section port.
Context {A : Type}.
Variable exc : Py.exn → world A → Prop.
Variable wt : world A → Prop.
Variable tr : event → Prop.
Variable n : Z.
Variable ρ : list (Z * list (Z * Z)) → Prop.

Lemma connected_stable : stable (connected (A:=A) n ρ).
Proof. intros w w' Hv Hr. unfold connected. by rewrite Hv, Hr. Qed.

Lemma motors_off_stable : stable (motors_off (A:=A) n ρ).
Proof. intros w w' Hv Hr. unfold motors_off, connected. by rewrite Hv, Hr. Qed.

Lemma off_connected (w : world A) : motors_off n ρ w → connected n ρ w.
Proof. by intros [? _]. Qed.

Lemma triple_set_pwm_values (arr : list Z) :
  Z.of_nat (length arr) = n → tr (Written arr) →
  triple (connected n ρ) (set_pwm_values arr)
    (λ _ w, connected n ρ w ∧ pwm (vibro w) = arr) exc wt tr.
Proof.
  intros Hlen Harr w (Hser & Hn & Hn0 & Hρ).
  rewrite set_pwm_values_done by (done || by rewrite Hn).
  split; [by exists [Written arr]; split; [|repeat constructor]|done].
Qed.

Lemma triple_reset :
  tr (Written (zeros n)) →
  triple (connected n ρ) reset_pwm_values (λ _ w, motors_off n ρ w) exc wt tr.
Proof.
  intros Hz w Hw. pose proof Hw as (Hser & Hn & Hn0 & Hρ). unfold reset_pwm_values.
  rewrite Hn.
  destruct (triple_set_pwm_values (zeros n) (length_zeros n Hn0) Hz w Hw) as [Hlog Hout].
  split; [done|]. by destruct (set_pwm_values (zeros n) w).
Qed.

Lemma triple_blink (val : Z) :
  tr (Written (replicate (Z.to_nat n) val)) → tr (Written (zeros n)) →
  triple (connected n ρ) (blink val) (λ _ w, motors_off n ρ w) exc wt tr.
Proof.
  intros Hval Hz.
  apply (triple_assume _ _ _ _ (0 ≤ n)); [by intros w (_ & _ & ? & _)|]. intros Hn0.
  unfold blink.
  eapply triple_bind; [apply triple_read|]. intros n'. cbv beta.
  apply (triple_assume _ _ _ _ (n' = n)); [by intros w [-> (_ & ? & _)]|]. intros Hn'. subst n'.
  eapply triple_bind.
  { eapply triple_conseq; [| |apply triple_set_pwm_values];
      [by intros w [_ ?]|intros r w Hw; exact Hw| |done].
    rewrite length_replicate. lia. }
  intros ?. eapply triple_conseq; [| |by apply triple_reset]; [by intros w [? _]|done].
Qed.

Lemma triple_begin_end_indicator :
  tr BeginEndIndicator → tr (Written (replicate (Z.to_nat n) 20)) →
  tr (Written (zeros n)) →
  triple (connected n ρ) begin_end_indicator (λ _ w, motors_off n ρ w) exc wt tr.
Proof.
  intros Hb Hval Hz. unfold begin_end_indicator.
  eapply triple_bind; [by apply triple_emit; [apply connected_stable|]|]. intros ?.
  eapply triple_bind; [by apply triple_blink|]. intros ?.
  eapply triple_conseq; [| |by apply triple_blink]; [apply off_connected|done].
Qed.

End port.
End PortFacts.

(** *** Threads specified by their events and the recorded Trials alone *)

Module ResultsFacts.
Import Thread ThreadFacts TripleFacts.

Section results.
Context {A : Type}.
Variable tr : event → Prop.
Variable ρ : list (Z * list (Z * Z)) → Prop.

Local Abbreviation anyhow := (λ (_ : Py.exn) (_ : world A), True).
Local Abbreviation anywhere := (λ _ : world A, True).
Local Abbreviation keeps := (λ w : world A, ρ (results w)).

Lemma keeps_stable : stable keeps.
Proof. intros w w' _ Hr. cbv beta. by rewrite Hr. Qed.

Lemma keeps_set_pwm_values (arr : list Z) :
  tr (Written arr) →
  triple keeps (set_pwm_values arr) (λ _ w, keeps w) anyhow anywhere tr.
Proof.
  intros Harr w Hw. unfold set_pwm_values, _write_array.
  case_bool_decide; [|split; [exists []; simpl; by rewrite app_nil_r|done]].
  destruct (ser (vibro w)); [|split; [exists []; simpl; by rewrite app_nil_r|done]].
  split; [|done]. exists [Written arr]. split; [done|]. by apply Forall_singleton.
Qed.

Lemma keeps_reset :
  (∀ arr, tr (Written arr)) →
  triple keeps reset_pwm_values (λ _ w, keeps w) anyhow anywhere tr.
Proof. intros Harr w Hw. unfold reset_pwm_values. by apply keeps_set_pwm_values. Qed.

Lemma keeps_blink (val : Z) :
  (∀ arr, tr (Written arr)) →
  triple keeps (blink val) (λ _ w, keeps w) anyhow anywhere tr.
Proof.
  intros Harr. unfold blink.
  eapply triple_bind; [apply triple_read|]. intros n. cbv beta.
  eapply triple_bind.
  { eapply triple_conseq; [| |by apply keeps_set_pwm_values];
      [by intros w [_ ?]|intros r w Hw; exact Hw]. }
  intros ?. by apply keeps_reset.
Qed.

Lemma keeps_begin_end_indicator :
  tr BeginEndIndicator → (∀ arr, tr (Written arr)) →
  triple keeps begin_end_indicator (λ _ w, keeps w) anyhow anywhere tr.
Proof.
  intros Hb Harr. unfold begin_end_indicator.
  eapply triple_bind; [by apply triple_emit; [apply keeps_stable|]|]. intros ?.
  eapply triple_bind; [by apply keeps_blink|]. intros ?. by apply keeps_blink.
Qed.

End results.
End ResultsFacts.

(** ** The threshold worker never fails and never exceeds its bound *)

Module SafetyTactics.
Import Thread TripleFacts PortFacts.

(** The precondition at hand gives the one a rule asks for. *)
Ltac solve_pre :=
  let w := fresh "w" in
  let H := fresh "H" in
  intros w H; cbv beta in *;
  repeat match goal with H : _ ∧ _ |- _ => destruct H end;
  first [eassumption | eapply off_connected; eassumption | done].

(** The postcondition of a rule gives the one asked for. *)
Ltac solve_post :=
  let r := fresh "r" in
  let w := fresh "w" in
  let H := fresh "H" in
  intros r w H;
  first [exact H
        |cbv beta in *;
         repeat match goal with H : _ ∧ _ |- _ => destruct H end;
         first [eassumption | done]].

(** Apply a rule after weakening the precondition. *)
Ltac tapply tac :=
  eapply triple_conseq; [| |tac]; [solve_pre|solve_post].

(** The next action of a sequence, by the rule [tac]; [x] names its value. *)
Tactic Notation "tbind" tactic3(tac) "as" ident(x) :=
  eapply triple_bind; [tapply tac|]; intros x; cbv beta.

Tactic Notation "tbind" tactic3(tac) :=
  eapply triple_bind; [tapply tac|]; intros ?; cbv beta.

(** The next action reads the world. *)
Tactic Notation "tread" tactic3(tac) "as" ident(x) :=
  eapply triple_bind; [tac|]; intros x; cbv beta.

(** A fact that the precondition holds, moved to the context. *)
Tactic Notation "tpure" constr(P) "as" ident(H) :=
  apply (triple_assume _ _ _ _ P); [solve_pre|intros H].

(** The thread returns; [tac] shows the postcondition. *)
Ltac tret tac :=
  eapply triple_conseq; [| |apply triple_ret];
  [let w := fresh "w" in let H := fresh "H" in intros w H; exact H
  |let r := fresh "r" in let w := fresh "w" in let H := fresh "H" in
   intros r w [-> H]; cbv beta in *;
   repeat match goal with H : _ ∧ _ |- _ => destruct H end; tac].

End SafetyTactics.

Module MolsSafety.
Import Thread ThreadFacts TripleFacts PortFacts MolsWorker Safety SafetyTactics.

Lemma range3_bounds (start stop step x : Z) (l : list Z) :
  Py.range3 start stop step = Some l → x ∈ l →
  (0 < step ∧ start ≤ x < stop) ∨ (step < 0 ∧ stop < x ≤ start).
Proof.
  unfold Py.range3, Py.range_len. destruct (Z.eqb_spec step 0) as [|Hstep]; [done|].
  intros [= <-] (i & -> & Hi)%list_elem_of_fmap. apply elem_of_seqZ in Hi.
  destruct (Z.ltb_spec 0 step) as [Hpos|Hneg].
  - left. split; [done|].
    pose proof (Z.mul_div_le (stop - start + step - 1) step Hpos). nia.
  - right. split; [lia|].
    pose proof (Z.mul_div_le (start - stop - step - 1) (- step) ltac:(lia)). nia.
Qed.

Lemma range3_is_Some (start stop step : Z) :
  step ≠ 0 → is_Some (Py.range3 start stop step).
Proof. intros Hstep. unfold Py.range3. destruct (Z.eqb_spec step 0); [done|by eexists]. Qed.

Lemma Forall_setitem {T} (P : T → Prop) (l l' : list T) (i : Z) (v : T) :
  Py.setitem l i v = Some l' → Forall P l → P v → Forall P l'.
Proof.
  unfold Py.setitem. intros Hset Hl Hv.
  repeat case_match; simplify_eq; by apply Forall_insert.
Qed.

Lemma recorded_set (results : list (Z * list Z)) (m : Z) (v : list Z) :
  recorded results → v ≠ [] → recorded (Dict.set results m v).
Proof.
  intros Hr Hv. induction Hr as [|[k x] results Hx Hr IH]; simpl.
  - by repeat constructor.
  - destruct (k =? m); constructor; done.
Qed.

Lemma recorded_pass (results : list (Z * list Z)) (m pwm : Z) :
  recorded results → recorded (record_pass results m pwm).
Proof. intros Hr. apply recorded_set; [done|]. by destruct (default _ _). Qed.

Lemma results_mean_is_Some (results : list (Z * list Z)) :
  recorded results → is_Some (results_mean results).
Proof.
  unfold results_mean. intros Hr. induction Hr as [|[k x] results Hx Hr IH].
  - by eexists.
  - destruct IH as [rm Hrm]. simpl in *.
    destruct x as [|v x]; [done|]. simpl. rewrite Hrm. by eexists.
Qed.

Section safety.
Variable h : Config.hyps.
Hypothesis Hn0 : 0 ≤ Config.n_motors h.
Hypothesis Hdown : Config.delta_pwm_down h ≠ 0.
Hypothesis Hup : Config.delta_pwm_up h ≠ 0.

Local Abbreviation n := (Config.n_motors h).
Local Abbreviation bot := (lowest h).
Local Abbreviation top := (highest h).
Local Abbreviation any := (λ _ : list (Z * list (Z * Z)), True).
Local Abbreviation off := (motors_off (A:=string) n any).
Local Abbreviation never := (λ (_ : Py.exn) (_ : world string), False).
Local Abbreviation tr := (bounded n bot top).
Local Abbreviation spec m := (triple off m (λ _ w, off w) never off tr).

Lemma mols_tr_written (arr : list Z) :
  Z.of_nat (length arr) = n → Forall (λ v, bot ≤ v ≤ top) arr → tr (Written arr).
Proof. by intros ?? arr' [= <-]. Qed.

Lemma mols_tr_zeros : tr (Written (zeros n)).
Proof.
  apply mols_tr_written; [by apply length_zeros|].
  apply Forall_replicate. unfold lowest, highest. lia.
Qed.

Lemma mols_tr_blink : tr (Written (replicate (Z.to_nat n) 20)).
Proof.
  apply mols_tr_written; [rewrite length_replicate; lia|].
  apply Forall_replicate. unfold lowest, highest. lia.
Qed.

Lemma wait_for_patient_safe : spec wait_for_patient.
Proof.
  unfold wait_for_patient.
  tbind (apply triple_clear_answer, motors_off_stable).
  tapply ltac:(by apply triple_wait_while; [apply motors_off_stable|]).
Qed.

Lemma cancelled_safe : spec (reset_pwm_values;; mret (-1)).
Proof.
  tbind (apply (triple_reset never off tr n any), mols_tr_zeros). by tret idtac.
Qed.

Lemma probe_loop_safe (motor_idx : Z) (positive_answer : string) (seq : list Z) :
  - n ≤ motor_idx < n →
  ∀ pwm_arr, Forall (λ v, bot ≤ v ≤ top) seq →
    Z.of_nat (length pwm_arr) = n → Forall (λ v, bot ≤ v ≤ top) pwm_arr →
    spec (probe_loop h motor_idx positive_answer seq pwm_arr).
Proof.
  intros Hidx. induction seq as [|v seq IH]; intros pwm_arr Hseq Hlen Harr;
    cbn [probe_loop].
  - by tret idtac.
  - apply Forall_cons in Hseq as [Hv Hseq].
    tbind (apply triple_stop_requested, motors_off_stable) as s.
    destruct s; [tapply ltac:(apply cancelled_safe)|].
    tbind (by apply triple_emit; [apply motors_off_stable|]).
    destruct (MolsWorkerFacts.setitem_ok pwm_arr motor_idx v) as (arr & Hset & Hlen');
      [lia|].
    rewrite Hset.
    assert (Forall (λ v, bot ≤ v ≤ top) arr) as Harr' by (by eapply Forall_setitem).
    tbind (apply (triple_set_pwm_values never off tr n any);
                  [lia|apply mols_tr_written; [lia|done]]).
    tbind (apply (triple_reset never off tr n any), mols_tr_zeros).
    tbind (by apply triple_emit; [apply motors_off_stable|]).
    tbind (apply wait_for_patient_safe).
    tread (apply triple_stop_flag) as s.
    destruct s; [tapply ltac:(apply cancelled_safe)|].
    tread (apply triple_answer) as a.
    destruct (bool_decide _); [by tret idtac|].
    tapply ltac:(apply IH; [done|lia|done]).
Qed.

Lemma arange_safe (start stop step : Z) :
  step ≠ 0 →
  triple off (arange start stop step)
    (λ l w, Py.range3 start stop step = Some l ∧ off w) never off tr.
Proof.
  intros Hstep. unfold arange.
  destruct (range3_is_Some start stop step Hstep) as [l Hl]. rewrite Hl.
  by tret idtac.
Qed.

Lemma _downstream_safe (motor_idx : Z) :
  - n ≤ motor_idx < n → spec (_downstream h motor_idx).
Proof.
  intros Hidx. unfold _downstream.
  tbind (by apply triple_randint; [apply motors_off_stable|]) as r.
  tpure (3 ≤ r ≤ 4) as Hr.
  tbind (by apply arange_safe) as s1.
  tpure (Py.range3 (r * 10) 20 (Config.delta_pwm_down h) = Some s1) as Hs1.
  tbind (by apply arange_safe) as s2.
  tpure (Py.range3 20 (Config.end_pwm_down h) (-2) = Some s2) as Hs2.
  unfold _probe.
  assert (Forall (λ v, bot ≤ v ≤ top) (s1 ++ s2)) as Hseq.
  { apply Forall_app. split; apply Forall_forall; intros x Hx.
    - destruct (range3_bounds _ _ _ _ _ Hs1 Hx); unfold lowest, highest; lia.
    - destruct (range3_bounds _ _ _ _ _ Hs2 Hx); unfold lowest, highest; lia. }
  tapply ltac:(apply probe_loop_safe;
                 [done|done|by apply length_zeros|apply Forall_replicate; unfold lowest, highest; lia]).
Qed.

Lemma _upstream_safe (motor_idx : Z) :
  - n ≤ motor_idx < n → spec (_upstream h motor_idx).
Proof.
  intros Hidx. unfold _upstream.
  tbind (by apply triple_randint; [apply motors_off_stable|]) as r.
  tpure (2 ≤ r ≤ 8) as Hr.
  tbind (by apply arange_safe) as seq.
  tpure (Py.range3 r (Config.end_pwm_up h) (Config.delta_pwm_up h) = Some seq) as Hseq.
  unfold _probe.
  assert (Forall (λ v, bot ≤ v ≤ top) seq) as Hbound.
  { apply Forall_forall. intros x Hx.
    destruct (range3_bounds _ _ _ _ _ Hseq Hx); unfold lowest, highest; lia. }
  tapply ltac:(apply probe_loop_safe;
                 [done|done|by apply length_zeros|apply Forall_replicate; unfold lowest, highest; lia]).
Qed.

Lemma direction_loop_safe (total_steps m : Z) (streams : list Z)
    (next : Z → list (Z * list Z) → thread string unit) :
  - n ≤ m < n →
  (∀ done results, recorded results → spec (next done results)) →
  ∀ done results, recorded results →
    spec (direction_loop h total_steps m streams done results next).
Proof.
  intros Hm Hnext. induction streams as [|direction streams IH]; intros done results Hres;
    cbn [direction_loop]; [by apply Hnext|].
  tbind (apply triple_stop_requested, motors_off_stable) as s.
  destruct s; [by tret idtac|].
  tbind (by apply triple_emit; [apply motors_off_stable|]).
  tbind (by apply triple_emit; [apply motors_off_stable|]).
  tbind (destruct (direction =? 1); [by apply _downstream_safe|by apply _upstream_safe])
    as pwm.
  unfold after_pass. destruct (pwm =? -1); [by tret idtac|].
  tbind (apply (triple_begin_end_indicator never off tr n any);
                [done|apply mols_tr_blink|apply mols_tr_zeros]).
  tapply ltac:(apply IH, recorded_pass, Hres).
Qed.

Lemma mols_motor_loop_safe (total_steps : Z) (motors : list Z) :
  Forall (λ m, - n ≤ m < n) motors →
  ∀ done results, recorded results → spec (motor_loop h total_steps motors done results).
Proof.
  induction 1 as [|m motors Hm Hmotors IH]; intros done results Hres; cbn [motor_loop].
  - destruct (results_mean_is_Some results Hres) as [rm ->].
    tapply ltac:(by apply triple_emit; [apply motors_off_stable|]).
  - tbind (apply triple_shuffle, motors_off_stable).
    tapply ltac:(by apply direction_loop_safe).
Qed.

Lemma mols_run_safe :
  0 < Config.use_motors_step h →
  - n ≤ Config.num_motor_start h → Config.num_motor_end h < n →
  spec (run h).
Proof.
  intros Hstep Hstart Hend. unfold run.
  destruct (range3_is_Some (Config.num_motor_start h) (Config.num_motor_end h + 1)
              (Config.use_motors_step h)) as [motors Hmotors]; [lia|].
  rewrite Hmotors. apply mols_motor_loop_safe; [|constructor].
  apply Forall_forall. intros m Hin.
  destruct (range3_bounds _ _ _ _ _ Hmotors Hin); lia.
Qed.

End safety.
End MolsSafety.

(** ** The spatial worker never fails and drives one motor at a time *)

Module SpatialSafety.
Import Thread ThreadFacts TripleFacts PortFacts SpatialWorker Safety SafetyTactics.

Section safety.
Variable h : Config.hyps.
Variable mode : string.
Hypothesis Hn0 : 0 ≤ Config.n_motors h.
Hypothesis Hstep : Config.use_motors_step h ≠ 0.

Local Abbreviation n := (Config.n_motors h).
Local Abbreviation any := (λ _ : list (Z * list (Z * Z)), True).
Local Abbreviation off := (motors_off (A:=option Z) n any).
Local Abbreviation never := (λ (_ : Py.exn) (_ : world (option Z)), False).
Local Abbreviation tr := (spatial_event h).
Local Abbreviation spec m := (triple off m (λ _ w, off w) never off tr).

Lemma spatial_tr_signal (e : event) :
  e ≠ BeginEndIndicator → (∀ arr, e ≠ Written arr) → tr e.
Proof. intros Hb Hw. split; [done|]. intros arr ->. by destruct (Hw arr). Qed.

Lemma spatial_tr_zeros : tr (Written (zeros n)).
Proof. split; [done|]. intros arr [= <-]. by left. Qed.

Lemma spatial_tr_pulse (mot : Z) : tr (Written (pulse h mot)).
Proof.
  split; [done|]. intros arr [= <-]. unfold pulse.
  destruct (Z.leb_spec 0 mot), (Z.ltb_spec mot n); simpl; try (by left).
  right. by exists mot.
Qed.

Lemma vibrate_safe (motors : list Z) :
  triple off (vibrate h motors) (λ _ w, connected n any w) never off tr.
Proof.
  eapply triple_conseq; [apply off_connected|intros r w Hw; exact Hw|].
  induction motors as [|mot motors IH]; cbn [vibrate]; [by tret idtac|].
  tbind (apply (triple_set_pwm_values never off tr n any);
           [by apply SpatialWorkerFacts.length_pulse|apply spatial_tr_pulse]).
  tapply ltac:(apply IH).
Qed.

Lemma present_loop_safe (total : Z) (seq : list Z) :
  ∀ idx answers,
    triple off (present_loop h mode total seq idx answers) (λ _ w, off w) never off tr.
Proof.
  induction seq as [|m0 seq IH]; intros idx answers; cbn [present_loop];
    [by tret idtac|].
  tbind (apply triple_stop_requested, motors_off_stable) as s.
  destruct s; [by tret idtac|].
  tbind (by apply triple_emit; [apply motors_off_stable|apply spatial_tr_signal]).
  destruct (Z.eqb_spec (Config.use_motors_step h) 0) as [|_]; [done|].
  tbind (apply vibrate_safe).
  tbind (apply (triple_reset never off tr n any), spatial_tr_zeros).
  tbind (apply triple_clear_answer, motors_off_stable).
  tbind (by apply triple_emit; [apply motors_off_stable|apply spatial_tr_signal]).
  tbind (by apply triple_wait_while; [apply motors_off_stable|]).
  tread (apply triple_stop_flag) as s.
  tread (apply triple_answer) as a.
  destruct s, a as [a|]; try (by tret idtac).
  tapply ltac:(apply IH).
Qed.

Lemma presentation_sequence_safe (uses : list Z) (max_samples : Z) :
  uses ≠ [] →
  triple off (presentation_sequence uses max_samples) (λ _ w, off w) never off tr.
Proof.
  intros Huses. unfold presentation_sequence, Py.divmod.
  assert (0 < Z.of_nat (length uses)) as HU by (destruct uses; [done|simpl; lia]).
  pose proof (Z.mod_pos_bound max_samples _ HU) as Hr.
  eapply (triple_bind never off tr _ _ _ (λ _ w, off w)).
  - destruct (0 <? _).
    + eapply triple_bind;
        [apply (triple_sample never off tr off); [apply motors_off_stable|lia]|].
      intros extra. cbv beta. by tret idtac.
    + by tret idtac.
  - intros seq. cbv beta.
    tapply ltac:(apply triple_shuffle, motors_off_stable).
Qed.

Lemma spatial_run_safe : spec (run h mode).
Proof.
  unfold run.
  assert (is_Some (region_pool h mode)) as [uses Huses].
  { unfold region_pool. destruct (bool_decide _); [|by eexists].
    by apply MolsSafety.range3_is_Some. }
  rewrite Huses. destruct uses as [|m0 uses]; [by tret idtac|].
  tbind (by apply presentation_sequence_safe) as seq.
  unfold present_and_finish.
  tbind (apply present_loop_safe) as answers.
  tapply ltac:(by apply triple_emit; [apply motors_off_stable|apply spatial_tr_signal]).
Qed.

End safety.
End SpatialSafety.

(** ** The discrimination worker: what it writes and how it can fail *)

Module PMPWMSafety.
Import Thread ThreadFacts TripleFacts PortFacts PMPWMWorker Safety SafetyTactics.

Lemma elem_of_cycles {T} (q : nat) (l : list T) (x : T) :
  x ∈ concat (replicate q l) → x ∈ l.
Proof.
  induction q as [|q IH]; simpl; [by intros ?%elem_of_nil|].
  intros [?|?]%elem_of_app; [done|by apply IH].
Qed.

Section safety.
Variable h : Config.hyps.
Variable n : Z.
Variable motors : list Z.
Hypothesis Hn0 : 0 ≤ n.

Local Abbreviation any := (λ _ : list (Z * list (Z * Z)), True).
Local Abbreviation has motor := (λ res : list (Z * list (Z * Z)), is_Some (Dict.get res motor)).
Local Abbreviation off := (motors_off (A:=option Z) n any).
Local Abbreviation post_processing :=
  (λ (e : Py.exn) (w : world (option Z)),
     (e = Py.ZeroDivisionError ∨ e = Py.IndexError) ∧ off w).
Local Abbreviation tr := (pmpwm_event h n motors).
Local Abbreviation spec pre m := (triple pre m (λ _ w, off w) post_processing off tr).

Lemma off_any ρ (w : world (option Z)) : motors_off n ρ w → off w.
Proof. by intros [(? & ? & ? & _) ?]. Qed.

Lemma pmpwm_tr_signal (e : event) : (∀ arr, e ≠ Written arr) → tr e.
Proof. intros Hw arr ->. by destruct (Hw arr). Qed.

Lemma pmpwm_tr_zeros : tr (Written (zeros n)).
Proof. intros arr [= <-]. by left. Qed.

Lemma pmpwm_tr_blink : tr (Written (replicate (Z.to_nat n) 20)).
Proof. intros arr [= <-]. right. by left. Qed.

Lemma store_safe (motor : Z) (trials : list (Z * Z)) ρ :
  triple (motors_off n ρ) (store motor trials) (λ _ w, motors_off n (has motor) w)
    post_processing off tr.
Proof.
  intros w [(Hser & Hn & _ & _) Hpwm]. split; [exists []; by rewrite app_nil_r|].
  simpl. split; [|done]. split; [done|]. split; [done|]. split; [done|].
  cbn [results set_results]. rewrite DictFacts.get_set_eq. by eexists.
Qed.

Lemma append_safe (motor : Z) (trial : Z * Z) :
  triple (motors_off n (has motor)) (append motor trial)
    (λ _ w, motors_off n (has motor) w) post_processing off tr.
Proof.
  intros w Hw. pose proof Hw as [(Hser & Hn & _ & [trials Htrials]) Hpwm].
  unfold append. rewrite Htrials.
  destruct (store_safe motor (trials ++ [trial]) _ w Hw) as [Hlog Hout]. done.
Qed.

Lemma summarise_safe (all_motors : list Z) : spec off (summarise h all_motors).
Proof.
  intros w Hw. unfold summarise.
  destruct (confusion_matrix _ _) as [cm|].
  - case_bool_decide.
    + split; [exists []; by rewrite app_nil_r|]. split; [by left|done].
    + split; [eexists [_]; split; [done|]; apply Forall_singleton; by apply pmpwm_tr_signal|].
      by apply (motors_off_stable n any w).
  - split; [exists []; by rewrite app_nil_r|]. split; [by right|done].
Qed.

Lemma step_loop_safe (motor : Z) (next : thread (option Z) unit) (seq : list Z) :
  motor ∈ motors → Forall (λ p, p ∈ Config.pmpwm_pwm_values h) seq →
  spec off next →
  ∀ step_local, spec (motors_off n (has motor)) (step_loop h motor seq step_local next).
Proof.
  intros Hmotor Hseq Hnext. induction Hseq as [|p seq Hp Hseq IH]; intros step_local;
    cbn [step_loop].
  - tbind (by apply triple_emit; [apply motors_off_stable|apply pmpwm_tr_signal]).
    eapply triple_conseq; [|intros ? ? Hw; exact Hw|apply Hnext].
    intros w Hw. by eapply off_any.
  - tbind (by apply triple_emit; [apply motors_off_stable|apply pmpwm_tr_signal]).
    tread (apply triple_read) as n'.
    apply (triple_assume _ _ _ _ (n' = n)); [by intros w [-> [(_ & ? & _) _]]|].
    intros Hn'. subst n'.
    destruct (Py.setitem (zeros n) motor p) as [arr|] eqn:Harr.
    + assert (Z.of_nat (length arr) = n) as Hlen.
      { rewrite (PMPWMWorkerFacts.length_setitem _ _ _ _ Harr). by apply length_zeros. }
      tbind (apply (triple_set_pwm_values post_processing off tr n (has motor));
               [done|intros arr' [= <-]; right; right; by exists motor, p]).
      tbind (apply (triple_reset post_processing off tr n (has motor)), pmpwm_tr_zeros).
      tbind (apply triple_clear_answer, motors_off_stable).
      tbind (by apply triple_emit; [apply motors_off_stable|apply pmpwm_tr_signal]).
      tbind (apply (triple_wait_while post_processing off tr (motors_off n (has motor)));
               [apply motors_off_stable|intros w Hw; by eapply off_any]).
      tread (apply triple_stop_flag) as s.
      destruct s.
      * eapply triple_conseq;
          [|intros ? ? Hw; exact (off_any (has motor) _ Hw)
           |apply (triple_reset post_processing off tr n (has motor)), pmpwm_tr_zeros].
        solve_pre.
      * tread (apply triple_answer) as a.
        apply (triple_assume _ _ _ _ (no_answer a = false)).
        { intros w (-> & Hs & _ & Hc). rewrite <- Hs in Hc.
          by apply andb_false_iff in Hc as [?|?]. }
        intros Ha.
        destruct (PyFacts.index_is_Some _ _ Hp) as [i Hi].
        unfold true_level. rewrite Hi. simpl.
        destruct a as [a|]; [|done].
        tbind (apply append_safe).
        tapply ltac:(apply IH).
    + apply triple_raise. intros w [_ Hw]. split; [by right|by eapply off_any].
Qed.

Lemma pmpwm_motor_loop_safe (all_motors ms : list Z) :
  ms ⊆ motors → spec off (motor_loop h all_motors ms).
Proof.
  induction ms as [|motor ms IH]; intros Hms; cbn [motor_loop].
  - tbind (apply (triple_begin_end_indicator post_processing off tr n any);
             [by apply pmpwm_tr_signal|apply pmpwm_tr_blink|apply pmpwm_tr_zeros]).
    apply summarise_safe.
  - tbind (apply triple_shuffle, motors_off_stable) as seq.
    tpure (seq ≡ₚ concat (replicate (Z.to_nat (Config.pmpwm_repeats h))
                            (Config.pmpwm_pwm_values h))) as Hperm.
    tbind (apply store_safe).
    assert (motor ∈ motors) as Hmotor by (apply Hms; by left).
    assert (Forall (λ p, p ∈ Config.pmpwm_pwm_values h) seq) as Hseq.
    { apply Forall_forall. intros p Hin. rewrite Hperm in Hin.
      by apply elem_of_cycles in Hin. }
    assert (spec off (motor_loop h all_motors ms)) as Hnext.
    { apply IH. intros m Hm. apply Hms. by right. }
    tapply ltac:(by apply step_loop_safe).
Qed.

Lemma pmpwm_run_safe : motors ⊆ motors → spec off (run h motors).
Proof. apply pmpwm_motor_loop_safe. Qed.

End safety.
End PMPWMSafety.

(** ** Confusion matrices *)

Module ConfusionFacts.
Import Counts PmpwmAnalysis PMPWMWorker.

Lemma getitem_position {T} (l : list T) (i : Z) :
  Py.getitem l i = position (length l) i ≫= (l !!.).
Proof. unfold Py.getitem, position. by repeat case_match. Qed.

Lemma setitem_position {T} (l : list T) (i : Z) (v : T) :
  Py.setitem l i v = (λ k, <[k := v]> l) <$> position (length l) i.
Proof. unfold Py.setitem, position. by repeat case_match. Qed.

Lemma position_lt (n : nat) (i : Z) (k : nat) : position n i = Some k → (k < n)%nat.
Proof.
  unfold position.
  destruct (Z.leb_spec 0 i), (Z.ltb_spec i (Z.of_nat n)); simpl;
    try (intros [= <-]; lia);
    destruct (Z.leb_spec (- Z.of_nat n) i), (Z.ltb_spec i 0); simpl;
    intros [= <-] || done; lia.
Qed.

Lemma position_level (n : nat) (t : Z) :
  1 ≤ t ≤ Z.of_nat n → position n (t - 1) = Some (Z.to_nat (t - 1)).
Proof.
  intros Ht. unfold position.
  destruct (Z.leb_spec 0 (t - 1)), (Z.ltb_spec (t - 1) (Z.of_nat n)); simpl; (done || lia).
Qed.

Lemma position_is_Some (n : nat) (i : Z) :
  is_Some (position n i) ↔ - Z.of_nat n ≤ i < Z.of_nat n.
Proof.
  unfold position.
  destruct (Z.leb_spec 0 i), (Z.ltb_spec i (Z.of_nat n)); simpl;
    try (split; [lia|by eexists]);
    destruct (Z.leb_spec (- Z.of_nat n) i), (Z.ltb_spec i 0); simpl;
    try (split; [lia|by eexists]); (split; [by intros [? [=]]|lia]).
Qed.

Lemma sumZ_insert (l : list Z) (k : nat) (x y : Z) :
  l !! k = Some x → Py.sumZ (<[k := y]> l) = Py.sumZ l - x + y.
Proof.
  revert k. induction l as [|a l IH]; intros [|k] Hk; simplify_eq/=; [lia|].
  rewrite (IH k) by done. lia.
Qed.

(** The effect of [cm[t-1, p-1] += 1] on a square matrix. *)
Lemma bump_spec (n : nat) (cm : list (list Z)) (t p : Z) (a b : nat) :
  square n cm → position n (t - 1) = Some a → position n (p - 1) = Some b →
  ∃ cm', bump cm (t, p) = Some cm'
    ∧ square n cm'
    ∧ (∀ i j, cell cm' i j
              = cell cm i j + (if decide (i = a ∧ j = b) then 1 else 0))
    ∧ total cm' = total cm + 1.
Proof.
  intros [Hlen Hrows] Ha Hb.
  pose proof (position_lt _ _ _ Ha) as Ha'. pose proof (position_lt _ _ _ Hb) as Hb'.
  destruct (lookup_lt_is_Some_2 cm a) as [row Hrow]; [lia|].
  assert (length row = n) as Hrowlen
    by (by apply (proj1 (Forall_lookup _ _) Hrows a row)).
  destruct (lookup_lt_is_Some_2 row b) as [c Hc]; [lia|].
  exists (<[a := <[b := c + 1]> row]> cm).
  split; [|split; [|split]].
  - unfold bump. cbn [fst snd]. rewrite !getitem_position, Hlen, Ha. simpl. rewrite Hrow. simpl.
    rewrite getitem_position, Hrowlen, Hb. simpl. rewrite Hc. simpl.
    rewrite setitem_position, Hrowlen, Hb. simpl.
    by rewrite setitem_position, Hlen, Ha.
  - split; [by rewrite length_insert|].
    apply Forall_insert; [done|]. by rewrite length_insert.
  - intros i j. unfold cell.
    destruct (decide (i = a)) as [->|Hia].
    + rewrite list_lookup_insert_eq by lia. rewrite Hrow. simpl.
      destruct (decide (j = b)) as [->|Hjb].
      * rewrite list_lookup_insert_eq by lia. rewrite Hc. simpl.
        destruct (decide _) as [|[]]; done.
      * rewrite list_lookup_insert_ne by done.
        destruct (decide _) as [[_ ?]|]; [done|lia].
    + rewrite list_lookup_insert_ne by done.
      destruct (decide _) as [[? _]|]; [done|lia].
  - unfold total. rewrite list_fmap_insert.
    rewrite (sumZ_insert _ a (Py.sumZ row)) by (by rewrite list_lookup_fmap, Hrow).
    rewrite (sumZ_insert row b c) by done. lia.
Qed.

Lemma count_trials_cons (t p : Z) (tp : Z * Z) (answers : list (Z * Z)) :
  count_trials t p (tp :: answers)
  = (if decide (tp = (t, p)) then 1 else 0) + count_trials t p answers.
Proof.
  unfold count_trials. rewrite filter_cons. destruct (decide _); simpl; lia.
Qed.

(** The loop [for t, p in answers: cm[t-1, p-1] += 1]. *)
Lemma confusion_matrix_spec (n : nat) (answers : list (Z * Z)) :
  ∀ cm, square n cm → Forall (valid_trial n) answers →
  ∃ cm', confusion_matrix cm answers = Some cm'
    ∧ square n cm'
    ∧ (∀ i j, (i < n)%nat → (j < n)%nat →
         cell cm' i j = cell cm i j + count_trials (level i) (level j) answers)
    ∧ total cm' = total cm + Z.of_nat (length answers).
Proof.
  induction answers as [|[t p] answers IH]; intros cm Hsq Hvalid.
  - exists cm. split; [done|]. split; [done|]. split; [|simpl; lia].
    intros i j _ _. unfold count_trials. simpl. lia.
  - apply Forall_cons in Hvalid as [[Ht Hp] Hvalid]. simpl in Ht, Hp.
    destruct (bump_spec n cm t p _ _ Hsq (position_level n t Ht) (position_level n p Hp))
      as (cm1 & Hbump & Hsq1 & Hcell1 & Htotal1).
    destruct (IH cm1 Hsq1 Hvalid) as (cm' & Hcm' & Hsq' & Hcell' & Htotal').
    exists cm'. split; [|split; [done|split]].
    + cbn [confusion_matrix]. rewrite Hbump. simpl. done.
    + intros i j Hi Hj. rewrite Hcell', Hcell1 by done. rewrite count_trials_cons.
      unfold level.
      destruct (decide (i = _ ∧ j = _)) as [[-> ->]|Hne], (decide ((t, p) = _)) as [Heq|Hne'];
        try lia.
      * destruct Hne'. f_equal; lia.
      * destruct Hne. injection Heq as -> ->. split; lia.
    + rewrite Htotal', Htotal1. simpl length. lia.
Qed.

Lemma zero_matrix_square (n : nat) : square n (MainWindow.zero_matrix n).
Proof.
  unfold MainWindow.zero_matrix. split; [by rewrite length_replicate|].
  apply Forall_replicate. by rewrite length_replicate.
Qed.

Lemma zero_matrix_cell (n i j : nat) : cell (MainWindow.zero_matrix n) i j = 0.
Proof.
  unfold cell, MainWindow.zero_matrix.
  destruct (replicate n (replicate n 0) !! i) as [row|] eqn:Hrow; [|done]. simpl.
  apply lookup_replicate in Hrow as [-> _].
  destruct (replicate n 0 !! j) as [c|] eqn:Hc; [|done].
  by apply lookup_replicate in Hc as [-> _].
Qed.

Lemma zero_matrix_total (n : nat) : total (MainWindow.zero_matrix n) = 0.
Proof.
  unfold total, MainWindow.zero_matrix. rewrite fmap_replicate.
  assert (∀ k, Py.sumZ (replicate k 0) = 0) as Hz
    by (induction k as [|k IH]; simpl; lia).
  rewrite Hz. apply Hz.
Qed.

(** The matrix keeps its shape under [+= 1], wherever it lands. *)
Lemma bump_square (n : nat) (cm cm' : list (list Z)) (tp : Z * Z) :
  square n cm → bump cm tp = Some cm' → square n cm'.
Proof.
  intros [Hlen Hrows]. unfold bump.
  rewrite !getitem_position, Hlen.
  destruct (position n (tp.1 - 1)) as [a|] eqn:Ha; [|done]. simpl.
  destruct (cm !! a) as [row|] eqn:Hrow; [|done]. simpl.
  assert (length row = n) as Hrowlen
    by (by apply (proj1 (Forall_lookup _ _) Hrows a row)).
  rewrite getitem_position, Hrowlen.
  destruct (position n (tp.2 - 1)) as [b|] eqn:Hb; [|done]. simpl.
  destruct (row !! b) as [c|]; [|done]. simpl.
  rewrite setitem_position, Hrowlen, Hb. simpl.
  rewrite setitem_position, Hlen, Ha. simpl. intros [= <-].
  split; [by rewrite length_insert|].
  apply Forall_insert; [done|]. by rewrite length_insert.
Qed.

Lemma bump_is_Some (n : nat) (cm : list (list Z)) (tp : Z * Z) :
  square n cm → is_Some (bump cm tp) → addressable n tp.
Proof.
  intros [Hlen Hrows]. unfold bump.
  rewrite !getitem_position, Hlen.
  destruct (position n (tp.1 - 1)) as [a|] eqn:Ha; [|by intros [? [=]]]. simpl.
  destruct (cm !! a) as [row|] eqn:Hrow; [|by intros [? [=]]]. simpl.
  assert (length row = n) as Hrowlen
    by (by apply (proj1 (Forall_lookup _ _) Hrows a row)).
  rewrite getitem_position, Hrowlen.
  destruct (position n (tp.2 - 1)) as [b|] eqn:Hb; [|by intros [? [=]]]. intros _.
  pose proof (proj1 (position_is_Some n (tp.1 - 1)) ltac:(by eexists)).
  pose proof (proj1 (position_is_Some n (tp.2 - 1)) ltac:(by eexists)).
  unfold addressable. lia.
Qed.

Lemma confusion_matrix_is_Some (n : nat) (answers : list (Z * Z)) :
  ∀ cm, square n cm → is_Some (confusion_matrix cm answers) →
        Forall (addressable n) answers.
Proof.
  induction answers as [|tp answers IH]; intros cm Hsq Hsome; [constructor|].
  cbn [confusion_matrix] in Hsome.
  destruct (bump cm tp) as [cm1|] eqn:Hbump; [|by destruct Hsome as [? [=]]].
  simpl in Hsome. constructor.
  - apply (bump_is_Some n cm); [done|]. rewrite Hbump. by eexists.
  - apply (IH cm1); [by eapply bump_square|done].
Qed.

End ConfusionFacts.

Module AccuracyFacts.
Import Counts PmpwmAnalysis PMPWMWorker.

(** The worker's per-level accuracy is the analyzer's, before rounding. *)
Lemma per_level_accuracy_spec (n : nat) (cm : list (list Z)) :
  square n cm → per_level_accuracy cm = category_accuracy cm <$> seq 0 n.
Proof.
  intros [Hlen Hrows]. apply list_eq. intros i. unfold per_level_accuracy.
  rewrite list_lookup_imap, list_lookup_fmap.
  destruct (cm !! i) as [row|] eqn:Hrow; simpl.
  - rewrite lookup_seq_lt by (apply lookup_lt_Some in Hrow; lia). simpl.
    unfold category_accuracy, norm, cell. rewrite Hrow. simpl.
    by rewrite Z.max_comm.
  - rewrite lookup_seq_ge; [done|]. apply lookup_ge_None in Hrow. lia.
Qed.




End AccuracyFacts.

(** ** The answer histograms of the spatial reducer *)

Module HistogramFacts.
Import Counts SpatialAnalysis SpatialAnalysisFacts.

Lemma count_le_trials (r p : Z) (answers : list (Z * Z)) :
  0 ≤ count_trials r p answers ≤ trials_of r answers.
Proof.
  unfold count_trials, trials_of. split; [lia|].
  induction answers as [|[t q] answers IH]; [done|].
  rewrite !filter_cons. simpl.
  destruct (decide (t = r)), (decide ((t, q) = (r, p))) as [[= ? ?]|]; simpl; lia.
Qed.

(** The histogram of a region counts every answer given for it. *)
Lemma stats_histogram (answers : list (Z * Z)) (r : Z) (st : tally) :
  stats_of answers !! r = Some st →
  ∀ p, SpatialAnalysis.answers st !! p
       = if decide (count_trials r p answers = 0) then None
         else Some (count_trials r p answers).
Proof.
  revert st. induction answers as [|[t q] answers IH] using rev_ind; intros st; [done|].
  rewrite stats_snoc. unfold record_answer, count_trials in *.
  destruct (decide (t = r)) as [->|Hne].
  - rewrite lookup_insert_eq. intros [= <-] p. simpl.
    rewrite filter_snoc_length.
    assert (default 0 (SpatialAnalysis.answers
                         (default empty_tally (stats_of answers !! r)) !! q)
            = Z.of_nat (length (filter (λ tp : Z * Z, tp = (r, q)) answers))) as Hold.
    { pose proof (stats_counts answers r) as Hc.
      destruct (stats_of answers !! r) as [st0|] eqn:Hst0; simpl.
      - rewrite (IH st0 eq_refl q). by destruct (decide _) as [->|].
      - pose proof (count_le_trials r q answers) as Hle. unfold count_trials in Hle.
        rewrite lookup_empty. simpl. lia. }
    destruct (decide (p = q)) as [->|Hpq].
    + rewrite lookup_insert_eq, Hold. rewrite (decide_True (P := (r, q) = (r, q))) by done.
      rewrite decide_False by lia. done.
    + rewrite lookup_insert_ne by done.
      rewrite (decide_False (P := (r, q) = (r, p))) by congruence.
      rewrite Z.add_0_r.
      destruct (stats_of answers !! r) as [st0|] eqn:Hst0; simpl.
      * by apply IH.
      * pose proof (stats_counts answers r) as Hc. rewrite Hst0 in Hc.
        pose proof (count_le_trials r p answers) as Hle. unfold count_trials in Hle.
        rewrite lookup_empty. rewrite decide_True by lia. done.
  - rewrite lookup_insert_ne by done. intros Hst p.
    rewrite filter_snoc_length.
    rewrite (decide_False (P := (t, q) = (r, p))) by congruence.
    rewrite Z.add_0_r. by apply IH.
Qed.






End HistogramFacts.

(** * Further properties of the code *)

(** ** What the workers never do *)

(** X1.  With an open port, motor indices of the configured range within
    the PWM array, non-zero staircase steps and staircase ends that keep
    the intensities within a byte (-1 <= end_pwm_down and
    -1 <= end_pwm_up <= 256), the threshold worker never dies with an
    exception, whatever the GUI does and whenever it does it; every array
    it hands to the port has one value per motor, each a byte between 0
    and max(40, end_pwm_up - 1), which the conversion to uint8 of the port
    leaves as it is; and when the thread ends, or waits for an answer that
    never comes, the last array written switched every motor off. *)
Theorem threshold_worker_safe (h : Config.hyps) (w : Thread.world string) :
  Thread.port_ok h w →
  Thread.pwm (Thread.vibro w) = Thread.zeros (Config.n_motors h) →
  0 < Config.use_motors_step h →
  - Config.n_motors h ≤ Config.num_motor_start h →
  Config.num_motor_end h < Config.n_motors h →
  Config.delta_pwm_down h ≠ 0 → Config.delta_pwm_up h ≠ 0 →
  -1 ≤ Config.end_pwm_down h →
  -1 ≤ Config.end_pwm_up h ≤ 256 →
  (∀ e w', MolsWorker.run h w ≠ Thread.Raised e w')
  ∧ Thread.pwm (Thread.vibro (Thread.final (MolsWorker.run h w)))
    = Thread.zeros (Config.n_motors h)
  ∧ ∃ evs, Thread.log (Thread.final (MolsWorker.run h w)) = Thread.log w ++ evs
      ∧ ∀ arr, Thread.Written arr ∈ evs →
          Z.of_nat (length arr) = Config.n_motors h
          ∧ Forall (λ v, 0 ≤ v ≤ 255 ∧ v ≤ Z.max 40 (Config.end_pwm_up h - 1)) arr.
Proof.
  intros (Hser & Hn & Hn0) Hpwm Hstep Hstart Hend Hdown Hup Hlow Hhigh.
  destruct (MolsSafety.mols_run_safe h Hn0 Hdown Hup Hstep Hstart Hend w)
    as [(evs & Hlog & Hevs) Hout]; [done|].
  split; [|split].
  - intros e w' Heq. by rewrite Heq in Hout.
  - destruct (MolsWorker.run h w) as [r w'|e w'|w']; simpl; [|done|]; by destruct Hout.
  - exists evs. split; [done|]. intros arr Hin.
    destruct (proj1 (Forall_forall _ _) Hevs _ Hin arr eq_refl) as [Hlen Harr].
    split; [done|]. eapply Forall_impl; [exact Harr|]. intros v.
    unfold Safety.lowest, Safety.highest. cbv beta. lia.
Qed.

Lemma threshold_worker_safe_witness :
  (∀ e w', MolsWorker.run (Config.default_hyps "anon")
             (MolsWorker.fresh Sample.box [[]; [Thread.Stop]] [1; 0; 1]%nat)
           ≠ Thread.Raised e w')
  ∧ Thread.pwm (Thread.vibro (Thread.final
       (MolsWorker.run (Config.default_hyps "anon")
          (MolsWorker.fresh Sample.box [[]; [Thread.Stop]] [1; 0; 1]%nat))))
    = Thread.zeros 10
  ∧ ∃ evs, Thread.log (Thread.final
             (MolsWorker.run (Config.default_hyps "anon")
                (MolsWorker.fresh Sample.box [[]; [Thread.Stop]] [1; 0; 1]%nat)))
           = [] ++ evs
      ∧ ∀ arr, Thread.Written arr ∈ evs →
          Z.of_nat (length arr) = 10
          ∧ Forall (λ v, 0 ≤ v ≤ 255 ∧ v ≤ Z.max 40 (30 - 1)) arr.
Proof.
  apply (threshold_worker_safe (Config.default_hyps "anon")
           (MolsWorker.fresh Sample.box [[]; [Thread.Stop]] [1; 0; 1]%nat)).
  - repeat split; simpl; lia.
  - reflexivity.
  - simpl. lia.
  - simpl. lia.
  - simpl. lia.
  - discriminate.
  - discriminate.
  - simpl. lia.
  - simpl. lia.
Defined.

(** X2.  With an open port, a non-zero motor step and an intensity
    [spatial_pwm] that is a byte, the spatial worker never dies with an
    exception, whatever the GUI does; it never calls the end-of-test
    indicator; every array it writes holds bytes and is all zeros or
    drives exactly one motor, at [spatial_pwm]; and when the thread ends,
    or waits for an answer that never comes, every motor is off. *)
Theorem spatial_worker_safe (h : Config.hyps) (mode : string)
    (w : Thread.world (option Z)) :
  Thread.port_ok h w →
  Thread.pwm (Thread.vibro w) = Thread.zeros (Config.n_motors h) →
  Config.use_motors_step h ≠ 0 →
  0 ≤ Config.spatial_pwm h ≤ 255 →
  (∀ e w', SpatialWorker.run h mode w ≠ Thread.Raised e w')
  ∧ Thread.pwm (Thread.vibro (Thread.final (SpatialWorker.run h mode w)))
    = Thread.zeros (Config.n_motors h)
  ∧ ∃ evs, Thread.log (Thread.final (SpatialWorker.run h mode w)) = Thread.log w ++ evs
      ∧ (Thread.BeginEndIndicator ∉ evs)
      ∧ ∀ arr, Thread.Written arr ∈ evs →
          Forall (λ v, 0 ≤ v ≤ 255) arr
          ∧ (arr = Thread.zeros (Config.n_motors h)
             ∨ ∃ mot, 0 ≤ mot < Config.n_motors h
                      ∧ arr = <[Z.to_nat mot := Config.spatial_pwm h]>
                                (Thread.zeros (Config.n_motors h))).
Proof.
  intros (Hser & Hn & Hn0) Hpwm Hstep Hbyte.
  destruct (SpatialSafety.spatial_run_safe h mode Hn0 Hstep w) as [(evs & Hlog & Hevs) Hout];
    [done|].
  split; [|split].
  - intros e w' Heq. by rewrite Heq in Hout.
  - destruct (SpatialWorker.run h mode w) as [r w'|e w'|w']; simpl; [|done|];
      by destruct Hout.
  - exists evs. split; [done|]. split.
    + intros Hin. by destruct (proj1 (Forall_forall _ _) Hevs _ Hin).
    + intros arr Hin. destruct (proj1 (Forall_forall _ _) Hevs _ Hin) as [_ Harr].
      specialize (Harr arr eq_refl). split; [|exact Harr].
      assert (Forall (λ v, 0 ≤ v ≤ 255) (Thread.zeros (Config.n_motors h))) as Hzeros
        by (by apply Forall_replicate).
      destruct Harr as [->|(mot & _ & ->)]; [done|by apply Forall_insert].
Qed.

Lemma spatial_worker_safe_witness :
  (∀ e w', SpatialWorker.run Sample.four_regions "pairs"
             (SpatialWorker.fresh Sample.box [[]; [Thread.SetAnswer (Some 2)]] [3; 1]%nat)
           ≠ Thread.Raised e w')
  ∧ Thread.pwm (Thread.vibro (Thread.final
       (SpatialWorker.run Sample.four_regions "pairs"
          (SpatialWorker.fresh Sample.box [[]; [Thread.SetAnswer (Some 2)]] [3; 1]%nat))))
    = Thread.zeros 10
  ∧ ∃ evs, Thread.log (Thread.final
             (SpatialWorker.run Sample.four_regions "pairs"
                (SpatialWorker.fresh Sample.box [[]; [Thread.SetAnswer (Some 2)]]
                   [3; 1]%nat)))
           = [] ++ evs
      ∧ (Thread.BeginEndIndicator ∉ evs)
      ∧ ∀ arr, Thread.Written arr ∈ evs →
          Forall (λ v, 0 ≤ v ≤ 255) arr
          ∧ (arr = Thread.zeros 10
             ∨ ∃ mot, 0 ≤ mot < 10 ∧ arr = <[Z.to_nat mot := 30]> (Thread.zeros 10)).
Proof.
  apply (spatial_worker_safe Sample.four_regions "pairs"
           (SpatialWorker.fresh Sample.box [[]; [Thread.SetAnswer (Some 2)]] [3; 1]%nat)).
  - repeat split; simpl; lia.
  - reflexivity.
  - discriminate.
  - simpl. lia.
Defined.

(** X3.  With an open port and configured intensities that are bytes, the
    discrimination worker on [motors] can die with an exception only by an
    [IndexError] (a motor or an answer that is no index) or by the
    [ZeroDivisionError] of a run without Trials; every array it writes
    holds bytes, and besides all-zero arrays and the blink of the
    indicator it only writes arrays that drive one of its motors at an
    intensity of the configured list; and however the thread ends, or
    while it waits for an answer that never comes, every motor is off. *)
Theorem discrimination_worker_safe (h : Config.hyps) (motors : list Z)
    (w : Thread.world (option Z)) :
  Thread.ser (Thread.vibro w) = true →
  0 ≤ Thread.n_motors (Thread.vibro w) →
  Thread.pwm (Thread.vibro w) = Thread.zeros (Thread.n_motors (Thread.vibro w)) →
  Forall (λ p, 0 ≤ p ≤ 255) (Config.pmpwm_pwm_values h) →
  (∀ e w', PMPWMWorker.run h motors w = Thread.Raised e w' →
           e = Py.ZeroDivisionError ∨ e = Py.IndexError)
  ∧ Thread.pwm (Thread.vibro (Thread.final (PMPWMWorker.run h motors w)))
    = Thread.zeros (Thread.n_motors (Thread.vibro w))
  ∧ ∃ evs, Thread.log (Thread.final (PMPWMWorker.run h motors w)) = Thread.log w ++ evs
      ∧ ∀ arr, Thread.Written arr ∈ evs →
          Forall (λ v, 0 ≤ v ≤ 255) arr
          ∧ (arr = Thread.zeros (Thread.n_motors (Thread.vibro w))
             ∨ arr = replicate (Z.to_nat (Thread.n_motors (Thread.vibro w))) 20
             ∨ ∃ motor p, motor ∈ motors ∧ p ∈ Config.pmpwm_pwm_values h
                          ∧ Py.setitem (Thread.zeros (Thread.n_motors (Thread.vibro w)))
                                       motor p = Some arr).
Proof.
  intros Hser Hn0 Hpwm Hbytes.
  destruct (PMPWMSafety.pmpwm_run_safe h (Thread.n_motors (Thread.vibro w)) motors Hn0
              ltac:(done) w) as [(evs & Hlog & Hevs) Hout]; [done|].
  split; [|split].
  - intros e w' Heq. rewrite Heq in Hout. by destruct Hout.
  - destruct (PMPWMWorker.run h motors w) as [r w'|e w'|w']; simpl;
      [by destruct Hout|by destruct Hout as [_ [_ ?]]|by destruct Hout].
  - exists evs. split; [done|]. intros arr Hin.
    pose proof (proj1 (Forall_forall _ _) Hevs _ Hin arr eq_refl) as Harr.
    split; [|exact Harr].
    assert (Forall (λ v, 0 ≤ v ≤ 255) (Thread.zeros (Thread.n_motors (Thread.vibro w))))
      as Hzeros by (by apply Forall_replicate).
    destruct Harr as [->|[->|(motor & p & _ & Hp & Hset)]];
      [done|by apply Forall_replicate|].
    eapply MolsSafety.Forall_setitem; [exact Hset|done|].
    by apply (proj1 (Forall_forall _ _) Hbytes).
Qed.

Lemma discrimination_worker_safe_witness :
  (∀ e w', PMPWMWorker.run Sample.four_regions [3]
             (PMPWMWorker.fresh Sample.box [[]; [Thread.SetAnswer (Some 7)]] [1]%nat)
           = Thread.Raised e w' →
           e = Py.ZeroDivisionError ∨ e = Py.IndexError)
  ∧ Thread.pwm (Thread.vibro (Thread.final
       (PMPWMWorker.run Sample.four_regions [3]
          (PMPWMWorker.fresh Sample.box [[]; [Thread.SetAnswer (Some 7)]] [1]%nat))))
    = Thread.zeros 10
  ∧ ∃ evs, Thread.log (Thread.final
             (PMPWMWorker.run Sample.four_regions [3]
                (PMPWMWorker.fresh Sample.box [[]; [Thread.SetAnswer (Some 7)]] [1]%nat)))
           = [] ++ evs
      ∧ ∀ arr, Thread.Written arr ∈ evs →
          Forall (λ v, 0 ≤ v ≤ 255) arr
          ∧ (arr = Thread.zeros 10
             ∨ arr = replicate (Z.to_nat 10) 20
             ∨ ∃ motor p, motor ∈ [3] ∧ p ∈ [14; 22]
                          ∧ Py.setitem (Thread.zeros 10) motor p = Some arr).
Proof.
  apply (discrimination_worker_safe Sample.four_regions [3]
           (PMPWMWorker.fresh Sample.box [[]; [Thread.SetAnswer (Some 7)]] [1]%nat)).
  - reflexivity.
  - simpl. lia.
  - reflexivity.
  - repeat constructor; lia.
Defined.

(** ** The result of the discrimination test *)

(** X4.  When every recorded Trial has its true level and its answer among
    the levels 1..n of the schedule and there is at least one Trial, the
    post-processing of the discrimination worker emits its result: the
    Trials of all motors in the order of the dictionary; an n x n matrix
    whose cell (i, j) is the number of Trials with true level i+1 and
    answer j+1, so that the cells sum to the number of Trials; the share
    of Trials answered correctly; and for every level the diagonal cell
    over the row total, the accuracy that the analyzer computes from the
    same matrix before rounding. *)
Theorem discrimination_result_counts (h : Config.hyps) (motors : list Z)
    (w : Thread.world (option Z)) :
  let answers := concat (Dict.values (Thread.results w)) in
  let n := length (Config.pmpwm_pwm_values h) in
  answers ≠ [] → Forall (Counts.valid_trial n) answers →
  ∃ r, PMPWMWorker.summarise h motors w
       = Thread.Done () (Thread.add_log [Thread.PmpwmFinished r] w)
    ∧ Thread.res_answers r = answers
    ∧ Thread.res_motors r = motors
    ∧ PmpwmAnalysis.square n (Thread.res_confusion r)
    ∧ (∀ i j, (i < n)%nat → (j < n)%nat →
         PmpwmAnalysis.cell (Thread.res_confusion r) i j
         = Counts.count_trials (PmpwmAnalysis.level i) (PmpwmAnalysis.level j) answers)
    ∧ Counts.total (Thread.res_confusion r) = Z.of_nat (length answers)
    ∧ Thread.res_accuracy r
      = (Qc_of_Z (Counts.correct_trials answers) / Qc_of_Z (Z.of_nat (length answers)))%Qc
    ∧ Thread.res_per_level_accuracy r
      = PmpwmAnalysis.category_accuracy (Thread.res_confusion r) <$> seq 0 n.
Proof.
  intros answers n Hne Hvalid.
  destruct (ConfusionFacts.confusion_matrix_spec n answers (MainWindow.zero_matrix n)
              (ConfusionFacts.zero_matrix_square n) Hvalid)
    as (cm & Hcm & Hsq & Hcell & Htotal).
  eexists. split.
  { unfold PMPWMWorker.summarise. fold answers. fold n.
    change (replicate n (replicate n 0)) with (MainWindow.zero_matrix n).
    rewrite Hcm. rewrite bool_decide_eq_false_2 by done. reflexivity. }
  simpl. split; [done|]. split; [done|]. split; [done|]. split.
  { intros i j Hi Hj. rewrite Hcell by done.
    rewrite ConfusionFacts.zero_matrix_cell. lia. }
  split; [rewrite Htotal, ConfusionFacts.zero_matrix_total; lia|].
  split; [done|]. by apply AccuracyFacts.per_level_accuracy_spec.
Qed.

Lemma discrimination_result_counts_witness :
  ∃ r, PMPWMWorker.summarise Sample.four_regions [0; 1]
         (Thread.set_results [(0, [(1, 1); (2, 1)]); (1, [(2, 2)])]
            (PMPWMWorker.fresh Sample.box [] []))
       = Thread.Done ()
           (Thread.add_log [Thread.PmpwmFinished r]
              (Thread.set_results [(0, [(1, 1); (2, 1)]); (1, [(2, 2)])]
                 (PMPWMWorker.fresh Sample.box [] [])))
    ∧ Thread.res_answers r = [(1, 1); (2, 1); (2, 2)]
    ∧ Thread.res_motors r = [0; 1]
    ∧ PmpwmAnalysis.square 2 (Thread.res_confusion r)
    ∧ (∀ i j, (i < 2)%nat → (j < 2)%nat →
         PmpwmAnalysis.cell (Thread.res_confusion r) i j
         = Counts.count_trials (PmpwmAnalysis.level i) (PmpwmAnalysis.level j)
             [(1, 1); (2, 1); (2, 2)])
    ∧ Counts.total (Thread.res_confusion r) = 3
    ∧ Thread.res_accuracy r = (Qc_of_Z 2 / Qc_of_Z 3)%Qc
    ∧ Thread.res_per_level_accuracy r
      = PmpwmAnalysis.category_accuracy (Thread.res_confusion r) <$> seq 0 2.
Proof.
  apply (discrimination_result_counts Sample.four_regions [0; 1]
           (Thread.set_results [(0, [(1, 1); (2, 1)]); (1, [(2, 2)])]
              (PMPWMWorker.fresh Sample.box [] []))).
  - discriminate.
  - repeat constructor; simpl; lia.
Defined.

(** X5.  When a recorded Trial has a true level or an answer that
    addresses no cell of the n x n matrix (above n, or at most -n), the
    post-processing dies with an [IndexError] and emits nothing: the
    result of the whole run is lost. *)
Theorem discrimination_result_out_of_range (h : Config.hyps) (motors : list Z)
    (w : Thread.world (option Z)) :
  Exists (λ tp, ¬ Counts.addressable (length (Config.pmpwm_pwm_values h)) tp)
         (concat (Dict.values (Thread.results w))) →
  PMPWMWorker.summarise h motors w = Thread.Raised Py.IndexError w.
Proof.
  intros Hout. unfold PMPWMWorker.summarise.
  destruct (PMPWMWorker.confusion_matrix _ _) as [cm|] eqn:Hcm; [|done].
  apply Exists_exists in Hout as (tp & Hin & Htp). destruct Htp.
  eapply (proj1 (Forall_forall _ _)); [|exact Hin].
  eapply (ConfusionFacts.confusion_matrix_is_Some _ _ (MainWindow.zero_matrix _));
    [apply ConfusionFacts.zero_matrix_square|].
  unfold MainWindow.zero_matrix. rewrite Hcm. by eexists.
Qed.

Lemma discrimination_result_out_of_range_witness :
  PMPWMWorker.summarise Sample.four_regions [0]
    (Thread.set_results [(0, [(1, 1); (2, 3)])] (PMPWMWorker.fresh Sample.box [] []))
  = Thread.Raised Py.IndexError
      (Thread.set_results [(0, [(1, 1); (2, 3)])] (PMPWMWorker.fresh Sample.box [] [])).
Proof.
  apply (discrimination_result_out_of_range Sample.four_regions [0]).
  apply Exists_cons_tl, Exists_cons_hd. unfold Counts.addressable. simpl. lia.
Defined.

(** An answer of 0 is no error: it is counted in the last column. *)
Example answer_zero_wraps :
  PMPWMWorker.confusion_matrix (MainWindow.zero_matrix 2) [(1, 0)] = Some [[0; 1]; [0; 0]].
Proof. reflexivity. Qed.

(** ** The analyzer *)

(** X6.  On a square matrix with one intensity per category, the accuracy
    dictionary that [analyse_cm] returns lists, for the levels 1..n in
    order, the per-level accuracy that the discrimination worker reports
    for the same matrix, rounded to four digits as Python rounds a float:
    the decimal nearest to the binary64 number that holds the ratio.  (On
    the matrix [[1, 159], [0, 160]] the accuracy of level 1, the float of
    1/160, becomes 0.0063.) *)
Theorem analysis_rounds_worker_accuracy (cm : list (list Z)) (pwm_vals : list Z) (n : nat) :
  PmpwmAnalysis.square n cm → length pwm_vals = n →
  ∃ a, PmpwmAnalysis.analyse_cm cm pwm_vals = Some a
    ∧ PmpwmAnalysis.confusion a = cm
    ∧ PmpwmAnalysis.accuracy a
      = imap (λ i x, (Z.of_nat i + 1, Py.round_to 4 (Py.binary64 x)))
          (PMPWMWorker.per_level_accuracy cm).
Proof.
  intros Hsq Hlen. eexists.
  split; [by apply PmpwmAnalysisFacts.analyse_cm_ok|]. simpl. split; [done|].
  rewrite (AccuracyFacts.per_level_accuracy_spec n cm Hsq).
  unfold PmpwmAnalysis.acc_dict. apply list_eq. intros i.
  rewrite list_lookup_imap, !list_lookup_fmap.
  destruct (seq 0 n !! i) as [k|] eqn:Hk; [|done]. simpl.
  apply lookup_seq in Hk as [-> _]. done.
Qed.

Lemma analysis_rounds_worker_accuracy_witness :
  ∃ a, PmpwmAnalysis.analyse_cm [[1; 159]; [0; 160]] [14; 22] = Some a
    ∧ PmpwmAnalysis.confusion a = [[1; 159]; [0; 160]]
    ∧ PMPWMWorker.per_level_accuracy [[1; 159]; [0; 160]]
      = [(Qc_of_Z 1 / Qc_of_Z 160)%Qc; Qc_of_Z 1]
    ∧ PmpwmAnalysis.accuracy a
      = [(1, (Qc_of_Z 63 / Qc_of_Z 10000)%Qc); (2, Qc_of_Z 1)].
Proof.
  destruct (analysis_rounds_worker_accuracy [[1; 159]; [0; 160]] [14; 22] 2)
    as (a & Ha & Hcm & Hacc).
  - split; [reflexivity|]. repeat constructor.
  - reflexivity.
  - exists a. split; [exact Ha|]. split; [exact Hcm|]. split.
    + unfold PMPWMWorker.per_level_accuracy. simpl.
      repeat f_equal; apply Qc_is_canon; reflexivity.
    + rewrite Hacc. unfold PMPWMWorker.per_level_accuracy. simpl.
      repeat f_equal; apply Qc_is_canon; reflexivity.
Defined.



(** ** The spatial reducer *)

(** X8.  In the report of [analyse_spatial] a region has an entry exactly
    when it was presented; the histogram of its entry holds, for every
    answer given for the region, the number of times it was given, and no
    other key; its total is the number of presentations of the region. *)
Theorem spatial_histogram (answers : list (Z * Z)) (r : Z) :
  match SpatialAnalysis.regions (SpatialAnalysis.analyse_spatial answers) !! r with
  | Some reg =>
      0 < SpatialAnalysis.trials_of r answers
      ∧ SpatialAnalysis.total (SpatialAnalysis.counts reg)
        = SpatialAnalysis.trials_of r answers
      ∧ ∀ p, SpatialAnalysis.answers (SpatialAnalysis.counts reg) !! p
             = if decide (Counts.count_trials r p answers = 0) then None
               else Some (Counts.count_trials r p answers)
  | None => SpatialAnalysis.trials_of r answers = 0
  end.
Proof.
  unfold SpatialAnalysis.analyse_spatial. simpl. fold (SpatialAnalysis.stats_of answers).
  rewrite lookup_fmap.
  pose proof (SpatialAnalysisFacts.stats_counts answers r) as Hc.
  destruct (SpatialAnalysis.stats_of answers !! r) as [st|] eqn:Hst; simpl; [|done].
  destruct Hc as (Ht & _ & Hpos). split; [done|]. split; [done|].
  by apply HistogramFacts.stats_histogram.
Qed.



(** ** The folder name of a patient *)

Module PathsFacts.
Import Paths.

Ltac to_arith :=
  unfold kept, isspace, within in *;
  rewrite ?orb_true_iff, ?andb_true_iff, ?Z.leb_le, ?Z.eqb_eq in *.

Lemma kept_not_space (c : Z) : kept c = true → isspace c = false.
Proof.
  intros Hk. apply not_true_is_false. intros Hs. to_arith. lia.
Qed.

Lemma kept_underscore : kept 95 = true.
Proof. reflexivity. Qed.

Lemma sub_from_kept (in_run : bool) (s : list Z) :
  Forall (λ c, kept c = true) (sub_from in_run s).
Proof.
  revert in_run. induction s as [|c s IH]; intros in_run; simpl; [constructor|].
  destruct (kept c) eqn:Hc; [by constructor|].
  destruct in_run; [done|]. by constructor.
Qed.

Lemma sub_from_clean (in_run : bool) (s : list Z) :
  Forall (λ c, kept c = true) s → sub_from in_run s = s.
Proof.
  intros Hs. revert in_run. induction Hs as [|c s Hc Hs IH]; intros in_run; simpl; [done|].
  by rewrite Hc, IH.
Qed.

Lemma lstrip_clean (s : list Z) :
  Forall (λ c, isspace c = false) s → lstrip s = s.
Proof. intros [|c s' Hc Hs]; simpl; [done|]. by rewrite Hc. Qed.

Lemma strip_clean (s : list Z) :
  Forall (λ c, isspace c = false) s → strip s = s.
Proof.
  intros Hs. unfold strip. rewrite (lstrip_clean s Hs).
  rewrite lstrip_clean by (by apply Forall_reverse). apply reverse_involutive.
Qed.

Lemma sanitize_clean (name : list Z) :
  name ≠ [] → Forall (λ c, kept c = true) name → sanitize name = name.
Proof.
  intros Hne Hk. unfold sanitize, sub.
  rewrite strip_clean by (eapply Forall_impl; [done|apply kept_not_space]).
  rewrite sub_from_clean by done. by destruct name.
Qed.

Lemma sanitize_kept (name : list Z) : Forall (λ c, kept c = true) (sanitize name).
Proof.
  unfold sanitize, sub. pose proof (sub_from_kept false (strip name)) as Hk.
  destruct (sub_from false (strip name)); [|done]. by repeat constructor.
Qed.

Lemma sanitize_nonempty (name : list Z) : sanitize name ≠ [].
Proof. unfold sanitize. by destruct (sub (strip name)). Qed.

End PathsFacts.

(** X10.  [sanitize] never returns the empty string; what it returns
    consists of Latin and Cyrillic letters, digits, [_] and [-] only, so it
    holds no path separator, no dot and no white space; a name that
    consists of such characters is returned as it is; and sanitizing twice
    is sanitizing once, so the folder under which the tests save (one
    call) is the folder in which the analysis dialog looks (two calls). *)
Theorem sanitize_safe (name : list Z) :
  Paths.sanitize name ≠ []
  ∧ Forall (λ c, Paths.kept c = true) (Paths.sanitize name)
  ∧ (∀ c, c ∈ Paths.sanitize name →
          c ≠ 47 ∧ c ≠ 92 ∧ c ≠ 46 ∧ c ≠ 58 ∧ Paths.isspace c = false)
  ∧ (name ≠ [] → Forall (λ c, Paths.kept c = true) name → Paths.sanitize name = name)
  ∧ Paths.sanitize (Paths.sanitize name) = Paths.sanitize name.
Proof.
  pose proof (PathsFacts.sanitize_kept name) as Hk.
  pose proof (PathsFacts.sanitize_nonempty name) as Hne.
  split; [done|]. split; [done|]. split; [|split].
  - intros c Hc. apply (proj1 (Forall_forall _ _) Hk) in Hc.
    split; [by intros ->|]. split; [by intros ->|]. split; [by intros ->|].
    split; [by intros ->|]. by apply PathsFacts.kept_not_space.
  - apply PathsFacts.sanitize_clean.
  - by apply PathsFacts.sanitize_clean.
Qed.

(** " Иванов И.И. " becomes "Иванов_И_И_", and a blank name "anon". *)
Example sanitize_surname :
  Paths.sanitize [32; 1048; 1074; 1072; 1085; 1086; 1074; 32; 1048; 46; 1048; 46; 32]
  = [1048; 1074; 1072; 1085; 1086; 1074; 95; 1048; 95; 1048; 95]
  ∧ Paths.sanitize [32; 9] = Paths.anon.
Proof. split; reflexivity. Qed.

(** ** What the windows are told about a test *)

Module RangeFacts.

Lemma elem_of_range3 (start stop step x : Z) (l : list Z) :
  Py.range3 start stop step = Some l →
  x ∈ l ↔ ∃ i, 0 ≤ i < Py.range_len start stop step ∧ x = start + i * step.
Proof.
  unfold Py.range3. destruct (step =? 0); [done|]. intros [= <-].
  rewrite list_elem_of_fmap. split.
  - intros (i & -> & Hi). apply elem_of_seqZ in Hi. exists i. split; [lia|done].
  - intros (i & Hi & ->). exists i. split; [done|]. apply elem_of_seqZ. lia.
Qed.

Lemma length_range3 (start stop step : Z) (l : list Z) :
  Py.range3 start stop step = Some l →
  Z.of_nat (length l) = Py.range_len start stop step.
Proof.
  unfold Py.range3. destruct (step =? 0); [done|]. intros [= <-].
  rewrite length_fmap, length_seqZ. unfold Py.range_len.
  destruct (0 <? step); lia.
Qed.

End RangeFacts.

(** X11.  For a positive motor step and a range with
    start <= end + step, the number of motors and the total number of
    passes that the main window computes for the probe window of the
    threshold test are those of the worker: the length of
    range(start, end + 1, step), times the passes per motor.  And the probe
    window shows the pass number k of the current motor for the worker's
    running count i * T + k (T passes per motor, 1 <= k <= T). *)
Theorem threshold_progress_agrees (h : Config.hyps) :
  0 < Config.use_motors_step h →
  Config.num_motor_start h ≤ Config.num_motor_end h + Config.use_motors_step h →
  ∃ motors,
    Py.range3 (Config.num_motor_start h) (Config.num_motor_end h + 1)
              (Config.use_motors_step h) = Some motors
    ∧ MainWindow.motor_count h = Some (Z.of_nat (length motors))
    ∧ MainWindow.total_steps h
      = Some (Z.of_nat (length motors) * Config.exps_for_each_motor h * 2)
    ∧ ∀ i k, 0 ≤ i → 1 ≤ k ≤ Config.exps_for_each_motor h * 2 →
        MOLsProbeWindow.local_step (Config.exps_for_each_motor h * 2)
          (i * (Config.exps_for_each_motor h * 2) + k) = k.
Proof.
  intros Hstep Hrange.
  destruct (MolsSafety.range3_is_Some (Config.num_motor_start h)
              (Config.num_motor_end h + 1) (Config.use_motors_step h)) as [motors Hm];
    [lia|].
  exists motors. split; [done|].
  assert (MainWindow.motor_count h = Some (Z.of_nat (length motors))) as Hcount.
  { unfold MainWindow.motor_count. destruct (Z.eqb_spec (Config.use_motors_step h) 0); [lia|].
    f_equal. rewrite (RangeFacts.length_range3 _ _ _ _ Hm). unfold Py.range_len.
    destruct (Z.ltb_spec 0 (Config.use_motors_step h)); [|lia].
    replace (Config.num_motor_end h + 1 - Config.num_motor_start h
             + Config.use_motors_step h - 1)
      with ((Config.num_motor_end h - Config.num_motor_start h)
            + 1 * Config.use_motors_step h) by lia.
    rewrite Z.div_add by lia.
    pose proof (Z.div_le_lower_bound
                  (Config.num_motor_end h - Config.num_motor_start h)
                  (Config.use_motors_step h) (-1) Hstep ltac:(lia)).
    lia. }
  split; [done|]. split; [unfold MainWindow.total_steps; by rewrite Hcount|].
  intros i k Hi Hk. unfold MOLsProbeWindow.local_step.
  replace (i * (Config.exps_for_each_motor h * 2) + k - 1)
    with ((k - 1) + i * (Config.exps_for_each_motor h * 2)) by lia.
  rewrite Z.mod_add by lia. rewrite Z.mod_small by lia. lia.
Qed.

Lemma threshold_progress_agrees_witness :
  ∃ motors,
    Py.range3 0 (5 + 1) 2 = Some motors
    ∧ MainWindow.motor_count (Config.default_hyps "anon") = Some (Z.of_nat (length motors))
    ∧ MainWindow.total_steps (Config.default_hyps "anon")
      = Some (Z.of_nat (length motors) * 3 * 2)
    ∧ ∀ i k, 0 ≤ i → 1 ≤ k ≤ 3 * 2 →
        MOLsProbeWindow.local_step (3 * 2) (i * (3 * 2) + k) = k.
Proof.
  apply (threshold_progress_agrees (Config.default_hyps "anon")); simpl; lia.
Defined.

(** With a last motor below the first, the worker has no motor while the
    main window counts a negative number of them. *)
Example threshold_progress_disagrees :
  let h := MOLsHyperparamsDialog.get_hyps (Config.default_hyps "anon")
             {| MOLsHyperparamsDialog.sb_num_motor_start := 9;
                MOLsHyperparamsDialog.sb_num_motor_end := 0;
                MOLsHyperparamsDialog.sb_use_motors_step := 2;
                MOLsHyperparamsDialog.sb_exps_each := 3;
                MOLsHyperparamsDialog.sb_end_pwm_down := 0;
                MOLsHyperparamsDialog.sb_delta_pwm_down := 5;
                MOLsHyperparamsDialog.sb_end_pwm_up := 30;
                MOLsHyperparamsDialog.sb_delta_pwm_up := 2 |} in
  Py.range3 (Config.num_motor_start h) (Config.num_motor_end h + 1)
            (Config.use_motors_step h) = Some []
  ∧ MainWindow.motor_count h = Some (-4).
Proof. split; reflexivity. Qed.

Module DialogFacts.

Lemma allowed_steps_cases (total : Z) :
  SpatialHyperparamsDialog.compute_allowed_steps total
  = [1] ++ (if total `mod` 2 =? 0 then [2] else [])
        ++ (if total `mod` 3 =? 0 then [3] else []).
Proof.
  unfold SpatialHyperparamsDialog.compute_allowed_steps.
  by destruct (total `mod` 2 =? 0), (total `mod` 3 =? 0).
Qed.

End DialogFacts.

(** X12.  The steps that the spatial dialog offers for a range of motors
    are, in ascending order, the numbers among 1, 2 and 3 that divide the
    number of motors of the range (taken as 1 for an empty range); the
    preselected step is 2 when the number is even and 1 otherwise, and it
    is one of the steps offered. *)
Theorem allowed_steps_divide (sb_start sb_end : Z) :
  let total := Z.max 1 (sb_end - sb_start + 1) in
  let combo := SpatialHyperparamsDialog.update_steps sb_start sb_end in
  SpatialHyperparamsDialog.items combo = SpatialHyperparamsDialog.compute_allowed_steps total
  ∧ StronglySorted Z.lt (SpatialHyperparamsDialog.items combo)
  ∧ (∀ s, s ∈ SpatialHyperparamsDialog.items combo
          ↔ (s = 1 ∨ s = 2 ∨ s = 3) ∧ total `mod` s = 0)
  ∧ SpatialHyperparamsDialog.current combo
    = Some (if total `mod` 2 =? 0 then 2 else 1)
  ∧ (∀ s, SpatialHyperparamsDialog.current combo = Some s →
          s ∈ SpatialHyperparamsDialog.items combo).
Proof.
  intros total combo. subst combo.
  unfold SpatialHyperparamsDialog.update_steps. fold total.
  cbn [SpatialHyperparamsDialog.items SpatialHyperparamsDialog.current].
  rewrite (DialogFacts.allowed_steps_cases total).
  pose proof (Z.mod_1_r total) as H1.
  split; [done|].
  destruct (Z.eqb_spec (total `mod` 2) 0) as [H2|H2],
           (Z.eqb_spec (total `mod` 3) 0) as [H3|H3]; simpl.
  all: split; [repeat constructor; lia|].
  all: split; [|split; [done|intros s Hs; injection Hs as <-; set_solver]].
  all: intros s; rewrite ?elem_of_cons, elem_of_nil.
  all: split; [intros Hs|intros [Hs Hmod]].
  all: repeat destruct Hs as [->|Hs]; try done; try tauto.
  all: subst s; congruence.
Qed.

(** X13.  With the hyperparameters of the spatial dialog (step 2 in pairs
    mode; in single mode a step among those offered for the range) and a
    range start <= end, the answer buttons of the probe window are the
    regions that the worker can present: a number k is the true region of
    some motor of the region pool exactly when 1 <= k <= n_pairs. *)
Theorem answer_buttons_are_regions (h : Config.hyps) (mode : string) :
  Config.num_motor_start h ≤ Config.num_motor_end h →
  (mode = "pairs" ∧ Config.use_motors_step h = 2)
  ∨ (mode ≠ "pairs"
     ∧ Config.use_motors_step h
       ∈ SpatialHyperparamsDialog.compute_allowed_steps
           (Config.num_motor_end h - Config.num_motor_start h + 1)) →
  ∃ uses n_pairs,
    SpatialWorker.region_pool h mode = Some uses
    ∧ MainWindow.n_pairs h = Some n_pairs
    ∧ ∀ k, (∃ m0, m0 ∈ uses
                  ∧ SpatialWorker.true_region (Config.num_motor_start h)
                      (Config.use_motors_step h) m0 = k)
           ↔ 1 ≤ k ≤ n_pairs.
Proof.
  intros Hrange Hmode.
  set (start := Config.num_motor_start h) in *.
  set (stop := Config.num_motor_end h) in *.
  unfold SpatialWorker.region_pool, MainWindow.n_pairs, SpatialWorker.true_region.
  fold start stop.
  destruct Hmode as [[-> Hstep]|[Hmode Hstep]].
  - rewrite Hstep. rewrite bool_decide_eq_true_2 by done.
    destruct (MolsSafety.range3_is_Some start stop 2) as [uses Huses]; [done|].
    exists uses, ((stop - start + 1) `div` 2). split; [done|]. split; [done|].
    assert (Py.range_len start stop 2 = (stop - start + 1) `div` 2) as Hlen.
    { unfold Py.range_len. destruct (Z.ltb_spec 0 2); [|lia].
      replace (stop - start + 2 - 1) with (stop - start + 1) by lia.
      pose proof (Z.div_pos (stop - start + 1) 2 ltac:(lia) ltac:(lia)). lia. }
    intros k. setoid_rewrite (RangeFacts.elem_of_range3 _ _ _ _ _ Huses).
    rewrite Hlen.
    split.
    + intros (m0 & (i & Hi & ->) & <-).
      replace (start + i * 2 - start) with (i * 2) by lia. rewrite Z.div_mul by done. lia.
    + intros Hk. exists (start + (k - 1) * 2). split; [exists (k - 1); split; [lia|done]|].
      replace (start + (k - 1) * 2 - start) with ((k - 1) * 2) by lia.
      rewrite Z.div_mul by done. lia.
  - rewrite bool_decide_eq_false_2 by done.
    set (step := Config.use_motors_step h) in *.
    assert (0 < step ∧ (stop - start + 1) `mod` step = 0) as [Hpos Hdiv].
    { rewrite DialogFacts.allowed_steps_cases in Hstep.
      destruct (Z.eqb_spec ((stop - start + 1) `mod` 2) 0),
               (Z.eqb_spec ((stop - start + 1) `mod` 3) 0);
        simpl in Hstep; rewrite ?elem_of_cons, elem_of_nil in Hstep;
        repeat destruct Hstep as [->|Hstep]; try done;
        (split; [lia|first [done|apply Z.mod_1_r]]). }
    destruct (Z.eqb_spec step 0) as [|_]; [lia|].
    exists (Py.range2 start (stop + 1)), ((stop - start + 1) `div` step).
    split; [done|]. split; [done|].
    apply Z.div_exact in Hdiv; [|lia].
    set (q := (stop - start + 1) `div` step) in *.
    intros k. setoid_rewrite PyFacts.elem_of_range2. split.
    + intros (m0 & Hm0 & <-).
      pose proof (Z.div_pos (m0 - start) step ltac:(lia) Hpos).
      assert ((m0 - start) `div` step < q); [|lia].
      apply Z.div_lt_upper_bound; lia.
    + intros Hk. exists (start + (k - 1) * step). split; [nia|].
      replace (start + (k - 1) * step - start) with ((k - 1) * step) by lia.
      rewrite Z.div_mul by lia. lia.
Qed.

Lemma answer_buttons_are_regions_witness :
  ∃ uses n_pairs,
    SpatialWorker.region_pool (Config.default_hyps "anon") "pairs" = Some uses
    ∧ MainWindow.n_pairs (Config.default_hyps "anon") = Some n_pairs
    ∧ ∀ k, (∃ m0, m0 ∈ uses ∧ SpatialWorker.true_region 0 2 m0 = k) ↔ 1 ≤ k ≤ n_pairs.
Proof.
  apply (answer_buttons_are_regions (Config.default_hyps "anon") "pairs").
  - simpl. lia.
  - left. split; reflexivity.
Defined.

(** ** The end of the discrimination test and the report *)

Module FinishFacts.
Import Counts PmpwmAnalysis PMPWMWorker MainWindow.

Lemma count_trials_app (t p : Z) (l1 l2 : list (Z * Z)) :
  count_trials t p (l1 ++ l2) = count_trials t p l1 + count_trials t p l2.
Proof. unfold count_trials. rewrite filter_app, length_app. lia. Qed.

Lemma sumZ_cons (x : Z) (l : list Z) : Py.sumZ (x :: l) = x + Py.sumZ l.
Proof. done. Qed.

(** The loop that builds [conf_per_motor]. *)
Lemma per_motor_matrices (n : nat) (results : list (Z * list (Z * Z))) :
  Forall (valid_trial n) (concat (Dict.values results)) →
  ∃ per_motor,
    mapM (λ mp : Z * list (Z * Z),
            cm_local ← confusion_matrix (zero_matrix n) mp.2; Some (mp.1, cm_local))
         results = Some per_motor
    ∧ per_motor.*1 = results.*1
    ∧ Forall (λ mc, square n mc.2) per_motor
    ∧ ∀ i j, (i < n)%nat → (j < n)%nat →
        Py.sumZ ((λ mc : Z * list (list Z), cell mc.2 i j) <$> per_motor)
        = count_trials (level i) (level j) (concat (Dict.values results)).
Proof.
  induction results as [|[m pairs] results IH]; intros Hvalid.
  - exists []. split; [done|]. split; [done|]. split; [constructor|]. by intros i j _ _.
  - unfold Dict.values in *. rewrite fmap_cons in Hvalid. cbn [concat snd] in Hvalid.
    apply Forall_app in Hvalid as [Hpairs Hrest].
    destruct (IH Hrest) as (per_motor & Hmap & Hkeys & Hsq & Hsum).
    destruct (ConfusionFacts.confusion_matrix_spec n pairs (zero_matrix n)
                (ConfusionFacts.zero_matrix_square n) Hpairs)
      as (cm & Hcm & Hcmsq & Hcell & _).
    exists ((m, cm) :: per_motor). split; [|split; [|split]].
    + simpl. rewrite Hcm. simpl. by rewrite Hmap.
    + rewrite !fmap_cons. by rewrite Hkeys.
    + by constructor.
    + intros i j Hi Hj. rewrite !fmap_cons. cbn [concat snd].
      rewrite count_trials_app, <- (Hsum i j Hi Hj), sumZ_cons. cbn [snd].
      rewrite Hcell by done. rewrite ConfusionFacts.zero_matrix_cell. lia.
Qed.

Lemma get_keys {V} (d : list (Z * V)) (k : Z) : is_Some (Dict.get d k) ↔ k ∈ d.*1.
Proof.
  induction d as [|[k' v] d IH]; simpl.
  - split; [by intros [? [=]]|by intros ?%elem_of_nil].
  - rewrite elem_of_cons. destruct (Z.eqb_spec k' k) as [->|Hne].
    + split; [by left|by eexists].
    + rewrite IH. split; [by right|]. intros [?|?]; [congruence|done].
Qed.

Lemma set_keys {V} (d : list (Z * V)) (k : Z) (v : V) (k' : Z) :
  k' ∈ (Dict.set d k v).*1 ↔ k' = k ∨ k' ∈ d.*1.
Proof.
  rewrite <- !get_keys. destruct (decide (k = k')) as [->|Hne].
  - rewrite DictFacts.get_set_eq. split; [by left|by eexists].
  - rewrite DictFacts.get_set_ne by done. split; [by right|]. intros [?|?]; [congruence|done].
Qed.

(** The loop of [generate_summary] over the per-motor matrices. *)
Lemma summary_per_motor_total (n : nat) (pwm_values : list Z)
    (per_motor : list (Z * list (list Z))) :
  length pwm_values = n → Forall (λ mc, square n mc.2) per_motor →
  ∀ summary, ∃ summary',
    ReportUtils.summary_per_motor per_motor pwm_values summary = Some summary'
    ∧ ∀ m, m ∈ summary'.*1 ↔ m ∈ per_motor.*1 ∨ m ∈ summary.*1.
Proof.
  intros Hlen Hsq. induction Hsq as [|[m cm] per_motor Hcm Hsq IH]; intros summary.
  - exists summary. split; [done|]. intros m. rewrite elem_of_nil. tauto.
  - cbn [ReportUtils.summary_per_motor].
    rewrite (PmpwmAnalysisFacts.analyse_cm_ok cm pwm_values n Hcm Hlen). simpl.
    destruct (IH (Dict.set summary m
                    {| confusion := cm;
                       confusion_norm :=
                         (λ row : list Qc, Py.around 4 ∘ Py.binary64 <$> row)
                           <$> normalise cm;
                       accuracy :=
                         prod_map id (Py.round_to 4 ∘ Py.binary64) <$> acc_dict cm n;
                       mean_accuracy := Py.round_to 4 <$> Py.mean (acc_dict cm n).*2;
                       recommendations := recommend_ref cm pwm_values |}))
      as (summary' & Hs & Hkeys).
    exists summary'. split; [done|]. intros m'.
    rewrite Hkeys, set_keys, elem_of_cons. tauto.
Qed.

Lemma comprehension_NoDup {V} (f : Z → V) (l : list Z) :
  NoDup l → ∀ d, (∀ m, m ∈ l → m ∉ d.*1) →
  foldl (λ d m, Dict.set d m (f m)) d l = d ++ ((λ m, (m, f m)) <$> l).
Proof.
  induction 1 as [|m l Hm Hl IH]; intros d Hd; simpl; [by rewrite app_nil_r|].
  assert (Dict.set d m (f m) = d ++ [(m, f m)]) as ->.
  { assert (m ∉ d.*1) as Hfresh by (apply Hd; by left).
    clear -Hfresh. induction d as [|[k v] d IH]; simpl; [done|].
    rewrite fmap_cons, not_elem_of_cons in Hfresh. destruct Hfresh as [Hk Hfresh].
    simpl in Hk. destruct (Z.eqb_spec k m); [congruence|]. by rewrite IH. }
  rewrite IH; [by rewrite <- app_assoc|].
  intros m' Hm'. rewrite fmap_app, elem_of_app. simpl. rewrite list_elem_of_singleton.
  intros [Hin| ->]; [|done]. apply (Hd m'); [by right|done].
Qed.

End FinishFacts.

(** X14.  When every recorded Trial has its true level and its answer
    among the levels 1..n, [_finish_pmpwm] returns its result: the Trials
    of all motors; for every motor with recorded Trials an n x n confusion
    matrix; an overall matrix whose every cell is the sum of that cell over
    the per-motor matrices, and the number of Trials with that true level
    and that answer; and, for distinct motors, one accuracy per motor of
    the test in the order of the motors, 0 for a motor without Trials.
    The per-motor analysis of [generate_summary] succeeds on these
    matrices and has an entry for every motor with recorded Trials. *)
Theorem finish_then_report (st : MainWindow.state) :
  let n := length (Config.pmpwm_pwm_values (MainWindow.hyps st)) in
  let answers := concat (Dict.values (MainWindow.results_pmpwm st)) in
  Forall (Counts.valid_trial n) answers →
  NoDup (MainWindow.motors_all st) →
  ∃ res summary,
    MainWindow._finish_pmpwm st = Some res
    ∧ MainWindow.fin_answers res = answers
    ∧ (MainWindow.fin_confusion_per_motor res).*1 = (MainWindow.results_pmpwm st).*1
    ∧ Forall (λ mc, PmpwmAnalysis.square n mc.2) (MainWindow.fin_confusion_per_motor res)
    ∧ (∀ i j, (i < n)%nat → (j < n)%nat →
         PmpwmAnalysis.cell (MainWindow.fin_confusion res) i j
         = Py.sumZ ((λ mc : Z * list (list Z), PmpwmAnalysis.cell mc.2 i j)
                      <$> MainWindow.fin_confusion_per_motor res)
         ∧ PmpwmAnalysis.cell (MainWindow.fin_confusion res) i j
           = Counts.count_trials (PmpwmAnalysis.level i) (PmpwmAnalysis.level j) answers)
    ∧ MainWindow.fin_per_motor_accuracy res
      = (λ m, (m, MainWindow.motor_accuracy st m)) <$> MainWindow.motors_all st
    ∧ (∀ m, Dict.get (MainWindow.results_pmpwm st) m = None →
            MainWindow.motor_accuracy st m = 0%Qc)
    ∧ ReportUtils.summary_per_motor (MainWindow.fin_confusion_per_motor res)
        (MainWindow.fin_pwm_values res) [] = Some summary
    ∧ ∀ m, m ∈ summary.*1 ↔ m ∈ (MainWindow.results_pmpwm st).*1.
Proof.
  intros n answers Hvalid Hmotors.
  destruct (FinishFacts.per_motor_matrices n (MainWindow.results_pmpwm st) Hvalid)
    as (per_motor & Hmap & Hkeys & Hsq & Hsum).
  destruct (ConfusionFacts.confusion_matrix_spec n answers (MainWindow.zero_matrix n)
              (ConfusionFacts.zero_matrix_square n) Hvalid)
    as (cm & Hcm & Hcmsq & Hcell & _).
  destruct (FinishFacts.summary_per_motor_total n
              (Config.pmpwm_pwm_values (MainWindow.hyps st)) per_motor eq_refl Hsq [])
    as (summary & Hsummary & Hsummary_keys).
  eexists _, summary. split.
  { unfold MainWindow._finish_pmpwm. fold n. fold answers.
    rewrite Hmap. simpl. rewrite Hcm. reflexivity. }
  simpl. split; [done|]. split; [done|]. split; [done|]. split.
  { intros i j Hi Hj. rewrite Hsum, Hcell by done.
    rewrite ConfusionFacts.zero_matrix_cell. fold answers. split; lia. }
  split.
  { unfold MainWindow.per_motor_accuracy.
    rewrite FinishFacts.comprehension_NoDup; [done|done|].
    intros m _. apply not_elem_of_nil. }
  split.
  { intros m Hnone. unfold MainWindow.motor_accuracy. by rewrite Hnone. }
  split; [done|]. intros m. rewrite Hsummary_keys, Hkeys, elem_of_nil. tauto.
Qed.

Lemma finish_then_report_witness :
  ∃ res summary,
    MainWindow._finish_pmpwm Sample.both_motors_done = Some res
    ∧ MainWindow.fin_answers res
      = [(1, 1); (2, 2); (1, 1); (2, 2); (1, 2); (2, 2); (1, 1); (2, 1)]
    ∧ (MainWindow.fin_confusion_per_motor res).*1 = [0; 1]
    ∧ Forall (λ mc, PmpwmAnalysis.square 2 mc.2) (MainWindow.fin_confusion_per_motor res)
    ∧ (∀ i j, (i < 2)%nat → (j < 2)%nat →
         PmpwmAnalysis.cell (MainWindow.fin_confusion res) i j
         = Py.sumZ ((λ mc : Z * list (list Z), PmpwmAnalysis.cell mc.2 i j)
                      <$> MainWindow.fin_confusion_per_motor res)
         ∧ PmpwmAnalysis.cell (MainWindow.fin_confusion res) i j
           = Counts.count_trials (PmpwmAnalysis.level i) (PmpwmAnalysis.level j)
               [(1, 1); (2, 2); (1, 1); (2, 2); (1, 2); (2, 2); (1, 1); (2, 1)])
    ∧ MainWindow.fin_per_motor_accuracy res
      = (λ m, (m, MainWindow.motor_accuracy Sample.both_motors_done m)) <$> [0; 1]
    ∧ (∀ m, Dict.get (MainWindow.results_pmpwm Sample.both_motors_done) m = None →
            MainWindow.motor_accuracy Sample.both_motors_done m = 0%Qc)
    ∧ ReportUtils.summary_per_motor (MainWindow.fin_confusion_per_motor res)
        (MainWindow.fin_pwm_values res) [] = Some summary
    ∧ ∀ m, m ∈ summary.*1 ↔ m ∈ [0; 1].
Proof.
  apply (finish_then_report Sample.both_motors_done).
  - repeat constructor; simpl; lia.
  - apply NoDup_cons. split; [by intros [=]%list_elem_of_singleton|apply NoDup_singleton].
Defined.

(** ** The queue of motors of the discrimination test *)

Module QueueFacts.
Import Thread MainWindow.

(** Once the queue is empty the slots launch nothing. *)
Lemma slots_idle (worker_results : list (Z * list (Z * Z))) (evs : list event) :
  ∀ st, _pending_queue st = [] →
    worker (foldl (slot worker_results) st evs) = worker st
    ∧ _pending_queue (foldl (slot worker_results) st evs) = [].
Proof.
  induction evs as [|e evs IH]; intros st Hq; [done|]. simpl.
  destruct e; simpl; try (by apply IH).
  - destruct (IH (_on_motor_done motor worker_results st) Hq) as [-> ->]. done.
  - unfold _on_partial_finished. rewrite Hq. by apply IH.
Qed.

(** The [finished] signal launches the queue, once. *)
Lemma slots_launch (worker_results : list (Z * list (Z * Z))) (evs : list event)
    (r : pmpwm_result) :
  PmpwmFinished r ∈ evs →
  ∀ st,
    worker (foldl (slot worker_results) st evs)
    = (if decide (_pending_queue st = []) then worker st else Some (_pending_queue st))
    ∧ _pending_queue (foldl (slot worker_results) st evs) = [].
Proof.
  induction evs as [|e evs IH]; intros Hin st; [by apply elem_of_nil in Hin|].
  apply elem_of_cons in Hin as [<-|Hin]; simpl.
  - unfold _on_partial_finished.
    destruct (_pending_queue st) as [|m q] eqn:Hq.
    + rewrite decide_True by done. by apply slots_idle.
    + rewrite decide_False by done. by apply slots_idle.
  - destruct e; simpl; try (by apply IH).
    + destruct (IH Hin (_on_motor_done motor worker_results st)) as [-> ->]. done.
    + unfold _on_partial_finished.
      destruct (_pending_queue st) as [|m q] eqn:Hq.
      * destruct (IH Hin st) as [-> ->]. by rewrite Hq.
      * rewrite decide_False by done. by apply slots_idle.
Qed.

End QueueFacts.

(** X15.  After the rewrite of [motor], every motor of the test is
    completed, is the motor being rewritten, or waits in the queue, and
    the queue holds only motors of the test that are neither completed nor
    the rewritten one.  When the worker launched on [motor] emits
    [finished], the main window launches the queue as the next worker (or
    nothing, when the queue is empty) and empties it, so the queue is
    launched once. *)
Theorem rewrite_then_resume (st : MainWindow.state) (motor : Z)
    (w0 : Thread.world (option Z)) :
  let st1 := MainWindow._run_pmpwm_for_motor motor st in
  let queue := MainWindow._pending_queue st1 in
  (∀ m, m ∈ MainWindow.motors_all st →
        m ∈ MainWindow.motors_completed st1 ∨ m = motor ∨ m ∈ queue)
  ∧ (∀ m, m ∈ queue →
          m ∈ MainWindow.motors_all st ∧ (m ∉ MainWindow.motors_completed st1)
          ∧ m ≠ motor)
  ∧ (∀ r, Thread.PmpwmFinished r
          ∈ Thread.log (Thread.final (PMPWMWorker.run (MainWindow.hyps st1) [motor] w0)) →
       MainWindow.worker (MainWindow.after_worker st1 w0)
       = Some (if decide (queue = []) then [motor] else queue)
       ∧ MainWindow._pending_queue (MainWindow.after_worker st1 w0) = []).
Proof.
  intros st1 queue. split; [|split].
  - intros m Hm. unfold queue, st1. simpl.
    rewrite list_elem_of_filter.
    destruct (decide (m = motor)) as [->|Hne]; [tauto|].
    destruct (decide (m ∈ MainWindow.motors_completed st ∖ {[motor]})); tauto.
  - intros m. unfold queue, st1. simpl. rewrite list_elem_of_filter. tauto.
  - intros r Hr.
    destruct (QueueFacts.slots_launch
                (Thread.results (Thread.final (PMPWMWorker.run (MainWindow.hyps st1)
                                                 [motor] w0)))
                _ r Hr st1) as [Hw Hq].
    split; [|exact Hq].
    unfold MainWindow.after_worker. change (MainWindow.worker st1) with (Some [motor]).
    cbv iota beta. rewrite Hw. fold queue.
    by destruct (decide (queue = [])).
Qed.


(** ** A complete discrimination run is balanced *)

Module DesignFacts.
Import Thread ThreadFacts TripleFacts ResultsFacts PMPWMWorker Design SafetyTactics.

Lemma set_fresh {V} (d : list (Z * V)) (k : Z) (v : V) :
  k ∉ d.*1 → Dict.set d k v = d ++ [(k, v)].
Proof.
  induction d as [|[k' v'] d IH]; [done|]. simpl.
  intros [Hne Hk]%not_elem_of_cons.
  destruct (Z.eqb_spec k' k); [congruence|]. by rewrite IH.
Qed.

Lemma get_last {V} (d : list (Z * V)) (k : Z) (v : V) :
  k ∉ d.*1 → Dict.get (d ++ [(k, v)]) k = Some v.
Proof.
  induction d as [|[k' v'] d IH]; simpl; [by rewrite Z.eqb_refl|].
  intros [Hne Hk]%not_elem_of_cons.
  destruct (Z.eqb_spec k' k); [congruence|]. by apply IH.
Qed.

Lemma set_last {V} (d : list (Z * V)) (k : Z) (v v' : V) :
  k ∉ d.*1 → Dict.set (d ++ [(k, v)]) k v' = d ++ [(k, v')].
Proof.
  induction d as [|[k' x] d IH]; simpl; [by rewrite Z.eqb_refl|].
  intros [Hne Hk]%not_elem_of_cons.
  destruct (Z.eqb_spec k' k); [congruence|]. by rewrite IH.
Qed.

Lemma fmap_cycles {T U} (f : T → U) (q : nat) (l : list T) :
  f <$> concat (replicate q l) = concat (replicate q (f <$> l)).
Proof. induction q as [|q IH]; [done|]. simpl. by rewrite fmap_app, IH. Qed.

(** Distinct intensities have the levels 1, 2, ... in the order of the
    schedule. *)
Lemma level_positions (l : list Z) :
  NoDup l →
  (λ p, default 0 (true_level l p)) <$> l = seqZ 1 (Z.of_nat (length l)).
Proof.
  induction 1 as [|y l Hy Hnd IH]; [done|].
  rewrite fmap_cons. cbn [length].
  rewrite seqZ_cons by lia. f_equal.
  - unfold true_level. simpl. by rewrite Z.eqb_refl.
  - replace (Z.pred (Z.of_nat (S (length l)))) with (Z.of_nat (length l)) by lia.
    replace (Z.succ 1) with (1 + 1) by lia.
    rewrite <- fmap_add_seqZ, <- IH, <- list_fmap_compose.
    apply Forall_fmap_ext_1, Forall_forall. intros x Hx. unfold true_level. simpl.
    destruct (Z.eqb_spec y x) as [->|_]; [done|].
    destruct (PyFacts.index_is_Some l x Hx) as [i ->]. simpl. lia.
Qed.

Lemma levels_distinct (h : Config.hyps) :
  NoDup (Config.pmpwm_pwm_values h) →
  levels h = concat (replicate (Z.to_nat (Config.pmpwm_repeats h))
                       (seqZ 1 (Z.of_nat (length (Config.pmpwm_pwm_values h))))).
Proof.
  intros Hnd. unfold levels, presentations. rewrite fmap_cycles. do 2 f_equal.
  by apply level_positions.
Qed.

Section design.
Variable h : Config.hyps.
Variable motors : list Z.
Hypothesis Hnd : NoDup motors.

Local Abbreviation anyhow := (λ (_ : Py.exn) (_ : world (option Z)), True).
Local Abbreviation anywhere := (λ _ : world (option Z), True).
Local Abbreviation tr := (λ e, ∀ r, e = PmpwmFinished r → balanced h motors r).
Local Abbreviation keeps ρ := (λ w : world (option Z), ρ (results w)).
Local Abbreviation spec ρ m := (triple (keeps ρ) m (λ _ _, True) anyhow anywhere tr).

Lemma tr_written (arr : list Z) : tr (Written arr).
Proof. done. Qed.

Lemma running_complete (ds : list Z) (motor : Z) (consumed : list Z) res :
  consumed ≡ₚ presentations h → running h ds motor consumed res →
  complete h (ds ++ [motor]) res.
Proof.
  intros Hperm (res0 & trials & -> & [Hkeys Hres0] & Htrials). split.
  - by rewrite fmap_app, Hkeys.
  - apply Forall_app. split; [done|]. apply Forall_singleton. simpl.
    rewrite Htrials. unfold levels. by rewrite Hperm.
Qed.

Lemma summarise_balanced : spec (complete h motors) (summarise h motors).
Proof.
  intros w [Hkeys Hres]. unfold summarise.
  destruct (confusion_matrix _ _) as [cm|]; [|split; [exists []; by rewrite app_nil_r|done]].
  case_bool_decide; [split; [exists []; by rewrite app_nil_r|done]|].
  split; [|done]. eexists [_]. split; [done|]. apply Forall_singleton.
  intros r [= <-]. split; [done|]. exists (results w).*2. simpl.
  split; [done|]. split; [by rewrite <- Hkeys, !length_fmap|].
  by apply Forall_fmap.
Qed.

Lemma store_running (ds : list Z) (motor : Z) :
  motor ∉ ds →
  triple (keeps (complete h ds)) (store motor [])
    (λ _ w, running h ds motor [] (results w)) anyhow anywhere tr.
Proof.
  intros Hmotor w [Hkeys Hres]. split; [exists []; by rewrite app_nil_r|].
  simpl. rewrite set_fresh by (by rewrite Hkeys). by exists (results w), [].
Qed.

Lemma append_running (ds : list Z) (motor : Z) (consumed : list Z) (p a : Z) :
  motor ∉ ds →
  triple (keeps (running h ds motor consumed)) (append motor (level_of h p, a))
    (λ _ w, running h ds motor (consumed ++ [p]) (results w)) anyhow anywhere tr.
Proof.
  intros Hmotor w (res0 & trials & Hres & Hc & Htrials).
  assert (motor ∉ res0.*1) as Hfresh by (by rewrite (proj1 Hc)).
  unfold append. rewrite Hres, get_last by done.
  split; [exists []; by rewrite app_nil_r|].
  simpl. rewrite Hres, set_last by done.
  exists res0, (trials ++ [(level_of h p, a)]). split; [done|]. split; [done|].
  by rewrite !fmap_app, Htrials.
Qed.

Lemma step_loop_balanced (ds : list Z) (motor : Z) (next : thread (option Z) unit) :
  motor ∉ ds → spec (complete h (ds ++ [motor])) next →
  ∀ seq consumed step_local, consumed ++ seq ≡ₚ presentations h →
    spec (running h ds motor consumed) (step_loop h motor seq step_local next).
Proof.
  intros Hmotor Hnext. induction seq as [|p seq IH]; intros consumed step_local Hperm;
    cbn [step_loop].
  - rewrite app_nil_r in Hperm.
    tbind (by apply triple_emit; [apply keeps_stable|]).
    eapply triple_conseq; [|intros ? ? Hw; exact Hw|apply Hnext].
    intros w Hw. by eapply running_complete.
  - tbind (by apply triple_emit; [apply keeps_stable|]).
    tread (apply triple_read) as n.
    destruct (Py.setitem (zeros n) motor p) as [arr|]; [|by apply triple_raise].
    tbind (by apply keeps_set_pwm_values).
    tbind (by apply keeps_reset).
    tbind (apply triple_clear_answer, keeps_stable).
    tbind (by apply triple_emit; [apply keeps_stable|]).
    tbind (by apply triple_wait_while; [apply keeps_stable|]).
    tread (apply triple_stop_flag) as s.
    destruct s; [tapply ltac:(by apply keeps_reset)|].
    tread (apply triple_answer) as a.
    destruct (true_level (Config.pmpwm_pwm_values h) p) as [lvl|] eqn:Hlvl;
      [|by apply triple_raise].
    destruct a as [a|]; [|by apply triple_raise].
    assert (lvl = level_of h p) as -> by (unfold level_of; by rewrite Hlvl).
    tbind (by apply append_running).
    tapply ltac:(apply (IH (consumed ++ [p])); by rewrite <- app_assoc).
Qed.

Lemma motor_loop_balanced (ms : list Z) :
  ∀ ds, ds ++ ms = motors → spec (complete h ds) (motor_loop h motors ms).
Proof.
  induction ms as [|motor ms IH]; intros ds Hsplit; cbn [motor_loop].
  - rewrite app_nil_r in Hsplit. subst ds.
    tbind (by apply keeps_begin_end_indicator).
    tapply ltac:(apply summarise_balanced).
  - assert (motor ∉ ds) as Hmotor.
    { rewrite <- Hsplit in Hnd. apply NoDup_app in Hnd as (_ & Hds & _).
      intros Hin. apply (Hds motor Hin). by left. }
    tbind (apply triple_shuffle, keeps_stable) as seq.
    tpure (seq ≡ₚ presentations h) as Hperm.
    tbind (by apply store_running).
    tapply ltac:(apply (step_loop_balanced ds motor _ Hmotor) with (consumed := []);
                   [apply (IH (ds ++ [motor])); by rewrite <- app_assoc|done]).
Qed.

Lemma run_balanced : spec (complete h []) (run h motors).
Proof. by apply motor_loop_balanced. Qed.

End design.
End DesignFacts.

(** ** What a complete run holds *)

(** X17.  A fresh discrimination worker on distinct motors emits only
    balanced results: when it emits [finished], the result names the
    motors of the worker and its Trials are, motor by motor and in the
    order of the motors, one list per motor whose true levels are a
    rearrangement of the levels of [pwm_values * repeats].  For distinct
    intensities these are the levels 1..n, each [repeats] times: every
    motor has been presented every level equally often. *)
Theorem discrimination_run_balanced (h : Config.hyps) (motors : list Z)
    (w : Thread.world (option Z)) :
  NoDup motors → Thread.results w = [] →
  (∃ evs, Thread.log (Thread.final (PMPWMWorker.run h motors w)) = Thread.log w ++ evs
     ∧ ∀ r, Thread.PmpwmFinished r ∈ evs →
         Thread.res_motors r = motors
         ∧ ∃ tss : list (list (Z * Z)),
             Thread.res_answers r = concat tss ∧ length tss = length motors
             ∧ Forall (λ ts, ts.*1 ≡ₚ Design.levels h) tss)
  ∧ (NoDup (Config.pmpwm_pwm_values h) →
     Design.levels h
     = concat (replicate (Z.to_nat (Config.pmpwm_repeats h))
                 (seqZ 1 (Z.of_nat (length (Config.pmpwm_pwm_values h)))))).
Proof.
  intros Hnd Hfresh. split; [|apply DesignFacts.levels_distinct].
  destruct (DesignFacts.run_balanced h motors Hnd w) as [(evs & Hlog & Hevs) _].
  { rewrite Hfresh. by split. }
  exists evs. split; [done|]. intros r Hin.
  by apply (proj1 (Forall_forall _ _) Hevs _ Hin).
Qed.

Lemma discrimination_run_balanced_witness :
  let w := PMPWMWorker.fresh Sample.box Sample.four_answers [1; 0; 1]%nat in
  ((∃ evs, Thread.log (Thread.final (PMPWMWorker.run Sample.four_regions [3] w))
           = Thread.log w ++ evs
      ∧ ∀ r, Thread.PmpwmFinished r ∈ evs →
          Thread.res_motors r = [3]
          ∧ ∃ tss : list (list (Z * Z)),
              Thread.res_answers r = concat tss ∧ length tss = length [3]
              ∧ Forall (λ ts, ts.*1 ≡ₚ Design.levels Sample.four_regions) tss)
   ∧ (NoDup [14; 22] → Design.levels Sample.four_regions = [1; 2; 1; 2]))
  ∧ Thread.res_answers
      <$> (last (Thread.log (Thread.final (PMPWMWorker.run Sample.four_regions [3] w)))
             ≫= λ e, match e with Thread.PmpwmFinished r => Some r | _ => None end)
    = Some [(1, 1); (2, 2); (1, 1); (2, 2)].
Proof.
  split.
  - apply (discrimination_run_balanced Sample.four_regions [3]
             (PMPWMWorker.fresh Sample.box Sample.four_answers [1; 0; 1]%nat)).
    + apply NoDup_singleton.
    + reflexivity.
  - vm_compute. reflexivity.
Defined.

(** ** The Trials of the spatial worker are those of the first presentations *)

Module SpatialResultFacts.
Import Thread ThreadFacts TripleFacts ResultsFacts SpatialWorker Design SafetyTactics.

Section result.
Variable h : Config.hyps.
Variable mode : string.
Variable uses : list Z.
Hypothesis Huses : uses ≠ [].

Local Abbreviation anyhow := (λ (_ : Py.exn) (_ : world (option Z)), True).
Local Abbreviation anywhere := (λ _ : world (option Z), True).
Local Abbreviation always := (λ _ : world (option Z), True).
Local Abbreviation any := (λ _ : list (Z * list (Z * Z)), True).
Local Abbreviation tr :=
  (λ e, ∀ answers mode', e = SpatialFinished answers mode' →
          mode' = mode
          ∧ ∃ seq, drawn h uses seq ∧ answers.*1 `prefix_of` regions_of h seq).

Lemma spatial_always_stable : stable always.
Proof. done. Qed.

Lemma vibrate_quiet (motors : list Z) :
  triple always (vibrate h motors) (λ _ _, True) anyhow anywhere tr.
Proof.
  induction motors as [|mot motors IH]; cbn [vibrate]; [by tret idtac|].
  tbind (by apply (keeps_set_pwm_values tr any)).
  tapply ltac:(apply IH).
Qed.

Lemma present_loop_prefix (total : Z) (seq : list Z) :
  ∀ idx answers,
    triple always (present_loop h mode total seq idx answers)
      (λ answers' _, ∃ k, answers'.*1 = answers.*1 ++ regions_of h (take k seq))
      anyhow anywhere tr.
Proof.
  induction seq as [|m0 seq IH]; intros idx answers; cbn [present_loop].
  - tret ltac:(exists 0%nat; by rewrite app_nil_r).
  - tbind (apply triple_stop_requested, spatial_always_stable) as s.
    destruct s; [tret ltac:(exists 0%nat; by rewrite app_nil_r)|].
    tbind (by apply triple_emit; [apply spatial_always_stable|]).
    destruct (Config.use_motors_step h =? 0); [by apply triple_raise|].
    tbind (apply vibrate_quiet).
    tbind (by apply (keeps_reset tr any)).
    tbind (apply triple_clear_answer, spatial_always_stable).
    tbind (by apply triple_emit; [apply spatial_always_stable|]).
    tbind (by apply triple_wait_while; [apply spatial_always_stable|]).
    tread (apply triple_stop_flag) as s.
    tread (apply triple_answer) as a.
    destruct s, a as [a|]; try (tret ltac:(exists 0%nat; by rewrite app_nil_r)).
    eapply triple_conseq; [| |apply IH]; [done|].
    intros answers' w [k Hk]. exists (S k).
    rewrite Hk, fmap_app. cbn [take]. unfold regions_of. rewrite fmap_cons.
    by rewrite <- app_assoc.
Qed.

Lemma presentation_sequence_drawn :
  triple always (presentation_sequence uses (Config.max_counter_samples h))
    (λ seq _, drawn h uses seq) anyhow anywhere tr.
Proof.
  unfold presentation_sequence, Py.divmod, drawn.
  assert (0 < Z.of_nat (length uses)) as HU by (destruct uses; [done|simpl; lia]).
  pose proof (Z.mod_pos_bound (Config.max_counter_samples h) _ HU) as Hr.
  eapply (triple_bind anyhow anywhere tr _ _ _
            (λ seq _, ∃ extra, extra ⊆ uses
               ∧ Z.of_nat (length extra)
                 = Config.max_counter_samples h `mod` Z.of_nat (length uses)
               ∧ seq = concat (replicate
                         (Z.to_nat (Config.max_counter_samples h
                                    `div` Z.of_nat (length uses))) uses) ++ extra)).
  - destruct (Z.ltb_spec 0 (Config.max_counter_samples h `mod` Z.of_nat (length uses))).
    + eapply triple_bind;
        [apply (triple_sample anyhow anywhere tr always); [apply spatial_always_stable|lia]|].
      intros extra. cbv beta.
      eapply triple_conseq; [| |apply triple_ret]; [intros w Hw; exact Hw|].
      intros r w [-> (Hlen & Hsub & _)]. by exists extra.
    + eapply triple_conseq; [| |apply triple_ret]; [intros w Hw; exact Hw|].
      intros r w [-> _]. exists []. split; [by intros x ?%elem_of_nil|].
      split; [simpl; lia|by rewrite app_nil_r].
  - intros seq. cbv beta.
    apply (triple_assume _ _ _ _
             (∃ extra, extra ⊆ uses
                ∧ Z.of_nat (length extra)
                  = Config.max_counter_samples h `mod` Z.of_nat (length uses)
                ∧ seq = concat (replicate
                          (Z.to_nat (Config.max_counter_samples h
                                     `div` Z.of_nat (length uses))) uses) ++ extra));
      [done|].
    intros (extra & Hsub & Hlen & ->).
    eapply triple_conseq; [| |apply (triple_shuffle anyhow anywhere tr always)];
      [done| |apply spatial_always_stable].
    intros seq' w [Hperm _]. by exists extra.
Qed.

Lemma present_and_finish_prefix (seq : list Z) :
  drawn h uses seq →
  triple always (present_and_finish h mode (Z.of_nat (length seq)) seq 0 [])
    (λ _ _, True) anyhow anywhere tr.
Proof.
  intros Hseq. unfold present_and_finish.
  eapply triple_bind; [apply present_loop_prefix|]. intros answers. cbv beta.
  apply (triple_assume _ _ _ _ (∃ k, answers.*1 = regions_of h (take k seq))); [done|].
  intros [k Hk].
  eapply triple_conseq; [| |apply (triple_emit anyhow anywhere tr always)];
    [done|done|apply spatial_always_stable|].
  intros answers' mode' [= <- <-]. split; [done|]. exists seq. split; [done|].
  rewrite Hk. unfold regions_of. rewrite <- (take_drop k seq) at 2.
  rewrite fmap_app. by apply prefix_app_r.
Qed.

Lemma sequence_then_finish :
  triple always
    (seq ← presentation_sequence uses (Config.max_counter_samples h);
     present_and_finish h mode (Z.of_nat (length seq)) seq 0 [])
    (λ _ _, True) anyhow anywhere tr.
Proof.
  eapply triple_bind; [apply presentation_sequence_drawn|]. intros seq. cbv beta.
  apply (triple_assume _ _ _ _ (drawn h uses seq)); [done|]. intros Hseq.
  eapply triple_conseq; [| |by apply present_and_finish_prefix]; done.
Qed.

End result.
End SpatialResultFacts.

(** X18.  Whenever the spatial worker emits [finished], the result carries
    the mode of the worker, and the true regions of its Trials are those
    of the first presentations of a sequence drawn from the region pool
    (full cycles of the pool and extra regions of the pool, shuffled): in
    the order of the presentations, none skipped.  So every true region is
    the region of a motor of the pool, and for a non-negative
    [max_counter_samples] there are at most that many Trials. *)
Theorem spatial_result_first_presentations (h : Config.hyps) (mode : string)
    (w : Thread.world (option Z)) :
  ∃ evs, Thread.log (Thread.final (SpatialWorker.run h mode w)) = Thread.log w ++ evs
    ∧ ∀ answers mode', Thread.SpatialFinished answers mode' ∈ evs →
        mode' = mode
        ∧ ∃ uses seq,
            SpatialWorker.region_pool h mode = Some uses
            ∧ Design.drawn h uses seq
            ∧ answers.*1 `prefix_of` Design.regions_of h seq
            ∧ Forall (λ tp : Z * Z, ∃ m0, m0 ∈ uses
                        ∧ tp.1 = SpatialWorker.true_region (Config.num_motor_start h)
                                   (Config.use_motors_step h) m0) answers
            ∧ (0 ≤ Config.max_counter_samples h →
               Z.of_nat (length answers) ≤ Config.max_counter_samples h).
Proof.
  unfold SpatialWorker.run.
  destruct (SpatialWorker.region_pool h mode) as [[|m0 uses]|] eqn:Hpool.
  - exists []. split; [simpl; by rewrite app_nil_r|]. by intros ?? ?%elem_of_nil.
  - set (pool := m0 :: uses) in *.
    assert (pool ≠ []) as Hne by done.
    destruct (SpatialResultFacts.sequence_then_finish h mode pool Hne w I)
      as [(evs & Hlog & Hevs) _].
    exists evs. split; [done|]. intros answers mode' Hin.
    destruct (proj1 (Forall_forall _ _) Hevs _ Hin answers mode' eq_refl)
      as (-> & seq & Hseq & Hprefix).
    split; [done|]. exists pool, seq. split; [done|]. split; [done|]. split; [done|].
    pose proof Hseq as (extra & Hsub & Hlen & Hperm).
    assert (0 < Z.of_nat (length pool)) as HU by (simpl; lia).
    split.
    + apply Forall_forall. intros tp Htp.
      assert (tp.1 ∈ Design.regions_of h seq) as Hreg.
      { destruct Hprefix as [rest ->]. apply elem_of_app. left.
        by apply list_elem_of_fmap_2. }
      apply list_elem_of_fmap in Hreg as (m & Hm & Hin').
      exists m. split; [|done]. rewrite Hperm in Hin'.
      apply elem_of_app in Hin' as [Hc|He]; [|by apply Hsub].
      by apply PMPWMSafety.elem_of_cycles in Hc.
    + intros Hms.
      pose proof (prefix_length _ _ Hprefix) as Hle.
      unfold Design.regions_of in Hle. rewrite !length_fmap in Hle.
      rewrite Hperm, length_app, PyFacts.length_cycles in Hle.
      pose proof (Z.div_mod (Config.max_counter_samples h) (Z.of_nat (length pool))
                    ltac:(lia)) as Hdm.
      pose proof (Z.div_pos (Config.max_counter_samples h) (Z.of_nat (length pool))
                    Hms HU) as Hq.
      nia.
  - exists []. split; [simpl; by rewrite app_nil_r|]. by intros ?? ?%elem_of_nil.
Qed.

(** ** The result of a complete threshold run *)

Module ThresholdResultFacts.
Import Thread ThreadFacts TripleFacts ResultsFacts MolsWorker Safety SafetyTactics.

Lemma round_bounds (q : Qc) (lo hi : Z) :
  (Qc_of_Z lo ≤ q)%Qc → (q ≤ Qc_of_Z hi)%Qc → lo ≤ Py.round q ≤ hi.
Proof.
  intros Hlo Hhi.
  assert (lo ≤ Qfloor q) as Hf1.
  { rewrite <- (Qfloor_Z lo). by apply Qfloor_resp_le. }
  assert (Qfloor q ≤ hi) as Hf2.
  { rewrite <- (Qfloor_Z hi). by apply Qfloor_resp_le. }
  assert (Qfloor q = hi → (q - Qc_of_Z (Qfloor q) < 1 / 2)%Qc) as Htop.
  { intros Heq. rewrite Heq.
    apply (Qcplus_le_mono_r _ _ (- Qc_of_Z hi)) in Hhi.
    rewrite Qcplus_opp_r in Hhi.
    eapply Qcle_lt_trans; [exact Hhi|by vm_compute]. }
  unfold Py.round. cbv zeta.
  destruct (decide _) as [|Hd]; [lia|].
  assert (Qfloor q ≠ hi) by (intros ?; by apply Hd, Htop).
  repeat case_match; lia.
Qed.

Lemma sumQ_of_Z (l : list Z) : Py.sumQ (Qc_of_Z <$> l) = Qc_of_Z (Py.sumZ l).
Proof.
  induction l as [|x l IH]; [symmetry; apply Z2Qc_inj_0|].
  rewrite fmap_cons. cbn [Py.sumQ Py.sumZ foldr].
  fold (Py.sumQ (Qc_of_Z <$> l)). fold (Py.sumZ l).
  by rewrite IH, Z2Qc_inj_add.
Qed.

Lemma sumZ_bounds (l : list Z) (lo hi : Z) :
  Forall (λ v, lo ≤ v ≤ hi) l →
  lo * Z.of_nat (length l) ≤ Py.sumZ l ≤ hi * Z.of_nat (length l).
Proof.
  induction 1 as [|x l Hx Hl IH]; [simpl; lia|].
  cbn [Py.sumZ foldr length]. fold (Py.sumZ l). lia.
Qed.

(** The rounded mean of integers lies between the least and the greatest
    of them. *)
Lemma mean_round_bounds (l : list Z) (lo hi : Z) (q : Qc) :
  Forall (λ v, lo ≤ v ≤ hi) l → Py.mean (Qc_of_Z <$> l) = Some q → lo ≤ Py.round q ≤ hi.
Proof.
  intros Hl Hq. destruct l as [|x l']; [done|].
  set (l := x :: l') in *.
  assert (0 < Z.of_nat (length l)) as Hlen by (simpl; lia).
  assert (q = Qc_of_Z (Py.sumZ l) / Qc_of_Z (Z.of_nat (length l)))%Qc as ->.
  { unfold Py.mean in Hq. rewrite <- sumQ_of_Z. unfold l in *. rewrite fmap_cons in Hq.
    injection Hq as <-. by rewrite fmap_cons, !length_cons, length_fmap. }
  pose proof (sumZ_bounds l lo hi Hl) as [H1 H2].
  assert (Q2Qc 0 < Qc_of_Z (Z.of_nat (length l)))%Qc as Hpos.
  { rewrite <- Z2Qc_inj_0. by apply Z2Qc_inj_lt. }
  assert (Qc_of_Z (Z.of_nat (length l)) ≠ Q2Qc 0) as Hne.
  { intros Heq. rewrite Heq in Hpos. by apply Qclt_not_eq in Hpos. }
  apply round_bounds.
  - apply (Qcmult_le_mono_pos_r _ _ _ Hpos).
    rewrite (Qcmult_comm (_ / _)), Qcmult_div_r by done.
    rewrite <- Z2Qc_inj_mul. by apply (proj1 (Z2Qc_inj_le _ _)).
  - apply (Qcmult_le_mono_pos_r _ _ _ Hpos).
    rewrite (Qcmult_comm (_ / _)), Qcmult_div_r by done.
    rewrite <- Z2Qc_inj_mul. by apply (proj1 (Z2Qc_inj_le _ _)).
Qed.

Lemma get_fresh {V} (d : list (Z * V)) (k : Z) : k ∉ d.*1 → Dict.get d k = None.
Proof.
  induction d as [|[k' v] d IH]; [done|]. simpl.
  intros [Hne Hk]%not_elem_of_cons.
  destruct (Z.eqb_spec k' k); [congruence|]. by apply IH.
Qed.

Section result.
Variable h : Config.hyps.

Local Abbreviation lo := (least_threshold h).
Local Abbreviation hi := (greatest_threshold h).

(** The result [results_mean]: the motors of [results], in their order,
    each with a value between the two bounds. *)
Lemma results_mean_within (results : list (Z * list Z)) (rm : list (Z * Z)) :
  within h results → results_mean results = Some rm →
  rm.*1 = results.*1 ∧ Forall (λ v, lo ≤ v ≤ hi) rm.*2.
Proof.
  unfold results_mean. intros Hres. revert rm.
  induction Hres as [|[k passes] results [_ Hk] Hres IH]; intros rm; simpl.
  - by intros [= <-].
  - destruct (Py.mean (Qc_of_Z <$> passes)) as [q|] eqn:Hq; [|done]. simpl.
    destruct (mapM _ results) as [rm'|]; [|done]. simpl. intros [= <-].
    destruct (IH rm' eq_refl) as [Hkeys Hvals]. rewrite !fmap_cons. simpl.
    split; [by rewrite Hkeys|].
    constructor; [|done]. by apply (mean_round_bounds passes).
Qed.

Lemma record_first (results : list (Z * list Z)) (m pwm : Z) :
  m ∉ results.*1 → record_pass results m pwm = results ++ [(m, [pwm])].
Proof.
  intros Hm. unfold record_pass. rewrite get_fresh by done.
  by apply DesignFacts.set_fresh.
Qed.

Lemma record_next (res0 : list (Z * list Z)) (m pwm : Z) (passes : list Z) :
  m ∉ res0.*1 →
  record_pass (res0 ++ [(m, passes)]) m pwm = res0 ++ [(m, passes ++ [pwm])].
Proof.
  intros Hm. unfold record_pass. rewrite DesignFacts.get_last by done.
  by apply DesignFacts.set_last.
Qed.

Section run.
Variable motors : list Z.
Hypothesis Hnd : NoDup motors.

Local Abbreviation anyhow := (λ (_ : Py.exn) (_ : world string), True).
Local Abbreviation anywhere := (λ _ : world string, True).
Local Abbreviation always := (λ _ : world string, True).
Local Abbreviation any := (λ _ : list (Z * list (Z * Z)), True).
Local Abbreviation tr :=
  (λ e, ∀ rm, e = MolsFinished rm → rm.*1 = motors ∧ Forall (λ v, lo ≤ v ≤ hi) rm.*2).
Local Abbreviation spec m := (triple always m (λ _ _, True) anyhow anywhere tr).

Lemma threshold_always_stable : stable always.
Proof. done. Qed.

Lemma ret_value {R} (pre : world string → Prop) (r : R) :
  triple pre (mret r) (λ r' _, r' = r) anyhow anywhere tr.
Proof.
  eapply triple_conseq; [| |apply triple_ret]; [intros w Hw; exact Hw|].
  by intros r' w [-> _].
Qed.

Lemma wait_for_patient_quiet :
  triple always wait_for_patient (λ _ _, True) anyhow anywhere tr.
Proof.
  unfold wait_for_patient.
  tbind (apply triple_clear_answer, threshold_always_stable).
  tapply ltac:(by apply triple_wait_while; [apply threshold_always_stable|]).
Qed.

Lemma cancelled_value (P : Z → Prop) :
  triple always (reset_pwm_values;; mret (-1)) (λ pwm _, pwm = -1 ∨ P pwm)
    anyhow anywhere tr.
Proof.
  tbind (by apply (keeps_reset tr any)). tret ltac:(by left).
Qed.

(** What a pass returns: the code -1 of a cancelled pass, the value of an
    exhausted sequence, or the threshold at an intensity of the sequence. *)
Lemma probe_loop_value (motor_idx : Z) (positive_answer : string) (seq : list Z) :
  ∀ pwm_arr,
    triple always (probe_loop h motor_idx positive_answer seq pwm_arr)
      (λ pwm _, pwm = -1
                ∨ (pwm = exhausted h positive_answer
                   ∨ ∃ v, v ∈ seq ∧ pwm = threshold h positive_answer v))
      anyhow anywhere tr.
Proof.
  induction seq as [|v seq IH]; intros pwm_arr; cbn [probe_loop].
  - tret ltac:(right; by left).
  - tbind (apply triple_stop_requested, threshold_always_stable) as s.
    destruct s; [tapply ltac:(apply cancelled_value)|].
    tbind (by apply triple_emit; [apply threshold_always_stable|]).
    destruct (Py.setitem pwm_arr motor_idx v) as [arr|]; [|by apply triple_raise].
    tbind (by apply (keeps_set_pwm_values tr any)).
    tbind (by apply (keeps_reset tr any)).
    tbind (by apply triple_emit; [apply threshold_always_stable|]).
    tbind (apply wait_for_patient_quiet).
    tread (apply triple_stop_flag) as s.
    destruct s; [tapply ltac:(apply cancelled_value)|].
    tread (apply triple_answer) as a.
    destruct (bool_decide _).
    + tret ltac:(right; right; exists v; split; [by left|done]).
    + eapply triple_conseq; [| |apply IH]; [done|].
      intros pwm w [?|[?|(v' & Hv' & ?)]]; [by left|right; by left|].
      right. right. exists v'. split; [by right|done].
Qed.

Lemma _downstream_value (motor_idx : Z) :
  triple always (_downstream h motor_idx) (λ pwm _, pwm = -1 ∨ lo ≤ pwm ≤ hi)
    anyhow anywhere tr.
Proof.
  unfold _downstream.
  tbind (by apply triple_randint; [apply threshold_always_stable|]) as r.
  tpure (3 ≤ r ≤ 4) as Hr.
  unfold arange.
  destruct (Py.range3 (r * 10) 20 (Config.delta_pwm_down h)) as [s1|] eqn:Hs1;
    [|by apply triple_raise].
  eapply triple_bind; [apply ret_value|]. intros s1'. cbv beta.
  apply (triple_assume _ _ _ _ (s1' = s1)); [done|]. intros ->.
  destruct (Py.range3 20 (Config.end_pwm_down h) (-2)) as [s2|] eqn:Hs2;
    [|by apply triple_raise].
  eapply triple_bind; [apply ret_value|]. intros s2'. cbv beta.
  apply (triple_assume _ _ _ _ (s2' = s2)); [done|]. intros ->.
  unfold _probe.
  eapply triple_conseq; [| |apply probe_loop_value]; [done|].
  intros pwm w [?|Hpwm]; [by left|]. right.
  unfold exhausted, threshold, least_threshold, greatest_threshold in *.
  rewrite bool_decide_eq_true_2 in Hpwm by done.
  destruct Hpwm as [->|(v & [Hv|Hv]%elem_of_app & ->)]; [lia| |].
  - destruct (MolsSafety.range3_bounds _ _ _ _ _ Hs1 Hv); lia.
  - destruct (MolsSafety.range3_bounds _ _ _ _ _ Hs2 Hv); lia.
Qed.

Lemma _upstream_value (motor_idx : Z) :
  triple always (_upstream h motor_idx) (λ pwm _, pwm = -1 ∨ lo ≤ pwm ≤ hi)
    anyhow anywhere tr.
Proof.
  unfold _upstream.
  tbind (by apply triple_randint; [apply threshold_always_stable|]) as r.
  tpure (2 ≤ r ≤ 8) as Hr.
  unfold arange.
  destruct (Py.range3 r (Config.end_pwm_up h) (Config.delta_pwm_up h)) as [seq|] eqn:Hseq;
    [|by apply triple_raise].
  eapply triple_bind; [apply ret_value|]. intros seq'. cbv beta.
  apply (triple_assume _ _ _ _ (seq' = seq)); [done|]. intros ->.
  unfold _probe.
  eapply triple_conseq; [| |apply probe_loop_value]; [done|].
  intros pwm w [?|Hpwm]; [by left|]. right.
  unfold exhausted, threshold, least_threshold, greatest_threshold in *.
  rewrite bool_decide_eq_false_2 in Hpwm by done.
  destruct Hpwm as [->|(v & Hv & ->)]; [lia|].
  destruct (MolsSafety.range3_bounds _ _ _ _ _ Hseq Hv); lia.
Qed.

(** The dictionary of pass values while the motor [m] is tested: the
    motors [ds] tested before, and [m] once it has a pass value. *)
Lemma direction_loop_result (total_steps m : Z) (ds : list Z)
    (next : Z → list (Z * list Z) → thread string unit) :
  m ∉ ds →
  (∀ done results, results.*1 = ds ++ [m] → within h results → spec (next done results)) →
  ∀ streams done results, within h results →
    (results.*1 = ds ∧ streams ≠ []) ∨ results.*1 = ds ++ [m] →
    spec (direction_loop h total_steps m streams done results next).
Proof.
  intros Hm Hnext. induction streams as [|direction streams IH];
    intros done results Hres Hkeys; cbn [direction_loop].
  - destruct Hkeys as [[_ ?]|Hkeys]; [done|]. by apply Hnext.
  - tbind (apply triple_stop_requested, threshold_always_stable) as s.
    destruct s; [by tret idtac|].
    tbind (by apply triple_emit; [apply threshold_always_stable|]).
    tbind (by apply triple_emit; [apply threshold_always_stable|]).
    eapply triple_bind.
    { destruct (direction =? 1);
        [tapply ltac:(apply _downstream_value)|tapply ltac:(apply _upstream_value)]. }
    intros pwm. cbv beta.
    apply (triple_assume _ _ _ _ (pwm = -1 ∨ lo ≤ pwm ≤ hi)); [done|]. intros Hpwm.
    unfold after_pass. destruct (Z.eqb_spec pwm (-1)) as [|Hne]; [by tret idtac|].
    destruct Hpwm as [?|Hpwm]; [done|].
    tbind (by apply (keeps_begin_end_indicator tr any)).
    assert (within h (record_pass results m pwm)
            ∧ (record_pass results m pwm).*1 = ds ++ [m]) as [Hres' Hkeys'].
    { destruct Hkeys as [[Hkeys _]|Hkeys].
      - rewrite record_first by (by rewrite Hkeys). split.
        + apply Forall_app. split; [done|]. apply Forall_singleton. simpl.
          split; [done|]. by apply Forall_singleton.
        + by rewrite fmap_app, Hkeys.
      - clear IH. induction results as [|[k passes] res0 _] using rev_ind.
        { by destruct ds. }
        rewrite fmap_app in Hkeys. apply app_inj_tail in Hkeys as [Hkeys [= ->]].
        rewrite record_next by (by rewrite Hkeys).
        apply Forall_app in Hres as [Hres0 [[_ Hpasses] _]%Forall_cons]. simpl in *.
        split.
        + apply Forall_app. split; [done|]. apply Forall_singleton. simpl.
          split; [by destruct passes|]. apply Forall_app. split; [done|].
          by apply Forall_singleton.
        + by rewrite fmap_app, Hkeys. }
    tapply ltac:(apply IH; [done|by right]).
Qed.

Lemma motor_loop_result (total_steps : Z) (ms : list Z) :
  0 < Config.exps_for_each_motor h →
  ∀ ds, ds ++ ms = motors →
  ∀ done results, results.*1 = ds → within h results →
    spec (motor_loop h total_steps ms done results).
Proof.
  intros Hexps. induction ms as [|m ms IH]; intros ds Hsplit done results Hkeys Hres;
    cbn [motor_loop].
  - rewrite app_nil_r in Hsplit. subst ds.
    destruct (results_mean results) as [rm|] eqn:Hrm; [|by apply triple_raise].
    destruct (results_mean_within _ _ Hres Hrm) as [Hk Hv].
    assert (tr (MolsFinished rm)) as Hrm'.
    { intros rm' [= <-]. split; [by rewrite Hk|done]. }
    tapply ltac:(by apply triple_emit; [apply threshold_always_stable|]).
  - assert (m ∉ ds) as Hm.
    { rewrite <- Hsplit in Hnd. apply NoDup_app in Hnd as (_ & Hds & _).
      intros Hin. apply (Hds m Hin). by left. }
    tbind (apply triple_shuffle, threshold_always_stable) as streams.
    tpure (streams ≡ₚ concat (replicate (Z.to_nat (Config.exps_for_each_motor h)) [0; 1]))
      as Hperm.
    assert (streams ≠ []) as Hstreams.
    { intros ->. apply Permutation_nil_l in Hperm.
      destruct (Z.to_nat (Config.exps_for_each_motor h)) eqn:Hn; [lia|done]. }
    assert (∀ done' results', results'.*1 = ds ++ [m] → within h results' →
              spec (motor_loop h total_steps ms done' results')) as Hnext.
    { intros done' results' Hkeys' Hres'.
      apply (IH (ds ++ [m])); [by rewrite <- app_assoc|done|done]. }
    tapply ltac:(apply (direction_loop_result total_steps m ds); [done|done|done|by left]).
Qed.

End run.
End result.
End ThresholdResultFacts.

(** X19.  With at least one pass pair per motor, whenever the threshold
    worker emits [finished], the result holds exactly one threshold for
    every motor of range(start, end + 1, step), in the order of the range,
    and every threshold lies between min(0, end_pwm_down + 1, end_pwm_up)
    and max(40, end_pwm_up) + abs(delta_pwm_down). *)
Theorem threshold_result_complete (h : Config.hyps) (w : Thread.world string) :
  0 < Config.exps_for_each_motor h →
  ∃ evs, Thread.log (Thread.final (MolsWorker.run h w)) = Thread.log w ++ evs
    ∧ ∀ rm, Thread.MolsFinished rm ∈ evs →
        Py.range3 (Config.num_motor_start h) (Config.num_motor_end h + 1)
                  (Config.use_motors_step h) = Some rm.*1
        ∧ Forall (λ v, Safety.least_threshold h ≤ v ≤ Safety.greatest_threshold h) rm.*2.
Proof.
  intros Hexps. unfold MolsWorker.run.
  destruct (Py.range3 _ _ _) as [motors|] eqn:Hmotors.
  - assert (NoDup motors) as Hnd by (by eapply PyFacts.range3_NoDup).
    destruct (ThresholdResultFacts.motor_loop_result h motors Hnd
                (Z.of_nat (length motors) * Config.exps_for_each_motor h * 2) motors
                Hexps [] eq_refl 0 [] eq_refl ltac:(constructor) w I)
      as [(evs & Hlog & Hevs) _].
    exists evs. split; [done|]. intros rm Hin.
    destruct (proj1 (Forall_forall _ _) Hevs _ Hin rm eq_refl) as [-> Hv]. done.
  - exists []. split; [simpl; by rewrite app_nil_r|]. by intros ? ?%elem_of_nil.
Qed.

Lemma threshold_result_complete_witness :
  let w := MolsWorker.fresh Sample.box (replicate 400 [Thread.SetAnswer "n"]) [1; 0; 1]%nat in
  (∃ evs, Thread.log (Thread.final (MolsWorker.run Sample.four_regions w))
          = Thread.log w ++ evs
     ∧ ∀ rm, Thread.MolsFinished rm ∈ evs →
         Py.range3 0 (3 + 1) 1 = Some rm.*1 ∧ Forall (λ v, 0 ≤ v ≤ 45) rm.*2)
  ∧ last (Thread.log (Thread.final (MolsWorker.run Sample.four_regions w)))
    = Some (Thread.MolsFinished [(0, 38); (1, 32); (2, 32); (3, 32)]).
Proof.
  split.
  - apply (threshold_result_complete Sample.four_regions
             (MolsWorker.fresh Sample.box (replicate 400 [Thread.SetAnswer "n"])
                [1; 0; 1]%nat)).
    simpl. lia.
  - vm_compute. reflexivity.
Defined.

(** ** The dialogs and the workers *)

(** X20.  The hyperparameters that the dialog of the threshold test
    returns for spin boxes within their ranges, with the end of the
    descending staircase set to 0 or 1, are safe for the worker as soon as
    the last motor of the range is a motor of the box: with an open port
    the worker never dies with an exception and leaves every motor off, and
    every value it hands to the port is a byte between 0 and
    max(40, sb_end_pwm_up - 1), at most 254, which the conversion to uint8
    of the port leaves as it is.  (The spin box of that end goes up to 255
    and [get_hyps] takes its negation: a larger value lets the staircase
    descend below 0, as the example after the theorem shows.) *)
Theorem threshold_dialog_safe (h : Config.hyps) (s : MOLsHyperparamsDialog.spins)
    (w : Thread.world string) :
  let h' := MOLsHyperparamsDialog.get_hyps h s in
  MOLsHyperparamsDialog.in_range s →
  MOLsHyperparamsDialog.sb_end_pwm_down s ≤ 1 →
  MOLsHyperparamsDialog.sb_num_motor_end s < Config.n_motors h →
  Thread.port_ok h w →
  Thread.pwm (Thread.vibro w) = Thread.zeros (Config.n_motors h) →
  (∀ e w', MolsWorker.run h' w ≠ Thread.Raised e w')
  ∧ Thread.pwm (Thread.vibro (Thread.final (MolsWorker.run h' w)))
    = Thread.zeros (Config.n_motors h)
  ∧ ∃ evs, Thread.log (Thread.final (MolsWorker.run h' w)) = Thread.log w ++ evs
      ∧ ∀ arr, Thread.Written arr ∈ evs →
          Z.of_nat (length arr) = Config.n_motors h
          ∧ Forall (λ v, 0 ≤ v ≤ 254
                         ∧ v ≤ Z.max 40 (MOLsHyperparamsDialog.sb_end_pwm_up s - 1)) arr.
Proof.
  intros h' (Hstart & Hend & Hstep & Hexps & Hdown & Hddown & Hup & Hdup) Hlow Hlast
    (Hser & Hn & Hn0) Hpwm.
  destruct (MolsSafety.mols_run_safe h') with (w := w) as [(evs & Hlog & Hevs) Hout].
  - done.
  - simpl. lia.
  - simpl. lia.
  - simpl. lia.
  - simpl. lia.
  - simpl. lia.
  - done.
  - split; [|split].
    + intros e w' Heq. by rewrite Heq in Hout.
    + destruct (MolsWorker.run h' w) as [r w'|e w'|w']; simpl; [|done|];
        by destruct Hout.
    + exists evs. split; [done|]. intros arr Hin.
      destruct (proj1 (Forall_forall _ _) Hevs _ Hin arr eq_refl) as [Hlen Harr].
      split; [done|].
      eapply Forall_impl; [exact Harr|]. intros v.
      unfold Safety.lowest, Safety.highest. simpl. lia.
Qed.

Lemma threshold_dialog_safe_witness :
  let s := {| MOLsHyperparamsDialog.sb_num_motor_start := 0;
              MOLsHyperparamsDialog.sb_num_motor_end := 5;
              MOLsHyperparamsDialog.sb_use_motors_step := 2;
              MOLsHyperparamsDialog.sb_exps_each := 3;
              MOLsHyperparamsDialog.sb_end_pwm_down := 0;
              MOLsHyperparamsDialog.sb_delta_pwm_down := 5;
              MOLsHyperparamsDialog.sb_end_pwm_up := 30;
              MOLsHyperparamsDialog.sb_delta_pwm_up := 2 |} in
  let h' := MOLsHyperparamsDialog.get_hyps (Config.default_hyps "anon") s in
  let w := MolsWorker.fresh Sample.box [[]; [Thread.Stop]] [1; 0; 1]%nat in
  (∀ e w', MolsWorker.run h' w ≠ Thread.Raised e w')
  ∧ Thread.pwm (Thread.vibro (Thread.final (MolsWorker.run h' w))) = Thread.zeros 10
  ∧ ∃ evs, Thread.log (Thread.final (MolsWorker.run h' w)) = Thread.log w ++ evs
      ∧ ∀ arr, Thread.Written arr ∈ evs →
          Z.of_nat (length arr) = 10
          ∧ Forall (λ v, 0 ≤ v ≤ 254 ∧ v ≤ Z.max 40 (30 - 1)) arr.
Proof.
  intros s h' w.
  apply (threshold_dialog_safe (Config.default_hyps "anon") s w).
  - unfold MOLsHyperparamsDialog.in_range. simpl. lia.
  - simpl. lia.
  - simpl. lia.
  - repeat split; simpl; lia.
  - reflexivity.
Defined.

(** The bound on that spin box is needed: with the box at 3 and a patient
    who feels every stimulus of a descending pass, the pass goes on below 0
    and hands the intensity -2 to the port. *)
Example threshold_dialog_descends_below_zero :
  let s := {| MOLsHyperparamsDialog.sb_num_motor_start := 0;
              MOLsHyperparamsDialog.sb_num_motor_end := 5;
              MOLsHyperparamsDialog.sb_use_motors_step := 2;
              MOLsHyperparamsDialog.sb_exps_each := 3;
              MOLsHyperparamsDialog.sb_end_pwm_down := 3;
              MOLsHyperparamsDialog.sb_delta_pwm_down := 5;
              MOLsHyperparamsDialog.sb_end_pwm_up := 30;
              MOLsHyperparamsDialog.sb_delta_pwm_up := 2 |} in
  MOLsHyperparamsDialog.in_range s
  ∧ ∃ w, MolsWorker._downstream
           (MOLsHyperparamsDialog.get_hyps (Config.default_hyps "anon") s) 0
           (MolsWorker.fresh Sample.box
              (Thread.checked_answers (replicate 14 (0%nat, "y"))) [0]%nat)
         = Thread.Done 5 w
       ∧ Thread.log w !! 53%nat = Some (Thread.Written [-2; 0; 0; 0; 0; 0; 0; 0; 0; 0]).
Proof.
  intros s. split; [unfold MOLsHyperparamsDialog.in_range; simpl; lia|].
  eexists. split; [by vm_compute|]. reflexivity.
Qed.

(** X21.  Whatever the dialog of the spatial test returns (the mode
    "pairs", or another mode with one of the steps offered for the range;
    an intensity within the range 0..255 of its spin box) is safe for the
    worker: with an open port the worker never dies with an exception, it
    writes only all-zero arrays and arrays that drive one motor at the
    chosen intensity, and it leaves every motor off. *)
Theorem spatial_dialog_safe (h : Config.hyps) (sb_start sb_end : Z) (mode : string)
    (cb_step : option Z) (sb_samples sb_pwm : Z) (w : Thread.world (option Z)) :
  mode = "pairs"
  ∨ (∃ s, cb_step = Some s
          ∧ s ∈ SpatialHyperparamsDialog.items
                  (SpatialHyperparamsDialog.update_steps sb_start sb_end)) →
  0 ≤ sb_pwm ≤ 255 →
  Thread.port_ok h w →
  Thread.pwm (Thread.vibro w) = Thread.zeros (Config.n_motors h) →
  ∃ h', SpatialHyperparamsDialog.get_hyps h sb_start sb_end mode cb_step sb_samples sb_pwm
        = Some h'
    ∧ Config.spatial_mode h' = mode
    ∧ (∀ e w', SpatialWorker.run h' mode w ≠ Thread.Raised e w')
    ∧ Thread.pwm (Thread.vibro (Thread.final (SpatialWorker.run h' mode w)))
      = Thread.zeros (Config.n_motors h)
    ∧ ∃ evs, Thread.log (Thread.final (SpatialWorker.run h' mode w)) = Thread.log w ++ evs
        ∧ ∀ arr, Thread.Written arr ∈ evs →
            Forall (λ v, 0 ≤ v ≤ 255) arr
            ∧ (arr = Thread.zeros (Config.n_motors h)
               ∨ ∃ mot, 0 ≤ mot < Config.n_motors h
                        ∧ arr = <[Z.to_nat mot := sb_pwm]> (Thread.zeros (Config.n_motors h))).
Proof.
  intros Hmode Hbyte (Hser & Hn & Hn0) Hpwm.
  assert (∃ step, (if bool_decide (mode = "pairs") then Some 2 else cb_step) = Some step
                  ∧ step ≠ 0) as (step & Hstep & Hstep0).
  { case_bool_decide as Hm; [by exists 2|].
    destruct Hmode as [?|(s & -> & Hs)]; [done|]. exists s. split; [done|].
    unfold SpatialHyperparamsDialog.update_steps in Hs.
    cbn [SpatialHyperparamsDialog.items] in Hs.
    rewrite DialogFacts.allowed_steps_cases in Hs.
    intros ->. repeat case_match; simpl in Hs;
      repeat (apply elem_of_cons in Hs as [Hs|Hs]; [done|]); by apply elem_of_nil in Hs. }
  unfold SpatialHyperparamsDialog.get_hyps. rewrite Hstep. simpl.
  eexists. split; [done|]. split; [done|].
  match goal with |- context [SpatialWorker.run ?x mode w] => set (h' := x) end.
  destruct (SpatialSafety.spatial_run_safe h' mode Hn0 Hstep0 w)
    as [(evs & Hlog & Hevs) Hout]; [done|].
  split; [|split].
  - intros e w' Heq. by rewrite Heq in Hout.
  - destruct (SpatialWorker.run h' mode w) as [r w'|e w'|w']; simpl; [|done|];
      by destruct Hout.
  - exists evs. split; [done|]. intros arr Hin.
    destruct (proj1 (Forall_forall _ _) Hevs _ Hin) as [_ Harr].
    specialize (Harr arr eq_refl). split; [|exact Harr].
    assert (Forall (λ v, 0 ≤ v ≤ 255) (Thread.zeros (Config.n_motors h))) as Hzeros
      by (by apply Forall_replicate).
    destruct Harr as [->|(mot & _ & ->)]; [done|by apply Forall_insert].
Qed.

Lemma spatial_dialog_safe_witness :
  let w := SpatialWorker.fresh Sample.box [[]; [Thread.SetAnswer (Some 2)]] [3; 1]%nat in
  ∃ h', SpatialHyperparamsDialog.get_hyps Sample.four_regions 0 5 "single" (Some 3) 10 30
        = Some h'
    ∧ Config.spatial_mode h' = "single"
    ∧ (∀ e w', SpatialWorker.run h' "single" w ≠ Thread.Raised e w')
    ∧ Thread.pwm (Thread.vibro (Thread.final (SpatialWorker.run h' "single" w)))
      = Thread.zeros 10
    ∧ ∃ evs, Thread.log (Thread.final (SpatialWorker.run h' "single" w))
             = Thread.log w ++ evs
        ∧ ∀ arr, Thread.Written arr ∈ evs →
            Forall (λ v, 0 ≤ v ≤ 255) arr
            ∧ (arr = Thread.zeros 10
               ∨ ∃ mot, 0 ≤ mot < 10 ∧ arr = <[Z.to_nat mot := 30]> (Thread.zeros 10)).
Proof.
  intros w.
  apply (spatial_dialog_safe Sample.four_regions 0 5 "single" (Some 3) 10 30 w).
  - right. exists 3. split; [reflexivity|].
    apply list_elem_of_lookup. by exists 2%nat.
  - lia.
  - repeat split; simpl; lia.
  - reflexivity.
Defined.

(** ** A complete discrimination run and the bookkeeping of the main window *)

Module CalmFacts.
Import Thread ThreadFacts TripleFacts Design.

Section calm.
Context {A : Type}.

Lemma calm_bind {R S} (m : thread A R) (k : R → thread A S) (V : R → Prop) (V' : S → Prop) :
  calm m V → (∀ r, V r → calm (k r) V') → calm (m ≫= k) V'.
Proof.
  intros Hm Hk w. destruct (Hm w) as ((evs1 & Hlog1 & Hq1) & Hres1 & HV).
  rewrite bind_unfold. destruct (m w) as [r w1|e w1|w1]; simpl in *.
  - destruct (Hk r (HV r w1 eq_refl) w1) as ((evs2 & Hlog2 & Hq2) & Hres2 & HV2).
    split; [|split; [congruence|done]].
    exists (evs1 ++ evs2). rewrite Hlog2, Hlog1, app_assoc. split; [done|].
    by apply Forall_app.
  - split; [by exists evs1|]. split; [done|]. by intros.
  - split; [by exists evs1|]. split; [done|]. by intros.
Qed.

Lemma calm_emit (e : event) : quiet e → calm (emit (A:=A) e) (λ _, True).
Proof.
  intros He w. split; [|done]. exists [e]. split; [done|]. by apply Forall_singleton.
Qed.

Lemma calm_set_pwm_values (arr : list Z) : calm (set_pwm_values (A:=A) arr) (λ _, True).
Proof.
  intros w. unfold set_pwm_values, _write_array.
  case_bool_decide; [|split; [exists []; simpl; by rewrite app_nil_r|done]].
  destruct (ser (vibro w)); [|split; [exists []; simpl; by rewrite app_nil_r|done]].
  split; [|done]. exists [Written arr]. split; [done|]. by apply Forall_singleton.
Qed.

Lemma calm_reset : calm (reset_pwm_values (A:=A)) (λ _, True).
Proof. intros w. unfold reset_pwm_values. apply calm_set_pwm_values. Qed.

Lemma calm_blink (val : Z) : calm (blink (A:=A) val) (λ _, True).
Proof.
  unfold blink. eapply (calm_bind _ _ (λ _, True)).
  - intros w. split; [exists []; simpl; by rewrite app_nil_r|done].
  - intros n _. eapply calm_bind; [apply calm_set_pwm_values|]. intros ? _.
    apply calm_reset.
Qed.

Lemma calm_begin_end_indicator : calm (begin_end_indicator (A:=A)) (λ _, True).
Proof.
  unfold begin_end_indicator.
  eapply calm_bind; [by apply calm_emit|]. intros ? _.
  eapply calm_bind; [apply calm_blink|]. intros ? _. apply calm_blink.
Qed.

Lemma calm_clear_answer (a : A) : calm (clear_answer a) (λ _, True).
Proof. intros w. split; [exists []; simpl; by rewrite app_nil_r|done]. Qed.

Lemma poll_results (empty : A → bool) g (w : world A) :
  results (final (poll empty g w)) = results w.
Proof.
  revert w. induction g as [|b g IH]; intros w; cbn [poll]; cbv zeta.
  - by destruct (_ && _).
  - destruct (_ && _); [rewrite IH|cbn [final]]; by rewrite deliver_results.
Qed.

Lemma calm_wait_while (empty : A → bool) : calm (wait_while empty) (λ _, True).
Proof.
  intros w. unfold wait_while. split; [|split; [apply poll_results|done]].
  exists []. by rewrite app_nil_r, poll_log.
Qed.

Lemma calm_shuffle {T} (x : list T) : calm (shuffle (A:=A) x) (λ x', x' ≡ₚ x).
Proof.
  intros w. destruct (shuffle_spec x w) as (x' & rs & Hs & Hperm). rewrite Hs.
  split; [exists []; simpl; by rewrite app_nil_r|]. split; [done|].
  by intros r w' [= <- _].
Qed.

(** A calm step keeps a closed property, however it ends. *)
Lemma triple_calm {R} (φ out : world A → Prop) (m : thread A R) (V : R → Prop) :
  calm m V → closed φ → (∀ w, φ w → out w) →
  triple φ m (λ r w, V r ∧ φ w) (λ _ w, out w) out (λ _, True).
Proof.
  intros Hm Hφ Hout w Hw. destruct (Hm w) as ((evs & Hlog & Hq) & Hres & HV).
  split; [exists evs; split; [done|by apply Forall_true]|].
  assert (φ (final (m w))) as Hw' by (by eapply Hφ).
  destruct (m w) as [r w'|e w'|w']; simpl in *; eauto.
Qed.

End calm.
End CalmFacts.

Module BookkeepingFacts.
Import Thread ThreadFacts TripleFacts CalmFacts PMPWMWorker Design SafetyTactics.

Lemma quiet_no_result (evs : list event) : Forall quiet evs → no_result evs.
Proof.
  intros Hq r Hin. destruct (proj1 (Forall_forall _ _) Hq _ Hin) as [_ Hr].
  by destruct (Hr r).
Qed.

Lemma quiet_finished_motors (evs : list event) :
  Forall quiet evs → finished_motors evs = [].
Proof.
  unfold finished_motors. induction 1 as [|e evs [He _] Hq IH]; [done|].
  simpl. destruct e; try done. by destruct (He motor).
Qed.

Lemma no_result_app (evs evs' : list event) :
  no_result evs → no_result evs' → no_result (evs ++ evs').
Proof. intros H1 H2 r [?|?]%elem_of_app; [by eapply H1|by eapply H2]. Qed.

Lemma finished_motors_app (evs evs' : list event) :
  finished_motors (evs ++ evs') = finished_motors evs ++ finished_motors evs'.
Proof. apply omap_app. Qed.

Section run.
Variable h : Config.hyps.
Variable motors : list Z.
Variable l0 : list event.
Hypothesis Hnd : NoDup motors.

Local Abbreviation out := (ended h motors l0).
Local Abbreviation tr := (λ _ : event, True).
Local Abbreviation spec φ m := (triple φ m (λ _ w, out w) (λ _ w, out w) out tr).

Lemma between_closed (ds : list Z) : closed (between h l0 ds).
Proof.
  intros w w' evs' Hres Hlog Hq (evs & Hl & Hno & Hfin & Hc).
  exists (evs ++ evs'). rewrite Hlog, Hl, app_assoc, Hres.
  split; [done|]. split; [by apply no_result_app, quiet_no_result|].
  split; [|done]. by rewrite finished_motors_app, (quiet_finished_motors evs'), app_nil_r.
Qed.

Lemma during_closed (ds : list Z) (motor : Z) (consumed : list Z) :
  closed (during h l0 ds motor consumed).
Proof.
  intros w w' evs' Hres Hlog Hq (evs & Hl & Hno & Hfin & Hc).
  exists (evs ++ evs'). rewrite Hlog, Hl, app_assoc, Hres.
  split; [done|]. split; [by apply no_result_app, quiet_no_result|].
  split; [|done]. by rewrite finished_motors_app, (quiet_finished_motors evs'), app_nil_r.
Qed.

Lemma between_out (ds : list Z) (w : world (option Z)) : between h l0 ds w → out w.
Proof. intros (evs & Hl & Hno & _). left. by exists evs. Qed.

Lemma during_out (ds : list Z) (motor : Z) (consumed : list Z) (w : world (option Z)) :
  during h l0 ds motor consumed w → out w.
Proof. intros (evs & Hl & Hno & _). left. by exists evs. Qed.

(** The steps of the worker that the main window does not see. *)
Lemma calm_during {R} (ds : list Z) (motor : Z) (consumed : list Z)
    (m : thread (option Z) R) (V : R → Prop) :
  calm m V →
  triple (during h l0 ds motor consumed) m
    (λ r w, V r ∧ during h l0 ds motor consumed w) (λ _ w, out w) out tr.
Proof.
  intros Hm. apply triple_calm; [done|apply during_closed|apply during_out].
Qed.

Lemma calm_between {R} (ds : list Z) (m : thread (option Z) R) (V : R → Prop) :
  calm m V →
  triple (between h l0 ds) m (λ r w, V r ∧ between h l0 ds w) (λ _ w, out w) out tr.
Proof.
  intros Hm. apply triple_calm; [done|apply between_closed|apply between_out].
Qed.

Lemma motor_finished_book (ds : list Z) (motor : Z) (consumed : list Z) :
  consumed ≡ₚ presentations h →
  triple (during h l0 ds motor consumed) (emit (MotorFinished motor))
    (λ _ w, between h l0 (ds ++ [motor]) w) (λ _ w, out w) out tr.
Proof.
  intros Hperm w (evs & Hl & Hno & Hfin & Hrun).
  split; [exists [MotorFinished motor]; split; [done|by apply Forall_true]|].
  simpl. exists (evs ++ [MotorFinished motor]). rewrite Hl, app_assoc.
  split; [done|]. split.
  - apply no_result_app; [done|]. by intros r [=]%list_elem_of_singleton.
  - split; [by rewrite finished_motors_app, Hfin|].
    by eapply DesignFacts.running_complete.
Qed.

Lemma store_book (ds : list Z) (motor : Z) :
  motor ∉ ds →
  triple (between h l0 ds) (store motor [])
    (λ _ w, during h l0 ds motor [] w) (λ _ w, out w) out tr.
Proof.
  intros Hmotor w (evs & Hl & Hno & Hfin & Hc).
  split; [exists []; split; [by rewrite app_nil_r|done]|].
  simpl. exists evs. split; [done|]. split; [done|]. split; [done|].
  cbn [results set_results]. rewrite DesignFacts.set_fresh by (by rewrite (proj1 Hc)).
  by exists (results w), [].
Qed.

Lemma append_book (ds : list Z) (motor : Z) (consumed : list Z) (p a : Z) :
  motor ∉ ds →
  triple (during h l0 ds motor consumed) (append motor (level_of h p, a))
    (λ _ w, during h l0 ds motor (consumed ++ [p]) w) (λ _ w, out w) out tr.
Proof.
  intros Hmotor w (evs & Hl & Hno & Hfin & res0 & trials & Hres & Hc & Htrials).
  assert (motor ∉ res0.*1) as Hfresh by (by rewrite (proj1 Hc)).
  unfold append. rewrite Hres, DesignFacts.get_last by done.
  split; [exists []; split; [by rewrite app_nil_r|done]|].
  simpl. exists evs. split; [done|]. split; [done|]. split; [done|].
  cbn [results set_results]. rewrite Hres, DesignFacts.set_last by done.
  exists res0, (trials ++ [(level_of h p, a)]). split; [done|]. split; [done|].
  by rewrite !fmap_app, Htrials.
Qed.

Lemma summarise_book : spec (between h l0 motors) (summarise h motors).
Proof.
  intros w Hw. pose proof Hw as (evs & Hl & Hno & Hfin & Hc). unfold summarise.
  destruct (confusion_matrix _ _) as [cm|];
    [|split; [exists []; split; [by rewrite app_nil_r|done]|by eapply between_out]].
  case_bool_decide;
    [split; [exists []; split; [by rewrite app_nil_r|done]|by eapply between_out]|].
  split; [eexists [_]; split; [done|by apply Forall_true]|].
  simpl. right. eexists evs, _. rewrite Hl, <- app_assoc. split; [done|].
  split; [done|]. split; [done|]. split; [exact Hc|]. by split.
Qed.

(** The worker ends while it tests a motor. *)
Ltac ends_during :=
  let w := fresh "w" in
  let H := fresh "H" in
  intros w H; cbv beta in *;
  repeat match goal with H : _ ∧ _ |- _ => destruct H end;
  by eapply during_out.

Lemma step_loop_book (ds : list Z) (motor : Z) (next : thread (option Z) unit) :
  motor ∉ ds → spec (between h l0 (ds ++ [motor])) next →
  ∀ seq consumed step_local, consumed ++ seq ≡ₚ presentations h →
    spec (during h l0 ds motor consumed) (step_loop h motor seq step_local next).
Proof.
  intros Hmotor Hnext. induction seq as [|p seq IH]; intros consumed step_local Hperm;
    cbn [step_loop].
  - rewrite app_nil_r in Hperm.
    eapply triple_bind; [by apply motor_finished_book|]. intros ?. apply Hnext.
  - tbind (apply calm_during, calm_emit; by split).
    tread (apply triple_read) as n.
    destruct (Py.setitem (zeros n) motor p) as [arr|].
    2: { apply triple_raise. ends_during. }
    tbind (apply calm_during, calm_set_pwm_values).
    tbind (apply calm_during, calm_reset).
    tbind (apply calm_during, calm_clear_answer).
    tbind (apply calm_during, calm_emit; by split).
    tbind (apply calm_during, calm_wait_while).
    tread (apply triple_stop_flag) as s.
    destruct s.
    { eapply triple_conseq; [| |apply (calm_during ds motor consumed), calm_reset].
      - solve_pre.
      - intros ?. ends_during. }
    tread (apply triple_answer) as a.
    destruct (true_level (Config.pmpwm_pwm_values h) p) as [lvl|] eqn:Hlvl.
    2: { apply triple_raise. ends_during. }
    destruct a as [a|].
    2: { apply triple_raise. ends_during. }
    assert (lvl = level_of h p) as -> by (unfold level_of; by rewrite Hlvl).
    tbind (by apply append_book).
    tapply ltac:(apply (IH (consumed ++ [p])); by rewrite <- app_assoc).
Qed.

Lemma motor_loop_book (ms : list Z) :
  ∀ ds, ds ++ ms = motors → spec (between h l0 ds) (motor_loop h motors ms).
Proof.
  induction ms as [|motor ms IH]; intros ds Hsplit; cbn [motor_loop].
  - rewrite app_nil_r in Hsplit. subst ds.
    tbind (apply calm_between, calm_begin_end_indicator).
    tapply ltac:(apply summarise_book).
  - assert (motor ∉ ds) as Hmotor.
    { rewrite <- Hsplit in Hnd. apply NoDup_app in Hnd as (_ & Hds & _).
      intros Hin. apply (Hds motor Hin). by left. }
    tbind (apply calm_between, calm_shuffle) as seq.
    tpure (seq ≡ₚ presentations h) as Hperm.
    tbind (by apply store_book).
    tapply ltac:(apply (step_loop_book ds motor _ Hmotor) with (consumed := []);
                   [apply (IH (ds ++ [motor])); by rewrite <- app_assoc|done]).
Qed.

(** However a fresh worker ends, it has emitted no result, or its result
    is the last event and all motors are done. *)
Lemma run_ended (w : world (option Z)) :
  log w = l0 → results w = [] → out (final (run h motors w)).
Proof.
  intros Hl Hres.
  destruct (motor_loop_book motors [] eq_refl w) as [_ Hout].
  { exists []. rewrite app_nil_r, Hres. split; [done|].
    split; [by intros r ?%elem_of_nil|]. split; [done|]. by split. }
  unfold run. by destruct (motor_loop h motors motors w).
Qed.

End run.

(** *** The slots of the main window *)

Import MainWindow.

Lemma slots_motors (res : list (Z * list (Z * Z))) (evs : list event) :
  no_result evs →
  ∀ st, foldl (slot res) st evs
        = foldl (λ st m, _on_motor_done m res st) st (finished_motors evs).
Proof.
  induction evs as [|e evs IH]; intros Hno st; [done|].
  assert (no_result evs) as Hno' by (intros r Hin; apply (Hno r); by right).
  destruct e; simpl; try (by apply IH).
  destruct (Hno result). by left.
Qed.

Lemma motors_done (res : list (Z * list (Z * Z))) (ms : list Z) :
  ∀ st, let st' := foldl (λ st m, _on_motor_done m res st) st ms in
    hyps st' = hyps st ∧ motors_all st' = motors_all st
    ∧ _pending_queue st' = _pending_queue st ∧ worker st' = worker st
    ∧ motors_completed st' = list_to_set ms ∪ motors_completed st
    ∧ results_pmpwm st' = foldl (copied res) (results_pmpwm st) ms.
Proof.
  induction ms as [|m ms IH]; intros st; simpl.
  - rewrite (left_id_L ∅ (∪)). done.
  - destruct (IH (_on_motor_done m res st)) as (-> & -> & -> & -> & -> & ->). simpl.
    repeat split. apply set_eq. intros x.
    rewrite !elem_of_union, elem_of_singleton. tauto.
Qed.

Lemma get_entry {V} (d : list (Z * V)) (k : Z) (v : V) :
  NoDup d.*1 → (k, v) ∈ d → Dict.get d k = Some v.
Proof.
  induction d as [|[k' v'] d IH]; [by intros _ ?%elem_of_nil|].
  rewrite fmap_cons. intros [Hk' Hnd]%NoDup_cons [[= -> ->]|Hin]%elem_of_cons; simpl.
  - by rewrite Z.eqb_refl.
  - destruct (Z.eqb_spec k' k) as [->|_]; [|by apply IH].
    destruct Hk'. by apply (list_elem_of_fmap_2 fst _ (k, v)).
Qed.

(** Copying the Trials of every motor that the worker holds gives the
    dictionary of the worker. *)
Lemma copied_entries (res l : list (Z * list (Z * Z))) :
  NoDup l.*1 → (∀ k t, (k, t) ∈ l → Dict.get res k = Some t) →
  ∀ d, (∀ k, k ∈ l.*1 → k ∉ d.*1) → foldl (copied res) d l.*1 = d ++ l.
Proof.
  induction l as [|[k t] l IH]; intros Hnd Hget d Hd; simpl; [by rewrite app_nil_r|].
  rewrite fmap_cons in Hnd. apply NoDup_cons in Hnd as [Hk Hnd].
  unfold copied at 2. rewrite (Hget k t) by (by left).
  rewrite DesignFacts.set_fresh by (apply Hd; by left).
  rewrite IH; [by rewrite <- app_assoc|done| |].
  - intros k' t' Hin. apply Hget. by right.
  - intros k' Hin. rewrite fmap_app. apply not_elem_of_app. split.
    + apply Hd. by right.
    + simpl. intros ->%list_elem_of_singleton. done.
Qed.

End BookkeepingFacts.

(** X22.  The discrimination test from its start to the result of the
    first worker.  When the worker that [_start_pmpwm_after_delay]
    launches on the motors of the range emits [finished], that signal is
    its last event and [motorFinished] went out before it for every
    motor, once, in the order of the range; the main window then holds
    every motor as completed (the condition of its "finish" button), its
    dictionary of Trials is the one of the worker, with the motors of the
    range as keys in their order and a full set of Trials for each, the
    Trials of the emitted result are those of the dictionary, and no
    further worker is launched. *)
Theorem complete_run_bookkeeping (h : Config.hyps) (st : MainWindow.state)
    (box : Thread.VibroBox) (g : list (list (Thread.gui_call (option Z)))) (r : list nat) :
  MainWindow._start_pmpwm_after_delay h = Some st →
  let w0 := PMPWMWorker.fresh box g r in
  let w := Thread.final (PMPWMWorker.run h (MainWindow.motors_all st) w0) in
  let st' := MainWindow.after_worker st w0 in
  ∀ res, Thread.PmpwmFinished res ∈ Thread.log w →
    last (Thread.log w) = Some (Thread.PmpwmFinished res)
    ∧ Design.finished_motors (Thread.log w) = MainWindow.motors_all st
    ∧ MainWindow.motors_completed st' = list_to_set (MainWindow.motors_all st)
    ∧ MainWindow.results_pmpwm st' = Thread.results w
    ∧ (MainWindow.results_pmpwm st').*1 = MainWindow.motors_all st
    ∧ Forall (λ kv, kv.2.*1 ≡ₚ Design.levels h) (MainWindow.results_pmpwm st')
    ∧ concat (Dict.values (MainWindow.results_pmpwm st')) = Thread.res_answers res
    ∧ MainWindow.worker st' = Some (MainWindow.motors_all st)
    ∧ MainWindow._pending_queue st' = [].
Proof.
  unfold MainWindow._start_pmpwm_after_delay.
  destruct (Py.range3 _ _ _) as [motors|] eqn:Hmotors; [|done]. simpl.
  intros [= <-]. cbn [MainWindow.motors_all MainWindow._launch_pmpwm_worker].
  intros res Hin.
  assert (NoDup motors) as Hnd by (by eapply PyFacts.range3_NoDup).
  unfold MainWindow.after_worker.
  cbn [MainWindow.worker MainWindow.hyps MainWindow._launch_pmpwm_worker].
  set (w := Thread.final (PMPWMWorker.run h motors (PMPWMWorker.fresh box g r))) in *.
  destruct (BookkeepingFacts.run_ended h motors [] Hnd (PMPWMWorker.fresh box g r)
              eq_refl eq_refl) as [(evs & Hlog & Hno)|Hdone].
  { fold w in Hlog. simpl in Hlog. rewrite Hlog in Hin. by destruct (Hno res). }
  fold w in Hdone.
  destruct Hdone as (evs & res' & Hlog & Hno & Hfin & [Hkeys Hfull] & Hans & Hms).
  simpl in Hlog.
  assert (res' = res) as ->.
  { rewrite Hlog in Hin. apply elem_of_app in Hin as [Hin|Hin]; [by destruct (Hno res)|].
    apply list_elem_of_singleton in Hin. congruence. }
  rewrite Hlog, foldl_app, (BookkeepingFacts.slots_motors _ _ Hno), Hfin. simpl.
  match goal with
  | |- context [foldl _ ?s motors] =>
      destruct (BookkeepingFacts.motors_done (Thread.results w) motors s)
        as (H1 & H2 & H3 & H4 & H5 & H6)
  end.
  cbv zeta in H1, H2, H3, H4, H5, H6. simpl in H3, H4, H5, H6.
  assert (foldl (Design.copied (Thread.results w)) [] motors = Thread.results w) as Hcopy.
  { rewrite <- Hkeys.
    rewrite (BookkeepingFacts.copied_entries (Thread.results w) (Thread.results w));
      [done|by rewrite Hkeys| |by intros k _ ?%elem_of_nil].
    intros k t. apply BookkeepingFacts.get_entry. by rewrite Hkeys. }
  unfold MainWindow._on_partial_finished. rewrite H3, H4, H5, H6, Hcopy.
  split; [by rewrite last_snoc|].
  split.
  { by rewrite BookkeepingFacts.finished_motors_app, Hfin, app_nil_r. }
  split; [by rewrite (right_id_L ∅ (∪))|].
  by repeat split.
Qed.

Lemma complete_run_bookkeeping_witness :
  let h := Sample.four_regions in
  let st := {| MainWindow.hyps := Sample.four_regions;
               MainWindow.motors_all := [0; 1; 2; 3];
               MainWindow.motors_completed := ∅;
               MainWindow.results_pmpwm := [];
               MainWindow._pending_queue := [];
               MainWindow.worker := Some [0; 1; 2; 3] |} in
  let box := Sample.box in
  let g := replicate 20 [Thread.SetAnswer (Some 1)] in
  let r := @nil nat in
  MainWindow._start_pmpwm_after_delay h = Some st
  ∧ (let w0 := PMPWMWorker.fresh box g r in
     let w := Thread.final (PMPWMWorker.run h (MainWindow.motors_all st) w0) in
     let st' := MainWindow.after_worker st w0 in
     ∀ res, Thread.PmpwmFinished res ∈ Thread.log w →
       last (Thread.log w) = Some (Thread.PmpwmFinished res)
       ∧ Design.finished_motors (Thread.log w) = MainWindow.motors_all st
       ∧ MainWindow.motors_completed st' = list_to_set (MainWindow.motors_all st)
       ∧ MainWindow.results_pmpwm st' = Thread.results w
       ∧ (MainWindow.results_pmpwm st').*1 = MainWindow.motors_all st
       ∧ Forall (λ kv, kv.2.*1 ≡ₚ Design.levels h) (MainWindow.results_pmpwm st')
       ∧ concat (Dict.values (MainWindow.results_pmpwm st')) = Thread.res_answers res
       ∧ MainWindow.worker st' = Some (MainWindow.motors_all st)
       ∧ MainWindow._pending_queue st' = [])
  ∧ (last (Thread.log (Thread.final
             (PMPWMWorker.run Sample.four_regions [0; 1; 2; 3]
                (PMPWMWorker.fresh Sample.box
                   (replicate 20 [Thread.SetAnswer (Some 1)]) []))))
       ≫= λ e, match e with
               | Thread.PmpwmFinished res => Some (Thread.res_motors res)
               | _ => None
               end) = Some [0; 1; 2; 3].
Proof.
  intros h st box g r. split; [reflexivity|].
  split; [exact (complete_run_bookkeeping h st box g r eq_refl)|].
  vm_compute. reflexivity.
Defined.
